(** * WeddHelp: the seating optimiser ([seatingAlgorithm.ts])

    A shallow embedding of [optimizeSeating] and [groupGuestsByRelationship]
    (the current revision of the file, the one that weighs guests by
    [amount]) together with the properties of the seating heuristic.

    Conventions of the embedding.
    - JavaScript numbers are integers here ([Z]), which is what the sums
      of the source compute as long as they stay within 2^53
      ([exactSizes]); strings are Rocq strings (bytes), and [trim] and
      [toLowerCase] are those of the source on ASCII text ([asciiIds],
      [asciiGroupIds], [asciiNames]).  A statement that depends on either
      carries the condition.
    - A JavaScript object used as a dictionary whose key order is observed
      ([groups], [tableAssignments]) is an insertion-ordered association
      list; [Object.entries] lists array-index keys first, in ascending
      order, and the other keys in insertion order.
    - [groups] is read before it is written, so a key that names a
      property inherited from [Object.prototype] finds that property: the
      call of [push] throws a [TypeError], grouping returns an error and
      the promise of [optimizeSeating] is rejected.  The functions
      [pushed], [collected], [grouped] and [seatingResult] are the run on
      guests whose keys are [groups]' own ([ownGroupKeys]); they are proved
      to be what [groupsPush], [collectGroups], [groupGuestsByRelationship]
      and [optimizeSeating] return there.  The other dictionaries are
      written before they are read; the guest id [__proto__], which an
      assignment to [finalAssignment] would not store, is assumed absent.
    - Table ids are the strings [table-<n>]; the working state keeps the
      counter value [n] and [optimizeSeating] renders it.
    - [onProgress] is an observer of the run and is left out; so are the
      write-only [assignment] object that the final remapping supersedes
      and the parameter [_tables], which the function never reads.
    - The program is embedded twice.  The first embedding passes lists of
      guests by value; the second ([Refs]) passes references into a store
      of objects and arrays and writes where the source writes.  The
      properties of the heuristic are proved on the first, the frame
      property on the second, and the two are proved to agree.
    - Around the optimiser the file embeds what calls it and what its
      result goes to: the seating store ([seatingStore.ts]), the handler of
      the optimise button ([StatusBar.tsx]), the readers of a sheet's
      cells ([columnMapper.ts]) and what a table shows of its guests
      ([TablesGrid.tsx], [TableCard], [RectangularTable.tsx],
      [GuestSeat.tsx], [Dashboard.tsx]).
    - The revision of [optimizeSeating] before the current one, which
      counts guests instead of seats, is embedded in [Legacy]. *)

From stdpp Require Import gmap strings list sorting pretty.
From Stdlib Require Import ZArith Lia Ascii.

Local Open Scope Z_scope.

(** ** Data model ([types/guest.ts]) *)

Inductive GuestCategory := family | friend | colleague | other.
Inductive GuestSide := groom | bride | both.

#[global] Instance GuestCategory_eq_dec : EqDecision GuestCategory.
Proof. solve_decision. Defined.
#[global] Instance GuestSide_eq_dec : EqDecision GuestSide.
Proof. solve_decision. Defined.

Module Guest.
Record t := mk {
  id : string;
  name : string;
  category : GuestCategory;
  side : GuestSide;
  groupId : option string;
  tableId : option string;
  amount : option Z
}.
End Guest.

#[global] Instance Guest_eq_dec : EqDecision Guest.t.
Proof. solve_decision. Defined.

Module GuestGroup.
Record t := mk {
  groupId : string;
  guests : list Guest.t;
  size : Z;
  dominantSide : GuestSide;
  dominantCategory : GuestCategory;
  isRequestedForKnight : bool
}.
End GuestGroup.

(** ** Strings *)

Fixpoint trimStart (s : string) : string :=
  match s with
  | String c s' => if strings.Ascii.is_space c then trimStart s' else s
  | EmptyString => EmptyString
  end.

Definition trim (s : string) : string :=
  String.rev (trimStart (String.rev (trimStart s))).

Definition lowerChar (c : ascii) : ascii :=
  let n := N_of_ascii c in
  if ((65 <=? n) && (n <=? 90))%N then ascii_of_N (n + 32) else c.

Fixpoint toLowerCase (s : string) : string :=
  match s with
  | String c s' => String (lowerChar c) (toLowerCase s')
  | EmptyString => EmptyString
  end.

Definition normalize (s : string) : string := toLowerCase (trim s).

(** ** Arrays: [sort], [findIndex] + [splice] *)

(** [Array.prototype.sort] with a numeric comparator: stable. *)
Section Sort.
Context {A : Type} (cmp : A → A → Z).

Fixpoint sortInsert (x : A) (l : list A) : list A :=
  match l with
  | [] => [x]
  | y :: l' => if 0 <? cmp x y then y :: sortInsert x l' else x :: l
  end.

Fixpoint jsSort (l : list A) : list A :=
  match l with
  | [] => []
  | x :: l' => sortInsert x (jsSort l')
  end.
End Sort.

(** ** Objects as ordered dictionaries *)

Section Dict.
Context {K : Type} `{EqDecision K} {V : Type}.

Fixpoint dictGet (k : K) (d : list (K * V)) : option V :=
  match d with
  | [] => None
  | (k', v) :: d' => if decide (k = k') then Some v else dictGet k d'
  end.

(** [d[k] = v]: an existing key keeps its place, a new one goes last. *)
Fixpoint dictSet (k : K) (v : V) (d : list (K * V)) : list (K * V) :=
  match d with
  | [] => [(k, v)]
  | (k', v') :: d' =>
      if decide (k = k') then (k, v) :: d' else (k', v') :: dictSet k v d'
  end.

(** In-place mutation of the object stored under [k]. *)
Fixpoint dictAlter (f : V → V) (k : K) (d : list (K * V)) : list (K * V) :=
  match d with
  | [] => []
  | (k', v') :: d' =>
      if decide (k = k') then (k', f v') :: d' else (k', v') :: dictAlter f k d'
  end.

(** [delete d[k]] *)
Fixpoint dictDelete (k : K) (d : list (K * V)) : list (K * V) :=
  match d with
  | [] => []
  | (k', v') :: d' =>
      if decide (k = k') then d' else (k', v') :: dictDelete k d'
  end.
End Dict.

Fixpoint parseDigits (acc : N) (s : string) : option N :=
  match s with
  | EmptyString => Some acc
  | String c s' =>
      match strings.Ascii.is_nat c with
      | Some d => parseDigits (10 * acc + N.of_nat d)%N s'
      | None => None
      end
  end.

(** The keys an object enumerates first: canonical array indices. *)
Definition arrayIndex (s : string) : option N :=
  match s with
  | EmptyString => None
  | String "0"%char EmptyString => Some 0%N
  | String "0"%char _ => None
  | _ =>
      match parseDigits 0 s with
      | Some n => if (n <=? 4294967294)%N then Some n else None
      | None => None
      end
  end.

Definition indexKey {V} (e : string * V) : Z :=
  match arrayIndex e.1 with Some n => Z.of_N n | None => 0 end.

Definition objectEntries {V} (d : list (string * V)) : list (string * V) :=
  jsSort (λ a b, indexKey a - indexKey b)
         (filter (λ e, is_Some (arrayIndex e.1)) d)
  ++ filter (λ e, ¬ is_Some (arrayIndex e.1)) d.

(** ** Grouping ([groupGuestsByRelationship]) *)

(** [groups] after [if (!groups[key]) groups[key] = []; groups[key].push(guest)]
    for a [key] that the object does not inherit: the array is made on
    first use. *)
Definition pushed (key : string) (g : Guest.t)
    (groups : list (string * list Guest.t)) : list (string * list Guest.t) :=
  match dictGet key groups with
  | Some gs => dictSet key (gs ++ [g]) groups
  | None => dictSet key [g] groups
  end.

(** [if (guest.groupId)]: a missing or empty group id is falsy. *)
Definition groupKey (g : Guest.t) : option string :=
  match Guest.groupId g with
  | Some s => if decide (s = ""%string) then None else Some (trim s)
  | None => None
  end.

(** [groups] and [ungrouped] after the first [forEach], when no push
    throws. *)
Definition collected (guests : list Guest.t)
    : list (string * list Guest.t) * list Guest.t :=
  foldl (λ acc guest,
           match groupKey guest with
           | Some key => (pushed key guest acc.1, acc.2)
           | None => (acc.1, acc.2 ++ [guest])
           end) ([], []) guests.

Definition individualKey (g : Guest.t) : string :=
  ("individual-" +:+ Guest.id g)%string.

Definition addIndividuals (ungrouped : list Guest.t)
    (groups : list (string * list Guest.t)) : list (string * list Guest.t) :=
  foldl (λ acc guest, dictSet (individualKey guest) [guest] acc) groups ungrouped.

(** [Object.entries(groups).map(...)] *)
Definition groupsOf (groups : list (string * list Guest.t)) : list GuestGroup.t :=
  (λ e, GuestGroup.mk e.1 e.2 (Z.of_nat (length e.2)) both other false)
    <$> objectEntries groups.

(** The groups [groupGuestsByRelationship] returns, when no push throws. *)
Definition grouped (guests : list Guest.t) : list GuestGroup.t :=
  let '(groups, ungrouped) := collected guests in
  groupsOf (addIndividuals ungrouped groups).

(** What the run time throws; the source raises no error of its own. *)
Inductive JsError := TypeError.

(** The properties that the object literal [{}] inherits from
    [Object.prototype].  Under such a key [groups[key]] is the inherited
    function (for [__proto__] the prototype itself): it is truthy, so no
    array is stored, and it has no [push]. *)
Definition inheritedKeys : list string :=
  ["constructor"; "__proto__"; "hasOwnProperty"; "isPrototypeOf";
   "propertyIsEnumerable"; "toLocaleString"; "toString"; "valueOf";
   "__defineGetter__"; "__defineSetter__"; "__lookupGetter__";
   "__lookupSetter__"]%string.

(** [if (!groups[key]) groups[key] = []; groups[key].push(guest)]: the call
    of [push] throws under an inherited key. *)
Definition groupsPush (key : string) (g : Guest.t)
    (groups : list (string * list Guest.t)) : JsError + list (string * list Guest.t) :=
  if decide (key ∈ inheritedKeys) then inl TypeError else inr (pushed key g groups).

(** The first [forEach]: fills [groups] and [ungrouped]; a throw ends it. *)
Definition collectGroups (guests : list Guest.t)
    : JsError + (list (string * list Guest.t) * list Guest.t) :=
  foldl (λ acc guest,
           match acc with
           | inl error => inl error
           | inr (groups, ungrouped) =>
               match groupKey guest with
               | Some key =>
                   match groupsPush key guest groups with
                   | inl error => inl error
                   | inr groups' => inr (groups', ungrouped)
                   end
               | None => inr (groups, ungrouped ++ [guest])
               end
           end) (inr ([], [])) guests.

Definition groupGuestsByRelationship (guests : list Guest.t)
    : JsError + list GuestGroup.t :=
  match collectGroups guests with
  | inl error => inl error
  | inr (groups, ungrouped) => inr (groupsOf (addIndividuals ungrouped groups))
  end.

(** ** Classification (step 2 of [optimizeSeating]) *)

(** [g.amount || 1] *)
Definition gSize (g : Guest.t) : Z :=
  match Guest.amount g with
  | Some a => if a =? 0 then 1 else a
  | None => 1
  end.

Definition getGuestsSize (list : list Guest.t) : Z :=
  foldl (λ sum g, sum + gSize g) 0 list.

(** The tally of one key after the [forEach] over the members. *)
Definition sideCount (gs : list Guest.t) (s : GuestSide) : Z :=
  foldl (λ n g, if decide (Guest.side g = s) then n + gSize g else n) 0 gs.

Definition categoryCount (gs : list Guest.t) (c : GuestCategory) : Z :=
  foldl (λ n g, if decide (Guest.category g = c) then n + gSize g else n) 0 gs.

(** [Object.entries(counts)], in declaration order. *)
Definition sideCounts (gs : list Guest.t) : list (GuestSide * Z) :=
  (λ s, (s, sideCount gs s)) <$> [groom; bride; both].

Definition categoryCounts (gs : list Guest.t) : list (GuestCategory * Z) :=
  (λ c, (c, categoryCount gs c)) <$> [family; friend; colleague; other].

(** [entries.reduce((a, b) => a[1] > b[1] ? a : b)] on a non-empty array:
    the first entry seeds the accumulator. *)
Definition pickLeader {K} (a b : K * Z) : K * Z := if b.2 <? a.2 then a else b.

Definition reduceLeader {K} (first : K * Z) (rest : list (K * Z)) : K * Z :=
  foldl pickLeader first rest.

Definition dominantSide (gs : list Guest.t) : GuestSide :=
  (reduceLeader (groom, sideCount gs groom)
     ((λ s, (s, sideCount gs s)) <$> [bride; both])).1.

Definition dominantCategory (gs : list Guest.t) : GuestCategory :=
  (reduceLeader (family, categoryCount gs family)
     ((λ c, (c, categoryCount gs c)) <$> [friend; colleague; other])).1.

Definition classify (knightTargetGroups : list string) (group : GuestGroup.t)
    : GuestGroup.t :=
  GuestGroup.mk
    (GuestGroup.groupId group)
    (GuestGroup.guests group)
    (getGuestsSize (GuestGroup.guests group))
    (dominantSide (GuestGroup.guests group))
    (dominantCategory (GuestGroup.guests group))
    (bool_decide (normalize (GuestGroup.groupId group) ∈ knightTargetGroups)).

(** ** Working tables and configuration *)

Module WorkingTable.
(** An entry of [tableAssignments]; [None] stands for the empty string of
    a side or category not set yet. *)
Record t := mk {
  guests : list Guest.t;
  side : option GuestSide;
  category : option GuestCategory;
  capacity : Z;
  isKnight : bool
}.
End WorkingTable.

Module KnightConfig.
Record t := mk { enabled : bool; count : Z; capacity : Z }.
End KnightConfig.

Module OptimizationConfig.
Record t := mk {
  tableCapacity : option Z;
  knightConfig : option KnightConfig.t;
  knightGroupNames : option (list string)
}.
End OptimizationConfig.

Module OptimizedTable.
Record t := mk {
  id : string;
  capacity : Z;
  isKnight : bool;
  guests : list Guest.t;
  side : option GuestSide;
  category : option GuestCategory
}.
End OptimizedTable.

Module OptimizationResult.
Record t := mk {
  assignments : gmap string string;
  tables : list OptimizedTable.t
}.
End OptimizationResult.

(** [tableAssignments], keyed by the number [n] of [table-<n>]. *)
Abbreviation TableAssignments := (list (nat * WorkingTable.t)).

Definition occupancy (t : WorkingTable.t) : Z := getGuestsSize (WorkingTable.guests t).

Definition spaceOf (t : WorkingTable.t) : Z := WorkingTable.capacity t - occupancy t.

(** [for (const guest of chunk) table.guests.push(guest)] *)
Definition seat (chunk : list Guest.t) (t : WorkingTable.t) : WorkingTable.t :=
  WorkingTable.mk (WorkingTable.guests t ++ chunk) (WorkingTable.side t)
    (WorkingTable.category t) (WorkingTable.capacity t) (WorkingTable.isKnight t).

(** [if (table.guests.length === chunk.length) { side, category := dominants }] *)
Definition markFirst (group : GuestGroup.t) (chunk : list Guest.t)
    (t : WorkingTable.t) : WorkingTable.t :=
  if decide (length (WorkingTable.guests t) = length chunk)
  then WorkingTable.mk (WorkingTable.guests t)
         (Some (GuestGroup.dominantSide group))
         (Some (GuestGroup.dominantCategory group))
         (WorkingTable.capacity t) (WorkingTable.isKnight t)
  else t.

Definition newStandardTable (group : GuestGroup.t) (tableCapacity : Z) : WorkingTable.t :=
  WorkingTable.mk [] (Some (GuestGroup.dominantSide group))
    (Some (GuestGroup.dominantCategory group)) tableCapacity false.

Definition setCapacity (c : Z) (t : WorkingTable.t) : WorkingTable.t :=
  WorkingTable.mk (WorkingTable.guests t) (WorkingTable.side t)
    (WorkingTable.category t) c (WorkingTable.isKnight t).

(** ** Taking a chunk out of [guestsToSeat] *)

(** The scans only read a member's size ([amount || 1]) and its [id]; they
    are written once for any representation of a member, the guest itself
    here and a reference to it in [Refs] below. *)
Section Chunks.
Context {A : Type} (sizeOf : A → Z) (idOf : A → string).

(** The greedy scan: a member is taken when it still fits next to the
    members taken before it; the scan goes on after a member that does not. *)
Definition greedyFillBy (space : Z) (guestsToSeat : list A) : list A * Z :=
  foldl (λ acc g, if acc.2 + sizeOf g <=? space
                  then (acc.1 ++ [g], acc.2 + sizeOf g) else acc)
        ([], 0) guestsToSeat.

(** The scan followed by the "take them one by one" fallback. *)
Definition fitChunkBy (space : Z) (guestsToSeat : list A) : list A :=
  match (greedyFillBy space guestsToSeat).1, guestsToSeat with
  | [], g0 :: _ => if sizeOf g0 <=? space then [g0] else []
  | chunk, _ => chunk
  end.

(** [idx = list.findIndex(x => x.id === id); if (idx > -1) list.splice(idx, 1)] *)
Fixpoint spliceBy (id : string) (l : list A) : list A :=
  match l with
  | [] => []
  | x :: l' => if decide (idOf x = id) then l' else x :: spliceBy id l'
  end.

(** [chunk.forEach(g => ...splice...)] *)
Definition removeChunkBy (chunk guestsToSeat : list A) : list A :=
  foldl (λ acc g, spliceBy (idOf g) acc) guestsToSeat chunk.

(** [chunk.length === 0] *)
Definition isEmpty (chunk : list A) : bool :=
  match chunk with [] => true | _ :: _ => false end.

(** The scan that fills a new standard table: [(chunk, chunkSpace, capacity)].
    An oversized guest met while the chunk is empty widens the table. *)
Definition newTableFillBy (tableCapacity : Z) (guestsToSeat : list A)
    : list A * Z * Z :=
  foldl (λ acc g,
           let '(chunk, chunkSpace, capacity) := acc in
           let oversized := isEmpty chunk && (tableCapacity <? sizeOf g) in
           if (chunkSpace + sizeOf g <=? tableCapacity) || oversized
           then (chunk ++ [g], chunkSpace + sizeOf g,
                 if oversized then sizeOf g else capacity)
           else acc)
        ([], 0, tableCapacity) guestsToSeat.

(** The scan followed by the "force-pick first" safety check:
    [(chunk, capacity)]. *)
Definition newTableChunkBy (tableCapacity : Z) (guestsToSeat : list A)
    : list A * Z :=
  let '(chunk, _, capacity) := newTableFillBy tableCapacity guestsToSeat in
  match chunk, guestsToSeat with
  | [], g0 :: _ => ([g0], Z.max capacity (sizeOf g0))
  | _, _ => (chunk, capacity)
  end.
End Chunks.

Abbreviation greedyFill := (greedyFillBy gSize).
Abbreviation fitChunk := (fitChunkBy gSize).
Abbreviation spliceById := (spliceBy Guest.id).
Abbreviation removeChunk := (removeChunkBy Guest.id).
Abbreviation newTableFill := (newTableFillBy gSize).
Abbreviation newTableChunk := (newTableChunkBy gSize).

(** ** Phase A: knight tables *)

Definition knightTable (capacity : Z) : WorkingTable.t :=
  WorkingTable.mk [] None None capacity true.

(** [for (i = 0; i < count; i++) tableAssignments[`table-${tableCounter++}`] = ...] *)
Definition initKnightTables (count : nat) (capacity : Z) : TableAssignments :=
  foldl (λ ta i, dictSet i (knightTable capacity) ta) [] (seq 0 count).

(** Candidates and what is left in [processedGroups]. *)
Definition selectKnightCandidates (processedGroups : list GuestGroup.t)
    : list GuestGroup.t * list GuestGroup.t :=
  let knightCandidates := filter (λ g, GuestGroup.isRequestedForKnight g = true) processedGroups in
  if decide (length knightCandidates = 0%nat)
  then (filter (λ g, GuestGroup.dominantCategory g = friend) processedGroups,
        filter (λ g, GuestGroup.dominantCategory g ≠ friend) processedGroups)
  else (knightCandidates,
        filter (λ g, GuestGroup.isRequestedForKnight g ≠ true) processedGroups).

Definition bySizeDesc (a b : GuestGroup.t) : Z := GuestGroup.size b - GuestGroup.size a.

(** The knight table with the largest space: [(bestTableId, maxSpace)]. *)
Definition knightBest (count : nat) (ta : TableAssignments) : option nat * Z :=
  foldl (λ acc i,
           match dictGet i ta with
           | Some table =>
               let space := spaceOf table in
               if (0 <? space) && (acc.2 <? space) then (Some i, space) else acc
           | None => acc
           end)
        (None, -1) (seq 0 count).

(** [{...group, guests: guestsToSeat, size: getGuestsSize(guestsToSeat)}] *)
Definition leftoverGroup (group : GuestGroup.t) (guestsToSeat : list Guest.t) : GuestGroup.t :=
  GuestGroup.mk (GuestGroup.groupId group) guestsToSeat (getGuestsSize guestsToSeat)
    (GuestGroup.dominantSide group) (GuestGroup.dominantCategory group)
    (GuestGroup.isRequestedForKnight group).

(** The [while (guestsToSeat.length > 0)] loop of one candidate group; every
    turn that does not leave the loop removes a member, so [fuel] is the
    number of members at the start. *)
Fixpoint knightSeat (fuel : nat) (count : nat) (group : GuestGroup.t)
    (ta : TableAssignments) (processedGroups : list GuestGroup.t)
    (guestsToSeat : list Guest.t) : TableAssignments * list GuestGroup.t :=
  match fuel, guestsToSeat with
  | O, _ | _, [] => (ta, processedGroups)
  | S fuel', _ :: _ =>
      match knightBest count ta with
      | (Some bestTableId, maxSpace) =>
          if 0 <? maxSpace then
            match fitChunk maxSpace guestsToSeat with
            | [] => (ta, processedGroups)
            | (_ :: _) as chunk =>
                knightSeat fuel' count group
                  (dictAlter (λ t, markFirst group chunk (seat chunk t)) bestTableId ta)
                  processedGroups
                  (removeChunk chunk guestsToSeat)
            end
          else (ta, processedGroups ++ [leftoverGroup group guestsToSeat])
      | (None, _) => (ta, processedGroups ++ [leftoverGroup group guestsToSeat])
      end
  end.

Definition knightGroup (count : nat) (acc : TableAssignments * list GuestGroup.t)
    (group : GuestGroup.t) : TableAssignments * list GuestGroup.t :=
  knightSeat (length (GuestGroup.guests group)) count group acc.1 acc.2
             (GuestGroup.guests group).

(** How one turn of a [while (guestsToSeat.length > 0)] loop ends: by
    [break], or at the end of the body, with what is left of
    [guestsToSeat] for the loop condition. *)
Inductive Turn (State : Type) :=
  | Break (state : State)
  | Continue (state : State) (guestsToSeat : list Guest.t).
Arguments Break {_} _.
Arguments Continue {_} _ _.

(** The body of the knight loop. *)
Definition knightTurn (count : nat) (group : GuestGroup.t)
    (ta : TableAssignments) (processedGroups : list GuestGroup.t)
    (guestsToSeat : list Guest.t) : Turn (TableAssignments * list GuestGroup.t) :=
  match knightBest count ta with
  | (Some bestTableId, maxSpace) =>
      if 0 <? maxSpace then
        match fitChunk maxSpace guestsToSeat with
        | [] => Break (ta, processedGroups)
        | (_ :: _) as chunk =>
            Continue
              (dictAlter (λ t, markFirst group chunk (seat chunk t)) bestTableId ta,
               processedGroups)
              (removeChunk chunk guestsToSeat)
        end
      else Break (ta, processedGroups ++ [leftoverGroup group guestsToSeat])
  | (None, _) => Break (ta, processedGroups ++ [leftoverGroup group guestsToSeat])
  end.

(** The knight loop itself, without a bound on its turns. *)
Inductive knightLoop (count : nat) (group : GuestGroup.t)
  : TableAssignments → list GuestGroup.t → list Guest.t →
    TableAssignments * list GuestGroup.t → Prop :=
  | knightLoop_end ta processedGroups :
      knightLoop count group ta processedGroups [] (ta, processedGroups)
  | knightLoop_break ta processedGroups g guestsToSeat state :
      knightTurn count group ta processedGroups (g :: guestsToSeat) = Break state →
      knightLoop count group ta processedGroups (g :: guestsToSeat) state
  | knightLoop_continue ta processedGroups g guestsToSeat ta' processedGroups' rest state :
      knightTurn count group ta processedGroups (g :: guestsToSeat)
      = Continue (ta', processedGroups') rest →
      knightLoop count group ta' processedGroups' rest state →
      knightLoop count group ta processedGroups (g :: guestsToSeat) state.

(** The whole phase: [(tableAssignments, tableCounter, processedGroups)]. *)
Definition knightPhase (knightConfig : KnightConfig.t) (processedGroups : list GuestGroup.t)
    : TableAssignments * nat * list GuestGroup.t :=
  if KnightConfig.enabled knightConfig && (0 <? KnightConfig.count knightConfig) then
    let count := Z.to_nat (KnightConfig.count knightConfig) in
    let ta := initKnightTables count (KnightConfig.capacity knightConfig) in
    let '(knightCandidates, pool) := selectKnightCandidates processedGroups in
    let '(ta', pool') :=
      foldl (knightGroup count) (ta, pool) (jsSort bySizeDesc knightCandidates) in
    (ta', count, pool')
  else ([], 0%nat, processedGroups).

(** ** Phase B: standard tables *)

(** The entries behind [currentStandardTableIds]. *)
Definition standardTables (ta : TableAssignments) : TableAssignments :=
  filter (λ e, WorkingTable.isKnight e.2 = false) ta.

Definition isSideMatch (group : GuestGroup.t) (table : WorkingTable.t) : bool :=
  bool_decide (WorkingTable.side table = Some (GuestGroup.dominantSide group))
  || bool_decide (WorkingTable.side table = Some both)
  || bool_decide (length (WorkingTable.guests table) = 0%nat).

(** The tightest standard table that takes the whole group;
    [minRemainingSpace] starts at [Infinity], here [None]. *)
Definition bestFit (group : GuestGroup.t) (groupSize : Z) (ta : TableAssignments)
    : option nat :=
  (foldl (λ (acc : option nat * option Z) e,
            let space := spaceOf e.2 in
            if (groupSize <=? space) && isSideMatch group e.2 then
              match acc.2 with
              | Some minRemainingSpace =>
                  if space <? minRemainingSpace then (Some e.1, Some space) else acc
              | None => (Some e.1, Some space)
              end
            else acc)
         (None, None) (standardTables ta)).1.

Definition byOccupancyDesc (a b : nat * WorkingTable.t) : Z := occupancy b.2 - occupancy a.2.
Definition byOccupancyAsc (a b : nat * WorkingTable.t) : Z := occupancy a.2 - occupancy b.2.

(** The fullest side-compatible standard table with space left:
    [(bestPartialTableId, maxPartialSpace)]. *)
Definition bestPartial (group : GuestGroup.t) (ta : TableAssignments) : option (nat * Z) :=
  (λ e, (e.1, spaceOf e.2)) <$>
    head (filter (λ e, (0 <? spaceOf e.2) && isSideMatch group e.2 = true)
                 (jsSort byOccupancyDesc (standardTables ta))).

Module Seating.
(** The mutable locals shared by the seating loops. *)
Record t := mk { tableAssignments : TableAssignments; tableCounter : nat }.
End Seating.

(** Opening a table in the split branch and filling it from [guestsToSeat];
    returns the new state and the members still to seat, or [None] for the
    loop guard. *)
Definition splitIntoNewTable (tableCapacity : Z) (group : GuestGroup.t)
    (st : Seating.t) (guestsToSeat : list Guest.t) : Seating.t * option (list Guest.t) :=
  let newTableId := Seating.tableCounter st in
  let ta := dictSet newTableId (newStandardTable group tableCapacity)
                    (Seating.tableAssignments st) in
  let '(chunk, capacity) := newTableChunk tableCapacity guestsToSeat in
  match chunk with
  | _ :: _ =>
      (Seating.mk (dictAlter (λ t, seat chunk (setCapacity capacity t)) newTableId ta)
                  (S newTableId),
       Some (removeChunk chunk guestsToSeat))
  | [] => (Seating.mk (dictAlter (setCapacity capacity) newTableId ta) (S newTableId), None)
  end.

(** The existing table the split branch fills, with the chunk it takes;
    [None] when [bestPartialTableId] ends up [null]. *)
Definition partialTarget (group : GuestGroup.t) (ta : TableAssignments)
    (guestsToSeat : list Guest.t) : option (nat * list Guest.t) :=
  match bestPartial group ta with
  | Some (bestPartialTableId, maxPartialSpace) =>
      match fitChunk maxPartialSpace guestsToSeat with
      | (_ :: _) as chunk => Some (bestPartialTableId, chunk)
      | [] => None
      end
  | None => None
  end.

(** The [while (guestsToSeat.length > 0)] loop of one group. *)
Fixpoint standardSeat (fuel : nat) (tableCapacity : Z) (group : GuestGroup.t)
    (st : Seating.t) (guestsToSeat : list Guest.t) (groupSize : Z) : Seating.t :=
  match fuel, guestsToSeat with
  | O, _ | _, [] => st
  | S fuel', _ :: _ =>
      let ta := Seating.tableAssignments st in
      match bestFit group groupSize ta with
      | Some bestFitTableId =>
          Seating.mk
            (dictAlter (λ t, markFirst group guestsToSeat (seat guestsToSeat t))
                       bestFitTableId ta)
            (Seating.tableCounter st)
      | None =>
          if groupSize <=? tableCapacity then
            let newTableId := Seating.tableCounter st in
            Seating.mk
              (dictAlter (seat guestsToSeat) newTableId
                 (dictSet newTableId (newStandardTable group tableCapacity) ta))
              (S newTableId)
          else
            match partialTarget group ta guestsToSeat with
            | Some (bestPartialTableId, chunk) =>
                let rest := removeChunk chunk guestsToSeat in
                standardSeat fuel' tableCapacity group
                  (Seating.mk (dictAlter (seat chunk) bestPartialTableId ta)
                              (Seating.tableCounter st))
                  rest (getGuestsSize rest)
            | None =>
                match splitIntoNewTable tableCapacity group st guestsToSeat with
                | (st', Some rest) =>
                    standardSeat fuel' tableCapacity group st' rest (getGuestsSize rest)
                | (st', None) => st'
                end
            end
      end
  end.

Definition standardGroup (tableCapacity : Z) (st : Seating.t) (group : GuestGroup.t)
    : Seating.t :=
  standardSeat (length (GuestGroup.guests group)) tableCapacity group st
               (GuestGroup.guests group) (getGuestsSize (GuestGroup.guests group)).

(** The body of the standard loop. *)
Definition standardTurn (tableCapacity : Z) (group : GuestGroup.t)
    (st : Seating.t) (guestsToSeat : list Guest.t) (groupSize : Z) : Turn Seating.t :=
  let ta := Seating.tableAssignments st in
  match bestFit group groupSize ta with
  | Some bestFitTableId =>
      Continue
        (Seating.mk
           (dictAlter (λ t, markFirst group guestsToSeat (seat guestsToSeat t))
                      bestFitTableId ta)
           (Seating.tableCounter st))
        []
  | None =>
      if groupSize <=? tableCapacity then
        let newTableId := Seating.tableCounter st in
        Continue
          (Seating.mk
             (dictAlter (seat guestsToSeat) newTableId
                (dictSet newTableId (newStandardTable group tableCapacity) ta))
             (S newTableId))
          []
      else
        match partialTarget group ta guestsToSeat with
        | Some (bestPartialTableId, chunk) =>
            Continue
              (Seating.mk (dictAlter (seat chunk) bestPartialTableId ta)
                          (Seating.tableCounter st))
              (removeChunk chunk guestsToSeat)
        | None =>
            match splitIntoNewTable tableCapacity group st guestsToSeat with
            | (st', Some rest) => Continue st' rest
            | (st', None) => Break st'
            end
        end
  end.

(** The standard loop itself; [groupSize] is recomputed from what is left. *)
Inductive standardLoop (tableCapacity : Z) (group : GuestGroup.t)
  : Seating.t → list Guest.t → Z → Seating.t → Prop :=
  | standardLoop_end st groupSize :
      standardLoop tableCapacity group st [] groupSize st
  | standardLoop_break st g guestsToSeat groupSize st' :
      standardTurn tableCapacity group st (g :: guestsToSeat) groupSize = Break st' →
      standardLoop tableCapacity group st (g :: guestsToSeat) groupSize st'
  | standardLoop_continue st g guestsToSeat groupSize st' rest st'' :
      standardTurn tableCapacity group st (g :: guestsToSeat) groupSize
      = Continue st' rest →
      standardLoop tableCapacity group st' rest (getGuestsSize rest) st'' →
      standardLoop tableCapacity group st (g :: guestsToSeat) groupSize st''.

Definition standardPhase (tableCapacity : Z) (st : Seating.t)
    (processedGroups : list GuestGroup.t) : Seating.t :=
  foldl (standardGroup tableCapacity) st (jsSort bySizeDesc processedGroups).

(** ** Phase C: merging sparse tables *)

Definition standardTableIds (ta : TableAssignments) : list nat :=
  (jsSort byOccupancyAsc (standardTables ta)).*1.

(** The inner [for (j = i + 1; ...)] scan for a partner of table A. *)
Fixpoint findPartner (sizeA capacityA : Z) (ta : TableAssignments)
    (mergedTableIds : gset nat) (later : list nat) : option (nat * WorkingTable.t) :=
  match later with
  | [] => None
  | idB :: later' =>
      if decide (idB ∈ mergedTableIds)
      then findPartner sizeA capacityA ta mergedTableIds later'
      else
        match dictGet idB ta with
        | Some tableB =>
            if sizeA + occupancy tableB <=? capacityA then Some (idB, tableB)
            else findPartner sizeA capacityA ta mergedTableIds later'
        | None => findPartner sizeA capacityA ta mergedTableIds later'
        end
  end.

(** [tableA.guests = [...tableA.guests, ...tableB.guests]; tableA.side = 'both'] *)
Definition absorb (tableB : WorkingTable.t) (tableA : WorkingTable.t) : WorkingTable.t :=
  WorkingTable.mk (WorkingTable.guests tableA ++ WorkingTable.guests tableB)
    (Some both) (WorkingTable.category tableA) (WorkingTable.capacity tableA)
    (WorkingTable.isKnight tableA).

(** The outer [for (i = 0; ...)] loop over the sorted ids. *)
Fixpoint mergeSparse (ids : list nat) (ta : TableAssignments)
    (mergedTableIds : gset nat) : TableAssignments :=
  match ids with
  | [] => ta
  | idA :: later =>
      if decide (idA ∈ mergedTableIds) then mergeSparse later ta mergedTableIds
      else
        match dictGet idA ta with
        | Some tableA =>
            let sizeA := occupancy tableA in
            if WorkingTable.capacity tableA <=? sizeA
            then mergeSparse later ta mergedTableIds
            else
              match findPartner sizeA (WorkingTable.capacity tableA) ta mergedTableIds later with
              | Some (idB, tableB) =>
                  mergeSparse later
                    (dictDelete idB (dictAlter (absorb tableB) idA ta))
                    ({[idB]} ∪ mergedTableIds)
              | None => mergeSparse later ta mergedTableIds
              end
        | None => mergeSparse later ta mergedTableIds
        end
  end.

Definition consolidate (ta : TableAssignments) : TableAssignments :=
  mergeSparse (standardTableIds ta) ta ∅.

(** ** Result assembly and the entry point *)

Definition tableName (n : nat) : string := ("table-" +:+ pretty n)%string.

Definition resultTable (e : nat * WorkingTable.t) : OptimizedTable.t :=
  OptimizedTable.mk (tableName e.1) (WorkingTable.capacity e.2)
    (WorkingTable.isKnight e.2) (WorkingTable.guests e.2)
    (WorkingTable.side e.2) (WorkingTable.category e.2).

(** [table.guests.forEach(g => finalAssignment[g.id] = id)] over the tables. *)
Definition finalAssignment (tables : list OptimizedTable.t) : gmap string string :=
  foldl (λ m table,
           foldl (λ m' g, <[Guest.id g := OptimizedTable.id table]> m')
                 m (OptimizedTable.guests table))
        ∅ tables.

Definition defaultKnightConfig : KnightConfig.t := KnightConfig.mk false 0 20.

Definition tableCapacityOf (config : OptimizationConfig.t) : Z :=
  default 12 (OptimizationConfig.tableCapacity config).

Definition knightConfigOf (config : OptimizationConfig.t) : KnightConfig.t :=
  default defaultKnightConfig (OptimizationConfig.knightConfig config).

Definition knightTargetGroups (config : OptimizationConfig.t) : list string :=
  match OptimizationConfig.knightGroupNames config with
  | Some names => normalize <$> names
  | None => []
  end.

(** The run phase by phase on the guests as they come in, for the groups
    that step 1 returns when it returns. *)
Definition classifiedGroups (guests : list Guest.t) (config : OptimizationConfig.t)
    : list GuestGroup.t :=
  classify (knightTargetGroups config) <$> grouped guests.

(** The state after phase A. *)
Definition afterKnights (guests : list Guest.t) (config : OptimizationConfig.t)
    : TableAssignments * nat * list GuestGroup.t :=
  knightPhase (knightConfigOf config) (classifiedGroups guests config).

(** The state after phase B. *)
Definition afterStandard (guests : list Guest.t) (config : OptimizationConfig.t)
    : Seating.t :=
  let '(ta, tableCounter, processedGroups) := afterKnights guests config in
  standardPhase (tableCapacityOf config) (Seating.mk ta tableCounter) processedGroups.

(** The tables after phase C. *)
Definition afterMerge (guests : list Guest.t) (config : OptimizationConfig.t)
    : TableAssignments :=
  consolidate (Seating.tableAssignments (afterStandard guests config)).

(** What the promise resolves with, when it does. *)
Definition seatingResult (guests : list Guest.t) (config : OptimizationConfig.t)
    : OptimizationResult.t :=
  let resultTables := resultTable <$> afterMerge guests config in
  OptimizationResult.mk (finalAssignment resultTables) resultTables.

(** How the promise of an [async] function settles: a [throw] in its body
    rejects it. *)
Inductive Promise (A : Type) :=
  | Resolved (value : A)
  | Rejected (reason : JsError).
Arguments Resolved {A} value.
Arguments Rejected {A} reason.

(** [optimizeSeating] from step 2 on, for the groups that step 1 returned. *)
Definition seating (originalGroups : list GuestGroup.t) (config : OptimizationConfig.t)
    : OptimizationResult.t :=
  let processedGroups := classify (knightTargetGroups config) <$> originalGroups in
  let '(ta, tableCounter, pool) := knightPhase (knightConfigOf config) processedGroups in
  let st := standardPhase (tableCapacityOf config) (Seating.mk ta tableCounter) pool in
  let resultTables := resultTable <$> consolidate (Seating.tableAssignments st) in
  OptimizationResult.mk (finalAssignment resultTables) resultTables.

Definition optimizeSeating (guests : list Guest.t) (config : OptimizationConfig.t)
    : Promise OptimizationResult.t :=
  match groupGuestsByRelationship guests with
  | inl error => Rejected error
  | inr originalGroups => Resolved (seating originalGroups config)
  end.

(** * The run over a store: objects and arrays by reference

    The definitions above pass lists of guests by value.  The source passes
    references: a [Guest] is an object, a [Guest[]] is an array with an
    identity, and [push], [splice] and an assignment to [table.guests]
    change an array that other values may share.  [Refs] is the same
    program with that made explicit: a store of objects and of arrays, the
    input [guests] being one of the arrays.  Every decision is taken by the
    functions above on the current contents of the arrays; what [Refs] adds
    is where each array lives and which one each statement writes. *)

Module Refs.

Record Store := mkStore {
  objects : list Guest.t;     (* the Guest objects, by reference *)
  arrays : list (list nat)    (* the Guest[] arrays, by reference *)
}.

(** What a reference that names nothing reads as; no run makes one. *)
Definition nobody : Guest.t := Guest.mk "" "" other both None None None.

Definition objectAt (s : Store) (r : nat) : Guest.t := default nobody (objects s !! r).
Definition arrayAt (s : Store) (a : nat) : list nat := default [] (arrays s !! a).

(** The guests an array holds. *)
Definition deref (s : Store) (a : nat) : list Guest.t := objectAt s <$> arrayAt s a.

Definition sizeAt (s : Store) (r : nat) : Z := gSize (objectAt s r).
Definition idAt (s : Store) (r : nat) : string := Guest.id (objectAt s r).

(** [[...elements]]: a new array. *)
Definition newArray (elements : list nat) (s : Store) : nat * Store :=
  (length (arrays s), mkStore (objects s) (arrays s ++ [elements])).

(** [a.push(...elements)] *)
Definition pushAll (a : nat) (elements : list nat) (s : Store) : Store :=
  mkStore (objects s) (alter (λ old, old ++ elements) a (arrays s)).

(** The array [a] keeps its identity and gets new contents ([splice]). *)
Definition setElements (a : nat) (elements : list nat) (s : Store) : Store :=
  mkStore (objects s) (<[a := elements]> (arrays s)).

Module Group.
Record t := mk {
  groupId : string;
  guests : nat;
  size : Z;
  dominantSide : GuestSide;
  dominantCategory : GuestCategory;
  isRequestedForKnight : bool
}.
End Group.

Module Table.
Record t := mk {
  guests : nat;
  side : option GuestSide;
  category : option GuestCategory;
  capacity : Z;
  isKnight : bool
}.
End Table.

Module ResultTable.
Record t := mk {
  id : string;
  capacity : Z;
  isKnight : bool;
  guests : nat;
  side : option GuestSide;
  category : option GuestCategory
}.
End ResultTable.

Abbreviation Tables := (list (nat * Table.t)).

(** The values of the first embedding that the store holds. *)
Definition viewGroup (s : Store) (g : Group.t) : GuestGroup.t :=
  GuestGroup.mk (Group.groupId g) (deref s (Group.guests g)) (Group.size g)
    (Group.dominantSide g) (Group.dominantCategory g) (Group.isRequestedForKnight g).

Definition viewTable (s : Store) (t : Table.t) : WorkingTable.t :=
  WorkingTable.mk (deref s (Table.guests t)) (Table.side t) (Table.category t)
    (Table.capacity t) (Table.isKnight t).

Definition viewTables (s : Store) (ta : Tables) : TableAssignments :=
  (λ e, (e.1, viewTable s e.2)) <$> ta.

Definition viewResultTable (s : Store) (t : ResultTable.t) : OptimizedTable.t :=
  OptimizedTable.mk (ResultTable.id t) (ResultTable.capacity t) (ResultTable.isKnight t)
    (deref s (ResultTable.guests t)) (ResultTable.side t) (ResultTable.category t).

(** ** Grouping *)

(** [if (!groups[key]) groups[key] = []; groups[key].push(guest)] for a
    key that the object does not inherit. *)
Definition pushed (key : string) (guest : nat) (groups : list (string * nat))
    (s : Store) : list (string * nat) * Store :=
  match dictGet key groups with
  | Some a => (groups, pushAll a [guest] s)
  | None =>
      let '(a, s') := newArray [] s in
      (dictSet key a groups, pushAll a [guest] s')
  end.

(** [guests.forEach(...)] when no push throws: the elements are read
    from the array as the loop reaches them. *)
Definition collected (guests : nat) (s : Store)
    : list (string * nat) * nat * Store :=
  let '(ungrouped, s0) := newArray [] s in
  let '(groups, s1) :=
    foldl (λ (acc : list (string * nat) * Store) i,
             match arrayAt acc.2 guests !! i with
             | Some guest =>
                 match groupKey (objectAt acc.2 guest) with
                 | Some key => pushed key guest acc.1 acc.2
                 | None => (acc.1, pushAll ungrouped [guest] acc.2)
                 end
             | None => acc
             end)
          ([], s0) (seq 0 (length (arrayAt s0 guests))) in
  (groups, ungrouped, s1).

(** [groups[`individual-${guest.id}`] = [guest]] *)
Definition addIndividuals (ungrouped : nat) (groups : list (string * nat)) (s : Store)
    : list (string * nat) * Store :=
  foldl (λ (acc : list (string * nat) * Store) guest,
           let '(a, s') := newArray [guest] acc.2 in
           (dictSet (individualKey (objectAt s' guest)) a acc.1, s'))
        (groups, s) (arrayAt s ungrouped).

(** What [groupGuestsByRelationship] returns, and the store it leaves,
    when no push throws. *)
Definition grouped (guests : nat) (s : Store) : list Group.t * Store :=
  let '(groups, ungrouped, s1) := collected guests s in
  let '(groups', s2) := addIndividuals ungrouped groups s1 in
  ((λ e, Group.mk e.1 e.2 (Z.of_nat (length (arrayAt s2 e.2))) both other false)
     <$> objectEntries groups', s2).

(** The statement for any key: under an inherited one nothing is stored
    and the call of [push] throws. *)
Definition groupsPush (key : string) (guest : nat) (groups : list (string * nat))
    (s : Store) : (JsError + list (string * nat)) * Store :=
  if decide (key ∈ inheritedKeys) then (inl TypeError, s)
  else let r := pushed key guest groups s in (inr r.1, r.2).

(** One turn of [guests.forEach(...)]; after a throw there is none. *)
Definition collectStep (guests ungrouped : nat)
    (acc : (JsError + list (string * nat)) * Store) (i : nat)
    : (JsError + list (string * nat)) * Store :=
  match acc.1 with
  | inl _ => acc
  | inr groups =>
      match arrayAt acc.2 guests !! i with
      | Some guest =>
          match groupKey (objectAt acc.2 guest) with
          | Some key => groupsPush key guest groups acc.2
          | None => (inr groups, pushAll ungrouped [guest] acc.2)
          end
      | None => acc
      end
  end.

Definition collectGroups (guests : nat) (s : Store)
    : (JsError + list (string * nat)) * nat * Store :=
  let '(ungrouped, s0) := newArray [] s in
  let '(groups, s1) :=
    foldl (collectStep guests ungrouped) (inr [], s0)
          (seq 0 (length (arrayAt s0 guests))) in
  (groups, ungrouped, s1).

Definition groupGuestsByRelationship (guests : nat) (s : Store)
    : (JsError + list Group.t) * Store :=
  match collectGroups guests s with
  | (inl error, _, s1) => (inl error, s1)
  | (inr groups, ungrouped, s1) =>
      let '(groups', s2) := addIndividuals ungrouped groups s1 in
      (inr ((λ e, Group.mk e.1 e.2 (Z.of_nat (length (arrayAt s2 e.2))) both other false)
              <$> objectEntries groups'), s2)
  end.

Definition classify (knightTargetGroups : list string) (s : Store) (group : Group.t)
    : Group.t :=
  let members := deref s (Group.guests group) in
  Group.mk (Group.groupId group) (Group.guests group)
    (getGuestsSize members) (dominantSide members) (dominantCategory members)
    (bool_decide (normalize (Group.groupId group) ∈ knightTargetGroups)).

(** ** Tables *)

(** [for (const guest of chunk) table.guests.push(guest)] on the table
    stored under [k]. *)
Definition seatAt (k : nat) (chunk : list nat) (ta : Tables) (s : Store) : Store :=
  match dictGet k ta with
  | Some table => pushAll (Table.guests table) chunk s
  | None => s
  end.

Definition markFirst (s : Store) (group : Group.t) (chunk : list nat) (t : Table.t)
    : Table.t :=
  if decide (length (arrayAt s (Table.guests t)) = length chunk)
  then Table.mk (Table.guests t) (Some (Group.dominantSide group))
         (Some (Group.dominantCategory group)) (Table.capacity t) (Table.isKnight t)
  else t.

Definition setCapacity (c : Z) (t : Table.t) : Table.t :=
  Table.mk (Table.guests t) (Table.side t) (Table.category t) c (Table.isKnight t).

Definition newStandardTable (group : Group.t) (tableCapacity : Z) (a : nat) : Table.t :=
  Table.mk a (Some (Group.dominantSide group)) (Some (Group.dominantCategory group))
    tableCapacity false.

(** [chunk.forEach(g => ... guestsToSeat.splice(idx, 1))] *)
Definition removeFrom (guestsToSeat : nat) (chunk : list nat) (s : Store) : Store :=
  setElements guestsToSeat
    (removeChunkBy (idAt s) chunk (arrayAt s guestsToSeat)) s.

(** ** Phase A *)

Definition initKnightTables (count : nat) (capacity : Z) (s : Store) : Tables * Store :=
  foldl (λ (acc : Tables * Store) i,
           let '(a, s') := newArray [] acc.2 in
           (dictSet i (Table.mk a None None capacity true) acc.1, s'))
        ([], s) (seq 0 count).

Definition selectKnightCandidates (processedGroups : list Group.t)
    : list Group.t * list Group.t :=
  let knightCandidates := filter (λ g, Group.isRequestedForKnight g = true) processedGroups in
  if decide (length knightCandidates = 0%nat)
  then (filter (λ g, Group.dominantCategory g = friend) processedGroups,
        filter (λ g, Group.dominantCategory g ≠ friend) processedGroups)
  else (knightCandidates,
        filter (λ g, Group.isRequestedForKnight g ≠ true) processedGroups).

Definition bySizeDesc (a b : Group.t) : Z := Group.size b - Group.size a.

(** [{...group, guests: guestsToSeat, size: getGuestsSize(guestsToSeat)}]:
    the new group shares the array. *)
Definition leftoverGroup (s : Store) (group : Group.t) (guestsToSeat : nat) : Group.t :=
  Group.mk (Group.groupId group) guestsToSeat (getGuestsSize (deref s guestsToSeat))
    (Group.dominantSide group) (Group.dominantCategory group)
    (Group.isRequestedForKnight group).

Fixpoint knightSeat (fuel : nat) (count : nat) (group : Group.t) (ta : Tables)
    (processedGroups : list Group.t) (guestsToSeat : nat) (s : Store)
    : Tables * list Group.t * Store :=
  match fuel, arrayAt s guestsToSeat with
  | O, _ | _, [] => (ta, processedGroups, s)
  | S fuel', _ :: _ =>
      match knightBest count (viewTables s ta) with
      | (Some bestTableId, maxSpace) =>
          if 0 <? maxSpace then
            match fitChunkBy (sizeAt s) maxSpace (arrayAt s guestsToSeat) with
            | [] => (ta, processedGroups, s)
            | (_ :: _) as chunk =>
                let s' := seatAt bestTableId chunk ta (removeFrom guestsToSeat chunk s) in
                knightSeat fuel' count group
                  (dictAlter (markFirst s' group chunk) bestTableId ta)
                  processedGroups guestsToSeat s'
            end
          else (ta, processedGroups ++ [leftoverGroup s group guestsToSeat], s)
      | (None, _) => (ta, processedGroups ++ [leftoverGroup s group guestsToSeat], s)
      end
  end.

(** [let guestsToSeat = [...group.guests]] and the loop. *)
Definition knightGroup (count : nat) (acc : Tables * list Group.t * Store)
    (group : Group.t) : Tables * list Group.t * Store :=
  let '(ta, processedGroups, s) := acc in
  let '(guestsToSeat, s') := newArray (arrayAt s (Group.guests group)) s in
  knightSeat (length (arrayAt s' guestsToSeat)) count group ta processedGroups
             guestsToSeat s'.

Definition knightPhase (knightConfig : KnightConfig.t) (processedGroups : list Group.t)
    (s : Store) : Tables * nat * list Group.t * Store :=
  if KnightConfig.enabled knightConfig && (0 <? KnightConfig.count knightConfig) then
    let count := Z.to_nat (KnightConfig.count knightConfig) in
    let '(ta, s0) := initKnightTables count (KnightConfig.capacity knightConfig) s in
    let '(knightCandidates, pool) := selectKnightCandidates processedGroups in
    let '(ta', pool', s') :=
      foldl (knightGroup count) (ta, pool, s0) (jsSort bySizeDesc knightCandidates) in
    (ta', count, pool', s')
  else ([], 0%nat, processedGroups, s).

(** ** Phase B *)

Module Seating.
Record t := mk { tableAssignments : Tables; tableCounter : nat }.
End Seating.

Definition partialTarget (group : Group.t) (ta : Tables) (guestsToSeat : nat)
    (s : Store) : option (nat * list nat) :=
  match bestPartial (viewGroup s group) (viewTables s ta) with
  | Some (bestPartialTableId, maxPartialSpace) =>
      match fitChunkBy (sizeAt s) maxPartialSpace (arrayAt s guestsToSeat) with
      | (_ :: _) as chunk => Some (bestPartialTableId, chunk)
      | [] => None
      end
  | None => None
  end.

(** The new table of the split branch; the flag tells whether the loop goes
    on ([false] is the loop guard). *)
Definition splitIntoNewTable (tableCapacity : Z) (group : Group.t) (st : Seating.t)
    (guestsToSeat : nat) (s : Store) : Seating.t * bool * Store :=
  let newTableId := Seating.tableCounter st in
  let '(a, s1) := newArray [] s in
  let ta := dictSet newTableId (newStandardTable group tableCapacity a)
                    (Seating.tableAssignments st) in
  let '(chunk, capacity) :=
    newTableChunkBy (sizeAt s1) tableCapacity (arrayAt s1 guestsToSeat) in
  let st' := Seating.mk (dictAlter (setCapacity capacity) newTableId ta) (S newTableId) in
  match chunk with
  | _ :: _ => (st', true, pushAll a chunk (removeFrom guestsToSeat chunk s1))
  | [] => (st', false, s1)
  end.

Fixpoint standardSeat (fuel : nat) (tableCapacity : Z) (group : Group.t)
    (st : Seating.t) (guestsToSeat : nat) (groupSize : Z) (s : Store)
    : Seating.t * Store :=
  match fuel, arrayAt s guestsToSeat with
  | O, _ | _, [] => (st, s)
  | S fuel', _ :: _ =>
      let ta := Seating.tableAssignments st in
      match bestFit (viewGroup s group) groupSize (viewTables s ta) with
      | Some bestFitTableId =>
          let s' := seatAt bestFitTableId (arrayAt s guestsToSeat) ta s in
          (Seating.mk
             (dictAlter (markFirst s' group (arrayAt s guestsToSeat)) bestFitTableId ta)
             (Seating.tableCounter st),
           s')
      | None =>
          if groupSize <=? tableCapacity then
            let newTableId := Seating.tableCounter st in
            let '(a, s1) := newArray [] s in
            (Seating.mk (dictSet newTableId (newStandardTable group tableCapacity a) ta)
                        (S newTableId),
             pushAll a (arrayAt s1 guestsToSeat) s1)
          else
            match partialTarget group ta guestsToSeat s with
            | Some (bestPartialTableId, chunk) =>
                let s' := seatAt bestPartialTableId chunk ta
                                 (removeFrom guestsToSeat chunk s) in
                standardSeat fuel' tableCapacity group st guestsToSeat
                             (getGuestsSize (deref s' guestsToSeat)) s'
            | None =>
                match splitIntoNewTable tableCapacity group st guestsToSeat s with
                | (st', true, s') =>
                    standardSeat fuel' tableCapacity group st' guestsToSeat
                                 (getGuestsSize (deref s' guestsToSeat)) s'
                | (st', false, s') => (st', s')
                end
            end
      end
  end.

(** [let guestsToSeat = [...group.guests]] and the loop. *)
Definition standardGroup (tableCapacity : Z) (acc : Seating.t * Store) (group : Group.t)
    : Seating.t * Store :=
  let '(guestsToSeat, s') := newArray (arrayAt acc.2 (Group.guests group)) acc.2 in
  standardSeat (length (arrayAt s' guestsToSeat)) tableCapacity group acc.1
               guestsToSeat (getGuestsSize (deref s' guestsToSeat)) s'.

Definition standardPhase (tableCapacity : Z) (st : Seating.t)
    (processedGroups : list Group.t) (s : Store) : Seating.t * Store :=
  foldl (standardGroup tableCapacity) (st, s) (jsSort bySizeDesc processedGroups).

(** ** Phase C *)

(** [tableA.guests = [...tableA.guests, ...tableB.guests]; tableA.side = 'both'] *)
Definition absorb (a : nat) (tableA : Table.t) : Table.t :=
  Table.mk a (Some both) (Table.category tableA) (Table.capacity tableA)
    (Table.isKnight tableA).

Fixpoint mergeSparse (ids : list nat) (ta : Tables) (mergedTableIds : gset nat)
    (s : Store) : Tables * Store :=
  match ids with
  | [] => (ta, s)
  | idA :: later =>
      if decide (idA ∈ mergedTableIds) then mergeSparse later ta mergedTableIds s
      else
        match dictGet idA ta with
        | Some tableA =>
            let sizeA := occupancy (viewTable s tableA) in
            if Table.capacity tableA <=? sizeA
            then mergeSparse later ta mergedTableIds s
            else
              match findPartner sizeA (Table.capacity tableA) (viewTables s ta)
                                mergedTableIds later with
              | Some (idB, _) =>
                  match dictGet idB ta with
                  | Some tableB =>
                      let '(a, s') :=
                        newArray (arrayAt s (Table.guests tableA)
                                  ++ arrayAt s (Table.guests tableB)) s in
                      mergeSparse later
                        (dictDelete idB (dictAlter (absorb a) idA ta))
                        ({[idB]} ∪ mergedTableIds) s'
                  | None => mergeSparse later ta mergedTableIds s
                  end
              | None => mergeSparse later ta mergedTableIds s
              end
        | None => mergeSparse later ta mergedTableIds s
        end
  end.

Definition consolidate (ta : Tables) (s : Store) : Tables * Store :=
  mergeSparse (standardTableIds (viewTables s ta)) ta ∅ s.

(** ** Result assembly and the entry point *)

Definition resultTable (e : nat * Table.t) : ResultTable.t :=
  ResultTable.mk (tableName e.1) (Table.capacity e.2) (Table.isKnight e.2)
    (Table.guests e.2) (Table.side e.2) (Table.category e.2).

Definition finalAssignment (s : Store) (tables : list ResultTable.t) : gmap string string :=
  foldl (λ m table,
           foldl (λ m' g, <[idAt s g := ResultTable.id table]> m')
                 m (arrayAt s (ResultTable.guests table)))
        ∅ tables.

(** [optimizeSeating] from step 2 on, in the store that step 1 left: the
    result and the store the run leaves. *)
Definition seating (originalGroups : list Group.t) (config : OptimizationConfig.t)
    (s1 : Store) : gmap string string * list ResultTable.t * Store :=
  let processedGroups := classify (knightTargetGroups config) s1 <$> originalGroups in
  let '(ta, tableCounter, pool, s2) :=
    knightPhase (knightConfigOf config) processedGroups s1 in
  let '(st, s3) :=
    standardPhase (tableCapacityOf config) (Seating.mk ta tableCounter) pool s2 in
  let '(ta', s4) := consolidate (Seating.tableAssignments st) s3 in
  let resultTables := resultTable <$> ta' in
  (finalAssignment s4 resultTables, resultTables, s4).

(** The call [optimizeSeating(guests, _tables, config)] with [guests] the
    reference of the input array: how the promise settles and the store
    the call leaves. *)
Definition optimizeSeating (guests : nat) (config : OptimizationConfig.t) (s : Store)
    : Promise (gmap string string * list ResultTable.t) * Store :=
  match groupGuestsByRelationship guests s with
  | (inl error, s1) => (Rejected error, s1)
  | (inr originalGroups, s1) =>
      let r := seating originalGroups config s1 in (Resolved r.1, r.2)
  end.

(** The result as the first embedding writes it. *)
Definition resultValue (r : gmap string string * list ResultTable.t * Store)
    : OptimizationResult.t :=
  OptimizationResult.mk r.1.1 (viewResultTable r.2 <$> r.1.2).

Definition viewResult (r : Promise (gmap string string * list ResultTable.t) * Store)
    : Promise OptimizationResult.t :=
  match r.1 with
  | Resolved value => Resolved (resultValue (value, r.2))
  | Rejected error => Rejected error
  end.

End Refs.

Arguments Refs.newArray : simpl never.
Arguments Refs.pushAll : simpl never.
Arguments Refs.setElements : simpl never.
Arguments Refs.removeFrom : simpl never.
Arguments Refs.seatAt : simpl never.

(** ** The store read as values

    What relates a run over the store to the first embedding, and what the
    run keeps true of the store on the way. *)

(** The array [a] exists in the store. *)
Definition allocated (s : Refs.Store) (a : nat) : Prop := (a < length (Refs.arrays s))%nat.

(** The arrays behind the tables. *)
Definition tableLocs (ta : Refs.Tables) : list nat := (λ e, Refs.Table.guests e.2) <$> ta.

(** The table arrays are allocated and no two tables share one. *)
Definition tablesApart (s : Refs.Store) (ta : Refs.Tables) : Prop :=
  NoDup (tableLocs ta) ∧ Forall (allocated s) (tableLocs ta).

(** The arrays of the groups are allocated and are not table arrays. *)
Definition groupsApart (s : Refs.Store) (ta : Refs.Tables) (groups : list Refs.Group.t)
    : Prop :=
  Forall (λ x, allocated s (Refs.Group.guests x) ∧ Refs.Group.guests x ∉ tableLocs ta)
         groups.

(** The fields of a group other than its members. *)
Definition sameHead (g : GuestGroup.t) (hg : Refs.Group.t) : Prop :=
  GuestGroup.groupId g = Refs.Group.groupId hg ∧
  GuestGroup.dominantSide g = Refs.Group.dominantSide hg ∧
  GuestGroup.dominantCategory g = Refs.Group.dominantCategory hg ∧
  GuestGroup.isRequestedForKnight g = Refs.Group.isRequestedForKnight hg.

(** [groups] of [groupGuestsByRelationship], as the first embedding has it. *)
Definition viewDict (s : Refs.Store) (groups : list (string * nat))
    : list (string * list Guest.t) :=
  (λ e, (e.1, Refs.deref s e.2)) <$> groups.

(** The arrays of [groups] are allocated and no two keys share one. *)
Definition dictApart (s : Refs.Store) (groups : list (string * nat)) : Prop :=
  NoDup groups.*2 ∧ Forall (allocated s) groups.*2.

(** The seating state, as the first embedding has it. *)
Definition viewSeating (s : Refs.Store) (st : Refs.Seating.t) : Seating.t :=
  Seating.mk (Refs.viewTables s (Refs.Seating.tableAssignments st))
             (Refs.Seating.tableCounter st).

(** From [s] with tables [ta] to [s'] with tables [ta']: the store grew, the
    new tables are on new arrays, and the arrays of [s] that are neither a
    table array nor in [except] are unchanged. *)
Definition grown (except : list nat) (s : Refs.Store) (ta : Refs.Tables)
    (s' : Refs.Store) (ta' : Refs.Tables) : Prop :=
  Refs.objects s' = Refs.objects s ∧
  (length (Refs.arrays s) ≤ length (Refs.arrays s'))%nat ∧
  (∀ a, a ∈ tableLocs ta' → a ∈ tableLocs ta ∨ ¬ allocated s a) ∧
  ∀ a, allocated s a → a ∉ except → a ∉ tableLocs ta →
       Refs.arrayAt s' a = Refs.arrayAt s a.

(** What the first [forEach] keeps true: the input array [guests] still
    reads [l], and the arrays of [groups] were made after [ungrouped]. *)
Definition collecting (s0 : Refs.Store) (guests ungrouped : nat) (l : list nat)
    (acc : list (string * nat) * Refs.Store) : Prop :=
  Refs.objects acc.2 = Refs.objects s0 ∧
  Refs.arrayAt acc.2 guests = l ∧
  (guests < ungrouped)%nat ∧ allocated acc.2 ungrouped ∧
  dictApart acc.2 acc.1 ∧
  Forall (λ a, (ungrouped < a)%nat) acc.1.*2.

(** * The seating store ([store/seatingStore.ts])

    The state the interface works on and the actions that change it.  An
    action is a function from the state to the next state; an id made by
    [generateId] is an argument of the action that asks for it.  [alert]
    is left out, and so are the fields no action reads or writes ([age],
    [phoneNumber] and [notes] of a guest, [type], [preferredSide] and
    [position] of a table) and the actions that merge an arbitrary partial
    object into a guest or a table or replace the whole state
    ([updateGuest], [updateTable], [importData]). *)

(** [if (x)] on an optional string: [undefined] and [''] are falsy. *)
Definition truthy (x : option string) : bool :=
  match x with
  | Some s => bool_decide (s ≠ ""%string)
  | None => false
  end.

(** [Object.fromEntries(entries)] *)
Definition fromEntries {V} (entries : list (string * V)) : list (string * V) :=
  foldl (λ d e, dictSet e.1 e.2 d) [] entries.

Module SeatingStore.

(** A guest with the field the optimiser leaves out. *)
Module StoredGuest.
Record t := mk {
  guest : Guest.t;
  conflictsWith : list string
}.
End StoredGuest.

Module Table.
Record t := mk {
  id : string;
  number : Z;
  capacity : Z;
  assignedGuests : list string
}.
End Table.

(** [SeatingState] *)
Record State := mkState {
  guests : list StoredGuest.t;
  tables : list Table.t;
  conflicts : list (string * string);
  groups : list (string * list string)
}.

Definition initialState : State := mkState [] [] [] [].

Definition idOf (g : StoredGuest.t) : string := Guest.id (StoredGuest.guest g).
Definition tableIdOf (g : StoredGuest.t) : option string :=
  Guest.tableId (StoredGuest.guest g).
Definition groupIdOf (g : StoredGuest.t) : option string :=
  Guest.groupId (StoredGuest.guest g).

(** [{ ...g, id }], [{ ...g, tableId }], [{ ...g, groupId }], [{ ...g, conflictsWith }] *)
Definition setId (id : string) (g : Guest.t) : Guest.t :=
  Guest.mk id (Guest.name g) (Guest.category g) (Guest.side g) (Guest.groupId g)
    (Guest.tableId g) (Guest.amount g).

Definition setTableId (tableId : option string) (g : StoredGuest.t) : StoredGuest.t :=
  let d := StoredGuest.guest g in
  StoredGuest.mk
    (Guest.mk (Guest.id d) (Guest.name d) (Guest.category d) (Guest.side d)
       (Guest.groupId d) tableId (Guest.amount d))
    (StoredGuest.conflictsWith g).

Definition setGroupId (groupId : option string) (g : StoredGuest.t) : StoredGuest.t :=
  let d := StoredGuest.guest g in
  StoredGuest.mk
    (Guest.mk (Guest.id d) (Guest.name d) (Guest.category d) (Guest.side d)
       groupId (Guest.tableId d) (Guest.amount d))
    (StoredGuest.conflictsWith g).

Definition setConflictsWith (conflictsWith : list string) (g : StoredGuest.t)
    : StoredGuest.t :=
  StoredGuest.mk (StoredGuest.guest g) conflictsWith.

(** [{ ...t, assignedGuests }], [{ ...t, number }] *)
Definition setAssignedGuests (assignedGuests : list string) (t : Table.t) : Table.t :=
  Table.mk (Table.id t) (Table.number t) (Table.capacity t) assignedGuests.

Definition setNumber (number : Z) (t : Table.t) : Table.t :=
  Table.mk (Table.id t) number (Table.capacity t) (Table.assignedGuests t).

(** [tables.find(t => t.id === id)], [guests.find(g => g.id === id)] *)
Definition findTable (id : string) (st : State) : option Table.t :=
  head (filter (λ t, Table.id t = id) (tables st)).

Definition findGuest (id : string) (st : State) : option StoredGuest.t :=
  head (filter (λ g, idOf g = id) (guests st)).

(** ** Guest actions *)

Definition addGuest (newId : string) (guestData : Guest.t) (st : State) : State :=
  mkState (guests st ++ [StoredGuest.mk (setId newId guestData) []])
          (tables st) (conflicts st) (groups st).

Definition removeGuest (id : string) (st : State) : State :=
  mkState
    (filter (λ g, idOf g ≠ id) (guests st))
    ((λ t, setAssignedGuests (filter (λ gId, gId ≠ id) (Table.assignedGuests t)) t)
       <$> tables st)
    (filter (λ c, c.1 ≠ id ∧ c.2 ≠ id) (conflicts st))
    (fromEntries ((λ e, (e.1, filter (λ gId, gId ≠ id) e.2))
                    <$> objectEntries (groups st))).

(** [guestsData.map(...)], one generated id for each. *)
Definition importGuests (guestsData : list (string * Guest.t)) (st : State) : State :=
  mkState (guests st ++ ((λ e, StoredGuest.mk (setId e.1 e.2) []) <$> guestsData))
          (tables st) (conflicts st) (groups st).

(** ** Table actions *)

Definition addTable (newId : string) (capacity : Z) (st : State) : State :=
  mkState (guests st)
          (tables st ++ [Table.mk newId (Z.of_nat (length (tables st)) + 1) capacity []])
          (conflicts st) (groups st).

Definition removeTable (id : string) (st : State) : State :=
  match findTable id st with
  | Some _ =>
      let remaining := filter (λ t, Table.id t ≠ id) (tables st) in
      mkState
        ((λ g, if decide (tableIdOf g = Some id) then setTableId None g else g)
           <$> guests st)
        (imap (λ index t, setNumber (Z.of_nat index + 1) t) remaining)
        (conflicts st) (groups st)
  | None => st
  end.

(** ** Assignment actions *)

Definition unassignGuest (guestId : string) (st : State) : State :=
  match findGuest guestId st with
  | Some guest =>
      if truthy (tableIdOf guest) then
        mkState
          ((λ g, if decide (idOf g = guestId) then setTableId None g else g)
             <$> guests st)
          ((λ t, if decide (Some (Table.id t) = tableIdOf guest)
                 then setAssignedGuests
                        (filter (λ id, id ≠ guestId) (Table.assignedGuests t)) t
                 else t) <$> tables st)
          (conflicts st) (groups st)
      else st
  | None => st
  end.

Definition assignGuestToTable (guestId tableId : string) (st : State) : State :=
  match findTable tableId st, findGuest guestId st with
  | Some table, Some guest =>
      if Table.capacity table <=? Z.of_nat (length (Table.assignedGuests table)) then st
      else
        let st' := if truthy (tableIdOf guest) then unassignGuest guestId st else st in
        mkState
          ((λ g, if decide (idOf g = guestId) then setTableId (Some tableId) g else g)
             <$> guests st')
          ((λ t, if decide (Table.id t = tableId)
                 then setAssignedGuests (Table.assignedGuests t ++ [guestId]) t
                 else t) <$> tables st')
          (conflicts st') (groups st')
  | _, _ => st
  end.

(** ** Conflict actions *)

(** [(a === x && b === y) || (a === y && b === x)] *)
Definition samePair (x y : string) (c : string * string) : bool :=
  bool_decide (c.1 = x ∧ c.2 = y) || bool_decide (c.1 = y ∧ c.2 = x).

Definition addConflict (guest1Id guest2Id : string) (st : State) : State :=
  if decide (guest1Id = guest2Id) then st
  else if existsb (samePair guest1Id guest2Id) (conflicts st) then st
  else
    mkState
      ((λ g, if decide (idOf g = guest1Id)
             then setConflictsWith (StoredGuest.conflictsWith g ++ [guest2Id]) g
             else if decide (idOf g = guest2Id)
             then setConflictsWith (StoredGuest.conflictsWith g ++ [guest1Id]) g
             else g) <$> guests st)
      (tables st)
      (conflicts st ++ [(guest1Id, guest2Id)])
      (groups st).

Definition removeConflict (guest1Id guest2Id : string) (st : State) : State :=
  mkState
    ((λ g, if decide (idOf g = guest1Id)
           then setConflictsWith
                  (filter (λ id, id ≠ guest2Id) (StoredGuest.conflictsWith g)) g
           else if decide (idOf g = guest2Id)
           then setConflictsWith
                  (filter (λ id, id ≠ guest1Id) (StoredGuest.conflictsWith g)) g
           else g) <$> guests st)
    (tables st)
    (filter (λ c, samePair guest1Id guest2Id c = false) (conflicts st))
    (groups st).

(** ** Group actions *)

(** [{ ...state.groups, [groupId]: guestIds }]: the spread lists the keys
    as [Object.entries] does. *)
Definition createGroup (newId : string) (guestIds : list string) (st : State) : State :=
  mkState
    ((λ g, if decide (idOf g ∈ guestIds) then setGroupId (Some newId) g else g)
       <$> guests st)
    (tables st) (conflicts st)
    (dictSet newId guestIds (objectEntries (groups st))).

Definition updateGroup (groupId : string) (guestIds : list string) (st : State) : State :=
  mkState
    ((λ g, if decide (idOf g ∈ guestIds) then setGroupId (Some groupId) g
           else if decide (groupIdOf g = Some groupId) then setGroupId None g
           else g) <$> guests st)
    (tables st) (conflicts st)
    (dictSet groupId guestIds (objectEntries (groups st))).

Definition removeGroup (groupId : string) (st : State) : State :=
  mkState
    ((λ g, if decide (groupIdOf g = Some groupId) then setGroupId None g else g)
       <$> guests st)
    (tables st) (conflicts st)
    (fromEntries (filter (λ e, e.1 ≠ groupId) (objectEntries (groups st)))).

(** ** Optimization *)

(** [assignments[g.id] || undefined] *)
Definition assignedTable (assignments : list (string * string)) (id : string)
    : option string :=
  match dictGet id assignments with
  | Some tableId => if decide (tableId = ""%string) then None else Some tableId
  | None => None
  end.

(** The two [forEach] loops that build [newTableAssignments]. *)
Definition newTableAssignments (assignments : list (string * string)) (st : State)
    : list (string * list string) :=
  foldl (λ d e,
           match dictGet e.2 d with
           | Some ids => dictSet e.2 (ids ++ [e.1]) d
           | None => d
           end)
        (foldl (λ d table, dictSet (Table.id table) [] d) [] (tables st))
        (objectEntries assignments).

Definition applyOptimizedSeating (assignments : list (string * string)) (st : State)
    : State :=
  let d := newTableAssignments assignments st in
  mkState
    ((λ g, setTableId (assignedTable assignments (idOf g)) g) <$> guests st)
    ((λ t, setAssignedGuests (default [] (dictGet (Table.id t) d)) t) <$> tables st)
    (conflicts st) (groups st).

(** ** Utility *)

Definition resetAll (st : State) : State := initialState.

Definition getUnseatedGuests (st : State) : list StoredGuest.t :=
  filter (λ g, truthy (tableIdOf g) = false) (guests st).

End SeatingStore.

(** The store's interface, one constructor per action; an id drawn by
    [generateId] is an argument of the action that draws it. *)
Inductive Action :=
  | AddGuest (newId : string) (guestData : Guest.t)
  | RemoveGuest (id : string)
  | ImportGuests (guestsData : list (string * Guest.t))
  | AddTable (newId : string) (capacity : Z)
  | RemoveTable (id : string)
  | AssignGuestToTable (guestId tableId : string)
  | UnassignGuest (guestId : string)
  | AddConflict (guest1Id guest2Id : string)
  | RemoveConflict (guest1Id guest2Id : string)
  | CreateGroup (newId : string) (guestIds : list string)
  | UpdateGroup (groupId : string) (guestIds : list string)
  | RemoveGroup (groupId : string)
  | ApplyOptimizedSeating (assignments : list (string * string))
  | ResetAll.

Definition run (a : Action) (st : SeatingStore.State) : SeatingStore.State :=
  match a with
  | AddGuest newId guestData => SeatingStore.addGuest newId guestData st
  | RemoveGuest id => SeatingStore.removeGuest id st
  | ImportGuests guestsData => SeatingStore.importGuests guestsData st
  | AddTable newId capacity => SeatingStore.addTable newId capacity st
  | RemoveTable id => SeatingStore.removeTable id st
  | AssignGuestToTable guestId tableId => SeatingStore.assignGuestToTable guestId tableId st
  | UnassignGuest guestId => SeatingStore.unassignGuest guestId st
  | AddConflict guest1Id guest2Id => SeatingStore.addConflict guest1Id guest2Id st
  | RemoveConflict guest1Id guest2Id => SeatingStore.removeConflict guest1Id guest2Id st
  | CreateGroup newId guestIds => SeatingStore.createGroup newId guestIds st
  | UpdateGroup groupId guestIds => SeatingStore.updateGroup groupId guestIds st
  | RemoveGroup groupId => SeatingStore.removeGroup groupId st
  | ApplyOptimizedSeating assignments => SeatingStore.applyOptimizedSeating assignments st
  | ResetAll => SeatingStore.resetAll st
  end.

(** * The optimise button ([StatusBar.tsx], [handleOptimize])

    The handler asks for the sizes, calls [optimizeSeating] on the guests
    of the store and rebuilds the store's tables from the result.  The
    answers to its dialogs and the ids that [addTable] draws are inputs;
    the progress display is left out, and no other action is taken to
    run during the handler's pause. *)

(** ** [parseInt], [replace], [split] *)

(** The value of a digit or letter as [parseInt] reads it. *)
Definition digitValue (c : ascii) : option Z :=
  let n := Z.of_N (N_of_ascii c) in
  if (48 <=? n) && (n <=? 57) then Some (n - 48)
  else if (97 <=? n) && (n <=? 122) then Some (n - 87)
  else if (65 <=? n) && (n <=? 90) then Some (n - 55)
  else None.

(** The values of the longest prefix of digits below [radix]. *)
Fixpoint leadingDigits (radix : Z) (s : string) : list Z :=
  match s with
  | String c s' =>
      match digitValue c with
      | Some d => if d <? radix then d :: leadingDigits radix s' else []
      | None => []
      end
  | EmptyString => []
  end.

Definition digitsValue (radix : Z) (digits : list Z) : option Z :=
  match digits with
  | [] => None
  | _ => Some (foldl (λ acc d, radix * acc + d) 0 digits)
  end.

(** A sign in front, and what follows it. *)
Definition signOf (s : string) : Z * string :=
  match s with
  | String c rest =>
      if bool_decide (c = "-"%char) then (-1, rest)
      else if bool_decide (c = "+"%char) then (1, rest)
      else (1, s)
  | EmptyString => (1, s)
  end.

(** The radix a [0x] or [0X] in front selects, and what follows it. *)
Definition radixOf (s : string) : Z * string :=
  match s with
  | String c (String c' rest) =>
      if bool_decide (c = "0"%char)
         && (bool_decide (c' = "x"%char) || bool_decide (c' = "X"%char))
      then (16, rest)
      else (10, s)
  | _ => (10, s)
  end.

(** [parseInt(s)], no radix given; [None] is [NaN]. *)
Definition parseInt (s : string) : option Z :=
  let '(sign, s2) := signOf (trimStart s) in
  let '(radix, s3) := radixOf s2 in
  (λ n, sign * n) <$> digitsValue radix (leadingDigits radix s3).

(** [s.startsWith(p)], with what follows the prefix. *)
Fixpoint stripPrefix (p s : string) : option string :=
  match p, s with
  | EmptyString, _ => Some s
  | String a p', String b s' => if decide (a = b) then stripPrefix p' s' else None
  | String _ _, EmptyString => None
  end.

(** [s.replace(pattern, '')]: the first occurrence goes. *)
Fixpoint removeFirst (pattern s : string) : string :=
  match stripPrefix pattern s with
  | Some rest => rest
  | None =>
      match s with
      | String c s' => String c (removeFirst pattern s')
      | EmptyString => EmptyString
      end
  end.

(** [s.split(sep)] for a separator of one character. *)
Fixpoint jsSplit (sep : ascii) (s : string) : list string :=
  match s with
  | EmptyString => [EmptyString]
  | String c s' =>
      if decide (c = sep) then EmptyString :: jsSplit sep s'
      else match jsSplit sep s' with
           | piece :: pieces => String c piece :: pieces
           | [] => [String c EmptyString]
           end
  end.

(** ** The dialogs *)

Module Dialog.
(** What the user answers: [prompt] gives a string or [null], [confirm] a
    boolean.  A dialog that is not shown leaves its answer unread. *)
Record t := mk {
  standardCapacityInput : option string;
  hasKnightTables : bool;
  countInput : option string;
  capInput : option string;
  userInput : option string
}.
End Dialog.

Inductive Outcome :=
  | NothingToSeat
  | Cancelled
  | InvalidCapacity
  | Optimized (st : SeatingStore.State)
  | OptimizationError.

(** [parseInt] of an answer that is known to be truthy. *)
Definition answer (input : option string) : option Z := parseInt (default ""%string input).

(** The groups the user may pick from are those with a [groupId] that is
    set, not empty and not made up for an ungrouped guest. *)
Definition pickable (groupId : option string) : bool :=
  match groupId with
  | Some id =>
      bool_decide (id ≠ ""%string) && negb (bool_decide (is_Some (stripPrefix "individual-" id)))
  | None => false
  end.

Definition uniqueGroups (guests : list SeatingStore.StoredGuest.t) : list string :=
  remove_dups
    (omap (λ g, if pickable (SeatingStore.groupIdOf g)
                then SeatingStore.groupIdOf g else None)
          guests).

(** [userInput.split(',').map(s => s.trim()).filter(s => s.length > 0)] *)
Definition pickedNames (userInput : string) : list string :=
  filter (λ s, s ≠ ""%string) (trim <$> jsSplit "," userInput).

(** Step 2 of the handler: the knight tables and the groups for them. *)
Definition askKnights (d : Dialog.t) (guests : list SeatingStore.StoredGuest.t)
    : KnightConfig.t * list string :=
  let none := (KnightConfig.mk false 0 0, []) in
  if Dialog.hasKnightTables d then
    if truthy (Dialog.countInput d) then
      let cap := if truthy (Dialog.capInput d) then answer (Dialog.capInput d) else Some 0 in
      match answer (Dialog.countInput d), cap with
      | Some count, Some cap =>
          if (0 <? count) && (0 <? cap) then
            (KnightConfig.mk true count cap,
             match uniqueGroups guests with
             | [] => []
             | _ => if truthy (Dialog.userInput d)
                    then pickedNames (default ""%string (Dialog.userInput d))
                    else []
             end)
          else none
      | _, _ => none
      end
    else none
  else none.

(** Step 1 of the handler; [inl] is an early [return]. *)
Definition askCapacity (d : Dialog.t) : Outcome + Z :=
  if truthy (Dialog.standardCapacityInput d) then
    match answer (Dialog.standardCapacityInput d) with
    | Some standardCapacity =>
        if (standardCapacity <? 1) || (50 <? standardCapacity) then inl InvalidCapacity
        else inr standardCapacity
    | None => inl InvalidCapacity
    end
  else inl Cancelled.

(** The configuration handed to [optimizeSeating]. *)
Definition optimizationConfig (standardCapacity : Z) (knightConfig : KnightConfig.t)
    (knightGroupNames : list string) : OptimizationConfig.t :=
  OptimizationConfig.mk (Some standardCapacity)
    (if KnightConfig.enabled knightConfig then Some knightConfig else None)
    (Some knightGroupNames).

(** ** From the result to the store *)

(** [result.assignments] as an object: the keys in the order the
    optimiser sets them.  It holds what the map [finalAssignment] holds
    (lemma [finalAssignmentDict_lookup]); the map does not keep the order
    of the keys, which [Object.entries] shows. *)
Definition finalAssignmentDict (tables : list OptimizedTable.t) : list (string * string) :=
  foldl (λ d table,
           foldl (λ d' g, dictSet (Guest.id g) (OptimizedTable.id table) d')
                 d (OptimizedTable.guests table))
        [] tables.

(** [parseInt(t.id.replace('table-', ''))] *)
Definition tableNumber (t : OptimizedTable.t) : option Z :=
  parseInt (removeFirst "table-" (OptimizedTable.id t)).

(** [numA - numB]; a comparison that gives [NaN] counts as a tie. *)
Definition byTableNumber (a b : OptimizedTable.t) : Z :=
  match tableNumber a, tableNumber b with
  | Some numA, Some numB => numA - numB
  | _, _ => 0
  end.

Definition maxAllowedCapacity (standardCapacity : Z) (knightConfig : KnightConfig.t) : Z :=
  Z.max (Z.max standardCapacity (KnightConfig.capacity knightConfig)) 50.

Definition capacityToCreate (maxAllowed : Z) (algoTable : OptimizedTable.t) : Z :=
  if maxAllowed <? OptimizedTable.capacity algoTable then maxAllowed
  else OptimizedTable.capacity algoTable.

(** [array.slice(-n)]: the last [n] elements, and the whole array for
    [n = 0]. *)
Definition sliceLast {A} (n : nat) (l : list A) : list A :=
  match n with
  | O => l
  | _ => drop (length l - n) l
  end.

(** [oldTables.forEach(table => removeTable(table.id))] *)
Definition clearTables (st : SeatingStore.State) : SeatingStore.State :=
  foldl (λ s table, SeatingStore.removeTable (SeatingStore.Table.id table) s)
        st (SeatingStore.tables st).

(** The [for] loop over the sorted tables; the [index]-th call of
    [addTable] draws [draw index]. *)
Definition createTables (draw : nat → string) (maxAllowed : Z)
    (sortedAlgorithmTables : list OptimizedTable.t) (st : SeatingStore.State)
    : SeatingStore.State :=
  foldl (λ s e, SeatingStore.addTable (draw e.1) (capacityToCreate maxAllowed e.2) s) st
        (imap (λ index algoTable, (index, algoTable)) sortedAlgorithmTables).

(** [idMapping]; the two arrays have the same length when it is built. *)
Definition idMappingOf (sortedAlgorithmTables : list OptimizedTable.t)
    (actualTables : list SeatingStore.Table.t) : list (string * string) :=
  foldl (λ d e, dictSet (OptimizedTable.id e.1) (SeatingStore.Table.id e.2) d) []
        (zip sortedAlgorithmTables actualTables).

Definition realAssignmentsOf (idMapping : list (string * string))
    (assignments : list (string * string)) : list (string * string) :=
  foldl (λ d e, if truthy (dictGet e.2 idMapping)
                then dictSet e.1 (default ""%string (dictGet e.2 idMapping)) d
                else d)
        [] (objectEntries assignments).

(** The body of the [try] after the optimiser has returned; [None] is the
    [throw]. *)
Definition applyResult (draw : nat → string) (standardCapacity : Z)
    (knightConfig : KnightConfig.t) (resultTables : list OptimizedTable.t)
    (st : SeatingStore.State) : option SeatingStore.State :=
  let assignments := finalAssignmentDict resultTables in
  let st1 := clearTables st in
  let sortedAlgorithmTables := jsSort byTableNumber resultTables in
  let maxAllowed := maxAllowedCapacity standardCapacity knightConfig in
  let st2 := createTables draw maxAllowed sortedAlgorithmTables st1 in
  let actualTables := sliceLast (length sortedAlgorithmTables) (SeatingStore.tables st2) in
  if decide (length actualTables = length sortedAlgorithmTables) then
    let idMapping := idMappingOf sortedAlgorithmTables actualTables in
    Some (SeatingStore.applyOptimizedSeating (realAssignmentsOf idMapping assignments) st2)
  else None.

Definition handleOptimize (draw : nat → string) (d : Dialog.t) (st : SeatingStore.State)
    : Outcome :=
  match SeatingStore.guests st with
  | [] => NothingToSeat
  | _ =>
      match askCapacity d with
      | inl early => early
      | inr standardCapacity =>
          let '(knightConfig, knightGroupNames) := askKnights d (SeatingStore.guests st) in
          match optimizeSeating (SeatingStore.StoredGuest.guest <$> SeatingStore.guests st)
                  (optimizationConfig standardCapacity knightConfig knightGroupNames) with
          | Resolved result =>
              match applyResult draw standardCapacity knightConfig
                      (OptimizationResult.tables result) st with
              | Some st' => Optimized st'
              | None => OptimizationError
              end
          | Rejected _ => OptimizationError
          end
      end
  end.

(** * Reading the sheet ([columnMapper.ts])

    A cell is one of the primitive values a sheet gives.  A number is a
    fraction, [NaN] or an infinity.  [Number] of a string and [String] of
    a number are left as parameters: what is proved holds whatever they
    return. *)

Inductive JsNumber :=
  | NotANumber
  | Fraction (numerator : Z) (denominator : positive)
  | PlusInfinity
  | MinusInfinity.

Inductive Cell :=
  | Undefined
  | Null
  | Text (s : string)
  | Numeric (n : JsNumber)
  | Truth (b : bool).

(** [s.includes(needle)] *)
Fixpoint includes (needle s : string) : bool :=
  bool_decide (is_Some (stripPrefix needle s))
  || match s with
     | String _ s' => includes needle s'
     | EmptyString => false
     end.

Section Cells.
Variable toNumber : string → JsNumber.
Variable numberToString : JsNumber → string.

(** [!value] *)
Definition falsy (value : Cell) : bool :=
  match value with
  | Undefined | Null => true
  | Text s => bool_decide (s = ""%string)
  | Numeric NotANumber => true
  | Numeric (Fraction n _) => bool_decide (n = 0)
  | Numeric _ => false
  | Truth b => negb b
  end.

(** [Number(value)] *)
Definition asNumber (value : Cell) : JsNumber :=
  match value with
  | Undefined => NotANumber
  | Null => Fraction 0 1
  | Text s => toNumber s
  | Numeric n => n
  | Truth b => Fraction (if b then 1 else 0) 1
  end.

(** [String(value)] *)
Definition asString (value : Cell) : string :=
  match value with
  | Undefined => "undefined"
  | Null => "null"
  | Text s => s
  | Numeric n => numberToString n
  | Truth b => if b then "true" else "false"
  end.

(** The fallback of [parseAmount] for text like [plus 1]. *)
Definition amountFromText (value : Cell) : Z :=
  let str := toLowerCase (asString value) in
  if includes "+1" str || includes "plus 1" str then 2
  else if includes "+2" str || includes "plus 2" str then 3
  else 1.

(** [isNaN(num) || num < 0 || num > 20] fails exactly on a fraction from
    0 to 20. *)
Definition parseAmount (value : Cell) : Z :=
  if falsy value then 1
  else
    match asNumber value with
    | Fraction n d =>
        if (n <? 0) || (20 * Z.pos d <? n) then amountFromText value
        else Z.max 1 (n / Z.pos d)
    | _ => amountFromText value
    end.

Definition parseAge (value : Cell) : option Z :=
  if falsy value then None
  else
    match asNumber value with
    | Fraction n d =>
        if (n <? 0) || (120 * Z.pos d <? n) then None
        else Some (n / Z.pos d)
    | _ => None
    end.
End Cells.

(** * Chair ids ([GuestSeat.tsx], [Dashboard.tsx]) *)

(** [`${guest.id}-chair-${chairIndex}`] *)
Definition chairId (guestId : string) (chairIndex : nat) : string :=
  (guestId +:+ "-chair-" +:+ pretty chairIndex)%string.

(** [s.split(separator)[0]] for a separator that is not empty: what comes
    before its first occurrence. *)
Fixpoint firstPiece (separator s : string) : string :=
  match stripPrefix separator s with
  | Some _ => EmptyString
  | None =>
      match s with
      | String c s' => String c (firstPiece separator s')
      | EmptyString => EmptyString
      end
  end.

(** The guest a drag is about, from the id of what is dragged. *)
Definition draggedGuestId (activeId : string) : string :=
  if includes "-chair-" activeId then firstPiece "-chair-" activeId else activeId.

(** * Tables on screen ([TablesGrid.tsx], [TableCard], [RectangularTable.tsx]) *)

(** [guests.filter(g => g.tableId === table.id)] ([TablesGrid.tsx]) *)
Definition tableGuests (st : SeatingStore.State) (table : SeatingStore.Table.t)
    : list SeatingStore.StoredGuest.t :=
  filter (λ g, SeatingStore.tableIdOf g = Some (SeatingStore.Table.id table))
         (SeatingStore.guests st).

(** [guests.reduce((sum, g) => sum + (g.amount || 1), 0)] ([TableCard]) *)
Definition totalOccupied (guests : list SeatingStore.StoredGuest.t) : Z :=
  foldl (λ sum g, sum + gSize (SeatingStore.StoredGuest.guest g)) 0 guests.

Module Seat.
Record t := mk {
  idx : nat;
  guest : option SeatingStore.StoredGuest.t;
  chairIndex : nat;
  row : nat
}.
End Seat.

(** The guests of the table, each as often as its [amount || 1]. *)
Definition assignedQueue (guests : list SeatingStore.StoredGuest.t)
    : list (SeatingStore.StoredGuest.t * nat) :=
  guests ≫= λ g, (λ i, (g, i)) <$> seq 0 (Z.to_nat (gSize (SeatingStore.StoredGuest.guest g))).

(** One chair per unit of capacity; chair [i] takes the [i]-th of the
    queue, if there is one. *)
Definition seats (capacity : Z) (guests : list SeatingStore.StoredGuest.t) : list Seat.t :=
  let halfCap := (capacity + 1) / 2 in
  (λ i, let assignment := assignedQueue guests !! i in
        Seat.mk i (fst <$> assignment) (default 0%nat (snd <$> assignment))
                (if Z.of_nat i <? halfCap then 0%nat else 1%nat))
    <$> seq 0 (Z.to_nat capacity).

(** * The previous revision of [optimizeSeating]

    The sources hold [seatingAlgorithm.ts] twice.  The revision embedded
    first weighs a guest by [amount]; the one before it, embedded here,
    counts guests: a table's space is its capacity minus the number of
    its guests, a chunk is a prefix of [guestsToSeat], the members the
    knight tables cannot take go back to the general pool, there is no
    merge pass, and the assignment returned is the one the loops write.
    [groupGuestsByRelationship], the choice of the knight candidates,
    [markFirst], [seat] and the side rule are the same in both. *)

Module Legacy.

(** [sideCounts[g.side]++], [categoryCounts[g.category]++] *)
Definition sideCount (gs : list Guest.t) (s : GuestSide) : Z :=
  foldl (λ n g, if decide (Guest.side g = s) then n + 1 else n) 0 gs.

Definition categoryCount (gs : list Guest.t) (c : GuestCategory) : Z :=
  foldl (λ n g, if decide (Guest.category g = c) then n + 1 else n) 0 gs.

Definition dominantSide (gs : list Guest.t) : GuestSide :=
  (reduceLeader (groom, sideCount gs groom)
     ((λ s, (s, sideCount gs s)) <$> [bride; both])).1.

Definition dominantCategory (gs : list Guest.t) : GuestCategory :=
  (reduceLeader (family, categoryCount gs family)
     ((λ c, (c, categoryCount gs c)) <$> [friend; colleague; other])).1.

(** [{ ...group, dominantSide, dominantCategory, isRequestedForKnight }]:
    [size] stays the number of members. *)
Definition classify (knightTargetGroups : list string) (group : GuestGroup.t)
    : GuestGroup.t :=
  GuestGroup.mk
    (GuestGroup.groupId group)
    (GuestGroup.guests group)
    (GuestGroup.size group)
    (dominantSide (GuestGroup.guests group))
    (dominantCategory (GuestGroup.guests group))
    (bool_decide (normalize (GuestGroup.groupId group) ∈ knightTargetGroups)).

(** [table.capacity - table.guests.length] *)
Definition spaceOf (t : WorkingTable.t) : Z :=
  WorkingTable.capacity t - Z.of_nat (length (WorkingTable.guests t)).

Module Seating.
(** The mutable locals shared by the seating loops. *)
Record t := mk {
  tableAssignments : TableAssignments;
  tableCounter : nat;
  assignment : list (string * string)
}.
End Seating.

(** [for (const guest of chunk) { assignment[guest.id] = tableId;
    table.guests.push(guest) }], and the [if] that follows it where there
    is one. *)
Definition assign (tableId : nat) (chunk : list Guest.t)
    (assignment : list (string * string)) : list (string * string) :=
  foldl (λ d guest, dictSet (Guest.id guest) (tableName tableId) d) assignment chunk.

Definition seatAt (mark : WorkingTable.t → WorkingTable.t) (tableId : nat)
    (chunk : list Guest.t) (st : Seating.t) : Seating.t :=
  Seating.mk (dictAlter (λ t, mark (seat chunk t)) tableId (Seating.tableAssignments st))
             (Seating.tableCounter st)
             (assign tableId chunk (Seating.assignment st)).

(** [tableAssignments[`table-${tableCounter++}`] = table] *)
Definition openTable (table : WorkingTable.t) (st : Seating.t) : Seating.t :=
  Seating.mk (dictSet (Seating.tableCounter st) table (Seating.tableAssignments st))
             (S (Seating.tableCounter st))
             (Seating.assignment st).

(** [guestsToSeat.splice(0, n)]: what is taken and what is left. *)
Definition spliceFront (n : Z) (guestsToSeat : list Guest.t) : list Guest.t * list Guest.t :=
  (take (Z.to_nat n) guestsToSeat, drop (Z.to_nat n) guestsToSeat).

(** ** Phase A: knight tables *)

(** The knight table with the largest space: [(bestTableId, maxSpace)]. *)
Definition knightBest (count : nat) (ta : TableAssignments) : option nat * Z :=
  foldl (λ acc i,
           match dictGet i ta with
           | Some table =>
               let space := spaceOf table in
               if (0 <? space) && (acc.2 <? space) then (Some i, space) else acc
           | None => acc
           end)
        (None, -1) (seq 0 count).

(** [{ ...group, guests: guestsToSeat, size: guestsToSeat.length }] *)
Definition leftoverGroup (group : GuestGroup.t) (guestsToSeat : list Guest.t) : GuestGroup.t :=
  GuestGroup.mk (GuestGroup.groupId group) guestsToSeat (Z.of_nat (length guestsToSeat))
    (GuestGroup.dominantSide group) (GuestGroup.dominantCategory group)
    (GuestGroup.isRequestedForKnight group).

(** The [while (guestsToSeat.length > 0)] loop of one candidate group. *)
Fixpoint knightSeat (fuel : nat) (count : nat) (group : GuestGroup.t)
    (st : Seating.t) (processedGroups : list GuestGroup.t)
    (guestsToSeat : list Guest.t) : Seating.t * list GuestGroup.t :=
  match fuel, guestsToSeat with
  | O, _ | _, [] => (st, processedGroups)
  | S fuel', _ :: _ =>
      match knightBest count (Seating.tableAssignments st) with
      | (Some bestTableId, maxSpace) =>
          if 0 <? maxSpace then
            let '(chunk, rest) := spliceFront maxSpace guestsToSeat in
            knightSeat fuel' count group
              (seatAt (markFirst group chunk) bestTableId chunk st)
              processedGroups rest
          else (st, processedGroups ++ [leftoverGroup group guestsToSeat])
      | (None, _) => (st, processedGroups ++ [leftoverGroup group guestsToSeat])
      end
  end.

Definition knightGroup (count : nat) (acc : Seating.t * list GuestGroup.t)
    (group : GuestGroup.t) : Seating.t * list GuestGroup.t :=
  knightSeat (length (GuestGroup.guests group)) count group acc.1 acc.2
             (GuestGroup.guests group).

(** The whole phase: the state and [processedGroups]. *)
Definition knightPhase (knightConfig : KnightConfig.t) (processedGroups : list GuestGroup.t)
    : Seating.t * list GuestGroup.t :=
  if KnightConfig.enabled knightConfig && (0 <? KnightConfig.count knightConfig) then
    let count := Z.to_nat (KnightConfig.count knightConfig) in
    let ta := initKnightTables count (KnightConfig.capacity knightConfig) in
    let '(knightCandidates, pool) := selectKnightCandidates processedGroups in
    foldl (knightGroup count) (Seating.mk ta count [], pool)
          (jsSort bySizeDesc knightCandidates)
  else (Seating.mk [] 0%nat [], processedGroups).

(** ** Standard tables *)

(** The tightest standard table that takes all of [guestsToSeat]. *)
Definition bestFit (group : GuestGroup.t) (needed : Z) (ta : TableAssignments)
    : option nat :=
  (foldl (λ (acc : option nat * option Z) e,
            let space := spaceOf e.2 in
            if (needed <=? space) && isSideMatch group e.2 then
              match acc.2 with
              | Some minRemainingSpace =>
                  if space <? minRemainingSpace then (Some e.1, Some space) else acc
              | None => (Some e.1, Some space)
              end
            else acc)
         (None, None) (standardTables ta)).1.

(** The side-compatible standard table with the largest space:
    [(bestPartialTableId, maxPartialSpace)]. *)
Definition bestPartial (group : GuestGroup.t) (ta : TableAssignments) : option nat * Z :=
  foldl (λ acc e,
           let space := spaceOf e.2 in
           if (0 <? space) && isSideMatch group e.2 && (acc.2 <? space)
           then (Some e.1, space) else acc)
        (None, -1) (standardTables ta).

(** The [while (guestsToSeat.length > 0)] loop of one group. *)
Fixpoint standardSeat (fuel : nat) (tableCapacity : Z) (group : GuestGroup.t)
    (st : Seating.t) (guestsToSeat : list Guest.t) : Seating.t :=
  match fuel, guestsToSeat with
  | O, _ | _, [] => st
  | S fuel', _ :: _ =>
      let needed := Z.of_nat (length guestsToSeat) in
      match bestFit group needed (Seating.tableAssignments st) with
      | Some bestFitTableId =>
          seatAt (markFirst group guestsToSeat) bestFitTableId guestsToSeat st
      | None =>
          if needed <=? tableCapacity then
            seatAt id (Seating.tableCounter st) guestsToSeat
                   (openTable (newStandardTable group tableCapacity) st)
          else
            match bestPartial group (Seating.tableAssignments st) with
            | (Some bestPartialTableId, maxPartialSpace) =>
                let '(chunk, rest) := spliceFront maxPartialSpace guestsToSeat in
                standardSeat fuel' tableCapacity group
                  (seatAt (markFirst group chunk) bestPartialTableId chunk st) rest
            | (None, _) =>
                let '(chunk, rest) := spliceFront tableCapacity guestsToSeat in
                standardSeat fuel' tableCapacity group
                  (seatAt id (Seating.tableCounter st) chunk
                          (openTable (newStandardTable group tableCapacity) st))
                  rest
            end
      end
  end.

Definition standardGroup (tableCapacity : Z) (st : Seating.t) (group : GuestGroup.t)
    : Seating.t :=
  standardSeat (length (GuestGroup.guests group)) tableCapacity group st
               (GuestGroup.guests group).

Definition standardPhase (tableCapacity : Z) (st : Seating.t)
    (processedGroups : list GuestGroup.t) : Seating.t :=
  foldl (standardGroup tableCapacity) st (jsSort bySizeDesc processedGroups).

(** ** The entry point *)

Definition classifiedGroups (guests : list Guest.t) (config : OptimizationConfig.t)
    : list GuestGroup.t :=
  classify (knightTargetGroups config) <$> grouped guests.

Definition afterKnights (guests : list Guest.t) (config : OptimizationConfig.t)
    : Seating.t * list GuestGroup.t :=
  knightPhase (knightConfigOf config) (classifiedGroups guests config).

Definition afterStandard (guests : list Guest.t) (config : OptimizationConfig.t)
    : Seating.t :=
  let '(st, processedGroups) := afterKnights guests config in
  standardPhase (tableCapacityOf config) st processedGroups.

(** [{ assignments: assignment, tables: resultTables }]; [assignments] is
    the object the loops have written. *)
Module Result.
Record t := mk {
  assignments : list (string * string);
  tables : list OptimizedTable.t
}.
End Result.

(** What the promise resolves with.  Each loop gets as many turns as the
    group has members: a turn that stays in the loop seats at least one
    member when [tableCapacity] is 1 or more.  Below that the split loop
    of the source opens one empty table after the other and never
    returns; here it stops when the turns are used up. *)
Definition seatingResult (guests : list Guest.t) (config : OptimizationConfig.t)
    : Result.t :=
  let st := afterStandard guests config in
  Result.mk (Seating.assignment st) (resultTable <$> Seating.tableAssignments st).

(** [optimizeSeating] from step 2 on, for the groups that step 1 returned. *)
Definition seating (originalGroups : list GuestGroup.t) (config : OptimizationConfig.t)
    : Result.t :=
  let processedGroups := classify (knightTargetGroups config) <$> originalGroups in
  let '(st, pool) := knightPhase (knightConfigOf config) processedGroups in
  let st' := standardPhase (tableCapacityOf config) st pool in
  Result.mk (Seating.assignment st') (resultTable <$> Seating.tableAssignments st').

(** The call: the grouping is the one of the current revision and throws
    as it does. *)
Definition optimizeSeating (guests : list Guest.t) (config : OptimizationConfig.t)
    : Promise Result.t :=
  match groupGuestsByRelationship guests with
  | inl error => Rejected error
  | inr originalGroups => Resolved (seating originalGroups config)
  end.

End Legacy.

(** * What the properties speak of *)

(** ** The classifier and the scans *)

(** The order in which the tally objects declare their keys. *)
Definition sideOrder (s : GuestSide) : nat :=
  match s with groom => 0 | bride => 1 | both => 2 end.

Definition categoryOrder (c : GuestCategory) : nat :=
  match c with family => 0 | friend => 1 | colleague => 2 | other => 3 end.

(** The greedy scan written as a recursion: with [taken] seats already
    taken, a member is kept when it still fits and skipped otherwise. *)
Fixpoint firstFit (space taken : Z) (l : list Guest.t) : list Guest.t :=
  match l with
  | [] => []
  | g :: l' =>
      if taken + gSize g <=? space
      then g :: firstFit space (taken + gSize g) l'
      else firstFit space taken l'
  end.

(** ** Guests *)

(** All members of a list of groups, in order. *)
Definition poolGuests (groups : list GuestGroup.t) : list Guest.t :=
  groups ≫= GuestGroup.guests.

(** All guests seated at the tables, table by table. *)
Definition seated (ta : TableAssignments) : list Guest.t :=
  ta ≫= λ e, WorkingTable.guests e.2.

(** All members held by the [groups] object, key by key. *)
Definition dictGuests (groups : list (string * list Guest.t)) : list Guest.t :=
  groups ≫= snd.

(** No two guests of the list share an [id]. *)
Definition distinctIds (l : list Guest.t) : Prop := NoDup (Guest.id <$> l).

(** No group key is the key made up for an ungrouped guest. *)
Definition noKeyCollision (guests : list Guest.t) : Prop :=
  ∀ g g' key, g ∈ guests → g' ∈ guests →
    groupKey g = Some key → groupKey g' = None → key ≠ individualKey g'.

(** The guest's group key is not a property that objects inherit: pushing
    the guest under it does not throw. *)
Definition ownGroupKey (g : Guest.t) : Prop :=
  match groupKey g with
  | Some key => key ∉ inheritedKeys
  | None => True
  end.

#[global] Instance ownGroupKey_dec g : Decision (ownGroupKey g).
Proof. unfold ownGroupKey. destruct (groupKey g); apply _. Defined.

(** No push of the grouping throws. *)
Definition ownGroupKeys (guests : list Guest.t) : Prop := Forall ownGroupKey guests.

(** Text of ASCII characters.  On such text the [trim] and [toLowerCase] of
    the embedding are those of the source; outside it the source's know
    white space and letters that the embedding's do not. *)
Fixpoint isAscii (s : string) : bool :=
  match s with
  | EmptyString => true
  | String c s' => (N_of_ascii c <? 128)%N && isAscii s'
  end.

Definition asciiGroupIds (guests : list Guest.t) : Prop :=
  Forall (λ g, match Guest.groupId g with
               | Some groupId => isAscii groupId = true
               | None => True
               end) guests.

Definition asciiIds (guests : list Guest.t) : Prop :=
  Forall (λ g, isAscii (Guest.id g) = true) guests.

(** Sizes on which the arithmetic of the source, done on doubles, is
    exact: the capacities and the sizes of all guests together stay within
    2^53, and so does every sum and difference a run forms. *)
Definition exactSizes (guests : list Guest.t) (config : OptimizationConfig.t) : Prop :=
  Z.abs (tableCapacityOf config) + Z.abs (KnightConfig.capacity (knightConfigOf config))
  + foldr (λ g sum, Z.abs (gSize g) + sum) 0 guests ≤ 2 ^ 53.

Definition asciiNames (config : OptimizationConfig.t) : Prop :=
  match OptimizationConfig.knightGroupNames config with
  | Some names => Forall (λ name, isAscii name = true) names
  | None => True
  end.

(** ** Tables *)

(** Keys are distinct and below the counter that names the next table. *)
Definition wfTables (ta : TableAssignments) (tableCounter : nat) : Prop :=
  NoDup ta.*1 ∧ ∀ k, k ∈ ta.*1 → (k < tableCounter)%nat.

(** Well-formed tables that all satisfy [P]. *)
Definition tablesOk (P : WorkingTable.t → Prop) (ta : TableAssignments)
    (tableCounter : nat) : Prop :=
  wfTables ta tableCounter ∧ Forall (λ e, P e.2) ta.

(** The knight phase runs. *)
Definition knightPhaseOn (config : OptimizationConfig.t) : Prop :=
  KnightConfig.enabled (knightConfigOf config) = true ∧
  0 < KnightConfig.count (knightConfigOf config).

(** The knight tables satisfy [P] when they are created. *)
Definition knightTablesOk (P : WorkingTable.t → Prop) (config : OptimizationConfig.t)
    : Prop :=
  KnightConfig.enabled (knightConfigOf config) = true →
  0 < KnightConfig.count (knightConfigOf config) →
  P (knightTable (KnightConfig.capacity (knightConfigOf config))).

(** The table holds no more than its capacity. *)
Definition withinCapacity (t : WorkingTable.t) : Prop :=
  occupancy t ≤ WorkingTable.capacity t.

(** A standard table is widened when it holds exactly one guest, larger
    than the standard capacity, and its capacity is that guest's size. *)
Definition widened (tableCapacity : Z) (t : WorkingTable.t) : Prop :=
  ∃ g, WorkingTable.guests t = [g] ∧ WorkingTable.capacity t = gSize g ∧
       tableCapacity < gSize g.

(** A capacity is a configured one, or that of a widened table. *)
Definition capacityOk (knightCapacity tableCapacity : Z) (t : WorkingTable.t) : Prop :=
  if WorkingTable.isKnight t then WorkingTable.capacity t = knightCapacity
  else WorkingTable.capacity t = tableCapacity ∨ widened tableCapacity t.

(** Every guest counts for at least one seat. *)
Definition positiveSizes (l : list Guest.t) : Prop := Forall (λ g, 0 < gSize g) l.

(** The ids of the guests seated at a table of the result. *)
Definition tableIds (t : OptimizedTable.t) : list string :=
  Guest.id <$> OptimizedTable.guests t.

(** A table of the result holds no more than its capacity. *)
Definition fits (t : OptimizedTable.t) : Prop :=
  getGuestsSize (OptimizedTable.guests t) ≤ OptimizedTable.capacity t.

(** ** The store *)

(** What the store held below [n0] is still there: the objects, and every
    array with a reference below [n0]. *)
Definition preserved (n0 : nat) (s s' : Refs.Store) : Prop :=
  Refs.objects s' = Refs.objects s ∧
  (n0 ≤ length (Refs.arrays s'))%nat ∧
  ∀ a, (a < n0)%nat → Refs.arrays s' !! a = Refs.arrays s !! a.

(** The table arrays are arrays the run made itself, none below [n0]. *)
Definition ownTables (n0 : nat) (ta : Refs.Tables) : Prop :=
  Forall (λ e, (n0 ≤ Refs.Table.guests e.2)%nat) ta.

(** ** Example inputs *)

(** A guest whose name is its id, and a configuration with a table capacity. *)
Definition guestOf (id : string) (category : GuestCategory) (side : GuestSide)
    (groupId : option string) (amount : option Z) : Guest.t :=
  Guest.mk id id category side groupId None amount.

Definition configOf (tableCapacity : Z) (knightConfig : option KnightConfig.t)
    (knightGroupNames : option (list string)) : OptimizationConfig.t :=
  OptimizationConfig.mk (Some tableCapacity) knightConfig knightGroupNames.

(** One friend who needs three seats, and one knight table with two. *)
Definition partyOfThree : Guest.t := guestOf "g1" friend groom None (Some 3).
Definition oneSmallKnightTable : OptimizationConfig.t :=
  configOf 12 (Some (KnightConfig.mk true 1 2)) None.

(** One friend in a group, and knight tables asked for a group that does
    not exist. *)
Definition pal : Guest.t := guestOf "p1" friend groom (Some "pals") None.
Definition namedKnights : OptimizationConfig.t :=
  configOf 12 (Some (KnightConfig.mk true 1 10)) (Some ["vip"]).

(** A group whose tallies tie. *)
Definition tiedGroup : list Guest.t :=
  [guestOf "a" family groom (Some "mixed") None;
   guestOf "b" friend bride (Some "mixed") None].

(** Two knight tables of capacity -1. *)
Definition negativeKnights : OptimizationConfig.t :=
  configOf 12 (Some (KnightConfig.mk true 2 (-1))) None.

(** Table capacity 0, knight capacity 0, knight count -1. *)
Definition invalidConfig : OptimizationConfig.t :=
  configOf 0 (Some (KnightConfig.mk true (-1) 0)) None.

(** One group with members of three, two and one seats. *)
Definition threeTwoOne : list Guest.t :=
  [guestOf "b" family groom (Some "fam") (Some 3);
   guestOf "c" family groom (Some "fam") (Some 2);
   guestOf "d" family groom (Some "fam") (Some 1)].


(** Scenario E of the spec: six friends, one knight table of four. *)
Definition sixFriends : list Guest.t :=
  (λ id, guestOf id friend groom (Some "pals") (Some 1)) <$> ["a"; "b"; "c"; "d"; "e"; "f"].
Definition oneKnightTableOfFour : OptimizationConfig.t :=
  configOf 12 (Some (KnightConfig.mk true 1 4)) None.

(** Scenario C of the spec: one guest of fifteen seats, tables of twelve. *)
Definition partyOfFifteen : Guest.t := guestOf "big" family groom None (Some 15).

(** Scenario A of the spec: three single guests, tables of two. *)
Definition threeSingles : list Guest.t :=
  (λ id, guestOf id family groom None (Some 1)) <$> ["a"; "b"; "c"].

(** A store that holds the six friends and the input array that lists them. *)
Definition sixFriendsStore : Refs.Store :=
  Refs.mkStore sixFriends [[0; 1; 2; 3; 4; 5]%nat].

(** ** The seating store and the handler *)

(** The two records of the seating agree: a guest's [tableId] names a
    table of the store that lists the guest, a table lists only guests
    whose [tableId] names it, and lists none twice; ids are distinct and
    no table id is empty. *)
Definition consistent (st : SeatingStore.State) : Prop :=
  NoDup (SeatingStore.idOf <$> SeatingStore.guests st) ∧
  NoDup (SeatingStore.Table.id <$> SeatingStore.tables st) ∧
  Forall (λ t, SeatingStore.Table.id t ≠ ""%string) (SeatingStore.tables st) ∧
  (∀ g tableId, g ∈ SeatingStore.guests st → SeatingStore.tableIdOf g = Some tableId →
     ∃ t, t ∈ SeatingStore.tables st ∧ SeatingStore.Table.id t = tableId ∧
          SeatingStore.idOf g ∈ SeatingStore.Table.assignedGuests t) ∧
  (∀ t guestId,
     t ∈ SeatingStore.tables st → guestId ∈ SeatingStore.Table.assignedGuests t →
     ∃ g, g ∈ SeatingStore.guests st ∧ SeatingStore.idOf g = guestId ∧
          SeatingStore.tableIdOf g = Some (SeatingStore.Table.id t)) ∧
  Forall (λ t, NoDup (SeatingStore.Table.assignedGuests t)) (SeatingStore.tables st).

(** What an action takes for granted: a drawn id is new (and a table's
    is not empty), a new guest comes without a table, and the keys and
    values of [assignments] are guests and tables of the store. *)
Definition admissible (a : Action) (st : SeatingStore.State) : Prop :=
  match a with
  | AddGuest newId guestData =>
      (newId ∉ SeatingStore.idOf <$> SeatingStore.guests st) ∧ Guest.tableId guestData = None
  | ImportGuests guestsData =>
      NoDup ((SeatingStore.idOf <$> SeatingStore.guests st) ++ guestsData.*1) ∧
      Forall (λ e, Guest.tableId e.2 = None) guestsData
  | AddTable newId _ =>
      newId ≠ ""%string ∧ newId ∉ SeatingStore.Table.id <$> SeatingStore.tables st
  | ApplyOptimizedSeating assignments =>
      NoDup assignments.*1 ∧
      Forall (λ e, e.1 ∈ SeatingStore.idOf <$> SeatingStore.guests st ∧
                   e.2 ∈ SeatingStore.Table.id <$> SeatingStore.tables st) assignments
  | _ => True
  end.

(** No table lists more guests than its capacity. *)
Definition notOverfull (st : SeatingStore.State) : Prop :=
  Forall (λ t, Z.of_nat (length (SeatingStore.Table.assignedGuests t))
               ≤ SeatingStore.Table.capacity t)
         (SeatingStore.tables st).

(** The tables are numbered 1, 2, ... in the order of the list. *)
Definition numbered (st : SeatingStore.State) : Prop :=
  ∀ index t, SeatingStore.tables st !! index = Some t →
             SeatingStore.Table.number t = Z.of_nat index + 1.

(** [x] and [y] are a pair of [conflicts], in either order. *)
Definition inConflict (x y : string) (st : SeatingStore.State) : Prop :=
  (x, y) ∈ SeatingStore.conflicts st ∨ (y, x) ∈ SeatingStore.conflicts st.

(** Every guest lists in [conflictsWith] exactly the ids it is paired
    with. *)
Definition conflictsAgree (st : SeatingStore.State) : Prop :=
  ∀ g x, g ∈ SeatingStore.guests st →
    x ∈ SeatingStore.StoredGuest.conflictsWith g ↔ inConflict (SeatingStore.idOf g) x st.

(** The guests as [optimizeSeating] gets them. *)
Definition guestsOf (st : SeatingStore.State) : list Guest.t :=
  SeatingStore.StoredGuest.guest <$> SeatingStore.guests st.

(** The dialogs, when they are answered so that the optimiser runs. *)
Definition answered (d : Dialog.t) (st : SeatingStore.State) (standardCapacity : Z)
    (knightConfig : KnightConfig.t) (knightGroupNames : list string) : Prop :=
  SeatingStore.guests st ≠ [] ∧ askCapacity d = inr standardCapacity ∧
  askKnights d (SeatingStore.guests st) = (knightConfig, knightGroupNames).


(** The entries a table of the result adds to [result.assignments]. *)
Definition tableEntries (t : OptimizedTable.t) : list (string * string) :=
  (λ g, (Guest.id g, OptimizedTable.id t)) <$> OptimizedTable.guests t.

(** The table the [index]-th [addTable] of the handler appends to a list
    of [first] tables. *)
Definition createdTable (draw : nat → string) (maxAllowed : Z) (first : nat)
    (index : nat) (algoTable : OptimizedTable.t) : SeatingStore.Table.t :=
  SeatingStore.Table.mk (draw index) (Z.of_nat (first + index) + 1)
    (capacityToCreate maxAllowed algoTable) [].

(** The store after the handler has cleared the old tables and created
    the new ones, the [idMapping] it then builds and the assignment it
    applies. *)
Definition rebuiltStore (draw : nat → string) (standardCapacity : Z)
    (knightConfig : KnightConfig.t) (resultTables : list OptimizedTable.t)
    (st : SeatingStore.State) : SeatingStore.State :=
  createTables draw (maxAllowedCapacity standardCapacity knightConfig)
    (jsSort byTableNumber resultTables) (clearTables st).

Definition handlerIdMapping (draw : nat → string) (standardCapacity : Z)
    (knightConfig : KnightConfig.t) (resultTables : list OptimizedTable.t)
    (st : SeatingStore.State) : list (string * string) :=
  idMappingOf (jsSort byTableNumber resultTables)
    (SeatingStore.tables
       (rebuiltStore draw standardCapacity knightConfig resultTables st)).

Definition handlerAssignments (draw : nat → string) (standardCapacity : Z)
    (knightConfig : KnightConfig.t) (resultTables : list OptimizedTable.t)
    (st : SeatingStore.State) : list (string * string) :=
  realAssignmentsOf
    (handlerIdMapping draw standardCapacity knightConfig resultTables st)
    (finalAssignmentDict resultTables).

(** ** The previous revision *)

(** A table holds no more guests than its capacity, counted by heads. *)
Definition headcountOk (t : WorkingTable.t) : Prop :=
  Z.of_nat (length (WorkingTable.guests t)) ≤ Z.max 0 (WorkingTable.capacity t).

(** The assignment has one entry for each seated guest, and the entry
    names the guest's table. *)
Definition assignmentAgrees (st : Legacy.Seating.t) : Prop :=
  (Legacy.Seating.assignment st).*1
    ≡ₚ Guest.id <$> seated (Legacy.Seating.tableAssignments st)
  ∧ ∀ k t g, (k, t) ∈ Legacy.Seating.tableAssignments st →
      g ∈ WorkingTable.guests t →
      dictGet (Guest.id g) (Legacy.Seating.assignment st) = Some (tableName k).

(** The tables of the loops: distinct keys below the counter, and no
    table over its head count. *)
Definition legacyOk (st : Legacy.Seating.t) : Prop :=
  tablesOk headcountOk (Legacy.Seating.tableAssignments st) (Legacy.Seating.tableCounter st).

(** ** Example stores and dialogs *)

(** The ids drawn for the tables of the examples. *)
Definition drawn (index : nat) : string := ("t" +:+ pretty index)%string.

(** The three single guests, imported under their own ids. *)
Definition threeSinglesStore : SeatingStore.State :=
  SeatingStore.importGuests ((λ g, (Guest.id g, g)) <$> threeSingles)
    SeatingStore.initialState.

(** Tables of two, no knight tables. *)
Definition tablesOfTwo : Dialog.t := Dialog.mk (Some "2"%string) false None None None.

(** Guest [a] at a table of two, the others unseated. *)
Definition oneSeatedStore : SeatingStore.State :=
  SeatingStore.assignGuestToTable "a" "t0"
    (SeatingStore.addTable "t0" 2 threeSinglesStore).

(** Guests [a] and [b] in conflict. *)
Definition conflictStore : SeatingStore.State :=
  SeatingStore.addConflict "a" "b" threeSinglesStore.

(** Guest [a] as [conflictStore] holds it. *)
Definition guestInConflict : SeatingStore.StoredGuest.t :=
  SeatingStore.StoredGuest.mk (guestOf "a" family groom None (Some 1)) ["b"%string].

(** The state of the loops before any table is opened. *)
Definition noTables : Legacy.Seating.t := Legacy.Seating.mk [] 0 [].

(** The six friends as one group. *)
Definition pals : GuestGroup.t := GuestGroup.mk "pals" sixFriends 6 groom friend false.

(** * Properties *)

(** ** Sizes, sorting and dictionaries *)

Lemma getGuestsSize_from (n : Z) (l : list Guest.t) :
  foldl (λ sum g, sum + gSize g) n l = n + getGuestsSize l.
Proof.
  unfold getGuestsSize. revert n.
  induction l as [|g l IH]; intros n; simpl; [lia|].
  rewrite (IH (n + gSize g)), (IH (0 + gSize g)). lia.
Qed.

Lemma getGuestsSize_nil : getGuestsSize [] = 0.
Proof. reflexivity. Qed.

Lemma getGuestsSize_cons g l : getGuestsSize (g :: l) = gSize g + getGuestsSize l.
Proof. unfold getGuestsSize at 1. simpl. apply getGuestsSize_from. Qed.

Lemma getGuestsSize_app l1 l2 :
  getGuestsSize (l1 ++ l2) = getGuestsSize l1 + getGuestsSize l2.
Proof.
  induction l1 as [|g l1 IH]; simpl; [rewrite getGuestsSize_nil; lia|].
  rewrite !getGuestsSize_cons, IH. lia.
Qed.

Lemma getGuestsSize_perm l1 l2 : l1 ≡ₚ l2 → getGuestsSize l1 = getGuestsSize l2.
Proof.
  induction 1; rewrite ?getGuestsSize_cons in *; lia.
Qed.

Lemma sortInsert_perm {A} (cmp : A → A → Z) x l : sortInsert cmp x l ≡ₚ x :: l.
Proof.
  induction l as [|y l IH]; simpl; [done|].
  destruct (0 <? cmp x y); [|done].
  rewrite IH. apply Permutation_swap.
Qed.

Lemma jsSort_perm {A} (cmp : A → A → Z) l : jsSort cmp l ≡ₚ l.
Proof.
  induction l as [|x l IH]; simpl; [done|].
  by rewrite sortInsert_perm, IH.
Qed.

(** ** The classifier's tie-break *)

Lemma dominantSide_max gs s : sideCount gs s ≤ sideCount gs (dominantSide gs).
Proof.
  unfold dominantSide, reduceLeader, pickLeader; simpl.
  repeat (case_match; simpl in * ); destruct s; lia.
Qed.

Lemma dominantSide_latest gs s :
  (sideOrder (dominantSide gs) < sideOrder s)%nat →
  sideCount gs s < sideCount gs (dominantSide gs).
Proof.
  unfold dominantSide, reduceLeader, pickLeader; simpl.
  repeat (case_match; simpl in * ); destruct s; simpl; lia.
Qed.

Lemma dominantCategory_max gs c :
  categoryCount gs c ≤ categoryCount gs (dominantCategory gs).
Proof.
  unfold dominantCategory, reduceLeader, pickLeader; simpl.
  repeat (case_match; simpl in * ); destruct c; lia.
Qed.

Lemma dominantCategory_latest gs c :
  (categoryOrder (dominantCategory gs) < categoryOrder c)%nat →
  categoryCount gs c < categoryCount gs (dominantCategory gs).
Proof.
  unfold dominantCategory, reduceLeader, pickLeader; simpl.
  repeat (case_match; simpl in * ); destruct c; simpl; lia.
Qed.

(** ** Dictionaries *)

Section DictFacts.
Context {K : Type} `{EqDecision K} {V : Type}.
Implicit Types (d : list (K * V)) (k : K) (v : V).

Lemma dictGet_elem_of k v d : dictGet k d = Some v → (k, v) ∈ d.
Proof.
  induction d as [|[k' v'] d IH]; simpl; [done|].
  case_decide; intros ?; simplify_eq; [left|right; auto].
Qed.

Lemma dictGet_None k d : dictGet k d = None ↔ k ∉ d.*1.
Proof.
  induction d as [|[k' v'] d IH]; simpl.
  - split; [intros _; apply not_elem_of_nil|done].
  - rewrite not_elem_of_cons. case_decide; [|tauto].
    split; [done|]. intros [? _]. congruence.
Qed.

Lemma dictGet_NoDup k v d : NoDup d.*1 → (k, v) ∈ d → dictGet k d = Some v.
Proof.
  induction d as [|[k' v'] d IH]; simpl; [by intros _ ?%elem_of_nil|].
  intros Hnd Hin. apply NoDup_cons in Hnd as [Hk Hd].
  apply elem_of_cons in Hin as [?|Hin]; simplify_eq.
  - by rewrite decide_True.
  - rewrite decide_False; [auto|].
    intros ->. apply Hk. apply list_elem_of_fmap. by exists (k', v).
Qed.

Lemma dictSet_fresh k v d : k ∉ d.*1 → dictSet k v d = d ++ [(k, v)].
Proof.
  induction d as [|[k' v'] d IH]; simpl; [done|].
  rewrite not_elem_of_cons. intros [? ?]. rewrite decide_False by done.
  by rewrite IH.
Qed.

(** An entry that is present splits the dictionary around its first
    occurrence, which is where [dictAlter] and [dictDelete] act. *)
Lemma dict_split k v d :
  dictGet k d = Some v →
  ∃ d1 d2, d = d1 ++ (k, v) :: d2 ∧ (k ∉ d1.*1) ∧
    (∀ f, dictAlter f k d = d1 ++ (k, f v) :: d2) ∧
    dictDelete k d = d1 ++ d2.
Proof.
  induction d as [|[k' v'] d IH]; simpl; [done|].
  case_decide as Hk; intros Hget; simplify_eq.
  - exists [], d. split_and!; [done|apply not_elem_of_nil| |done].
    intros f. done.
  - destruct (IH Hget) as (d1 & d2 & -> & Hd1 & Halt & Hdel).
    exists ((k', v') :: d1), d2. split_and!; simpl.
    + done.
    + rewrite not_elem_of_cons. by split.
    + intros f. by rewrite Halt.
    + by rewrite Hdel.
Qed.

Lemma dictAlter_absent f k d : k ∉ d.*1 → dictAlter f k d = d.
Proof.
  induction d as [|[k' v'] d IH]; simpl; [done|].
  rewrite not_elem_of_cons. intros [? ?]. rewrite decide_False by done.
  by rewrite IH.
Qed.

Lemma dictAlter_keys f k d : (dictAlter f k d).*1 = d.*1.
Proof.
  induction d as [|[k' v'] d IH]; simpl; [done|].
  case_decide; csimpl; by rewrite ?IH.
Qed.
End DictFacts.

(** ** Chunks *)

Lemma greedyFill_from space chunk taken l :
  foldl (λ acc g, if acc.2 + gSize g <=? space
                  then (acc.1 ++ [g], acc.2 + gSize g) else acc)
        (chunk, taken) l
  = (chunk ++ firstFit space taken l,
     taken + getGuestsSize (firstFit space taken l)).
Proof.
  revert chunk taken.
  induction l as [|g l IH]; intros chunk taken; simpl.
  - rewrite app_nil_r, getGuestsSize_nil. f_equal. lia.
  - destruct (taken + gSize g <=? space); [|apply IH].
    rewrite IH, getGuestsSize_cons, <- app_assoc. simpl. f_equal. lia.
Qed.

Lemma greedyFill_firstFit space l :
  greedyFill space l = (firstFit space 0 l, getGuestsSize (firstFit space 0 l)).
Proof. unfold greedyFillBy. by rewrite greedyFill_from. Qed.

(** The fallback after the scan never fires: an empty scan means that the
    first member did not fit either. *)
Lemma fitChunk_firstFit space l : fitChunk space l = firstFit space 0 l.
Proof.
  unfold fitChunkBy. rewrite greedyFill_firstFit. simpl.
  destruct (firstFit space 0 l) eqn:Hscan; [|done].
  destruct l as [|g0 l]; [done|]. simpl in Hscan.
  destruct (gSize g0 <=? space) eqn:Hfit; [|done].
  assert ((0 + gSize g0 <=? space) = true) as Hfit'
    by (apply Z.leb_le; apply Z.leb_le in Hfit; lia).
  by rewrite Hfit' in Hscan.
Qed.

Lemma firstFit_sublist space taken l : firstFit space taken l `sublist_of` l.
Proof.
  revert taken. induction l as [|g l IH]; intros taken; simpl; [done|].
  destruct (taken + gSize g <=? space).
  - by apply sublist_skip.
  - by apply sublist_cons.
Qed.

Lemma firstFit_size space taken l :
  taken ≤ space → taken + getGuestsSize (firstFit space taken l) ≤ space.
Proof.
  revert taken. induction l as [|g l IH]; intros taken Hle; simpl.
  - rewrite getGuestsSize_nil. lia.
  - destruct (taken + gSize g <=? space) eqn:Hfit; [|by apply IH].
    rewrite getGuestsSize_cons. apply Z.leb_le in Hfit.
    specialize (IH _ Hfit). lia.
Qed.

Lemma fitChunk_sublist space l : fitChunk space l `sublist_of` l.
Proof. rewrite fitChunk_firstFit. apply firstFit_sublist. Qed.

Lemma fitChunk_size space l : 0 ≤ space → getGuestsSize (fitChunk space l) ≤ space.
Proof.
  intros. rewrite fitChunk_firstFit.
  pose proof (firstFit_size space 0 l). lia.
Qed.

(** Filling a new table: the first member is always taken, oversized or
    not, and the scan goes on inside the declared capacity. *)
Lemma newTableFill_from tableCapacity chunk taken capacity l :
  chunk ≠ [] →
  foldl (λ acc g,
           let '(chunk, chunkSpace, capacity) := acc in
           let oversized := isEmpty chunk && (tableCapacity <? gSize g) in
           if (chunkSpace + gSize g <=? tableCapacity) || oversized
           then (chunk ++ [g], chunkSpace + gSize g,
                 if oversized then gSize g else capacity)
           else acc)
        (chunk, taken, capacity) l
  = (chunk ++ firstFit tableCapacity taken l,
     taken + getGuestsSize (firstFit tableCapacity taken l), capacity).
Proof.
  revert chunk taken.
  induction l as [|g l IH]; intros chunk taken Hne; simpl.
  - rewrite app_nil_r, getGuestsSize_nil. do 2 f_equal. lia.
  - destruct chunk as [|c0 chunk]; [done|]. simpl. rewrite orb_false_r.
    destruct (taken + gSize g <=? tableCapacity); [|by apply IH].
    rewrite (IH ((c0 :: chunk) ++ [g])) by done.
    rewrite getGuestsSize_cons. simpl. rewrite <- app_assoc. simpl.
    do 2 f_equal. lia.
Qed.

Lemma newTableChunk_cons tableCapacity g0 l :
  newTableChunk tableCapacity (g0 :: l)
  = (g0 :: firstFit tableCapacity (gSize g0) l, Z.max tableCapacity (gSize g0)).
Proof.
  unfold newTableChunkBy, newTableFillBy. simpl. rewrite Z.add_0_l.
  assert (((gSize g0 <=? tableCapacity) || (tableCapacity <? gSize g0)) = true)
    as -> by (apply orb_true_iff; rewrite Z.leb_le, Z.ltb_lt; lia).
  rewrite newTableFill_from by done. simpl. f_equal.
  destruct (tableCapacity <? gSize g0) eqn:Hover;
    [apply Z.ltb_lt in Hover|apply Z.ltb_ge in Hover]; lia.
Qed.

Lemma newTableChunk_nil tableCapacity : newTableChunk tableCapacity [] = ([], tableCapacity).
Proof. reflexivity. Qed.

(** ** Removing a chunk from [guestsToSeat] *)

Lemma submseteq_NoDup {A} (l k : list A) : l ⊆+ k → NoDup k → NoDup l.
Proof.
  intros [k' Hk]%submseteq_Permutation Hnd. rewrite Hk in Hnd.
  by apply NoDup_app in Hnd as [? _].
Qed.

Lemma submseteq_Forall {A} (R : A → Prop) (l k : list A) :
  l ⊆+ k → Forall R k → Forall R l.
Proof.
  rewrite !Forall_forall. intros Hsub Hall x Hx.
  apply Hall. by eapply elem_of_submseteq.
Qed.

Lemma spliceById_sublist i l : spliceById i l `sublist_of` l.
Proof.
  induction l as [|x l IH]; simpl; [done|].
  case_decide; [by apply sublist_cons|by apply sublist_skip].
Qed.

Lemma spliceById_ids i l :
  i ∈ Guest.id <$> l → Guest.id <$> l ≡ₚ i :: (Guest.id <$> spliceById i l).
Proof.
  induction l as [|x l IH]; csimpl; [by intros ?%elem_of_nil|].
  case_decide as Hx; [by rewrite Hx|].
  intros Hin. apply elem_of_cons in Hin as [?|Hin]; [congruence|].
  csimpl. rewrite (IH Hin) at 1. apply Permutation_swap.
Qed.

(** With distinct ids the element found by id is the chunk member itself. *)
Lemma spliceById_self g l :
  NoDup (Guest.id <$> l) → g ∈ l → l ≡ₚ g :: spliceById (Guest.id g) l.
Proof.
  induction l as [|x l IH]; csimpl; [by intros _ ?%elem_of_nil|].
  intros Hnd Hin. apply NoDup_cons in Hnd as [Hx Hnd].
  apply elem_of_cons in Hin as [->|Hin].
  - by rewrite decide_True.
  - rewrite decide_False.
    + rewrite (IH Hnd Hin) at 1. apply Permutation_swap.
    + intros Heq. apply Hx. rewrite Heq. by apply list_elem_of_fmap_2.
Qed.

Lemma removeChunk_sublist chunk l : removeChunk chunk l `sublist_of` l.
Proof.
  unfold removeChunkBy. revert l.
  induction chunk as [|g chunk IH]; intros l; simpl; [done|].
  etrans; [apply IH|apply spliceById_sublist].
Qed.

(** Every member of the chunk takes one element out, whatever the ids. *)
Lemma removeChunk_length chunk l :
  Guest.id <$> chunk ⊆+ Guest.id <$> l →
  (length (removeChunk chunk l) + length chunk = length l)%nat.
Proof.
  unfold removeChunkBy. revert l.
  induction chunk as [|g chunk IH]; intros l; csimpl; [lia|].
  intros Hsub.
  assert (Guest.id g ∈ Guest.id <$> l) as Hin.
  { eapply elem_of_submseteq; [|apply Hsub]. left. }
  pose proof (spliceById_ids _ _ Hin) as Hperm.
  rewrite Hperm in Hsub. apply (submseteq_app_inv_l _ _ [Guest.id g]) in Hsub.
  pose proof (IH _ Hsub) as Hlen.
  apply Permutation_length in Hperm. simpl in Hperm.
  rewrite !length_fmap in Hperm. simpl. lia.
Qed.

Lemma removeChunk_perm chunk l :
  NoDup (Guest.id <$> l) → chunk ⊆+ l → l ≡ₚ chunk ++ removeChunk chunk l.
Proof.
  unfold removeChunkBy. revert l.
  induction chunk as [|g chunk IH]; intros l Hnd Hsub; simpl; [done|].
  assert (g ∈ l) as Hin by (eapply elem_of_submseteq; [left|done]).
  pose proof (spliceById_self _ _ Hnd Hin) as Hperm.
  rewrite Hperm in Hsub. apply (submseteq_app_inv_l _ _ [g]) in Hsub.
  rewrite <- (IH (spliceById (Guest.id g) l)); [done| |done].
  eapply sublist_NoDup; [exact Hnd|]. apply fmap_sublist, spliceById_sublist.
Qed.

Lemma removeChunk_shorter chunk l :
  chunk ≠ [] → chunk `sublist_of` l →
  (length (removeChunk chunk l) < length l)%nat.
Proof.
  intros Hne Hsub.
  assert (Guest.id <$> chunk ⊆+ Guest.id <$> l) as Hids
    by (apply sublist_submseteq; by apply fmap_sublist).
  apply removeChunk_length in Hids.
  destruct chunk; [done|]. cbn [length] in Hids. lia.
Qed.

(** ** Which table a step picks *)

Lemma foldl_invariant {A B} (P : A → Prop) (f : A → B → A) (l : list B) (a : A) :
  P a → (∀ a b, b ∈ l → P a → P (f a b)) → P (foldl f a l).
Proof.
  revert a. induction l as [|b l IH]; intros a Ha Hstep; simpl; [done|].
  apply IH.
  - apply Hstep; [left|done].
  - intros a' b' Hb'. apply Hstep. by right.
Qed.

Lemma knightBest_spec count ta k m :
  knightBest count ta = (Some k, m) →
  ∃ t, dictGet k ta = Some t ∧ spaceOf t = m ∧ 0 < m.
Proof.
  unfold knightBest.
  apply (foldl_invariant
    (λ acc : option nat * Z, acc = (Some k, m) →
       ∃ t, dictGet k ta = Some t ∧ spaceOf t = m ∧ 0 < m)); [done|].
  intros acc i _ Hacc.
  destruct (dictGet i ta) as [table|] eqn:Hget; [|done]. simpl.
  destruct ((0 <? spaceOf table) && (acc.2 <? spaceOf table)) eqn:Hc; [|done].
  intros [= <- <-]. exists table.
  apply andb_true_iff in Hc as [?%Z.ltb_lt _]. done.
Qed.

Lemma bestFit_spec group groupSize ta k :
  bestFit group groupSize ta = Some k →
  ∃ t, (k, t) ∈ ta ∧ WorkingTable.isKnight t = false ∧
       groupSize ≤ spaceOf t ∧ isSideMatch group t = true.
Proof.
  unfold bestFit.
  apply (foldl_invariant
    (λ acc : option nat * option Z, acc.1 = Some k →
       ∃ t, (k, t) ∈ ta ∧ WorkingTable.isKnight t = false ∧
            groupSize ≤ spaceOf t ∧ isSideMatch group t = true)); [done|].
  intros acc [i t] Hin Hacc. simpl.
  destruct ((groupSize <=? spaceOf t) && isSideMatch group t) eqn:Hc; [|done].
  assert (i = k →
          ∃ t', (k, t') ∈ ta ∧ WorkingTable.isKnight t' = false ∧
                groupSize ≤ spaceOf t' ∧ isSideMatch group t' = true) as Hit.
  { intros ->. exists t. apply andb_true_iff in Hc as [?%Z.leb_le ?].
    apply list_elem_of_filter in Hin as [? ?]. done. }
  destruct acc.2 as [m|]; [destruct (spaceOf t <? m)|]; simpl;
    try done; intros [= ?]; auto.
Qed.

Lemma bestPartial_spec group ta k m :
  bestPartial group ta = Some (k, m) →
  ∃ t, (k, t) ∈ ta ∧ WorkingTable.isKnight t = false ∧
       spaceOf t = m ∧ 0 < m ∧ isSideMatch group t = true.
Proof.
  unfold bestPartial. intros Hbest.
  apply fmap_Some in Hbest as ([i t] & Hhead & [= -> ->]).
  apply head_Some_elem_of, list_elem_of_filter in Hhead as [Hc Hin].
  rewrite jsSort_perm in Hin. apply list_elem_of_filter in Hin as [? ?].
  apply andb_true_iff in Hc as [?%Z.ltb_lt ?].
  exists t. done.
Qed.

Lemma partialTarget_spec group ta guestsToSeat k chunk :
  partialTarget group ta guestsToSeat = Some (k, chunk) →
  ∃ t, (k, t) ∈ ta ∧ WorkingTable.isKnight t = false ∧ 0 < spaceOf t ∧
       isSideMatch group t = true ∧
       chunk = fitChunk (spaceOf t) guestsToSeat ∧ chunk ≠ [].
Proof.
  unfold partialTarget.
  destruct (bestPartial group ta) as [[i m]|] eqn:Hbest; [|done].
  destruct (bestPartial_spec _ _ _ _ Hbest) as (t & ? & ? & <- & ? & ?).
  destruct (fitChunk (spaceOf t) guestsToSeat) eqn:Hchunk; [done|].
  intros [= <- <-]. exists t. rewrite Hchunk. done.
Qed.

(** ** Invariants of the table dictionary *)

Section MoreDictFacts.
Context {K : Type} `{EqDecision K} {V : Type}.
Implicit Types (d : list (K * V)) (k : K) (v : V).

Lemma dict_keys_inj k v v' d : NoDup d.*1 → (k, v) ∈ d → (k, v') ∈ d → v = v'.
Proof.
  intros Hnd Hv Hv'.
  apply (dictGet_NoDup _ _ _ Hnd) in Hv, Hv'. congruence.
Qed.

Lemma dictAlter_Forall (R : V → Prop) f k d :
  Forall (λ e, R e.2) d →
  (∀ v, (k, v) ∈ d → R v → R (f v)) →
  Forall (λ e, R e.2) (dictAlter f k d).
Proof.
  induction d as [|[k' v'] d IH]; simpl; [done|].
  intros Hall Hf. apply Forall_cons in Hall as [Hv' Hall].
  case_decide as Hk.
  - subst k'. constructor; [|done]. simpl in *. apply Hf; [left|done].
  - constructor; [done|]. apply IH; [done|].
    intros v Hin. apply Hf. by right.
Qed.

Lemma dictSet_Forall (R : V → Prop) k v d :
  Forall (λ e, R e.2) d → R v → Forall (λ e, R e.2) (dictSet k v d).
Proof.
  induction d as [|[k' v'] d IH]; simpl.
  - intros _ ?. by constructor.
  - intros Hall Hv. apply Forall_cons in Hall as [Hv' Hall].
    case_decide; constructor; auto.
Qed.

Lemma dictDelete_sublist k d : dictDelete k d `sublist_of` d.
Proof.
  induction d as [|[k' v'] d IH]; simpl; [done|].
  case_decide; [by apply sublist_cons|by apply sublist_skip].
Qed.

Lemma dictAlter_dictSet_fresh f k v d :
  k ∉ d.*1 → dictAlter f k (dictSet k v d) = d ++ [(k, f v)].
Proof.
  intros Hk. rewrite dictSet_fresh by done.
  induction d as [|[k' v'] d IH]; simpl.
  - by rewrite decide_True.
  - csimpl in Hk. apply not_elem_of_cons in Hk as [? ?].
    rewrite decide_False by done. by rewrite IH.
Qed.

Lemma dictGet_alter_ne f k k' d : k ≠ k' → dictGet k' (dictAlter f k d) = dictGet k' d.
Proof.
  intros Hne. induction d as [|[k0 v0] d IH]; simpl; [done|].
  destruct (decide (k = k0)) as [->|]; simpl.
  - by rewrite !decide_False by done.
  - case_decide; [done|apply IH].
Qed.

Lemma dictGet_alter_eq f k d : dictGet k (dictAlter f k d) = f <$> dictGet k d.
Proof.
  induction d as [|[k0 v0] d IH]; simpl; [done|].
  destruct (decide (k = k0)) as [->|]; simpl.
  - by rewrite decide_True.
  - by rewrite decide_False.
Qed.
End MoreDictFacts.

Lemma wfTables_alter f k ta c : wfTables ta c → wfTables (dictAlter f k ta) c.
Proof. unfold wfTables. by rewrite dictAlter_keys. Qed.

Lemma wfTables_fresh ta c : wfTables ta c → c ∉ ta.*1.
Proof. intros [_ Hlt] Hin. apply Hlt in Hin. lia. Qed.

Lemma wfTables_open f v ta c :
  wfTables ta c → wfTables (dictAlter f c (dictSet c v ta)) (S c).
Proof.
  intros Hwf. pose proof (wfTables_fresh _ _ Hwf) as Hc.
  rewrite dictAlter_dictSet_fresh by done.
  destruct Hwf as [Hnd Hlt]. unfold wfTables. rewrite fmap_app. csimpl. split.
  - apply NoDup_app. split_and!; [done| |apply NoDup_singleton].
    intros k Hk ->%list_elem_of_singleton. done.
  - intros k [Hk| ->%list_elem_of_singleton]%elem_of_app; [apply Hlt in Hk|]; lia.
Qed.

Lemma wfTables_delete k ta c : wfTables ta c → wfTables (dictDelete k ta) c.
Proof.
  intros [Hnd Hlt].
  assert ((dictDelete k ta).*1 `sublist_of` ta.*1) as Hsub
    by apply fmap_sublist, dictDelete_sublist.
  split; [by eapply sublist_NoDup|].
  intros k' Hk'. apply Hlt. by eapply elem_of_sublist.
Qed.

(** ** Grouping keeps the guests it is given *)

Lemma dictSet_guests key gs groups :
  dictGuests (dictSet key gs groups) ⊆+ dictGuests groups ++ gs.
Proof.
  unfold dictGuests.
  induction groups as [|[k' gs'] groups IH]; csimpl.
  - by rewrite app_nil_r.
  - case_decide; csimpl.
    + rewrite (comm (++) _ gs), (assoc (++)).
      apply submseteq_skips_r, submseteq_inserts_r. done.
    + rewrite <- (assoc (++)). by apply submseteq_skips_l.
Qed.

Lemma dictSet_guests_fresh key gs groups :
  key ∉ groups.*1 → dictGuests (dictSet key gs groups) = dictGuests groups ++ gs.
Proof.
  intros Hk. rewrite dictSet_fresh by done. unfold dictGuests.
  rewrite bind_app. csimpl. by rewrite app_nil_r.
Qed.

Lemma pushed_guests key g groups :
  dictGuests (pushed key g groups) ≡ₚ dictGuests groups ++ [g].
Proof.
  unfold pushed.
  destruct (dictGet key groups) as [gs|] eqn:Hget.
  - unfold dictGuests.
    induction groups as [|[k' gs'] groups IH]; simpl in *; [done|].
    case_decide; simplify_eq; csimpl.
    + by rewrite <- !(assoc (++)), (comm (++) [g]).
    + rewrite IH by done. by rewrite (assoc (++)).
  - apply dictGet_None in Hget. by rewrite dictSet_guests_fresh.
Qed.

Lemma collected_guests guests :
  dictGuests (collected guests).1 ++ (collected guests).2 ≡ₚ guests.
Proof.
  unfold collected.
  assert (∀ acc : list (string * list Guest.t) * list Guest.t,
    let r := foldl (λ acc guest,
           match groupKey guest with
           | Some key => (pushed key guest acc.1, acc.2)
           | None => (acc.1, acc.2 ++ [guest])
           end) acc guests in
    dictGuests r.1 ++ r.2 ≡ₚ dictGuests acc.1 ++ acc.2 ++ guests) as Hfold.
  { induction guests as [|g guests IH]; intros acc; simpl.
    - by rewrite app_nil_r.
    - rewrite IH. destruct (groupKey g) as [key|]; simpl.
      + rewrite pushed_guests, <- !(assoc (++)).
        apply Permutation_app_head. rewrite (assoc (++)), (comm (++) [g]).
        by rewrite <- (assoc (++)).
      + by rewrite <- !(assoc (++)). }
  apply (Hfold ([], [])).
Qed.

Lemma addIndividuals_guests ungrouped groups :
  dictGuests (addIndividuals ungrouped groups) ⊆+ dictGuests groups ++ ungrouped.
Proof.
  unfold addIndividuals. revert groups.
  induction ungrouped as [|g ungrouped IH]; intros groups; simpl.
  - by rewrite app_nil_r.
  - etrans; [apply IH|].
    replace (dictGuests groups ++ g :: ungrouped)
      with ((dictGuests groups ++ [g]) ++ ungrouped) by (by rewrite <- app_assoc).
    apply submseteq_skips_r, dictSet_guests.
Qed.

Lemma objectEntries_perm {V} (d : list (string * V)) : objectEntries d ≡ₚ d.
Proof.
  unfold objectEntries. rewrite jsSort_perm. apply filter_app_complement.
Qed.

Lemma grouped_guests guests :
  poolGuests (grouped guests) ⊆+ guests.
Proof.
  unfold grouped, groupsOf, poolGuests.
  pose proof (collected_guests guests) as Hcollect.
  destruct (collected guests) as [groups ungrouped]. simpl in Hcollect.
  rewrite <- Hcollect, <- addIndividuals_guests.
  unfold dictGuests. rewrite <- (objectEntries_perm (addIndividuals _ _)) at 2.
  generalize (objectEntries (addIndividuals ungrouped groups)).
  induction l as [|e l IH]; csimpl; [done|]. by apply submseteq_skips_l.
Qed.

(** ** When the grouping throws *)

Section GroupingThrows.
Let collectStep (acc : JsError + (list (string * list Guest.t) * list Guest.t))
    (guest : Guest.t) : JsError + (list (string * list Guest.t) * list Guest.t) :=
  match acc with
  | inl error => inl error
  | inr (groups, ungrouped) =>
      match groupKey guest with
      | Some key =>
          match groupsPush key guest groups with
          | inl error => inl error
          | inr groups' => inr (groups', ungrouped)
          end
      | None => inr (groups, ungrouped ++ [guest])
      end
  end.

Lemma collectGroups_thrown error guests : foldl collectStep (inl error) guests = inl error.
Proof. induction guests as [|g guests IH]; [done|exact IH]. Qed.

Lemma collectGroups_from acc guests :
  foldl collectStep (inr acc) guests
  = if decide (ownGroupKeys guests)
    then inr (foldl (λ acc guest,
                       match groupKey guest with
                       | Some key => (pushed key guest acc.1, acc.2)
                       | None => (acc.1, acc.2 ++ [guest])
                       end) acc guests)
    else inl TypeError.
Proof.
  revert acc. induction guests as [|g guests IH]; intros [groups ungrouped].
  { rewrite decide_True; [done|constructor]. }
  cbn [foldl]. unfold collectStep at 2, groupsPush.
  destruct (decide (ownGroupKey g)) as [Hg|Hg].
  - assert (match groupKey g with
            | Some key =>
                match (if decide (key ∈ inheritedKeys) then inl TypeError
                       else inr (pushed key g groups)) with
                | inl error => inl error
                | inr groups' => inr (groups', ungrouped)
                end
            | None => inr (groups, ungrouped ++ [g])
            end
            = inr (match groupKey g with
                   | Some key => (pushed key g groups, ungrouped)
                   | None => (groups, ungrouped ++ [g])
                   end)) as ->.
    { unfold ownGroupKey in Hg. destruct (groupKey g) as [key|]; [|done].
      by rewrite decide_False. }
    rewrite IH. cbn [fst snd].
    destruct (decide (ownGroupKeys guests)) as [Hguests|Hguests].
    + rewrite decide_True; [done|by constructor].
    + rewrite decide_False; [done|]. by intros [_ ?]%Forall_cons.
  - rewrite (decide_False (P := ownGroupKeys (g :: guests)))
      by (by intros [? _]%Forall_cons).
    unfold ownGroupKey in Hg. destruct (groupKey g) as [key|]; [|done].
    rewrite decide_True by (by apply dec_stable).
    apply collectGroups_thrown.
Qed.

Lemma collectGroups_spec guests :
  collectGroups guests
  = if decide (ownGroupKeys guests) then inr (collected guests) else inl TypeError.
Proof. apply collectGroups_from. Qed.
End GroupingThrows.

(** The grouping throws exactly when a push does; when none does it
    returns the groups of [grouped]. *)
Lemma groupGuestsByRelationship_spec guests :
  groupGuestsByRelationship guests
  = if decide (ownGroupKeys guests) then inr (grouped guests) else inl TypeError.
Proof.
  unfold groupGuestsByRelationship, grouped. rewrite collectGroups_spec.
  case_decide; [|done]. by destruct (collected guests).
Qed.

Lemma seating_grouped guests config :
  seating (grouped guests) config = seatingResult guests config.
Proof.
  unfold seating, seatingResult, afterMerge, afterStandard, afterKnights, classifiedGroups.
  by destruct (knightPhase _ _) as [[ta tableCounter] pool].
Qed.

(** The promise is rejected exactly when the grouping throws, whatever the
    configuration; otherwise it resolves with [seatingResult]. *)
Lemma optimizeSeating_spec guests config :
  optimizeSeating guests config
  = if decide (ownGroupKeys guests) then Resolved (seatingResult guests config)
    else Rejected TypeError.
Proof.
  unfold optimizeSeating. rewrite groupGuestsByRelationship_spec.
  case_decide; [|done]. by rewrite seating_grouped.
Qed.

Lemma classify_guests names group :
  GuestGroup.guests (classify names group) = GuestGroup.guests group.
Proof. reflexivity. Qed.

Lemma poolGuests_classify names groups :
  poolGuests (classify names <$> groups) = poolGuests groups.
Proof.
  unfold poolGuests. induction groups as [|g groups IH]; csimpl; [done|].
  by rewrite IH.
Qed.

Lemma poolGuests_elem group groups :
  group ∈ groups → GuestGroup.guests group ⊆+ poolGuests groups.
Proof.
  unfold poolGuests. intros (l1 & l2 & ->)%list_elem_of_split.
  rewrite bind_app. csimpl.
  apply submseteq_inserts_l, submseteq_inserts_r. done.
Qed.

(** ** A table-wise invariant carried through the three phases

    [P] is kept by every table and [Q] by every list of members still to be
    seated, once they are closed under the moves the phases make. *)

Section TableInvariant.
Context (tableCapacity : Z) (P : WorkingTable.t → Prop) (Q : list Guest.t → Prop).
Hypothesis Q_sub : ∀ l l', l' ⊆+ l → Q l → Q l'.
Hypothesis P_mark : ∀ group chunk t, P t → P (markFirst group chunk t).
Hypothesis P_seat : ∀ t chunk,
  P t → Q chunk → chunk ≠ [] → getGuestsSize chunk ≤ spaceOf t → P (seat chunk t).
Hypothesis P_whole : ∀ group guestsToSeat,
  Q guestsToSeat → guestsToSeat ≠ [] → getGuestsSize guestsToSeat ≤ tableCapacity →
  P (seat guestsToSeat (newStandardTable group tableCapacity)).
Hypothesis P_split : ∀ group g0 rest,
  Q (g0 :: rest) →
  P (seat (g0 :: firstFit tableCapacity (gSize g0) rest)
          (setCapacity (Z.max tableCapacity (gSize g0))
                       (newStandardTable group tableCapacity))).
Hypothesis P_absorb : ∀ tableA tableB,
  P tableA → P tableB →
  occupancy tableA < WorkingTable.capacity tableA →
  occupancy tableA + occupancy tableB ≤ WorkingTable.capacity tableA →
  P (absorb tableB tableA).

Lemma tablesOk_alter f k t ta c :
  tablesOk P ta c → (k, t) ∈ ta → P (f t) → tablesOk P (dictAlter f k ta) c.
Proof.
  intros [Hwf Hall] Hin Hf. split; [by apply wfTables_alter|].
  apply dictAlter_Forall; [done|].
  intros v Hv _. destruct Hwf as [Hnd _].
  by rewrite (dict_keys_inj _ _ _ _ Hnd Hv Hin).
Qed.

Lemma tablesOk_lookup k t ta c : tablesOk P ta c → (k, t) ∈ ta → P t.
Proof.
  intros [_ Hall] Hin. rewrite Forall_forall in Hall. apply (Hall _ Hin).
Qed.

Lemma tablesOk_open f v ta c :
  tablesOk P ta c → P (f v) → tablesOk P (dictAlter f c (dictSet c v ta)) (S c).
Proof.
  intros [Hwf Hall] Hf. split; [by apply wfTables_open|].
  rewrite dictAlter_dictSet_fresh by (by apply wfTables_fresh).
  apply Forall_app. split; [done|]. by repeat constructor.
Qed.

Lemma fitChunk_Q space l : Q l → Q (fitChunk space l).
Proof. apply Q_sub, sublist_submseteq, fitChunk_sublist. Qed.

Lemma removeChunk_Q chunk l : Q l → Q (removeChunk chunk l).
Proof. apply Q_sub, sublist_submseteq, removeChunk_sublist. Qed.

(** Phase B, one group. *)
Lemma standardSeat_ok fuel group st guestsToSeat groupSize :
  tablesOk P (Seating.tableAssignments st) (Seating.tableCounter st) →
  Q guestsToSeat →
  groupSize = getGuestsSize guestsToSeat →
  let st' := standardSeat fuel tableCapacity group st guestsToSeat groupSize in
  tablesOk P (Seating.tableAssignments st') (Seating.tableCounter st').
Proof.
  revert st guestsToSeat groupSize.
  induction fuel as [|fuel IH]; intros [ta c] gts groupSize Hok HQ ->; simpl in *;
    [by destruct gts|].
  destruct gts as [|g0 rest]; [done|].
  set (gts := g0 :: rest) in *.
  destruct (bestFit group (getGuestsSize gts) ta) as [k|] eqn:Hfit.
  { apply bestFit_spec in Hfit as (t & Hin & _ & Hsize & _). simpl.
    eapply tablesOk_alter; [done..|].
    apply P_mark, P_seat; [by eapply tablesOk_lookup|done..]. }
  destruct (getGuestsSize gts <=? tableCapacity) eqn:Hwhole.
  { apply Z.leb_le in Hwhole. simpl.
    apply tablesOk_open; [done|]. by apply P_whole. }
  destruct (partialTarget group ta gts) as [[k chunk]|] eqn:Hpart.
  { apply partialTarget_spec in Hpart as (t & Hin & _ & Hspace & _ & -> & Hne).
    apply IH; [simpl|by apply removeChunk_Q|done].
    eapply tablesOk_alter; [done..|].
    apply P_seat; [by eapply tablesOk_lookup|by apply fitChunk_Q|done|].
    apply fitChunk_size. lia. }
  unfold splitIntoNewTable. simpl. subst gts.
  rewrite newTableChunk_cons.
  apply IH; [simpl|by apply removeChunk_Q|done].
  apply tablesOk_open; [done|]. by apply P_split.
Qed.

Lemma standardPhase_ok st processedGroups :
  tablesOk P (Seating.tableAssignments st) (Seating.tableCounter st) →
  Forall (λ group, Q (GuestGroup.guests group)) processedGroups →
  let st' := standardPhase tableCapacity st processedGroups in
  tablesOk P (Seating.tableAssignments st') (Seating.tableCounter st').
Proof.
  intros Hok Hall. unfold standardPhase.
  rewrite <- (jsSort_perm bySizeDesc) in Hall.
  revert st Hok. induction Hall as [|group groups HQ _ IH]; intros st Hok; simpl; [done|].
  apply IH. by apply standardSeat_ok.
Qed.

(** Phase A. *)
Lemma knightSeat_ok fuel count group ta c processedGroups guestsToSeat :
  tablesOk P ta c →
  Forall (λ group, Q (GuestGroup.guests group)) processedGroups →
  Q guestsToSeat →
  let r := knightSeat fuel count group ta processedGroups guestsToSeat in
  tablesOk P r.1 c ∧ Forall (λ group, Q (GuestGroup.guests group)) r.2.
Proof.
  revert ta guestsToSeat.
  induction fuel as [|fuel IH]; intros ta gts Hok Hpool HQ; simpl;
    [by destruct gts|].
  destruct gts as [|g0 rest]; [done|].
  set (gts := g0 :: rest) in *.
  assert (Forall (λ group, Q (GuestGroup.guests group))
                 (processedGroups ++ [leftoverGroup group gts])) as Hpush.
  { apply Forall_app. split; [done|]. by repeat constructor. }
  destruct (knightBest count ta) as [[k|] m] eqn:Hbest; [|done].
  apply knightBest_spec in Hbest as (t & Hget%dictGet_elem_of & <- & Hspace).
  destruct (0 <? spaceOf t); [|done].
  destruct (fitChunk (spaceOf t) gts) as [|g1 chunk] eqn:Hchunk; [done|].
  rewrite <- Hchunk.
  apply IH; [|done|by apply (removeChunk_Q (g1 :: chunk))].
  eapply tablesOk_alter; [done..|].
  apply P_mark, P_seat; [by eapply tablesOk_lookup|by apply fitChunk_Q| |].
  - by rewrite Hchunk.
  - apply fitChunk_size. lia.
Qed.

Lemma initKnightTables_keys count capacity :
  ((λ i, (i, knightTable capacity)) <$> seq 0 count).*1 = seq 0 count.
Proof.
  rewrite <- list_fmap_compose. apply list_fmap_id.
Qed.

Lemma initKnightTables_eq count capacity :
  initKnightTables count capacity = (λ i, (i, knightTable capacity)) <$> seq 0 count.
Proof.
  unfold initKnightTables.
  induction count as [|n IH]; [done|].
  rewrite seq_S, foldl_app, fmap_app, IH. simpl.
  apply dictSet_fresh. rewrite initKnightTables_keys, elem_of_seq. lia.
Qed.

Lemma initKnightTables_ok count capacity :
  P (knightTable capacity) → tablesOk P (initKnightTables count capacity) count.
Proof.
  intros HP. rewrite initKnightTables_eq. split; [split|].
  - rewrite initKnightTables_keys. apply NoDup_seq.
  - rewrite initKnightTables_keys. intros k Hk%elem_of_seq. lia.
  - apply Forall_fmap, Forall_forall. by intros.
Qed.

Lemma selectKnightCandidates_Forall (R : GuestGroup.t → Prop) groups :
  Forall R groups →
  Forall R (selectKnightCandidates groups).1 ∧
  Forall R (selectKnightCandidates groups).2.
Proof.
  intros Hall. unfold selectKnightCandidates.
  case_decide; simpl; split;
    (eapply submseteq_Forall; [apply sublist_submseteq, sublist_filter|done]).
Qed.

Lemma knightPhase_ok knightConfig processedGroups :
  (KnightConfig.enabled knightConfig = true → 0 < KnightConfig.count knightConfig →
   P (knightTable (KnightConfig.capacity knightConfig))) →
  Forall (λ group, Q (GuestGroup.guests group)) processedGroups →
  let r := knightPhase knightConfig processedGroups in
  tablesOk P r.1.1 r.1.2 ∧ Forall (λ group, Q (GuestGroup.guests group)) r.2.
Proof.
  intros Hknight Hall. unfold knightPhase.
  destruct (KnightConfig.enabled knightConfig && (0 <? KnightConfig.count knightConfig))
    eqn:Hon; simpl.
  2: { split; [|done]. split; [split|constructor].
       - apply NoDup_nil_2.
       - by intros k ?%elem_of_nil. }
  apply andb_true_iff in Hon as [Hen Hcount%Z.ltb_lt].
  pose proof (selectKnightCandidates_Forall _ _ Hall) as [Hcand Hpool].
  destruct (selectKnightCandidates processedGroups) as [cands pool]. simpl in *.
  rewrite <- (jsSort_perm bySizeDesc) in Hcand.
  set (count := Z.to_nat (KnightConfig.count knightConfig)).
  assert (∀ acc : TableAssignments * list GuestGroup.t,
    tablesOk P acc.1 count ∧ Forall (λ group, Q (GuestGroup.guests group)) acc.2 →
    let r := foldl (knightGroup count) acc (jsSort bySizeDesc cands) in
    tablesOk P r.1 count ∧ Forall (λ group, Q (GuestGroup.guests group)) r.2) as Hfold.
  { induction Hcand as [|group groups HQ _ IH]; intros acc [Hok Hacc]; simpl; [done|].
    apply IH. by apply knightSeat_ok. }
  specialize (Hfold (initKnightTables count (KnightConfig.capacity knightConfig), pool)).
  destruct (foldl _ _ _) as [ta' pool']. simpl in *.
  apply Hfold. split; [|done]. apply initKnightTables_ok. by apply Hknight.
Qed.

(** Phase C. *)
Lemma findPartner_spec sizeA capacityA ta merged later idB tableB :
  findPartner sizeA capacityA ta merged later = Some (idB, tableB) →
  dictGet idB ta = Some tableB ∧ sizeA + occupancy tableB ≤ capacityA ∧
  idB ∈ later ∧ idB ∉ merged.
Proof.
  induction later as [|i later IH]; simpl; [done|].
  assert (findPartner sizeA capacityA ta merged later = Some (idB, tableB) →
          dictGet idB ta = Some tableB ∧ sizeA + occupancy tableB ≤ capacityA ∧
          idB ∈ i :: later ∧ idB ∉ merged) as IH'.
  { intros (? & ? & ? & ?)%IH. split_and!; [done..|by right|done]. }
  case_decide as Hmerged; [done|].
  destruct (dictGet i ta) as [t|] eqn:Hget; [|done].
  destruct (sizeA + occupancy t <=? capacityA) eqn:Hfit; [|done].
  intros [= <- <-]. apply Z.leb_le in Hfit. split_and!; [done..|left|done].
Qed.

Lemma tablesOk_delete k ta c : tablesOk P ta c → tablesOk P (dictDelete k ta) c.
Proof.
  intros [Hwf Hall]. split; [by apply wfTables_delete|].
  eapply submseteq_Forall; [apply sublist_submseteq, dictDelete_sublist|done].
Qed.

Lemma mergeSparse_ok ids ta merged c :
  tablesOk P ta c → tablesOk P (mergeSparse ids ta merged) c.
Proof.
  revert ta merged.
  induction ids as [|idA later IH]; intros ta merged Hok; simpl; [done|].
  case_decide; [by apply IH|].
  destruct (dictGet idA ta) as [tableA|] eqn:HgetA; [|by apply IH].
  destruct (WorkingTable.capacity tableA <=? occupancy tableA) eqn:Hfull;
    [by apply IH|].
  destruct (findPartner _ _ _ _ _) as [[idB tableB]|] eqn:Hpartner; [|by apply IH].
  apply findPartner_spec in Hpartner as (HgetB & Hfit & _ & _).
  apply Z.leb_gt in Hfull.
  apply dictGet_elem_of in HgetA, HgetB.
  apply IH, tablesOk_delete.
  eapply tablesOk_alter; [done..|].
  apply P_absorb; [by eapply tablesOk_lookup..|lia|done].
Qed.

Lemma consolidate_ok ta c : tablesOk P ta c → tablesOk P (consolidate ta) c.
Proof. apply mergeSparse_ok. Qed.

(** The whole run. *)
Lemma classifiedGroups_Q guests config :
  Q guests →
  Forall (λ group, Q (GuestGroup.guests group)) (classifiedGroups guests config).
Proof.
  intros HQ. apply Forall_forall. intros group Hin.
  eapply Q_sub; [|exact HQ].
  etrans; [by apply poolGuests_elem|].
  unfold classifiedGroups. rewrite poolGuests_classify.
  apply grouped_guests.
Qed.

Lemma afterKnights_ok guests config :
  knightTablesOk P config → Q guests →
  let r := afterKnights guests config in
  tablesOk P r.1.1 r.1.2 ∧ Forall (λ group, Q (GuestGroup.guests group)) r.2.
Proof.
  intros Hknight HQ. apply knightPhase_ok; [done|]. by apply classifiedGroups_Q.
Qed.

Lemma afterStandard_ok guests config :
  tableCapacityOf config = tableCapacity →
  knightTablesOk P config → Q guests →
  let st := afterStandard guests config in
  tablesOk P (Seating.tableAssignments st) (Seating.tableCounter st).
Proof.
  intros Hcap Hknight HQ. unfold afterStandard.
  pose proof (afterKnights_ok guests config Hknight HQ) as [Hok Hpool].
  destruct (afterKnights guests config) as [[ta c] pool]. simpl in *.
  rewrite Hcap. by apply standardPhase_ok.
Qed.

Lemma afterMerge_ok guests config :
  tableCapacityOf config = tableCapacity →
  knightTablesOk P config → Q guests →
  tablesOk P (afterMerge guests config)
           (Seating.tableCounter (afterStandard guests config)).
Proof.
  intros Hcap Hknight HQ. by apply consolidate_ok, afterStandard_ok.
Qed.
End TableInvariant.

(** ** Occupancy against capacity *)

Lemma occupancy_seat chunk t : occupancy (seat chunk t) = occupancy t + getGuestsSize chunk.
Proof. unfold occupancy. simpl. apply getGuestsSize_app. Qed.

Lemma capacity_markFirst group chunk t :
  WorkingTable.capacity (markFirst group chunk t) = WorkingTable.capacity t.
Proof. unfold markFirst. by case_decide. Qed.

Lemma guests_markFirst group chunk t :
  WorkingTable.guests (markFirst group chunk t) = WorkingTable.guests t.
Proof. unfold markFirst. by case_decide. Qed.

Lemma isKnight_markFirst group chunk t :
  WorkingTable.isKnight (markFirst group chunk t) = WorkingTable.isKnight t.
Proof. unfold markFirst. by case_decide. Qed.

(** Once the scan has taken anything, what it holds fits the space. *)
Lemma firstFit_size_taken space taken l :
  firstFit space taken l = [] ∨
  taken + getGuestsSize (firstFit space taken l) ≤ space.
Proof.
  revert taken. induction l as [|g l IH]; intros taken; simpl; [by left|].
  destruct (taken + gSize g <=? space) eqn:Hfit; [|apply IH].
  right. rewrite getGuestsSize_cons. apply Z.leb_le in Hfit.
  destruct (IH (taken + gSize g)) as [->|?]; [rewrite getGuestsSize_nil|]; lia.
Qed.

Lemma withinCapacity_mark group chunk t :
  withinCapacity t → withinCapacity (markFirst group chunk t).
Proof.
  unfold withinCapacity, occupancy.
  by rewrite guests_markFirst, capacity_markFirst.
Qed.

Lemma withinCapacity_seat t chunk :
  withinCapacity t → True → chunk ≠ [] → getGuestsSize chunk ≤ spaceOf t →
  withinCapacity (seat chunk t).
Proof.
  unfold withinCapacity, spaceOf. rewrite occupancy_seat. simpl. lia.
Qed.

Lemma withinCapacity_whole tableCapacity group guestsToSeat :
  True → guestsToSeat ≠ [] → getGuestsSize guestsToSeat ≤ tableCapacity →
  withinCapacity (seat guestsToSeat (newStandardTable group tableCapacity)).
Proof.
  unfold withinCapacity. rewrite occupancy_seat. unfold occupancy. simpl.
  rewrite getGuestsSize_nil. lia.
Qed.

Lemma withinCapacity_split tableCapacity group g0 rest :
  True →
  withinCapacity
    (seat (g0 :: firstFit tableCapacity (gSize g0) rest)
          (setCapacity (Z.max tableCapacity (gSize g0))
                       (newStandardTable group tableCapacity))).
Proof.
  intros _. unfold withinCapacity. rewrite occupancy_seat. unfold occupancy. simpl.
  rewrite getGuestsSize_nil, getGuestsSize_cons.
  destruct (firstFit_size_taken tableCapacity (gSize g0) rest) as [->|?];
    [rewrite getGuestsSize_nil|]; lia.
Qed.

Lemma withinCapacity_absorb tableA tableB :
  withinCapacity tableA → withinCapacity tableB →
  occupancy tableA < WorkingTable.capacity tableA →
  occupancy tableA + occupancy tableB ≤ WorkingTable.capacity tableA →
  withinCapacity (absorb tableB tableA).
Proof.
  unfold withinCapacity, occupancy. simpl. rewrite getGuestsSize_app. lia.
Qed.

Lemma withinCapacity_knights config :
  (knightPhaseOn config → 0 ≤ KnightConfig.capacity (knightConfigOf config)) →
  knightTablesOk withinCapacity config.
Proof.
  intros Hcap Hen Hcount. unfold withinCapacity, occupancy. simpl.
  rewrite getGuestsSize_nil. by apply Hcap.
Qed.

Lemma withinCapacity_phases guests config :
  (knightPhaseOn config → 0 ≤ KnightConfig.capacity (knightConfigOf config)) →
  Forall (λ e, withinCapacity e.2) (afterKnights guests config).1.1 ∧
  Forall (λ e, withinCapacity e.2) (Seating.tableAssignments (afterStandard guests config)) ∧
  Forall (λ e, withinCapacity e.2) (afterMerge guests config).
Proof.
  intros Hcap%withinCapacity_knights.
  assert (∀ l l' : list Guest.t, l' ⊆+ l → True → True) as Q_sub by done.
  split_and!.
  - apply (afterKnights_ok withinCapacity (λ _, True) Q_sub
             withinCapacity_mark withinCapacity_seat guests config Hcap I).
  - apply (afterStandard_ok _ withinCapacity (λ _, True) Q_sub
             withinCapacity_mark withinCapacity_seat
             (withinCapacity_whole _) (withinCapacity_split _)
             guests config eq_refl Hcap I).
  - apply (afterMerge_ok _ withinCapacity (λ _, True) Q_sub
             withinCapacity_mark withinCapacity_seat
             (withinCapacity_whole _) (withinCapacity_split _) withinCapacity_absorb
             guests config eq_refl Hcap I).
Qed.

(** ** Where a capacity differs from the configured one *)

Lemma positiveSizes_sub l l' : l' ⊆+ l → positiveSizes l → positiveSizes l'.
Proof. apply submseteq_Forall. Qed.

Lemma getGuestsSize_pos l : positiveSizes l → l ≠ [] → 0 < getGuestsSize l.
Proof.
  induction 1 as [|g l Hg Hl IH]; [done|]. intros _.
  rewrite getGuestsSize_cons. destruct l; [rewrite getGuestsSize_nil; lia|].
  specialize (IH ltac:(done)). lia.
Qed.

Lemma getGuestsSize_nonneg l : positiveSizes l → 0 ≤ getGuestsSize l.
Proof.
  intros Hpos. destruct l as [|g l]; [by rewrite getGuestsSize_nil|].
  by apply Z.lt_le_incl, getGuestsSize_pos.
Qed.

Lemma firstFit_over space taken l :
  space < taken → positiveSizes l → firstFit space taken l = [].
Proof.
  intros Hover. induction 1 as [|g l Hg Hl IH]; simpl; [done|].
  destruct (taken + gSize g <=? space) eqn:Hfit; [|done].
  apply Z.leb_le in Hfit. lia.
Qed.

Lemma widened_full tableCapacity t :
  widened tableCapacity t → occupancy t = WorkingTable.capacity t.
Proof.
  intros (g & Hg & -> & _). unfold occupancy. rewrite Hg, getGuestsSize_cons.
  rewrite getGuestsSize_nil. lia.
Qed.

Section CapacityOk.
Context (knightCapacity tableCapacity : Z).
Let P := capacityOk knightCapacity tableCapacity.

Lemma capacityOk_mark group chunk t : P t → P (markFirst group chunk t).
Proof.
  unfold P, capacityOk, widened.
  by rewrite isKnight_markFirst, capacity_markFirst, guests_markFirst.
Qed.

Lemma capacityOk_seat t chunk :
  P t → positiveSizes chunk → chunk ≠ [] → getGuestsSize chunk ≤ spaceOf t →
  P (seat chunk t).
Proof.
  unfold P, capacityOk. simpl. intros HP Hpos Hne Hfit.
  destruct (WorkingTable.isKnight t); [done|].
  destruct HP as [?|Hwide]; [by left|].
  apply widened_full in Hwide. unfold spaceOf in Hfit.
  pose proof (getGuestsSize_pos _ Hpos Hne). lia.
Qed.

Lemma capacityOk_whole group guestsToSeat :
  positiveSizes guestsToSeat → guestsToSeat ≠ [] →
  getGuestsSize guestsToSeat ≤ tableCapacity →
  P (seat guestsToSeat (newStandardTable group tableCapacity)).
Proof. intros _ _ _. by left. Qed.

Lemma capacityOk_split group g0 rest :
  positiveSizes (g0 :: rest) →
  P (seat (g0 :: firstFit tableCapacity (gSize g0) rest)
          (setCapacity (Z.max tableCapacity (gSize g0))
                       (newStandardTable group tableCapacity))).
Proof.
  intros [Hg0 Hrest]%Forall_cons. unfold P, capacityOk. simpl.
  destruct (decide (gSize g0 ≤ tableCapacity)) as [Hle|Hgt].
  - left. lia.
  - right. exists g0. rewrite firstFit_over by (done || lia).
    split_and!; [done|simpl; lia|lia].
Qed.

Lemma capacityOk_absorb tableA tableB :
  P tableA → P tableB →
  occupancy tableA < WorkingTable.capacity tableA →
  occupancy tableA + occupancy tableB ≤ WorkingTable.capacity tableA →
  P (absorb tableB tableA).
Proof.
  unfold P, capacityOk. simpl. intros HA _ Hroom _.
  destruct (WorkingTable.isKnight tableA); [done|].
  destruct HA as [?|Hwide]; [by left|].
  apply widened_full in Hwide. lia.
Qed.
End CapacityOk.

Lemma capacityOk_result guests config :
  positiveSizes guests →
  Forall (λ e, capacityOk (KnightConfig.capacity (knightConfigOf config))
                          (tableCapacityOf config) e.2)
         (afterMerge guests config).
Proof.
  intros Hpos.
  apply (afterMerge_ok _ _ positiveSizes positiveSizes_sub
           (capacityOk_mark _ _) (capacityOk_seat _ _)
           (capacityOk_whole _ _) (capacityOk_split _ _) (capacityOk_absorb _ _)
           guests config eq_refl); [|done].
  by intros _ _.
Qed.

(** ** Where the guests are *)

Lemma distinctIds_sub l l' : l' ⊆+ l → distinctIds l → distinctIds l'.
Proof.
  unfold distinctIds. intros Hsub. apply submseteq_NoDup. by apply fmap_submseteq.
Qed.

Lemma seated_alter f k t ta extra :
  dictGet k ta = Some t →
  WorkingTable.guests (f t) = WorkingTable.guests t ++ extra →
  seated (dictAlter f k ta) ≡ₚ seated ta ++ extra.
Proof.
  intros (d1 & d2 & -> & _ & Halter & _)%dict_split Hguests.
  rewrite Halter. unfold seated. rewrite !bind_app. csimpl.
  rewrite Hguests, <- !(assoc (++)).
  apply Permutation_app_head, Permutation_app_head, (comm (++)).
Qed.

Lemma seated_open f v ta c :
  c ∉ ta.*1 →
  seated (dictAlter f c (dictSet c v ta)) = seated ta ++ WorkingTable.guests (f v).
Proof.
  intros Hc. rewrite dictAlter_dictSet_fresh by done.
  unfold seated. rewrite bind_app. csimpl. by rewrite app_nil_r.
Qed.

Lemma seated_delete k t ta :
  dictGet k ta = Some t →
  seated ta ≡ₚ WorkingTable.guests t ++ seated (dictDelete k ta).
Proof.
  intros (d1 & d2 & -> & _ & _ & Hdelete)%dict_split.
  rewrite Hdelete. unfold seated. rewrite !bind_app. csimpl.
  by rewrite !(assoc (++)), (comm (++) (WorkingTable.guests t)).
Qed.

Lemma poolGuests_app l1 l2 : poolGuests (l1 ++ l2) = poolGuests l1 ++ poolGuests l2.
Proof. apply bind_app. Qed.

Lemma poolGuests_cons g l : poolGuests (g :: l) = GuestGroup.guests g ++ poolGuests l.
Proof. reflexivity. Qed.

Lemma standardSeat_unfold fuel tableCapacity group st g0 rest groupSize :
  standardSeat (S fuel) tableCapacity group st (g0 :: rest) groupSize =
  let guestsToSeat := g0 :: rest in
  let ta := Seating.tableAssignments st in
  match bestFit group groupSize ta with
  | Some bestFitTableId =>
      Seating.mk
        (dictAlter (λ t, markFirst group guestsToSeat (seat guestsToSeat t))
                   bestFitTableId ta)
        (Seating.tableCounter st)
  | None =>
      if groupSize <=? tableCapacity then
        Seating.mk
          (dictAlter (seat guestsToSeat) (Seating.tableCounter st)
             (dictSet (Seating.tableCounter st)
                      (newStandardTable group tableCapacity) ta))
          (S (Seating.tableCounter st))
      else
        match partialTarget group ta guestsToSeat with
        | Some (bestPartialTableId, chunk) =>
            standardSeat fuel tableCapacity group
              (Seating.mk (dictAlter (seat chunk) bestPartialTableId ta)
                          (Seating.tableCounter st))
              (removeChunk chunk guestsToSeat)
              (getGuestsSize (removeChunk chunk guestsToSeat))
        | None =>
            match splitIntoNewTable tableCapacity group st guestsToSeat with
            | (st', Some rest') =>
                standardSeat fuel tableCapacity group st' rest' (getGuestsSize rest')
            | (st', None) => st'
            end
        end
  end.
Proof. reflexivity. Qed.

Lemma knightSeat_unfold fuel count group ta processedGroups g0 rest :
  knightSeat (S fuel) count group ta processedGroups (g0 :: rest) =
  let guestsToSeat := g0 :: rest in
  match knightBest count ta with
  | (Some bestTableId, maxSpace) =>
      if 0 <? maxSpace then
        match fitChunk maxSpace guestsToSeat with
        | [] => (ta, processedGroups)
        | (_ :: _) as chunk =>
            knightSeat fuel count group
              (dictAlter (λ t, markFirst group chunk (seat chunk t)) bestTableId ta)
              processedGroups
              (removeChunk chunk guestsToSeat)
        end
      else (ta, processedGroups ++ [leftoverGroup group guestsToSeat])
  | (None, _) => (ta, processedGroups ++ [leftoverGroup group guestsToSeat])
  end.
Proof. reflexivity. Qed.

(** Phase B seats every member of the group it is given. *)
Lemma standardSeat_seated fuel tableCapacity group st guestsToSeat groupSize :
  wfTables (Seating.tableAssignments st) (Seating.tableCounter st) →
  distinctIds guestsToSeat →
  (length guestsToSeat ≤ fuel)%nat →
  let st' := standardSeat fuel tableCapacity group st guestsToSeat groupSize in
  wfTables (Seating.tableAssignments st') (Seating.tableCounter st') ∧
  seated (Seating.tableAssignments st')
    ≡ₚ seated (Seating.tableAssignments st) ++ guestsToSeat.
Proof.
  revert st guestsToSeat groupSize.
  induction fuel as [|fuel IH]; intros [ta c] gts groupSize Hwf Hids Hlen.
  { destruct gts; [|simpl in Hlen; lia]. simpl. by rewrite app_nil_r. }
  destruct gts as [|g0 rest]; [simpl; by rewrite app_nil_r|].
  rewrite standardSeat_unfold. set (gts := g0 :: rest) in *.
  cbn [Seating.tableAssignments Seating.tableCounter]. cbv zeta.
  destruct (bestFit group groupSize ta) as [k|] eqn:Hfit.
  { apply bestFit_spec in Hfit as (t & Hin & _).
    cbn [Seating.tableAssignments Seating.tableCounter].
    split; [by apply wfTables_alter|].
    apply (seated_alter _ _ t); [apply dictGet_NoDup; [apply Hwf|done]|].
    by rewrite guests_markFirst. }
  destruct (groupSize <=? tableCapacity).
  { cbn [Seating.tableAssignments Seating.tableCounter].
    split; [by apply wfTables_open|].
    by rewrite seated_open by (by apply wfTables_fresh). }
  assert (∀ chunk, chunk ≠ [] → chunk `sublist_of` gts →
            distinctIds (removeChunk chunk gts) ∧
            (length (removeChunk chunk gts) ≤ fuel)%nat ∧
            gts ≡ₚ chunk ++ removeChunk chunk gts) as Hrest.
  { intros chunk Hne Hsub. split_and!.
    - eapply distinctIds_sub; [|done]. apply sublist_submseteq, removeChunk_sublist.
    - pose proof (removeChunk_shorter _ _ Hne Hsub). lia.
    - apply removeChunk_perm; [done|by apply sublist_submseteq]. }
  destruct (partialTarget group ta gts) as [[k chunk]|] eqn:Hpart.
  { apply partialTarget_spec in Hpart as (t & Hin & _ & _ & _ & -> & Hne).
    destruct (Hrest _ Hne (fitChunk_sublist _ _)) as (Hids' & Hlen' & Hperm).
    edestruct (IH (Seating.mk (dictAlter (seat (fitChunk (spaceOf t) gts)) k ta) c))
      as [Hwf' Hseated]; [by apply wfTables_alter|exact Hids'|exact Hlen'|].
    split; [exact Hwf'|]. rewrite Hseated. cbn [Seating.tableAssignments].
    rewrite (seated_alter _ _ t _ (fitChunk (spaceOf t) gts));
      [|apply dictGet_NoDup; [apply Hwf|done]|done].
    by rewrite <- (assoc (++)), <- Hperm. }
  unfold splitIntoNewTable. cbn [Seating.tableAssignments Seating.tableCounter].
  subst gts. rewrite newTableChunk_cons.
  set (chunk := g0 :: firstFit tableCapacity (gSize g0) rest).
  destruct (Hrest chunk) as (Hids' & Hlen' & Hperm);
    [done|apply sublist_skip, firstFit_sublist|].
  edestruct (IH (Seating.mk
      (dictAlter (λ t, seat chunk (setCapacity (Z.max tableCapacity (gSize g0)) t)) c
         (dictSet c (newStandardTable group tableCapacity) ta)) (S c)))
    as [Hwf' Hseated]; [by apply wfTables_open|exact Hids'|exact Hlen'|].
  split; [exact Hwf'|]. rewrite Hseated. cbn [Seating.tableAssignments].
  rewrite seated_open by (by apply wfTables_fresh).
  by rewrite <- (assoc (++)), <- Hperm.
Qed.

Lemma standardPhase_seated tableCapacity st processedGroups :
  wfTables (Seating.tableAssignments st) (Seating.tableCounter st) →
  Forall (λ group, distinctIds (GuestGroup.guests group)) processedGroups →
  let st' := standardPhase tableCapacity st processedGroups in
  wfTables (Seating.tableAssignments st') (Seating.tableCounter st') ∧
  seated (Seating.tableAssignments st')
    ≡ₚ seated (Seating.tableAssignments st) ++ poolGuests processedGroups.
Proof.
  intros Hwf Hall. unfold standardPhase.
  assert (poolGuests processedGroups ≡ₚ poolGuests (jsSort bySizeDesc processedGroups)) as ->.
  { unfold poolGuests. by rewrite jsSort_perm. }
  rewrite <- (jsSort_perm bySizeDesc) in Hall.
  revert st Hwf.
  induction Hall as [|group groups Hids _ IH]; intros st Hwf; simpl.
  - by rewrite app_nil_r.
  - destruct (standardSeat_seated (length (GuestGroup.guests group)) tableCapacity
               group st (GuestGroup.guests group)
               (getGuestsSize (GuestGroup.guests group)) Hwf Hids ltac:(done))
      as [Hwf' Hseated].
    destruct (IH _ Hwf') as [Hwf'' Hseated'].
    split; [exact Hwf''|].
    unfold standardGroup at 2. rewrite Hseated', Hseated.
    by rewrite (assoc (++)).
Qed.

(** Phase A never seats a guest twice; it may leave members out (see
    [knight_leftover_is_lost] below). *)
Lemma knightSeat_seated fuel count group ta processedGroups guestsToSeat :
  distinctIds guestsToSeat →
  let r := knightSeat fuel count group ta processedGroups guestsToSeat in
  seated r.1 ++ poolGuests r.2
    ⊆+ seated ta ++ poolGuests processedGroups ++ guestsToSeat.
Proof.
  revert ta guestsToSeat.
  assert (∀ ta gts, seated ta ++ poolGuests processedGroups
                      ⊆+ seated ta ++ poolGuests processedGroups ++ gts) as Hstay.
  { intros. rewrite (assoc (++)). by apply submseteq_inserts_r. }
  assert (∀ ta gts, seated ta ++ poolGuests (processedGroups ++ [leftoverGroup group gts])
                      ⊆+ seated ta ++ poolGuests processedGroups ++ gts) as Hpush.
  { intros. rewrite poolGuests_app. unfold poolGuests at 2. csimpl.
    by rewrite app_nil_r. }
  induction fuel as [|fuel IH]; intros ta gts Hids; [destruct gts; apply Hstay|].
  destruct gts as [|g0 rest]; [apply Hstay|].
  rewrite knightSeat_unfold. set (gts := g0 :: rest) in *. cbv zeta.
  destruct (knightBest count ta) as [[k|] m] eqn:Hbest; [|apply Hpush].
  apply knightBest_spec in Hbest as (t & Hget & <- & _).
  destruct (0 <? spaceOf t); [|apply Hpush].
  destruct (fitChunk (spaceOf t) gts) as [|g1 chunk'] eqn:Hchunk; [apply Hstay|].
  set (chunk := g1 :: chunk') in *.
  assert (chunk `sublist_of` gts) as Hsub by (rewrite <- Hchunk; apply fitChunk_sublist).
  etrans; [apply IH|].
  - eapply distinctIds_sub; [|done]. apply sublist_submseteq, removeChunk_sublist.
  - rewrite (seated_alter _ _ t _ chunk); [|done|by rewrite guests_markFirst].
    rewrite (removeChunk_perm chunk gts) at 2; [|done|by apply sublist_submseteq].
    apply Permutation_submseteq. rewrite <- !(assoc (++)).
    apply Permutation_app_head.
    by rewrite !(assoc (++)), (comm (++) chunk).
Qed.

Lemma selectKnightCandidates_guests processedGroups :
  poolGuests (selectKnightCandidates processedGroups).1
    ++ poolGuests (selectKnightCandidates processedGroups).2
  ≡ₚ poolGuests processedGroups.
Proof.
  unfold selectKnightCandidates, poolGuests.
  case_decide; simpl; rewrite <- bind_app; by rewrite filter_app_complement.
Qed.

Lemma seated_initKnightTables count capacity :
  seated (initKnightTables count capacity) = [].
Proof.
  rewrite initKnightTables_eq. unfold seated.
  induction (seq 0 count) as [|i l IH]; csimpl; done.
Qed.

Lemma knightGroups_seated count candidates acc :
  Forall (λ group, distinctIds (GuestGroup.guests group)) candidates →
  let r := foldl (knightGroup count) acc candidates in
  seated r.1 ++ poolGuests r.2
    ⊆+ seated acc.1 ++ poolGuests acc.2 ++ poolGuests candidates.
Proof.
  intros Hall. revert acc.
  induction Hall as [|group groups Hids _ IH]; intros acc; simpl.
  - by rewrite app_nil_r.
  - etrans; [apply IH|]. rewrite !(assoc (++)).
    apply submseteq_skips_r. rewrite <- (assoc (++)).
    by apply knightSeat_seated.
Qed.

Lemma knightPhase_seated knightConfig processedGroups :
  Forall (λ group, distinctIds (GuestGroup.guests group)) processedGroups →
  let r := knightPhase knightConfig processedGroups in
  seated r.1.1 ++ poolGuests r.2 ⊆+ poolGuests processedGroups.
Proof.
  intros Hall. unfold knightPhase.
  destruct (KnightConfig.enabled knightConfig && (0 <? KnightConfig.count knightConfig));
    [|done].
  pose proof (selectKnightCandidates_Forall _ _ Hall) as [Hcand _].
  pose proof (selectKnightCandidates_guests processedGroups) as Hsel.
  destruct (selectKnightCandidates processedGroups) as [cands pool]. simpl in *.
  set (count := Z.to_nat (KnightConfig.count knightConfig)).
  assert (poolGuests cands ≡ₚ poolGuests (jsSort bySizeDesc cands)) as Hsort.
  { unfold poolGuests. by rewrite jsSort_perm. }
  rewrite <- (jsSort_perm bySizeDesc) in Hcand.
  pose proof (knightGroups_seated count _
    (initKnightTables count (KnightConfig.capacity knightConfig), pool) Hcand) as Hfold.
  destruct (foldl _ _ _) as [ta' pool']. simpl in *.
  etrans; [apply Hfold|].
  rewrite seated_initKnightTables, <- Hsort, <- Hsel. simpl.
  apply Permutation_submseteq, (comm (++)).
Qed.

(** Phase C moves guests between tables and keeps them all. *)
Lemma mergeSparse_seated ids ta merged :
  NoDup ids → seated (mergeSparse ids ta merged) ≡ₚ seated ta.
Proof.
  intros Hids. revert ta merged.
  induction Hids as [|idA later HidA _ IH]; intros ta merged; simpl; [done|].
  case_decide; [apply IH|].
  destruct (dictGet idA ta) as [tableA|] eqn:HgetA; [|apply IH].
  destruct (WorkingTable.capacity tableA <=? occupancy tableA); [apply IH|].
  destruct (findPartner _ _ _ _ _) as [[idB tableB]|] eqn:Hpartner; [|apply IH].
  apply findPartner_spec in Hpartner as (HgetB & _ & HidB & _).
  assert (idA ≠ idB) as Hne by (by intros ->).
  rewrite IH.
  pose proof (seated_alter (absorb tableB) idA tableA ta (WorkingTable.guests tableB)
                HgetA eq_refl) as Halter.
  pose proof (seated_delete idB tableB (dictAlter (absorb tableB) idA ta)) as Hdelete.
  rewrite dictGet_alter_ne in Hdelete by done. specialize (Hdelete HgetB).
  rewrite Hdelete, (comm (++)) in Halter.
  by apply Permutation_app_inv_r in Halter.
Qed.

Lemma standardTableIds_NoDup ta c : wfTables ta c → NoDup (standardTableIds ta).
Proof.
  intros [Hnd _]. unfold standardTableIds, standardTables.
  rewrite jsSort_perm.
  eapply sublist_NoDup; [exact Hnd|]. apply fmap_sublist, sublist_filter.
Qed.

(** ** What a merge does to the tables *)

Section DeleteFacts.
Context {K : Type} `{EqDecision K} {V : Type}.
Implicit Types (d : list (K * V)) (k : K).


End DeleteFacts.



Lemma consolidate_seated ta c : wfTables ta c → seated (consolidate ta) ≡ₚ seated ta.
Proof. intros Hwf. by eapply mergeSparse_seated, standardTableIds_NoDup. Qed.

(** Putting the phases together: nobody is seated twice. *)
Lemma wf_afterKnights guests config :
  distinctIds guests →
  let r := afterKnights guests config in
  wfTables r.1.1 r.1.2 ∧ Forall (λ group, distinctIds (GuestGroup.guests group)) r.2.
Proof.
  intros Hids.
  destruct (afterKnights_ok (λ _, True) distinctIds distinctIds_sub
              ltac:(done) ltac:(done) guests config ltac:(done) Hids) as [[Hwf _] Hpool].
  done.
Qed.

Lemma seated_afterKnights guests config :
  distinctIds guests →
  let r := afterKnights guests config in
  seated r.1.1 ++ poolGuests r.2 ⊆+ guests.
Proof.
  intros Hids. unfold afterKnights.
  etrans; [apply knightPhase_seated|].
  - apply (classifiedGroups_Q distinctIds distinctIds_sub _ _ Hids).
  - unfold classifiedGroups. rewrite poolGuests_classify.
    apply grouped_guests.
Qed.

Lemma seated_afterStandard guests config :
  distinctIds guests →
  let st := afterStandard guests config in
  wfTables (Seating.tableAssignments st) (Seating.tableCounter st) ∧
  seated (Seating.tableAssignments st) ⊆+ guests.
Proof.
  intros Hids. unfold afterStandard.
  pose proof (wf_afterKnights guests config Hids) as [Hwf Hpool].
  pose proof (seated_afterKnights guests config Hids) as Hsub.
  destruct (afterKnights guests config) as [[ta c] pool]. simpl in *.
  destruct (standardPhase_seated (tableCapacityOf config) (Seating.mk ta c) pool Hwf Hpool)
    as [Hwf' Hseated].
  split; [done|]. by rewrite Hseated.
Qed.

Lemma seated_afterMerge guests config :
  distinctIds guests → seated (afterMerge guests config) ⊆+ guests.
Proof.
  intros Hids.
  destruct (seated_afterStandard guests config Hids) as [Hwf Hsub].
  unfold afterMerge. by rewrite (consolidate_seated _ _ Hwf).
Qed.

(** ** The assignment map *)




Lemma resultTables_ids ta :
  (resultTable <$> ta) ≫= tableIds = Guest.id <$> seated ta.
Proof.
  unfold seated. induction ta as [|e ta IH]; csimpl; [done|].
  by rewrite IH, fmap_app.
Qed.

Lemma resultTables_names ta :
  OptimizedTable.id <$> (resultTable <$> ta) = tableName <$> ta.*1.
Proof. induction ta as [|e ta IH]; csimpl; [done|]. by rewrite IH. Qed.

#[global] Instance tableName_inj : Inj (=) (=) tableName.
Proof.
  intros n1 n2 Heq. unfold tableName in Heq.
  by apply (inj _), (inj pretty) in Heq.
Qed.

(** * The claims *)

(** ** Runs that settle a claim *)

(** C1 (code defect). Conservation fails on a run the code can receive: with
    one knight table of capacity 2 and a single friend of size 3, the knight
    loop leaves the group at its [break] without returning the member to the
    pool, so the guest is in no output table, nothing is reported, and the
    seated sizes add up to 0 instead of 3. *)
Theorem conservation_fails_on_knight_leftover :
  optimizeSeating [partyOfThree] oneSmallKnightTable
  = Resolved (OptimizationResult.mk ∅
                [OptimizedTable.mk "table-0" 2 true [] None None])
  ∧ getGuestsSize [partyOfThree] = 3
  ∧ getGuestsSize (seated (afterMerge [partyOfThree] oneSmallKnightTable)) = 0.
Proof. vm_compute. done. Qed.

(** C2 (code defect). At the same input the knight allocator stops on the
    group because no member fits the space that is left (the best table
    has space 2, the only member needs 3): the loop breaks without pushing
    the remainder back, the pool handed to the standard allocator is empty
    and nobody is seated afterwards. *)
Theorem knight_leftover_is_lost :
  knightBest 1 (initKnightTables 1 2) = (Some 0%nat, 2)
  ∧ fitChunk 2 [partyOfThree] = []
  ∧ afterKnights [partyOfThree] oneSmallKnightTable
    = ([(0%nat, knightTable 2)], 1%nat, [])
  ∧ seated (Seating.tableAssignments
              (afterStandard [partyOfThree] oneSmallKnightTable)) = [].
Proof. vm_compute. done. Qed.

(** The sibling exit of the same loop does push the remainder back: with no
    space at all in the knight table the member reaches the standard pool. *)
Lemma knight_without_space_pushes_back :
  (afterKnights [partyOfThree] (configOf 12 (Some (KnightConfig.mk true 1 0)) None)).2
  = [GuestGroup.mk "individual-g1" [partyOfThree] 3 groom friend false].
Proof. vm_compute. done. Qed.

(** X4. A group key that collides with the key made up for an ungrouped
    guest is overwritten by it: the members of the group disappear in the
    grouping. *)
Lemma individual_key_collision_drops_group :
  groupGuestsByRelationship
     [guestOf "a" family groom (Some "individual-7") None;
      guestOf "7" family groom None None]
  = inr [GuestGroup.mk "individual-7" [guestOf "7" family groom None None] 1
           both other false].
Proof. vm_compute. done. Qed.

(** C3, counterexample. A name was supplied ("vip") but it matches no group:
    the only group, friend-dominant and not requested, still becomes a
    knight candidate, leaves the standard pool and is seated at the knight
    table. *)
Lemma unmatched_names_fall_back_to_auto_mode :
  knightTargetGroups namedKnights = ["vip"]
  ∧ GuestGroup.isRequestedForKnight <$> classifiedGroups [pal] namedKnights = [false]
  ∧ GuestGroup.groupId <$> (selectKnightCandidates (classifiedGroups [pal] namedKnights)).1
    = ["pals"]
  ∧ (selectKnightCandidates (classifiedGroups [pal] namedKnights)).2 = []
  ∧ OptimizationResult.tables (seatingResult [pal] namedKnights)
    = [OptimizedTable.mk "table-0" 10 true [pal] (Some groom) (Some friend)].
Proof. vm_compute. done. Qed.

(** C4, counterexample. One groom-side family guest and one bride-side
    friend, one seat each: both tallies tie at 1 and the classifier answers
    with the later-declared candidates, bride and friend. *)
Lemma tie_goes_to_later_candidate :
  sideCount tiedGroup groom = 1 ∧ sideCount tiedGroup bride = 1
  ∧ categoryCount tiedGroup family = 1 ∧ categoryCount tiedGroup friend = 1
  ∧ (λ g, (GuestGroup.dominantSide g, GuestGroup.dominantCategory g))
      <$> classifiedGroups tiedGroup (configOf 12 None None)
    = [(bride, friend)].
Proof. vm_compute. done. Qed.

(** C5, counterexample. A configuration that is invalid in all three ways
    (table capacity 0, knight capacity 0, knight count -1) is run like any
    other and yields an assignment. *)
Lemma invalid_configuration_is_not_rejected :
  optimizeSeating [guestOf "a" family groom None None] invalidConfig
  = Resolved (OptimizationResult.mk {[ "a" := "table-0" ]}
       [OptimizedTable.mk "table-0" 1 false [guestOf "a" family groom None None]
          (Some groom) (Some family)]).
Proof. vm_compute. done. Qed.

(** C6, counterexample. The chunk is not a prefix: with space 2 the first
    member (3 seats) does not fit and the second (1 seat) is seated; and in
    a run with tables of 4, the group of sizes 3, 2, 1 fills its first table
    with the first and the third member while the second waits. *)
Lemma chunk_is_not_a_prefix :
  fitChunk 2 [guestOf "x" family groom None (Some 3); guestOf "y" family groom None (Some 1)]
  = [guestOf "y" family groom None (Some 1)]
  ∧ (λ t, Guest.id <$> OptimizedTable.guests t)
      <$> OptimizationResult.tables (seatingResult threeTwoOne (configOf 4 None None))
    = [["b"; "d"]; ["c"]].
Proof. vm_compute. done. Qed.

(** C7, counterexample. Two knight tables are asked for with capacity -1
    and one family guest comes: the run resolves, both knight tables are
    returned empty, with occupancy 0 above their capacity -1, and neither
    is a table widened for an oversized guest. *)
Lemma negative_knight_capacity_is_overfull :
  optimizeSeating [guestOf "a" family groom None None] negativeKnights
  = Resolved (OptimizationResult.mk {[ "a" := "table-2" ]}
       [OptimizedTable.mk "table-0" (-1) true [] None None;
        OptimizedTable.mk "table-1" (-1) true [] None None;
        OptimizedTable.mk "table-2" 12 false [guestOf "a" family groom None None]
          (Some groom) (Some family)])
  ∧ ¬ fits (OptimizedTable.mk "table-0" (-1) true [] None None)
  ∧ ¬ fits (OptimizedTable.mk "table-1" (-1) true [] None None).
Proof. split; [by vm_compute|]. split; by vm_compute. Qed.

(** ** Theorems *)

(** C3, as amended. The mode follows the groups that matched, not the names
    that were supplied: when at least one group is flagged
    [isRequestedForKnight] (its normalised id is one of the normalised
    names), the candidates are exactly the flagged groups and every other
    group stays in the standard pool; when no group is flagged (no names, or
    names that match no group) the candidates are the friend-dominant groups
    and the others stay in the pool.  The ids, group ids and names are
    ASCII text, on which [normalize] trims and folds as the source does. *)
Theorem knight_mode_follows_matched_groups guests config :
  asciiIds guests → asciiGroupIds guests → asciiNames config →
  let groups := classifiedGroups guests config in
  let requested := filter (λ g, GuestGroup.isRequestedForKnight g = true) groups in
  (∀ g, g ∈ groups →
        GuestGroup.isRequestedForKnight g = true
        ↔ normalize (GuestGroup.groupId g) ∈ knightTargetGroups config)
  ∧ (requested ≠ [] →
     selectKnightCandidates groups
     = (requested, filter (λ g, GuestGroup.isRequestedForKnight g ≠ true) groups))
  ∧ (requested = [] →
     selectKnightCandidates groups
     = (filter (λ g, GuestGroup.dominantCategory g = friend) groups,
        filter (λ g, GuestGroup.dominantCategory g ≠ friend) groups))
  ∧ (knightTargetGroups config = [] → requested = []).
Proof.
  intros _ _ _ groups requested.
  assert (∀ g, g ∈ groups →
            GuestGroup.isRequestedForKnight g = true
            ↔ normalize (GuestGroup.groupId g) ∈ knightTargetGroups config) as Hflag.
  { intros g (g0 & -> & _)%list_elem_of_fmap. simpl. apply bool_decide_eq_true. }
  split_and!; [done| | |].
  - intros Hne. unfold selectKnightCandidates. fold requested.
    rewrite decide_False; [done|]. by destruct requested.
  - intros Hnil. unfold selectKnightCandidates. fold requested.
    by rewrite Hnil, decide_True.
  - intros Hnames. destruct requested as [|g rest] eqn:Hreq; [done|].
    assert (g ∈ requested) as Hin by (rewrite Hreq; left).
    apply list_elem_of_filter in Hin as [Hg Hin].
    apply (Hflag _ Hin) in Hg. rewrite Hnames in Hg. by apply elem_of_nil in Hg.
Qed.

Lemma knight_mode_follows_matched_groups_witness :
  asciiIds [pal] ∧ asciiGroupIds [pal] ∧ asciiNames namedKnights
  ∧ selectKnightCandidates (classifiedGroups [pal] namedKnights)
    = (filter (λ g, GuestGroup.dominantCategory g = friend)
              (classifiedGroups [pal] namedKnights),
       filter (λ g, GuestGroup.dominantCategory g ≠ friend)
              (classifiedGroups [pal] namedKnights)).
Proof.
  assert (asciiIds [pal]) as Hids by (by repeat constructor).
  assert (asciiGroupIds [pal]) as Hgroups by (by repeat constructor).
  assert (asciiNames namedKnights) as Hnames by (by repeat constructor).
  split_and!; [exact Hids|exact Hgroups|exact Hnames|].
  destruct (knight_mode_follows_matched_groups [pal] namedKnights Hids Hgroups Hnames)
    as (_ & _ & Hauto & _).
  apply Hauto. by vm_compute.
Defined.

(** C4, as amended. The dominants are the maxima of the weighted tallies,
    with ties going to the later-declared candidate: the reducer keeps the
    current leader only when its tally is strictly greater, so every
    candidate declared after the winner has a strictly smaller tally. *)
Theorem classifier_ties_go_to_later_candidate names group :
  let members := GuestGroup.guests group in
  let classified := classify names group in
  (∀ s, sideCount members s ≤ sideCount members (GuestGroup.dominantSide classified))
  ∧ (∀ s, (sideOrder (GuestGroup.dominantSide classified) < sideOrder s)%nat →
          sideCount members s < sideCount members (GuestGroup.dominantSide classified))
  ∧ (∀ c, categoryCount members c
          ≤ categoryCount members (GuestGroup.dominantCategory classified))
  ∧ (∀ c, (categoryOrder (GuestGroup.dominantCategory classified) < categoryOrder c)%nat →
          categoryCount members c
          < categoryCount members (GuestGroup.dominantCategory classified)).
Proof.
  intros members classified. simpl.
  split_and!; auto using dominantSide_max, dominantSide_latest,
                dominantCategory_max, dominantCategory_latest.
Qed.

Lemma firstFit_maximal space taken l g :
  positiveSizes l → g ∈ l → g ∉ firstFit space taken l →
  space < taken + getGuestsSize (firstFit space taken l) + gSize g.
Proof.
  intros Hpos. revert taken.
  induction Hpos as [|x l Hx Hl IH]; intros taken Hin Hout; [by apply elem_of_nil in Hin|].
  simpl in *. destruct (taken + gSize x <=? space) eqn:Hfit.
  - apply not_elem_of_cons in Hout as [Hne Hout].
    apply elem_of_cons in Hin as [?|Hin]; [done|].
    rewrite getGuestsSize_cons. specialize (IH _ Hin Hout). lia.
  - apply Z.leb_gt in Hfit.
    assert (0 ≤ getGuestsSize (firstFit space taken l)) as Hnonneg.
    { apply getGuestsSize_nonneg.
      eapply positiveSizes_sub; [apply sublist_submseteq, firstFit_sublist|done]. }
    apply elem_of_cons in Hin as [->|Hin]; [lia|].
    by apply IH.
Qed.

(** C6, as amended. The chunk seated in a split step is the greedy first-fit
    subsequence of the still-unseated members, not a prefix: the members are
    scanned in order and one is taken exactly when its size fits next to the
    sizes already taken in this step; a member that does not fit is skipped
    and the scan goes on ([firstFit]).  So the chunk keeps the members'
    order, its size fits the space, a first member that fits is always in
    it, a first member that does not fit is skipped in favour of later ones,
    and (sizes being positive) no member left out fits beside the chunk.
    A new standard table always takes the first member and scans the rest
    against the standard capacity. *)
Theorem chunk_is_greedy_first_fit space tableCapacity guestsToSeat :
  fitChunk space guestsToSeat = firstFit space 0 guestsToSeat
  ∧ fitChunk space guestsToSeat `sublist_of` guestsToSeat
  ∧ (0 ≤ space → getGuestsSize (fitChunk space guestsToSeat) ≤ space)
  ∧ (∀ g rest, guestsToSeat = g :: rest → gSize g ≤ space →
       fitChunk space guestsToSeat = g :: firstFit space (gSize g) rest)
  ∧ (∀ g rest, guestsToSeat = g :: rest → space < gSize g →
       fitChunk space guestsToSeat = fitChunk space rest)
  ∧ (positiveSizes guestsToSeat → ∀ g, g ∈ guestsToSeat → g ∉ fitChunk space guestsToSeat →
       space < getGuestsSize (fitChunk space guestsToSeat) + gSize g)
  ∧ (∀ g rest, guestsToSeat = g :: rest →
       newTableChunk tableCapacity guestsToSeat
       = (g :: firstFit tableCapacity (gSize g) rest, Z.max tableCapacity (gSize g))).
Proof.
  split_and!.
  - apply fitChunk_firstFit.
  - apply fitChunk_sublist.
  - apply fitChunk_size.
  - intros g rest -> Hfit. rewrite fitChunk_firstFit. simpl.
    rewrite Z.add_0_l. by rewrite (proj2 (Z.leb_le _ _) Hfit).
  - intros g rest -> Hover. rewrite !fitChunk_firstFit. simpl.
    rewrite Z.add_0_l. by rewrite (proj2 (Z.leb_gt _ _) Hover).
  - intros Hpos g Hin Hout. rewrite fitChunk_firstFit in *.
    pose proof (firstFit_maximal space 0 _ g Hpos Hin Hout). lia.
  - intros g rest ->. apply newTableChunk_cons.
Qed.

(** ** Configurations the spec calls invalid *)

Lemma knightPhase_skipped knightConfig processedGroups :
  KnightConfig.count knightConfig ≤ 0 →
  knightPhase knightConfig processedGroups = ([], 0%nat, processedGroups).
Proof.
  intros Hcount. unfold knightPhase.
  by rewrite (proj2 (Z.ltb_ge _ _) Hcount), andb_false_r.
Qed.

Lemma knightBest_full count ta :
  Forall (λ e, spaceOf e.2 ≤ 0) ta → knightBest count ta = (None, -1).
Proof.
  intros Hfull. unfold knightBest.
  apply (foldl_invariant (λ acc : option nat * Z, acc = (None, -1))); [done|].
  intros acc i _ ->.
  destruct (dictGet i ta) as [table|] eqn:Hget; [|done].
  apply dictGet_elem_of in Hget. rewrite Forall_forall in Hfull.
  specialize (Hfull _ Hget). simpl in *.
  by rewrite (proj2 (Z.ltb_ge _ _) Hfull).
Qed.

Lemma knightSeat_full fuel count group ta processedGroups guestsToSeat :
  knightBest count ta = (None, -1) →
  (knightSeat fuel count group ta processedGroups guestsToSeat).1 = ta.
Proof.
  intros Hbest. destruct fuel, guestsToSeat; try done.
  by rewrite knightSeat_unfold, Hbest.
Qed.

Lemma knightGroups_full count ta candidates processedGroups :
  knightBest count ta = (None, -1) →
  (foldl (knightGroup count) (ta, processedGroups) candidates).1 = ta.
Proof.
  intros Hbest. revert processedGroups.
  induction candidates as [|group groups IH]; intros pool; simpl; [done|].
  unfold knightGroup at 2. simpl.
  pose proof (knightSeat_full (length (GuestGroup.guests group)) count group ta pool
                (GuestGroup.guests group) Hbest) as Hta.
  destruct (knightSeat _ _ _ _ _ _) as [ta' pool']. simpl in Hta. subst ta'.
  apply IH.
Qed.

Lemma knightPhase_full knightConfig processedGroups :
  KnightConfig.capacity knightConfig ≤ 0 →
  Forall (λ e, WorkingTable.guests e.2 = [])
         (knightPhase knightConfig processedGroups).1.1.
Proof.
  intros Hcap. unfold knightPhase.
  destruct (KnightConfig.enabled knightConfig && (0 <? KnightConfig.count knightConfig));
    [|by constructor].
  destruct (selectKnightCandidates processedGroups) as [cands pool].
  set (count := Z.to_nat (KnightConfig.count knightConfig)).
  set (ta := initKnightTables count (KnightConfig.capacity knightConfig)).
  assert (knightBest count ta = (None, -1)) as Hbest.
  { apply knightBest_full. unfold ta. rewrite initKnightTables_eq.
    apply Forall_fmap, Forall_forall. intros i _. simpl.
    unfold spaceOf, occupancy. simpl. rewrite getGuestsSize_nil. lia. }
  pose proof (knightGroups_full count ta (jsSort bySizeDesc cands) pool Hbest) as Hta.
  destruct (foldl _ _ _) as [ta' pool']. simpl in *. subst ta'.
  unfold ta. rewrite initKnightTables_eq. apply Forall_fmap, Forall_forall. by intros.
Qed.

Section NoStandardCapacity.
Context (tableCapacity : Z) (Hcap : tableCapacity ≤ 0).
Let P (t : WorkingTable.t) : Prop :=
  WorkingTable.isKnight t = false → widened tableCapacity t.

Lemma allWidened_mark group chunk t : P t → P (markFirst group chunk t).
Proof.
  unfold P, widened.
  by rewrite isKnight_markFirst, capacity_markFirst, guests_markFirst.
Qed.

Lemma allWidened_seat t chunk :
  P t → positiveSizes chunk → chunk ≠ [] → getGuestsSize chunk ≤ spaceOf t →
  P (seat chunk t).
Proof.
  unfold P. simpl. intros HP Hpos Hne Hfit Hstd.
  apply HP, widened_full in Hstd. unfold spaceOf in Hfit.
  pose proof (getGuestsSize_pos _ Hpos Hne). lia.
Qed.

Lemma allWidened_whole group guestsToSeat :
  positiveSizes guestsToSeat → guestsToSeat ≠ [] →
  getGuestsSize guestsToSeat ≤ tableCapacity →
  P (seat guestsToSeat (newStandardTable group tableCapacity)).
Proof. intros Hpos Hne Hfit. pose proof (getGuestsSize_pos _ Hpos Hne). lia. Qed.

Lemma allWidened_split group g0 rest :
  positiveSizes (g0 :: rest) →
  P (seat (g0 :: firstFit tableCapacity (gSize g0) rest)
          (setCapacity (Z.max tableCapacity (gSize g0))
                       (newStandardTable group tableCapacity))).
Proof.
  intros [Hg0 Hrest]%Forall_cons _. exists g0.
  rewrite firstFit_over by (done || lia).
  split_and!; [done|simpl; lia|lia].
Qed.

Lemma allWidened_absorb tableA tableB :
  P tableA → P tableB →
  occupancy tableA < WorkingTable.capacity tableA →
  occupancy tableA + occupancy tableB ≤ WorkingTable.capacity tableA →
  P (absorb tableB tableA).
Proof.
  unfold P. simpl. intros HA _ Hroom _ Hstd.
  apply HA, widened_full in Hstd. lia.
Qed.

Lemma allWidened_result guests config :
  tableCapacityOf config = tableCapacity →
  positiveSizes guests →
  Forall (λ e, WorkingTable.isKnight e.2 = false → widened tableCapacity e.2)
         (afterMerge guests config).
Proof.
  intros Hconfig Hpos.
  apply (afterMerge_ok _ P positiveSizes positiveSizes_sub
           allWidened_mark allWidened_seat allWidened_whole allWidened_split
           allWidened_absorb guests config Hconfig); [|done].
  by intros _ _.
Qed.
End NoStandardCapacity.

(** C5, as amended. No configuration is rejected: the code validates
    nothing and has no error of its own.  Whether the promise resolves
    depends on the guests alone: it is rejected, with the [TypeError] of
    the run time, when a guest's trimmed [groupId] names a property that
    objects inherit, and resolves with a result otherwise (the group ids
    being ASCII text, on which [trim] is the source's), whatever the
    configuration; the loops of the run end by themselves
    ([knightSeat_loop], [standardSeat_loop]).  What the configurations the
    spec calls invalid do instead: a knight count that is not positive
    skips the knight phase; a knight capacity that is not positive leaves
    every knight table empty; a standard capacity that is not positive
    makes every standard table a table widened for the single guest it
    holds (guests having positive sizes). *)
Theorem no_configuration_is_rejected guests config :
  (asciiGroupIds guests → ownGroupKeys guests →
   optimizeSeating guests config = Resolved (seatingResult guests config))
  ∧ (¬ ownGroupKeys guests → optimizeSeating guests config = Rejected TypeError)
  ∧ (KnightConfig.count (knightConfigOf config) ≤ 0 →
     afterKnights guests config = ([], 0%nat, classifiedGroups guests config))
  ∧ (KnightConfig.capacity (knightConfigOf config) ≤ 0 →
     Forall (λ e, WorkingTable.guests e.2 = []) (afterKnights guests config).1.1)
  ∧ (tableCapacityOf config ≤ 0 → positiveSizes guests →
     Forall (λ t, OptimizedTable.isKnight t = false →
                  ∃ g, OptimizedTable.guests t = [g] ∧
                       OptimizedTable.capacity t = gSize g)
            (OptimizationResult.tables (seatingResult guests config))).
Proof.
  split_and!.
  - intros _ Hown. by rewrite optimizeSeating_spec, decide_True.
  - intros Hthrows. by rewrite optimizeSeating_spec, decide_False.
  - apply knightPhase_skipped.
  - apply knightPhase_full.
  - intros Hcap Hpos. simpl. apply Forall_fmap.
    eapply Forall_impl;
      [apply (allWidened_result _ Hcap guests config eq_refl Hpos)|].
    intros [i t] Hwide Hstd. simpl in *.
    destruct (Hwide Hstd) as (g & ? & ? & _). eauto.
Qed.

(** ** Capacity, widening and the assignment map *)

(** C7, as amended. Whenever the knight tables are created with a capacity
    that is not negative, and the sizes stay where the sums of the source
    are exact, every table holds at most its capacity after the knight
    pass, after the standard pass, after the consolidation pass and in the
    returned result; a table widened for an oversized guest is exactly
    full, so the exception the claim allows is never needed.  A knight
    table created with a negative capacity stays empty and is above its
    capacity from the start. *)
Theorem capacity_is_respected guests config :
  (knightPhaseOn config → 0 ≤ KnightConfig.capacity (knightConfigOf config)) →
  exactSizes guests config →
  Forall (λ e, withinCapacity e.2) (afterKnights guests config).1.1
  ∧ Forall (λ e, withinCapacity e.2)
           (Seating.tableAssignments (afterStandard guests config))
  ∧ Forall (λ e, withinCapacity e.2) (afterMerge guests config)
  ∧ Forall fits (OptimizationResult.tables (seatingResult guests config)).
Proof.
  intros Hknight _.
  destruct (withinCapacity_phases guests config Hknight) as (Hk & Hs & Hm).
  split_and!; [done..|].
  simpl. apply Forall_fmap. eapply Forall_impl; [exact Hm|]. by intros [i t].
Qed.

Lemma capacity_is_respected_witness :
  (knightPhaseOn oneKnightTableOfFour →
   0 ≤ KnightConfig.capacity (knightConfigOf oneKnightTableOfFour))
  ∧ exactSizes sixFriends oneKnightTableOfFour
  ∧ Forall fits (OptimizationResult.tables (seatingResult sixFriends oneKnightTableOfFour)).
Proof.
  assert (knightPhaseOn oneKnightTableOfFour →
          0 ≤ KnightConfig.capacity (knightConfigOf oneKnightTableOfFour)) as Hknight
    by (intros _; simpl; lia).
  assert (exactSizes sixFriends oneKnightTableOfFour) as Hexact
    by (by vm_compute).
  split_and!; [exact Hknight|exact Hexact|].
  apply (capacity_is_respected sixFriends oneKnightTableOfFour Hknight Hexact).
Defined.

(** C8. Guests having positive sizes: the only step that sets a capacity
    other than the configured ones is the fill of a brand-new standard table
    in the split branch, it does so exactly when the first unseated member
    is larger than the standard capacity, and then the capacity is that
    member's size and the member is the whole chunk.  Hence in every result
    a knight table has the knight capacity and a standard table has either
    the standard capacity or is a table holding one oversized guest with
    the capacity of that guest's size.  In particular one guest of size 15
    with tables of 12 gives one table of capacity 15 and occupancy 15. *)
Theorem widening_only_for_oversized_first_guest guests config :
  positiveSizes guests →
  (∀ g0 rest, positiveSizes (g0 :: rest) →
     newTableChunk (tableCapacityOf config) (g0 :: rest)
     = if tableCapacityOf config <? gSize g0
       then ([g0], gSize g0)
       else (g0 :: firstFit (tableCapacityOf config) (gSize g0) rest,
             tableCapacityOf config))
  ∧ Forall (λ t,
       if OptimizedTable.isKnight t
       then OptimizedTable.capacity t = KnightConfig.capacity (knightConfigOf config)
       else OptimizedTable.capacity t = tableCapacityOf config
            ∨ ∃ g, OptimizedTable.guests t = [g] ∧
                   OptimizedTable.capacity t = gSize g ∧
                   tableCapacityOf config < gSize g)
      (OptimizationResult.tables (seatingResult guests config))
  ∧ OptimizationResult.tables (seatingResult [partyOfFifteen] (configOf 12 None None))
    = [OptimizedTable.mk "table-0" 15 false [partyOfFifteen] (Some groom) (Some family)]
  ∧ getGuestsSize [partyOfFifteen] = 15.
Proof.
  intros Hpos. split_and!.
  - intros g0 rest [Hg0 Hrest]%Forall_cons. rewrite newTableChunk_cons.
    destruct (tableCapacityOf config <? gSize g0) eqn:Hover.
    + apply Z.ltb_lt in Hover. rewrite firstFit_over by done. f_equal. lia.
    + apply Z.ltb_ge in Hover. f_equal. lia.
  - simpl. apply Forall_fmap.
    eapply Forall_impl; [apply (capacityOk_result guests config Hpos)|].
    by intros [i t].
  - by vm_compute.
  - by vm_compute.
Qed.

Lemma widening_only_for_oversized_first_guest_witness :
  positiveSizes [partyOfFifteen]
  ∧ Forall (λ t,
       if OptimizedTable.isKnight t
       then OptimizedTable.capacity t
            = KnightConfig.capacity (knightConfigOf (configOf 12 None None))
       else OptimizedTable.capacity t = tableCapacityOf (configOf 12 None None)
            ∨ ∃ g, OptimizedTable.guests t = [g] ∧
                   OptimizedTable.capacity t = gSize g ∧
                   tableCapacityOf (configOf 12 None None) < gSize g)
      (OptimizationResult.tables (seatingResult [partyOfFifteen] (configOf 12 None None))).
Proof.
  assert (positiveSizes [partyOfFifteen]) as Hpos
    by (repeat constructor).
  split; [exact Hpos|].
  apply (widening_only_for_oversized_first_guest [partyOfFifteen]
           (configOf 12 None None) Hpos).
Defined.



(** * The store: what a run writes *)

Section Frame.
Context (n0 : nat).

Lemma preserved_refl s : (n0 ≤ length (Refs.arrays s))%nat → preserved n0 s s.
Proof. by intros. Qed.

Lemma preserved_trans s1 s2 s3 :
  preserved n0 s1 s2 → preserved n0 s2 s3 → preserved n0 s1 s3.
Proof.
  intros (Ho1 & _ & Ha1) (Ho2 & Hlen & Ha2). split_and!; [congruence|done|].
  intros a Ha. by rewrite Ha2, Ha1.
Qed.

Lemma preserved_length s s' : preserved n0 s s' → (n0 ≤ length (Refs.arrays s'))%nat.
Proof. by intros (_ & ? & _). Qed.

Lemma preserved_newArray elements s :
  (n0 ≤ length (Refs.arrays s))%nat →
  preserved n0 s (Refs.newArray elements s).2 ∧ (n0 ≤ (Refs.newArray elements s).1)%nat.
Proof.
  intros Hlen. unfold Refs.newArray. simpl. split; [|done].
  split_and!; simpl; [done|rewrite length_app; lia|].
  intros a Ha. apply lookup_app_l. lia.
Qed.

Lemma preserved_pushAll a elements s :
  (n0 ≤ a)%nat → (n0 ≤ length (Refs.arrays s))%nat →
  preserved n0 s (Refs.pushAll a elements s).
Proof.
  intros Ha Hlen. split_and!; simpl; [done|by rewrite length_alter|].
  intros a' Ha'. apply list_lookup_alter_ne. lia.
Qed.

Lemma preserved_setElements a elements s :
  (n0 ≤ a)%nat → (n0 ≤ length (Refs.arrays s))%nat →
  preserved n0 s (Refs.setElements a elements s).
Proof.
  intros Ha Hlen. split_and!; simpl; [done|by rewrite length_insert|].
  intros a' Ha'. apply list_lookup_insert_ne. lia.
Qed.

Lemma preserved_removeFrom guestsToSeat chunk s :
  (n0 ≤ guestsToSeat)%nat → (n0 ≤ length (Refs.arrays s))%nat →
  preserved n0 s (Refs.removeFrom guestsToSeat chunk s).
Proof. apply preserved_setElements. Qed.

Lemma preserved_seatAt k chunk ta s :
  ownTables n0 ta → (n0 ≤ length (Refs.arrays s))%nat →
  preserved n0 s (Refs.seatAt k chunk ta s).
Proof.
  intros Hown Hlen. unfold Refs.seatAt.
  destruct (dictGet k ta) as [table|] eqn:Hget; [|done].
  apply preserved_pushAll; [|done].
  apply dictGet_elem_of in Hget. unfold ownTables in Hown.
  rewrite Forall_forall in Hown. apply (Hown _ Hget).
Qed.

Lemma ownTables_alter f k ta :
  (∀ t, Refs.Table.guests (f t) = Refs.Table.guests t) →
  ownTables n0 ta → ownTables n0 (dictAlter f k ta).
Proof.
  intros Hf Hown.
  apply (dictAlter_Forall (λ t, (n0 ≤ Refs.Table.guests t)%nat)); [done|].
  intros t _ Ht. by rewrite Hf.
Qed.

Lemma guests_markFirst_ref s group chunk t :
  Refs.Table.guests (Refs.markFirst s group chunk t) = Refs.Table.guests t.
Proof. unfold Refs.markFirst. by case_decide. Qed.

(** Grouping. *)
Lemma preserved_pushed key guest groups s :
  Forall (λ e, (n0 ≤ e.2)%nat) groups → (n0 ≤ length (Refs.arrays s))%nat →
  let r := Refs.pushed key guest groups s in
  Forall (λ e, (n0 ≤ e.2)%nat) r.1 ∧ preserved n0 s r.2.
Proof.
  intros Hown Hlen. unfold Refs.pushed.
  destruct (dictGet key groups) as [a|] eqn:Hget; simpl.
  - split; [done|]. apply preserved_pushAll; [|done].
    apply dictGet_elem_of in Hget. rewrite Forall_forall in Hown. apply (Hown _ Hget).
  - split.
    + by apply (dictSet_Forall (λ a, (n0 ≤ a)%nat)).
    + eapply preserved_trans; [apply (preserved_newArray [] s Hlen)|].
      apply preserved_pushAll; simpl; [done|]. rewrite length_app. lia.
Qed.

Lemma preserved_collected guests s :
  (n0 ≤ length (Refs.arrays s))%nat →
  let r := Refs.collected guests s in
  Forall (λ e, (n0 ≤ e.2)%nat) r.1.1 ∧ preserved n0 s r.2.
Proof.
  intros Hlen. unfold Refs.collected.
  destruct (preserved_newArray [] s Hlen) as [Hnew Hungrouped].
  destruct (Refs.newArray [] s) as [ungrouped s0]. simpl in *.
  pose proof (foldl_invariant
    (λ acc : list (string * nat) * Refs.Store,
       Forall (λ e, (n0 ≤ e.2)%nat) acc.1 ∧ preserved n0 s acc.2)
    (λ (acc : list (string * nat) * Refs.Store) i,
             match Refs.arrayAt acc.2 guests !! i with
             | Some guest =>
                 match groupKey (Refs.objectAt acc.2 guest) with
                 | Some key => Refs.pushed key guest acc.1 acc.2
                 | None => (acc.1, Refs.pushAll ungrouped [guest] acc.2)
                 end
             | None => acc
             end)
    (seq 0 (length (Refs.arrayAt s0 guests))) ([], s0)) as Hfold.
  destruct (foldl _ _ _) as [groups s1]. simpl in *.
  apply Hfold; [by split|]. clear Hfold.
  intros [groups' s'] i _ [Hown Hpres]. simpl.
  pose proof (preserved_length _ _ Hpres) as Hlen'.
  destruct (Refs.arrayAt s' guests !! i) as [guest|]; [|done].
  destruct (groupKey (Refs.objectAt s' guest)) as [key|]; simpl.
  - destruct (preserved_pushed key guest groups' s' Hown Hlen') as [? ?].
    split; [done|]. by eapply preserved_trans.
  - split; [done|]. eapply preserved_trans; [exact Hpres|]. by apply preserved_pushAll.
Qed.

Lemma preserved_addIndividuals ungrouped groups s :
  (n0 ≤ length (Refs.arrays s))%nat →
  preserved n0 s (Refs.addIndividuals ungrouped groups s).2.
Proof.
  intros Hlen. unfold Refs.addIndividuals.
  apply (foldl_invariant
    (λ acc : list (string * nat) * Refs.Store, preserved n0 s acc.2)); [done|].
  intros [groups' s'] guest _ Hpres. simpl in *.
  pose proof (preserved_length _ _ Hpres) as Hlen'.
  eapply preserved_trans; [exact Hpres|]. by apply preserved_newArray.
Qed.

(** A throw leaves the store as the pushes before it left it. *)
Lemma preserved_collectGroups_thrown guests s :
  (n0 ≤ length (Refs.arrays s))%nat →
  let r := Refs.collectGroups guests s in
  (∀ groups, r.1.1 = inr groups → Forall (λ e, (n0 ≤ e.2)%nat) groups)
  ∧ preserved n0 s r.2.
Proof.
  intros Hlen. unfold Refs.collectGroups.
  destruct (preserved_newArray [] s Hlen) as [Hnew Hungrouped].
  destruct (Refs.newArray [] s) as [ungrouped s0]. simpl in *.
  pose proof (foldl_invariant
    (λ acc : (JsError + list (string * nat)) * Refs.Store,
       (∀ groups, acc.1 = inr groups → Forall (λ e, (n0 ≤ e.2)%nat) groups)
       ∧ preserved n0 s acc.2)
    (Refs.collectStep guests ungrouped)
    (seq 0 (length (Refs.arrayAt s0 guests))) (inr [], s0)) as Hfold.
  destruct (foldl _ _ _) as [groups s1]. simpl in *.
  apply Hfold; [split; [by intros ? [= <-]|done]|]. clear Hfold.
  intros [[error|groups'] s'] i _ [Hown Hpres]; [done|].
  unfold Refs.collectStep. cbn [fst snd] in *.
  specialize (Hown groups' eq_refl).
  pose proof (preserved_length _ _ Hpres) as Hlen'.
  destruct (Refs.arrayAt s' guests !! i) as [guest|]; [|by split; [intros ? [= <-]|]].
  destruct (groupKey (Refs.objectAt s' guest)) as [key|]; simpl.
  - unfold Refs.groupsPush. case_decide; [done|].
    destruct (preserved_pushed key guest groups' s' Hown Hlen') as [? ?].
    cbn [fst snd]. split; [by intros ? [= <-]|]. by eapply preserved_trans.
  - split; [by intros ? [= <-]|].
    eapply preserved_trans; [exact Hpres|]. by apply preserved_pushAll.
Qed.

Lemma preserved_groupGuestsByRelationship guests s :
  (n0 ≤ length (Refs.arrays s))%nat →
  preserved n0 s (Refs.groupGuestsByRelationship guests s).2.
Proof.
  intros Hlen. unfold Refs.groupGuestsByRelationship.
  destruct (preserved_collectGroups_thrown guests s Hlen) as [_ Hcollect].
  destruct (Refs.collectGroups guests s) as [[[error|groups] ungrouped] s1];
    simpl in *; [done|].
  pose proof (preserved_addIndividuals ungrouped groups s1
                (preserved_length _ _ Hcollect)) as Hadd.
  destruct (Refs.addIndividuals ungrouped groups s1) as [groups' s2]. simpl in *.
  by eapply preserved_trans.
Qed.

Lemma preserved_grouped guests s :
  (n0 ≤ length (Refs.arrays s))%nat →
  preserved n0 s (Refs.grouped guests s).2.
Proof.
  intros Hlen. unfold Refs.grouped.
  destruct (preserved_collected guests s Hlen) as [_ Hcollect].
  destruct (Refs.collected guests s) as [[groups ungrouped] s1]. simpl in *.
  pose proof (preserved_addIndividuals ungrouped groups s1
                (preserved_length _ _ Hcollect)) as Hadd.
  destruct (Refs.addIndividuals ungrouped groups s1) as [groups' s2]. simpl in *.
  by eapply preserved_trans.
Qed.
End Frame.

Lemma refs_knightSeat_done fuel count group ta processedGroups guestsToSeat s :
  fuel = 0%nat ∨ Refs.arrayAt s guestsToSeat = [] →
  Refs.knightSeat fuel count group ta processedGroups guestsToSeat s
  = (ta, processedGroups, s).
Proof.
  intros [->|Hnil]; [by destruct (Refs.arrayAt s guestsToSeat)|].
  destruct fuel; cbn [Refs.knightSeat]; by rewrite ?Hnil.
Qed.

Lemma refs_knightSeat_unfold fuel count group ta processedGroups guestsToSeat s r0 rest :
  Refs.arrayAt s guestsToSeat = r0 :: rest →
  Refs.knightSeat (S fuel) count group ta processedGroups guestsToSeat s =
  match knightBest count (Refs.viewTables s ta) with
  | (Some bestTableId, maxSpace) =>
      if 0 <? maxSpace then
        match fitChunkBy (Refs.sizeAt s) maxSpace (Refs.arrayAt s guestsToSeat) with
        | [] => (ta, processedGroups, s)
        | (_ :: _) as chunk =>
            let s' := Refs.seatAt bestTableId chunk ta
                        (Refs.removeFrom guestsToSeat chunk s) in
            Refs.knightSeat fuel count group
              (dictAlter (Refs.markFirst s' group chunk) bestTableId ta)
              processedGroups guestsToSeat s'
        end
      else (ta, processedGroups ++ [Refs.leftoverGroup s group guestsToSeat], s)
  | (None, _) => (ta, processedGroups ++ [Refs.leftoverGroup s group guestsToSeat], s)
  end.
Proof. intros Hgts. cbn [Refs.knightSeat]. by rewrite Hgts. Qed.

Lemma refs_standardSeat_done fuel tableCapacity group st guestsToSeat groupSize s :
  fuel = 0%nat ∨ Refs.arrayAt s guestsToSeat = [] →
  Refs.standardSeat fuel tableCapacity group st guestsToSeat groupSize s = (st, s).
Proof.
  intros [->|Hnil]; [by destruct (Refs.arrayAt s guestsToSeat)|].
  destruct fuel; cbn [Refs.standardSeat]; by rewrite ?Hnil.
Qed.

Lemma refs_standardSeat_unfold fuel tableCapacity group st guestsToSeat groupSize s r0 rest :
  Refs.arrayAt s guestsToSeat = r0 :: rest →
  Refs.standardSeat (S fuel) tableCapacity group st guestsToSeat groupSize s =
  let ta := Refs.Seating.tableAssignments st in
  match bestFit (Refs.viewGroup s group) groupSize (Refs.viewTables s ta) with
  | Some bestFitTableId =>
      let s' := Refs.seatAt bestFitTableId (Refs.arrayAt s guestsToSeat) ta s in
      (Refs.Seating.mk
         (dictAlter (Refs.markFirst s' group (Refs.arrayAt s guestsToSeat))
                    bestFitTableId ta)
         (Refs.Seating.tableCounter st),
       s')
  | None =>
      if groupSize <=? tableCapacity then
        let newTableId := Refs.Seating.tableCounter st in
        let '(a, s1) := Refs.newArray [] s in
        (Refs.Seating.mk
           (dictSet newTableId (Refs.newStandardTable group tableCapacity a) ta)
           (S newTableId),
         Refs.pushAll a (Refs.arrayAt s1 guestsToSeat) s1)
      else
        match Refs.partialTarget group ta guestsToSeat s with
        | Some (bestPartialTableId, chunk) =>
            let s' := Refs.seatAt bestPartialTableId chunk ta
                        (Refs.removeFrom guestsToSeat chunk s) in
            Refs.standardSeat fuel tableCapacity group st guestsToSeat
                              (getGuestsSize (Refs.deref s' guestsToSeat)) s'
        | None =>
            match Refs.splitIntoNewTable tableCapacity group st guestsToSeat s with
            | (st', true, s') =>
                Refs.standardSeat fuel tableCapacity group st' guestsToSeat
                                  (getGuestsSize (Refs.deref s' guestsToSeat)) s'
            | (st', false, s') => (st', s')
            end
        end
  end.
Proof. intros Hgts. cbn [Refs.standardSeat]. by rewrite Hgts. Qed.

Section FramePhases.
Context (n0 : nat).

(** The step shared by the knight loop and the partial fill: take the
    chunk out of [guestsToSeat], push it to a table. *)
Lemma preserved_move k chunk ta guestsToSeat s :
  ownTables n0 ta → (n0 ≤ guestsToSeat)%nat → (n0 ≤ length (Refs.arrays s))%nat →
  preserved n0 s (Refs.seatAt k chunk ta (Refs.removeFrom guestsToSeat chunk s)).
Proof.
  intros Hown Hgts Hlen.
  pose proof (preserved_removeFrom n0 guestsToSeat chunk s Hgts Hlen) as Hremove.
  eapply preserved_trans; [exact Hremove|].
  apply preserved_seatAt; [done|]. by eapply preserved_length.
Qed.

Lemma preserved_knightSeat fuel count group ta processedGroups guestsToSeat s :
  ownTables n0 ta → (n0 ≤ guestsToSeat)%nat → (n0 ≤ length (Refs.arrays s))%nat →
  let r := Refs.knightSeat fuel count group ta processedGroups guestsToSeat s in
  ownTables n0 r.1.1 ∧ preserved n0 s r.2.
Proof.
  revert ta s.
  induction fuel as [|fuel IH]; intros ta s Hown Hgts Hlen; cbv zeta.
  { by rewrite refs_knightSeat_done by (by left). }
  destruct (Refs.arrayAt s guestsToSeat) as [|r0 rest] eqn:Hgts0.
  { by rewrite refs_knightSeat_done by (by right). }
  rewrite (refs_knightSeat_unfold _ _ _ _ _ _ _ _ _ Hgts0).
  destruct (knightBest count (Refs.viewTables s ta)) as [[k|] m]; [|done].
  destruct (0 <? m); [|done].
  destruct (fitChunkBy (Refs.sizeAt s) m (Refs.arrayAt s guestsToSeat))
    as [|c0 chunk]; [done|].
  cbv zeta.
  pose proof (preserved_move k (c0 :: chunk) ta guestsToSeat s Hown Hgts Hlen) as Hmove.
  edestruct (IH (dictAlter (Refs.markFirst
                   (Refs.seatAt k (c0 :: chunk) ta
                      (Refs.removeFrom guestsToSeat (c0 :: chunk) s))
                   group (c0 :: chunk)) k ta)) as [Hown' Hpres];
    [apply ownTables_alter; [apply guests_markFirst_ref|done]
    |done|by eapply preserved_length|].
  split; [exact Hown'|]. eapply preserved_trans; [exact Hmove|exact Hpres].
Qed.

Lemma preserved_knightGroup count acc group s0 :
  ownTables n0 acc.1.1 → preserved n0 s0 acc.2 →
  let r := Refs.knightGroup count acc group in
  ownTables n0 r.1.1 ∧ preserved n0 s0 r.2.
Proof.
  destruct acc as [[ta pool] s]. cbn [fst snd]. intros Hown Hpres.
  pose proof (preserved_length _ _ _ Hpres) as Hlen.
  destruct (preserved_newArray n0 (Refs.arrayAt s (Refs.Group.guests group)) s Hlen)
    as [Hnew Hgts].
  unfold Refs.knightGroup.
  destruct (Refs.newArray (Refs.arrayAt s (Refs.Group.guests group)) s)
    as [guestsToSeat s']. cbn [fst snd] in Hnew, Hgts.
  destruct (preserved_knightSeat (length (Refs.arrayAt s' guestsToSeat)) count group
              ta pool guestsToSeat s' Hown Hgts (preserved_length _ _ _ Hnew))
    as [Hown' Hseat].
  split; [exact Hown'|].
  eapply preserved_trans; [exact Hpres|].
  eapply preserved_trans; [exact Hnew|exact Hseat].
Qed.

Lemma preserved_initKnightTables count capacity s :
  (n0 ≤ length (Refs.arrays s))%nat →
  let r := Refs.initKnightTables count capacity s in
  ownTables n0 r.1 ∧ preserved n0 s r.2.
Proof.
  intros Hlen. unfold Refs.initKnightTables.
  apply (foldl_invariant
    (λ acc : Refs.Tables * Refs.Store, ownTables n0 acc.1 ∧ preserved n0 s acc.2));
    [by split; [constructor|]|].
  intros [ta s'] i _ [Hown Hpres]. simpl in *.
  destruct (preserved_newArray n0 [] s' (preserved_length _ _ _ Hpres)) as [Hnew Ha].
  split.
  - by apply (dictSet_Forall (λ t, (n0 ≤ Refs.Table.guests t)%nat)).
  - by eapply preserved_trans.
Qed.

Lemma preserved_knightPhase knightConfig processedGroups s :
  (n0 ≤ length (Refs.arrays s))%nat →
  let r := Refs.knightPhase knightConfig processedGroups s in
  ownTables n0 r.1.1.1 ∧ preserved n0 s r.2.
Proof.
  intros Hlen. unfold Refs.knightPhase.
  destruct (KnightConfig.enabled knightConfig && (0 <? KnightConfig.count knightConfig));
    [|by split; [constructor|]].
  destruct (preserved_initKnightTables (Z.to_nat (KnightConfig.count knightConfig))
              (KnightConfig.capacity knightConfig) s Hlen) as [Hown Hinit].
  destruct (Refs.initKnightTables _ _ s) as [ta s0].
  destruct (Refs.selectKnightCandidates processedGroups) as [cands pool]. simpl in *.
  pose proof (foldl_invariant
    (λ acc : Refs.Tables * list Refs.Group.t * Refs.Store,
       ownTables n0 acc.1.1 ∧ preserved n0 s acc.2)
    (Refs.knightGroup (Z.to_nat (KnightConfig.count knightConfig)))
    (jsSort Refs.bySizeDesc cands) (ta, pool, s0)) as Hfold.
  destruct (foldl _ _ _) as [[ta' pool'] s']. simpl in *.
  apply Hfold; [by split|].
  intros acc group _ [Hown' Hpres]. by apply preserved_knightGroup.
Qed.

(** Phase B. *)
Lemma ownTables_open k table ta :
  ownTables n0 ta → (n0 ≤ Refs.Table.guests table)%nat →
  ownTables n0 (dictSet k table ta).
Proof. intros. by apply (dictSet_Forall (λ t, (n0 ≤ Refs.Table.guests t)%nat)). Qed.

Lemma preserved_split tableCapacity group st guestsToSeat s :
  ownTables n0 (Refs.Seating.tableAssignments st) → (n0 ≤ guestsToSeat)%nat →
  (n0 ≤ length (Refs.arrays s))%nat →
  let r := Refs.splitIntoNewTable tableCapacity group st guestsToSeat s in
  ownTables n0 (Refs.Seating.tableAssignments r.1.1) ∧ preserved n0 s r.2.
Proof.
  intros Hown Hgts Hlen. unfold Refs.splitIntoNewTable.
  destruct (preserved_newArray n0 [] s Hlen) as [Hnew Ha].
  destruct (Refs.newArray [] s) as [a s1]. simpl in *.
  pose proof (preserved_length _ _ _ Hnew) as Hlen1.
  destruct (newTableChunkBy (Refs.sizeAt s1) tableCapacity (Refs.arrayAt s1 guestsToSeat))
    as [chunk capacity].
  assert (ownTables n0
            (dictAlter (Refs.setCapacity capacity) (Refs.Seating.tableCounter st)
               (dictSet (Refs.Seating.tableCounter st)
                  (Refs.newStandardTable group tableCapacity a)
                  (Refs.Seating.tableAssignments st)))) as Hown'.
  { apply ownTables_alter; [done|]. by apply ownTables_open. }
  destruct chunk as [|c0 chunk]; simpl; (split; [done|]); [exact Hnew|].
  eapply preserved_trans; [exact Hnew|].
  pose proof (preserved_removeFrom n0 guestsToSeat (c0 :: chunk) s1 Hgts Hlen1) as Hremove.
  eapply preserved_trans; [exact Hremove|].
  apply preserved_pushAll; [done|by eapply preserved_length].
Qed.

Lemma preserved_standardSeat fuel tableCapacity group st guestsToSeat groupSize s :
  ownTables n0 (Refs.Seating.tableAssignments st) → (n0 ≤ guestsToSeat)%nat →
  (n0 ≤ length (Refs.arrays s))%nat →
  let r := Refs.standardSeat fuel tableCapacity group st guestsToSeat groupSize s in
  ownTables n0 (Refs.Seating.tableAssignments r.1) ∧ preserved n0 s r.2.
Proof.
  revert st groupSize s.
  induction fuel as [|fuel IH]; intros st groupSize s Hown Hgts Hlen; cbv zeta.
  { by rewrite refs_standardSeat_done by (by left). }
  destruct (Refs.arrayAt s guestsToSeat) as [|r0 rest] eqn:Hgts0.
  { by rewrite refs_standardSeat_done by (by right). }
  rewrite (refs_standardSeat_unfold _ _ _ _ _ _ _ _ _ Hgts0). cbv zeta.
  destruct (bestFit _ groupSize _) as [k|].
  { cbn [fst snd Refs.Seating.tableAssignments]. split.
    - apply ownTables_alter; [apply guests_markFirst_ref|done].
    - by apply preserved_seatAt. }
  destruct (groupSize <=? tableCapacity).
  { destruct (preserved_newArray n0 [] s Hlen) as [Hnew Ha].
    destruct (Refs.newArray [] s) as [a s1].
    cbn [fst snd Refs.Seating.tableAssignments] in *. split.
    - by apply ownTables_open.
    - eapply preserved_trans; [exact Hnew|].
      apply preserved_pushAll; [done|by eapply preserved_length]. }
  destruct (Refs.partialTarget group _ guestsToSeat s) as [[k chunk]|].
  { pose proof (preserved_move k chunk _ guestsToSeat s Hown Hgts Hlen) as Hmove.
    edestruct (IH st) as [Hown' Hpres];
      [exact Hown|exact Hgts|by eapply preserved_length|].
    split; [exact Hown'|]. eapply preserved_trans; [exact Hmove|exact Hpres]. }
  pose proof (preserved_split tableCapacity group st guestsToSeat s
                Hown Hgts Hlen) as [Hown' Hsplit].
  destruct (Refs.splitIntoNewTable _ _ _ _ _) as [[st' [|]] s'];
    cbn [fst snd] in *; [|done].
  edestruct (IH st') as [Hown'' Hpres];
    [exact Hown'|exact Hgts|by eapply preserved_length|].
  split; [exact Hown''|]. eapply preserved_trans; [exact Hsplit|exact Hpres].
Qed.

Lemma preserved_standardPhase tableCapacity st processedGroups s :
  ownTables n0 (Refs.Seating.tableAssignments st) →
  (n0 ≤ length (Refs.arrays s))%nat →
  preserved n0 s (Refs.standardPhase tableCapacity st processedGroups s).2.
Proof.
  intros Hown Hlen. unfold Refs.standardPhase.
  apply (foldl_invariant
    (λ acc : Refs.Seating.t * Refs.Store,
       ownTables n0 (Refs.Seating.tableAssignments acc.1) ∧ preserved n0 s acc.2)
    (Refs.standardGroup tableCapacity)); [by split|].
  intros [st' s'] group _ [Hown' Hpres]. unfold Refs.standardGroup.
  cbn [fst snd] in *.
  pose proof (preserved_length _ _ _ Hpres) as Hlen'.
  destruct (preserved_newArray n0 (Refs.arrayAt s' (Refs.Group.guests group)) s' Hlen')
    as [Hnew Hgts].
  destruct (Refs.newArray (Refs.arrayAt s' (Refs.Group.guests group)) s')
    as [guestsToSeat s1]. cbn [fst snd] in Hnew, Hgts.
  destruct (preserved_standardSeat (length (Refs.arrayAt s1 guestsToSeat)) tableCapacity
              group st' guestsToSeat (getGuestsSize (Refs.deref s1 guestsToSeat)) s1
              Hown' Hgts (preserved_length _ _ _ Hnew)) as [Hown'' Hseat].
  split; [exact Hown''|].
  eapply preserved_trans; [exact Hpres|].
  eapply preserved_trans; [exact Hnew|exact Hseat].
Qed.

(** Phase C only makes new arrays. *)
Lemma preserved_mergeSparse ids ta merged s :
  (n0 ≤ length (Refs.arrays s))%nat →
  preserved n0 s (Refs.mergeSparse ids ta merged s).2.
Proof.
  revert ta merged s.
  induction ids as [|idA later IH]; intros ta merged s Hlen; cbn [Refs.mergeSparse].
  { by apply preserved_refl. }
  case_decide; [by apply IH|].
  destruct (dictGet idA ta) as [tableA|]; [|by apply IH].
  destruct (Refs.Table.capacity tableA <=? occupancy (Refs.viewTable s tableA));
    [by apply IH|].
  destruct (findPartner _ _ _ _ _) as [[idB tableB']|]; [|by apply IH].
  destruct (dictGet idB ta) as [tableB|]; [|by apply IH].
  destruct (preserved_newArray n0
              (Refs.arrayAt s (Refs.Table.guests tableA)
               ++ Refs.arrayAt s (Refs.Table.guests tableB)) s Hlen) as [Hnew _].
  destruct (Refs.newArray _ s) as [a s']. cbn [fst snd] in *.
  eapply preserved_trans; [exact Hnew|]. apply IH. by eapply preserved_length.
Qed.

Lemma preserved_seating originalGroups config s1 :
  (n0 ≤ length (Refs.arrays s1))%nat →
  preserved n0 s1 (Refs.seating originalGroups config s1).2.
Proof.
  intros Hlen. unfold Refs.seating.
  pose proof (preserved_knightPhase (knightConfigOf config)
     (Refs.classify (knightTargetGroups config) s1 <$> originalGroups) s1 Hlen)
    as [Hown Hknight].
  destruct (Refs.knightPhase _ _ s1) as [[[ta tableCounter] pool] s2]. simpl in *.
  pose proof (preserved_standardPhase (tableCapacityOf config)
     (Refs.Seating.mk ta tableCounter) pool s2 Hown (preserved_length _ _ _ Hknight))
    as Hstandard.
  destruct (Refs.standardPhase _ _ pool s2) as [st s3]. simpl in *.
  pose proof (preserved_mergeSparse
     (standardTableIds (Refs.viewTables s3 (Refs.Seating.tableAssignments st)))
     (Refs.Seating.tableAssignments st) ∅ s3 (preserved_length _ _ _ Hstandard))
    as Hmerge.
  unfold Refs.consolidate.
  destruct (Refs.mergeSparse _ _ ∅ s3) as [ta' s4]. simpl in *.
  eapply preserved_trans; [exact Hknight|].
  eapply preserved_trans; [exact Hstandard|exact Hmerge].
Qed.

Lemma preserved_optimizeSeating guests config s :
  (n0 ≤ length (Refs.arrays s))%nat →
  preserved n0 s (Refs.optimizeSeating guests config s).2.
Proof.
  intros Hlen. unfold Refs.optimizeSeating.
  pose proof (preserved_groupGuestsByRelationship n0 guests s Hlen) as Hgroup.
  destruct (Refs.groupGuestsByRelationship guests s) as [[error|originalGroups] s1];
    simpl in *; [done|].
  eapply preserved_trans; [exact Hgroup|].
  apply preserved_seating. by eapply preserved_length.
Qed.
End FramePhases.

(** * The two embeddings agree

    The run over the store and the first embedding take the same decisions:
    read through [Refs.deref], every table, group and result of the former
    is the table, group and result of the latter.  What makes this true is
    that the arrays the run writes are kept apart: no two tables share an
    array, [guestsToSeat] is always a fresh copy, and a group's array is
    never a table's. *)

(** ** Scans and sorts through a representation *)

(** What the scans compute on references is what they compute on the
    guests behind them. *)
Section Representations.
Context {A B : Type} (f : A → B).

Lemma greedyFillBy_fmap (sizeOf : B → Z) space l :
  greedyFillBy sizeOf space (f <$> l)
  = prod_map (fmap f) id (greedyFillBy (sizeOf ∘ f) space l).
Proof.
  unfold greedyFillBy.
  change ([], 0) with (prod_map (fmap f) id (@nil A, 0)) at 1.
  generalize (@nil A, 0).
  induction l as [|x l IH]; intros acc; [done|].
  csimpl. rewrite <-IH. f_equal.
  destruct acc as [c n]; simpl. case_match; [|done].
  unfold prod_map; simpl. by rewrite fmap_app.
Qed.

Lemma fitChunkBy_fmap (sizeOf : B → Z) space l :
  fitChunkBy sizeOf space (f <$> l) = f <$> fitChunkBy (sizeOf ∘ f) space l.
Proof.
  unfold fitChunkBy. rewrite greedyFillBy_fmap.
  destruct (greedyFillBy (sizeOf ∘ f) space l) as [[|c cs] n]; simpl; [|done].
  destruct l as [|x l]; simpl; [done|]. by case_match.
Qed.

Lemma spliceBy_fmap (idOf : B → string) i l :
  spliceBy idOf i (f <$> l) = f <$> spliceBy (idOf ∘ f) i l.
Proof.
  induction l as [|x l IH]; simpl; [done|].
  case_decide; [done|]. csimpl. by rewrite IH.
Qed.

Lemma removeChunkBy_fmap (idOf : B → string) chunk l :
  removeChunkBy idOf (f <$> chunk) (f <$> l) = f <$> removeChunkBy (idOf ∘ f) chunk l.
Proof.
  unfold removeChunkBy. revert l.
  induction chunk as [|c chunk IH]; intros l; simpl; [done|].
  by rewrite spliceBy_fmap, IH.
Qed.

Lemma newTableFillBy_fmap (sizeOf : B → Z) tableCapacity l :
  newTableFillBy sizeOf tableCapacity (f <$> l)
  = prod_map (prod_map (fmap f) id) id (newTableFillBy (sizeOf ∘ f) tableCapacity l).
Proof.
  unfold newTableFillBy.
  change ([], 0, tableCapacity)
    with (prod_map (prod_map (fmap f) id) id (@nil A, 0, tableCapacity)) at 1.
  generalize (@nil A, 0, tableCapacity).
  induction l as [|x l IH]; intros acc; [done|].
  csimpl. rewrite <-IH. f_equal.
  destruct acc as [[c n] cap]; simpl.
  assert (isEmpty (f <$> c) = isEmpty c) as -> by by destruct c.
  case_match; [|done].
  unfold prod_map; simpl. by rewrite fmap_app.
Qed.

Lemma newTableChunkBy_fmap (sizeOf : B → Z) tableCapacity l :
  newTableChunkBy sizeOf tableCapacity (f <$> l)
  = prod_map (fmap f) id (newTableChunkBy (sizeOf ∘ f) tableCapacity l).
Proof.
  unfold newTableChunkBy. rewrite newTableFillBy_fmap.
  destruct (newTableFillBy (sizeOf ∘ f) tableCapacity l) as [[[|c cs] n] cap]; simpl; [|done].
  by destruct l.
Qed.

Lemma sortInsert_fmap (cmp : B → B → Z) x l :
  sortInsert cmp (f x) (f <$> l) = f <$> sortInsert (λ a b, cmp (f a) (f b)) x l.
Proof.
  induction l as [|y l IH]; simpl; [done|].
  case_match; [|done]. csimpl. by rewrite IH.
Qed.

Lemma jsSort_fmap (cmp : B → B → Z) l :
  jsSort cmp (f <$> l) = f <$> jsSort (λ a b, cmp (f a) (f b)) l.
Proof.
  induction l as [|x l IH]; csimpl; [done|].
  by rewrite IH, sortInsert_fmap.
Qed.

Lemma filter_fmap_iff (P : B → Prop) (Q : A → Prop)
    `{!∀ b, Decision (P b)} `{!∀ a, Decision (Q a)} (l : list A) :
  (∀ a, Q a ↔ P (f a)) → filter P (f <$> l) = f <$> filter Q l.
Proof.
  intros HPQ. induction l as [|x l IH]; [done|].
  rewrite fmap_cons, !filter_cons, IH.
  destruct (decide (P (f x))) as [Hp|Hp], (decide (Q x)) as [Hq|Hq];
    [done| |by apply HPQ in Hq|done].
  by apply HPQ in Hp.
Qed.
End Representations.

(** ** Dictionaries through a view of their values *)

Section DictViews.
Context {K : Type} `{EqDecision K} {V W : Type} (view : V → W).
Implicit Types d : list (K * V).

Lemma dictGet_fmap k d :
  dictGet k ((λ e, (e.1, view e.2)) <$> d) = view <$> dictGet k d.
Proof.
  induction d as [|[k' v] d IH]; simpl; [done|]. by case_decide.
Qed.

Lemma dictSet_fmap k v d :
  (λ e, (e.1, view e.2)) <$> dictSet k v d
  = dictSet k (view v) ((λ e, (e.1, view e.2)) <$> d).
Proof.
  induction d as [|[k' v'] d IH]; simpl; [done|].
  case_decide; [done|]. csimpl. by rewrite IH.
Qed.

Lemma dictDelete_fmap k d :
  (λ e, (e.1, view e.2)) <$> dictDelete k d
  = dictDelete k ((λ e, (e.1, view e.2)) <$> d).
Proof.
  induction d as [|[k' v'] d IH]; simpl; [done|].
  case_decide; [done|]. csimpl. by rewrite IH.
Qed.

Lemma dictAlter_fmap f f' k d :
  (∀ v, dictGet k d = Some v → view (f v) = f' (view v)) →
  (λ e, (e.1, view e.2)) <$> dictAlter f k d
  = dictAlter f' k ((λ e, (e.1, view e.2)) <$> d).
Proof.
  induction d as [|[k' v'] d IH]; simpl; [done|]. intros Hf.
  case_decide; csimpl; [by rewrite Hf|]. by rewrite IH.
Qed.
End DictViews.

Section DictAlgebra.
Context {K : Type} `{EqDecision K} {V : Type}.
Implicit Types d : list (K * V).

Lemma dictAlter_compose (f g : V → V) k d :
  dictAlter f k (dictAlter g k d) = dictAlter (f ∘ g) k d.
Proof.
  induction d as [|[k' v'] d IH]; simpl; [done|].
  case_decide; simpl; rewrite decide_bool_decide; 
  [by rewrite bool_decide_true|rewrite bool_decide_false by done; by f_equal].
Qed.

Lemma dictAlter_dictSet f k v d : dictAlter f k (dictSet k v d) = dictSet k (f v) d.
Proof.
  induction d as [|[k' v'] d IH]; simpl.
  - by rewrite decide_True.
  - case_decide; simpl; [by rewrite decide_True|].
    rewrite decide_False by done. by f_equal.
Qed.

Lemma dictAlter_ext (f g : V → V) k d :
  (∀ v, dictGet k d = Some v → f v = g v) → dictAlter f k d = dictAlter g k d.
Proof.
  induction d as [|[k' v'] d IH]; simpl; [done|]. intros Hf.
  case_decide; [by rewrite Hf|]. f_equal. by apply IH.
Qed.
End DictAlgebra.

Lemma locs_dictSet {K V} `{EqDecision K} (loc : V → nat) k v (d : list (K * V)) :
  NoDup ((λ e, loc e.2) <$> d) → loc v ∉ (λ e, loc e.2) <$> d →
  NoDup ((λ e, loc e.2) <$> dictSet k v d) ∧
  ∀ a, a ∈ (λ e, loc e.2) <$> dictSet k v d → a = loc v ∨ a ∈ (λ e, loc e.2) <$> d.
Proof.
  induction d as [|[k' v'] d IH]; cbn [dictSet].
  - intros _ _. split; [apply NoDup_singleton|]. intros a Ha.
    left. by apply list_elem_of_singleton in Ha.
  - rewrite fmap_cons, NoDup_cons, not_elem_of_cons. cbn [fst snd].
    intros [Hnotin Hnd] [Hne Hfresh].
    case_decide; rewrite fmap_cons; cbn [fst snd].
    + split; [by apply NoDup_cons|]. intros a Ha.
      apply elem_of_cons in Ha as [->|Ha]; [by left|]. right. by right.
    + destruct (IH Hnd Hfresh) as [IH1 IH2]. split.
      * apply NoDup_cons. split; [|done]. intros Hin.
        apply IH2 in Hin as [Hin|Hin]; [by apply Hne|done].
      * intros a Ha. apply elem_of_cons in Ha as [->|Ha]; [right; by left|].
        apply IH2 in Ha as [Ha|Ha]; [by left|right; by right].
Qed.

(** ** Reading the store *)

Section StoreReads.
Implicit Types s : Refs.Store.

Lemma objectAt_objects s s' :
  Refs.objects s' = Refs.objects s → Refs.objectAt s' = Refs.objectAt s.
Proof. intros H. unfold Refs.objectAt. by rewrite H. Qed.

Lemma sizeAt_objects s s' :
  Refs.objects s' = Refs.objects s → Refs.sizeAt s' = Refs.sizeAt s.
Proof. intros H. unfold Refs.sizeAt. by rewrite (objectAt_objects _ _ H). Qed.

Lemma idAt_objects s s' :
  Refs.objects s' = Refs.objects s → Refs.idAt s' = Refs.idAt s.
Proof. intros H. unfold Refs.idAt. by rewrite (objectAt_objects _ _ H). Qed.

Lemma deref_same s s' a :
  Refs.objects s' = Refs.objects s → Refs.arrayAt s' a = Refs.arrayAt s a →
  Refs.deref s' a = Refs.deref s a.
Proof. intros Ho Ha. unfold Refs.deref. by rewrite Ha, (objectAt_objects _ _ Ho). Qed.

Lemma arrayAt_newArray elements s a :
  a ≠ length (Refs.arrays s) →
  Refs.arrayAt (Refs.newArray elements s).2 a = Refs.arrayAt s a.
Proof.
  intros Ha. unfold Refs.arrayAt, Refs.newArray. simpl.
  destruct (decide (a < length (Refs.arrays s))%nat).
  - by rewrite lookup_app_l.
  - rewrite !lookup_ge_None_2; [done|lia|rewrite length_app; simpl; lia].
Qed.

Lemma arrayAt_newArray_new elements s :
  Refs.arrayAt (Refs.newArray elements s).2 (length (Refs.arrays s)) = elements.
Proof.
  unfold Refs.arrayAt, Refs.newArray. simpl.
  by rewrite list_lookup_middle.
Qed.

Lemma arrayAt_pushAll_ne a elements s a' :
  a' ≠ a → Refs.arrayAt (Refs.pushAll a elements s) a' = Refs.arrayAt s a'.
Proof.
  intros Ha. unfold Refs.arrayAt, Refs.pushAll. simpl.
  by rewrite list_lookup_alter_ne.
Qed.

Lemma arrayAt_pushAll a elements s :
  allocated s a →
  Refs.arrayAt (Refs.pushAll a elements s) a = Refs.arrayAt s a ++ elements.
Proof.
  intros Ha. unfold Refs.arrayAt, Refs.pushAll. simpl.
  rewrite list_lookup_alter_eq.
  destruct (lookup_lt_is_Some_2 _ _ Ha) as [old ->]. done.
Qed.

Lemma deref_pushAll a elements s :
  allocated s a →
  Refs.deref (Refs.pushAll a elements s) a
  = Refs.deref s a ++ (Refs.objectAt s <$> elements).
Proof.
  intros Ha. unfold Refs.deref. rewrite arrayAt_pushAll by done.
  by rewrite fmap_app.
Qed.

Lemma deref_newArray_new elements s :
  Refs.deref (Refs.newArray elements s).2 (length (Refs.arrays s))
  = Refs.objectAt s <$> elements.
Proof. unfold Refs.deref. by rewrite arrayAt_newArray_new. Qed.

Lemma arrayAt_setElements_ne a elements s a' :
  a' ≠ a → Refs.arrayAt (Refs.setElements a elements s) a' = Refs.arrayAt s a'.
Proof.
  intros Ha. unfold Refs.arrayAt, Refs.setElements. simpl.
  by rewrite list_lookup_insert_ne.
Qed.

Lemma arrayAt_setElements a elements s :
  allocated s a → Refs.arrayAt (Refs.setElements a elements s) a = elements.
Proof.
  intros Ha. unfold Refs.arrayAt, Refs.setElements. simpl.
  by rewrite list_lookup_insert_eq.
Qed.

Lemma length_newArray elements s :
  length (Refs.arrays (Refs.newArray elements s).2) = S (length (Refs.arrays s)).
Proof. unfold Refs.newArray. simpl. rewrite length_app. simpl. lia. Qed.

Lemma length_pushAll a elements s :
  length (Refs.arrays (Refs.pushAll a elements s)) = length (Refs.arrays s).
Proof. unfold Refs.pushAll. simpl. by rewrite length_alter. Qed.

Lemma length_setElements a elements s :
  length (Refs.arrays (Refs.setElements a elements s)) = length (Refs.arrays s).
Proof. unfold Refs.setElements. simpl. by rewrite length_insert. Qed.

Lemma length_seatAt k chunk ta s :
  length (Refs.arrays (Refs.seatAt k chunk ta s)) = length (Refs.arrays s).
Proof. unfold Refs.seatAt. case_match; [apply length_pushAll|done]. Qed.

Lemma objects_seatAt k chunk ta s :
  Refs.objects (Refs.seatAt k chunk ta s) = Refs.objects s.
Proof. unfold Refs.seatAt. by case_match. Qed.

(** [removeFrom] is [removeChunk] on the guests the array holds. *)
Lemma deref_removeFrom guestsToSeat chunk s :
  allocated s guestsToSeat →
  Refs.deref (Refs.removeFrom guestsToSeat chunk s) guestsToSeat
  = removeChunk (Refs.objectAt s <$> chunk) (Refs.deref s guestsToSeat).
Proof.
  intros Ha. unfold Refs.removeFrom, Refs.deref.
  rewrite arrayAt_setElements by done.
  by rewrite removeChunkBy_fmap.
Qed.

Lemma arrayAt_removeFrom_ne guestsToSeat chunk s a :
  a ≠ guestsToSeat →
  Refs.arrayAt (Refs.removeFrom guestsToSeat chunk s) a = Refs.arrayAt s a.
Proof. apply arrayAt_setElements_ne. Qed.

Lemma deref_fitChunk space s a :
  fitChunk space (Refs.deref s a)
  = Refs.objectAt s <$> fitChunkBy (Refs.sizeAt s) space (Refs.arrayAt s a).
Proof. unfold Refs.deref. by rewrite fitChunkBy_fmap. Qed.

Lemma deref_newTableChunk tableCapacity s a :
  newTableChunk tableCapacity (Refs.deref s a)
  = prod_map (fmap (Refs.objectAt s)) id
      (newTableChunkBy (Refs.sizeAt s) tableCapacity (Refs.arrayAt s a)).
Proof. unfold Refs.deref. by rewrite newTableChunkBy_fmap. Qed.
End StoreReads.

(** ** Tables and groups as values *)

Section TableViews.
Implicit Types (s : Refs.Store) (ta : Refs.Tables).

Lemma viewTable_same s s' t :
  Refs.objects s' = Refs.objects s →
  Refs.arrayAt s' (Refs.Table.guests t) = Refs.arrayAt s (Refs.Table.guests t) →
  Refs.viewTable s' t = Refs.viewTable s t.
Proof. intros Ho Ha. unfold Refs.viewTable. by rewrite (deref_same _ _ _ Ho Ha). Qed.

Lemma viewGroup_same s s' g :
  Refs.objects s' = Refs.objects s →
  Refs.arrayAt s' (Refs.Group.guests g) = Refs.arrayAt s (Refs.Group.guests g) →
  Refs.viewGroup s' g = Refs.viewGroup s g.
Proof. intros Ho Ha. unfold Refs.viewGroup. by rewrite (deref_same _ _ _ Ho Ha). Qed.

Lemma viewTables_same s s' ta :
  Refs.objects s' = Refs.objects s →
  (∀ a, a ∈ tableLocs ta → Refs.arrayAt s' a = Refs.arrayAt s a) →
  Refs.viewTables s' ta = Refs.viewTables s ta.
Proof.
  intros Ho Ha. unfold Refs.viewTables. apply list_fmap_ext.
  intros i e He. f_equal. apply viewTable_same; [done|].
  apply Ha. unfold tableLocs. apply list_elem_of_fmap. exists e. split; [done|].
  by eapply list_elem_of_lookup_2.
Qed.

Lemma viewGroups_same s s' (groups : list Refs.Group.t) :
  Refs.objects s' = Refs.objects s →
  Forall (λ g, Refs.arrayAt s' (Refs.Group.guests g) = Refs.arrayAt s (Refs.Group.guests g))
         groups →
  Refs.viewGroup s' <$> groups = Refs.viewGroup s <$> groups.
Proof.
  intros Ho Ha. apply list_fmap_ext. intros i g Hg.
  apply viewGroup_same; [done|].
  rewrite Forall_forall in Ha. apply Ha. by eapply list_elem_of_lookup_2.
Qed.

Lemma dictGet_viewTables s k ta :
  dictGet k (Refs.viewTables s ta) = Refs.viewTable s <$> dictGet k ta.
Proof. exact (dictGet_fmap (Refs.viewTable s) k ta). Qed.

Lemma viewTables_dictSet s k t ta :
  Refs.viewTables s (dictSet k t ta) = dictSet k (Refs.viewTable s t) (Refs.viewTables s ta).
Proof. exact (dictSet_fmap (Refs.viewTable s) k t ta). Qed.

Lemma viewTables_dictDelete s k ta :
  Refs.viewTables s (dictDelete k ta) = dictDelete k (Refs.viewTables s ta).
Proof. exact (dictDelete_fmap (Refs.viewTable s) k ta). Qed.

Lemma viewTables_dictAlter s f f' k ta :
  (∀ t, dictGet k ta = Some t → Refs.viewTable s (f t) = f' (Refs.viewTable s t)) →
  Refs.viewTables s (dictAlter f k ta) = dictAlter f' k (Refs.viewTables s ta).
Proof. exact (dictAlter_fmap (Refs.viewTable s) f f' k ta). Qed.

Lemma tableLocs_dictAlter f k ta :
  (∀ t, Refs.Table.guests (f t) = Refs.Table.guests t) →
  tableLocs (dictAlter f k ta) = tableLocs ta.
Proof.
  intros Hf. induction ta as [|[k' t] ta IH]; simpl; [done|].
  case_decide; csimpl; [by rewrite Hf|]. by rewrite IH.
Qed.

(** Pushing to the array of the table under [k] seats the chunk at that
    table and at no other. *)
Lemma viewTables_seatAt s k chunk ta :
  tablesApart s ta →
  Refs.viewTables (Refs.seatAt k chunk ta s) ta
  = dictAlter (seat (Refs.objectAt s <$> chunk)) k (Refs.viewTables s ta).
Proof.
  intros [Hnd Hal]. unfold Refs.seatAt.
  destruct (dictGet k ta) as [t|] eqn:Hget.
  - revert Hnd Hal Hget. induction ta as [|[k' t'] ta IH]; [done|].
    cbn [dictGet]. unfold tableLocs. rewrite fmap_cons, NoDup_cons, Forall_cons.
    cbn [snd fst]. fold (tableLocs ta).
    intros [Hnotin Hnd] [Hal1 Hal] Hget.
    unfold Refs.viewTables. rewrite !fmap_cons. cbn [dictAlter fst snd].
    fold (Refs.viewTables (Refs.pushAll (Refs.Table.guests t) chunk s) ta).
    fold (Refs.viewTables s ta).
    destruct (decide (k = k')) as [Hk|Hk].
    + simplify_eq. f_equal.
      * f_equal. unfold Refs.viewTable, seat. simpl. f_equal.
        by apply deref_pushAll.
      * apply viewTables_same; [done|]. intros a Ha.
        apply arrayAt_pushAll_ne. intros ->. done.
    + f_equal; [|by apply IH].
      f_equal. apply viewTable_same; [done|].
      apply arrayAt_pushAll_ne. intros Heq. apply Hnotin.
      rewrite Heq. apply dictGet_elem_of in Hget.
      unfold tableLocs. apply list_elem_of_fmap. by exists (k, t).
  - rewrite dictAlter_absent; [done|].
    by rewrite <-dictGet_None, dictGet_viewTables, Hget.
Qed.
Lemma grown_refl except s ta : grown except s ta s ta.
Proof. split_and!; [done|done|by left|done]. Qed.

Lemma grown_trans except s1 ta1 s2 ta2 s3 ta3 :
  grown except s1 ta1 s2 ta2 → grown except s2 ta2 s3 ta3 → grown except s1 ta1 s3 ta3.
Proof.
  intros (Ho1 & Hl1 & Ht1 & Hf1) (Ho2 & Hl2 & Ht2 & Hf2).
  split_and!; [congruence|lia| |].
  - intros a Ha. apply Ht2 in Ha as [Ha|Ha]; [by apply Ht1|].
    right. unfold allocated in *. lia.
  - intros a Ha1 Ha2 Ha3. rewrite Hf2, Hf1; try done.
    + unfold allocated in *. lia.
    + intros Hin. by apply Ht1 in Hin as [Hin|Hin].
Qed.

End TableViews.

(** ** Phase A *)

Section KnightAgreement.
Implicit Types (s : Refs.Store) (ta : Refs.Tables).

Lemma arrayAt_seatAt_ne k chunk ta s a :
  a ∉ tableLocs ta → Refs.arrayAt (Refs.seatAt k chunk ta s) a = Refs.arrayAt s a.
Proof.
  intros Ha. unfold Refs.seatAt.
  destruct (dictGet k ta) as [t|] eqn:Hget; [|done].
  apply arrayAt_pushAll_ne. intros ->. apply Ha.
  apply dictGet_elem_of in Hget. unfold tableLocs. apply list_elem_of_fmap. by exists (k, t).
Qed.

Lemma length_removeFrom guestsToSeat chunk s :
  length (Refs.arrays (Refs.removeFrom guestsToSeat chunk s)) = length (Refs.arrays s).
Proof. apply length_setElements. Qed.

Lemma tablesApart_same s s' ta ta' :
  tableLocs ta' = tableLocs ta →
  (length (Refs.arrays s) ≤ length (Refs.arrays s'))%nat →
  tablesApart s ta → tablesApart s' ta'.
Proof.
  intros Hlocs Hlen [Hnd Hal]. unfold tablesApart, allocated in *.
  rewrite Hlocs. split; [done|]. eapply Forall_impl; [exact Hal|].
  intros a Ha. simpl in Ha. lia.
Qed.

Lemma viewTable_markFirst s g hg chunk (cv : list Guest.t) t :
  sameHead g hg → length cv = length chunk →
  Refs.viewTable s (Refs.markFirst s hg chunk t) = markFirst g cv (Refs.viewTable s t).
Proof.
  intros (_ & Hs & Hc & _) Hlen. unfold Refs.markFirst, markFirst.
  assert (length (WorkingTable.guests (Refs.viewTable s t))
          = length (Refs.arrayAt s (Refs.Table.guests t))) as ->.
  { unfold Refs.viewTable, Refs.deref. simpl. apply length_fmap. }
  rewrite Hlen. case_decide; [|done]. unfold Refs.viewTable. simpl. by rewrite Hs, Hc.
Qed.

(** One turn of a seating loop: the chunk leaves [guestsToSeat] and is
    pushed to the table under [k]. *)
Lemma viewTables_move s k chunk ta guestsToSeat :
  tablesApart s ta → guestsToSeat ∉ tableLocs ta →
  Refs.viewTables (Refs.seatAt k chunk ta (Refs.removeFrom guestsToSeat chunk s)) ta
  = dictAlter (seat (Refs.objectAt s <$> chunk)) k (Refs.viewTables s ta).
Proof.
  intros Hap Hgts.
  rewrite viewTables_seatAt.
  - f_equal. apply viewTables_same; [done|].
    intros a Ha. apply arrayAt_removeFrom_ne. by intros ->.
  - eapply tablesApart_same; [done| |exact Hap].
    by rewrite length_removeFrom.
Qed.

Lemma deref_move s k chunk ta guestsToSeat :
  allocated s guestsToSeat → guestsToSeat ∉ tableLocs ta →
  Refs.deref (Refs.seatAt k chunk ta (Refs.removeFrom guestsToSeat chunk s)) guestsToSeat
  = removeChunk (Refs.objectAt s <$> chunk) (Refs.deref s guestsToSeat).
Proof.
  intros Hal Hgts. rewrite <-deref_removeFrom by done.
  apply deref_same; [apply objects_seatAt|]. by apply arrayAt_seatAt_ne.
Qed.

Lemma arrayAt_move s k chunk ta guestsToSeat a :
  a ≠ guestsToSeat → a ∉ tableLocs ta →
  Refs.arrayAt (Refs.seatAt k chunk ta (Refs.removeFrom guestsToSeat chunk s)) a
  = Refs.arrayAt s a.
Proof.
  intros Hne Ha. rewrite arrayAt_seatAt_ne by done. by apply arrayAt_removeFrom_ne.
Qed.

Lemma viewGroup_leftoverGroup s g hg guestsToSeat :
  sameHead g hg →
  Refs.viewGroup s (Refs.leftoverGroup s hg guestsToSeat)
  = leftoverGroup g (Refs.deref s guestsToSeat).
Proof.
  intros (Hi & Hs & Hc & Hr). unfold Refs.viewGroup, Refs.leftoverGroup, leftoverGroup.
  simpl. by rewrite Hi, Hs, Hc, Hr.
Qed.

Lemma sim_knightSeat fuel count g hg :
  sameHead g hg →
  ∀ ta processedGroups guestsToSeat s,
  tablesApart s ta → allocated s guestsToSeat → guestsToSeat ∉ tableLocs ta →
  Forall (λ x, Refs.Group.guests x ≠ guestsToSeat ∧ Refs.Group.guests x ∉ tableLocs ta)
         processedGroups →
  let r := Refs.knightSeat fuel count hg ta processedGroups guestsToSeat s in
  knightSeat fuel count g (Refs.viewTables s ta) (Refs.viewGroup s <$> processedGroups)
             (Refs.deref s guestsToSeat)
  = (Refs.viewTables r.2 r.1.1, Refs.viewGroup r.2 <$> r.1.2)
  ∧ tableLocs r.1.1 = tableLocs ta
  ∧ Refs.objects r.2 = Refs.objects s
  ∧ length (Refs.arrays r.2) = length (Refs.arrays s)
  ∧ (∀ a, a ≠ guestsToSeat → a ∉ tableLocs ta → Refs.arrayAt r.2 a = Refs.arrayAt s a)
  ∧ Forall (λ x, x ∈ processedGroups ∨ Refs.Group.guests x = guestsToSeat) r.1.2.
Proof.
  intros Hhead.
  assert (∀ (pool : list Refs.Group.t) gts,
            Forall (λ x, x ∈ pool ∨ Refs.Group.guests x = gts) pool) as Hpool.
  { intros pool gts. apply Forall_forall. by left. }
  induction fuel as [|fuel IH]; intros ta pool gts s Hap Hal Hgts Hro.
  { rewrite refs_knightSeat_done by by left. simpl.
    by split_and!. }
  destruct (Refs.arrayAt s gts) as [|r0 rest] eqn:Harr.
  { rewrite refs_knightSeat_done by by right.
    unfold Refs.deref. rewrite Harr. simpl. by split_and!. }
  rewrite (refs_knightSeat_unfold _ _ _ _ _ _ _ _ _ Harr).
  assert (Refs.deref s gts = Refs.objectAt s r0 :: (Refs.objectAt s <$> rest)) as Hd.
  { unfold Refs.deref. by rewrite Harr. }
  rewrite Hd, knightSeat_unfold, <-Hd. cbv zeta.
  assert ((Refs.viewTables s ta,
           (Refs.viewGroup s <$> pool) ++ [leftoverGroup g (Refs.deref s gts)])
          = (Refs.viewTables s ta,
             Refs.viewGroup s <$> (pool ++ [Refs.leftoverGroup s hg gts]))) as Hleft.
  { rewrite fmap_app. simpl. by rewrite (viewGroup_leftoverGroup _ _ _ _ Hhead). }
  assert (Forall (λ x, x ∈ pool ∨ Refs.Group.guests x = gts)
                 (pool ++ [Refs.leftoverGroup s hg gts])) as Hleft'.
  { apply Forall_app. split; [apply Hpool|]. apply Forall_singleton. by right. }
  destruct (knightBest count (Refs.viewTables s ta)) as [[k|] m];
    [|simpl; by split_and!].
  destruct (0 <? m); [|simpl; by split_and!].
  rewrite deref_fitChunk.
  destruct (fitChunkBy (Refs.sizeAt s) m (Refs.arrayAt s gts)) as [|c cs];
    [simpl; by split_and!|].
  rewrite fmap_cons. cbv beta iota. rewrite <-fmap_cons.
  set (chunk := c :: cs).
  set (s' := Refs.seatAt k chunk ta (Refs.removeFrom gts chunk s)).
  set (ta' := dictAlter (Refs.markFirst s' hg chunk) k ta).
  assert (tableLocs ta' = tableLocs ta) as Hlocs.
  { apply tableLocs_dictAlter. intros t. apply guests_markFirst_ref. }
  assert (length (Refs.arrays s') = length (Refs.arrays s)) as Hlen.
  { unfold s'. by rewrite length_seatAt, length_removeFrom. }
  assert (Refs.objects s' = Refs.objects s) as Hobj.
  { unfold s'. by rewrite objects_seatAt. }
  destruct (IH ta' pool gts s') as (Hsim & Hlocs' & Hobj' & Hlen' & Hframe & Hpool').
  { apply (tablesApart_same s s' ta ta'); [done|lia|done]. }
  { unfold allocated in *. lia. }
  { by rewrite Hlocs. }
  { by rewrite Hlocs. }
  split_and!.
  - rewrite <-Hsim. f_equal.
    + unfold ta'.
      rewrite (viewTables_dictAlter s' _ (markFirst g (Refs.objectAt s <$> chunk))).
      * unfold s'. rewrite viewTables_move by done. by rewrite dictAlter_compose.
      * intros t _. apply viewTable_markFirst; [done|]. by rewrite length_fmap.
    + symmetry. apply viewGroups_same; [done|].
      eapply Forall_impl; [exact Hro|]. intros x [Hx1 Hx2]. by apply arrayAt_move.
    + symmetry. by apply deref_move.
  - by rewrite Hlocs'.
  - by rewrite Hobj'.
  - by rewrite Hlen'.
  - intros a Ha1 Ha2. rewrite Hframe by by rewrite ?Hlocs. by apply arrayAt_move.
  - done.
Qed.
Lemma allocated_fresh s a : allocated s a → a ≠ length (Refs.arrays s).
Proof. unfold allocated. lia. Qed.

Lemma fresh_not_table s ta : tablesApart s ta → length (Refs.arrays s) ∉ tableLocs ta.
Proof.
  intros [_ Hal] Hin. rewrite Forall_forall in Hal.
  apply Hal in Hin. unfold allocated in Hin. lia.
Qed.

Lemma tablesApart_newArray elements s ta :
  tablesApart s ta → tablesApart (Refs.newArray elements s).2 ta.
Proof.
  intros [Hnd Hal]. split; [done|]. eapply Forall_impl; [exact Hal|].
  intros a Ha. unfold allocated in *. rewrite length_newArray. lia.
Qed.

Lemma viewTables_newArray elements s ta :
  tablesApart s ta →
  Refs.viewTables (Refs.newArray elements s).2 ta = Refs.viewTables s ta.
Proof.
  intros [_ Hal]. apply viewTables_same; [done|]. intros a Ha.
  apply arrayAt_newArray. apply allocated_fresh.
  rewrite Forall_forall in Hal. by apply Hal.
Qed.

Lemma tableLocs_dictSet k t ta :
  NoDup (tableLocs ta) → Refs.Table.guests t ∉ tableLocs ta →
  NoDup (tableLocs (dictSet k t ta)) ∧
  ∀ a, a ∈ tableLocs (dictSet k t ta) → a = Refs.Table.guests t ∨ a ∈ tableLocs ta.
Proof. exact (locs_dictSet Refs.Table.guests k t ta). Qed.

(** A table opened on a new, empty array. *)
Lemma tablesApart_open k t ta s elements :
  tablesApart s ta → Refs.Table.guests t = length (Refs.arrays s) →
  tablesApart (Refs.newArray elements s).2 (dictSet k t ta) ∧
  ∀ a, a ∈ tableLocs (dictSet k t ta) → a = length (Refs.arrays s) ∨ a ∈ tableLocs ta.
Proof.
  intros Hap Ht. pose proof (fresh_not_table _ _ Hap) as Hfresh.
  destruct Hap as [Hnd Hal].
  destruct (tableLocs_dictSet k t ta Hnd) as [Hnd' Hin]; [by rewrite Ht|].
  rewrite Ht in Hin. split; [|done]. split; [done|].
  apply Forall_forall. intros a Ha. unfold allocated. rewrite length_newArray.
  apply Hin in Ha as [->|Ha]; [lia|].
  rewrite Forall_forall in Hal. apply Hal in Ha. unfold allocated in Ha. lia.
Qed.

Lemma sim_initKnightTables count capacity s :
  let r := Refs.initKnightTables count capacity s in
  Refs.viewTables r.2 r.1 = initKnightTables count capacity
  ∧ tablesApart r.2 r.1
  ∧ grown [] s [] r.2 r.1.
Proof.
  unfold Refs.initKnightTables, initKnightTables.
  assert (∀ l ta s0,
    tablesApart s0 ta →
    let r := foldl (λ (acc : Refs.Tables * Refs.Store) i,
                      let '(a, s') := Refs.newArray [] acc.2 in
                      (dictSet i (Refs.Table.mk a None None capacity true) acc.1, s'))
                   (ta, s0) l in
    Refs.viewTables r.2 r.1
    = foldl (λ acc i, dictSet i (knightTable capacity) acc) (Refs.viewTables s0 ta) l
    ∧ tablesApart r.2 r.1
    ∧ grown [] s0 ta r.2 r.1) as Hgen.
  { induction l as [|i l IH]; intros ta s0 Hap.
    { split_and!; [done|done|apply grown_refl]. }
    set (t := Refs.Table.mk (length (Refs.arrays s0)) None None capacity true).
    match goal with
    | |- context [foldl ?f (ta, s0) (i :: l)] =>
        change (foldl f (ta, s0) (i :: l))
          with (foldl f (dictSet i t ta, (Refs.newArray [] s0).2) l)
    end. cbn [foldl]. cbv zeta.
    destruct (tablesApart_open i t ta s0 [] Hap eq_refl) as [Hap' Hin].
    destruct (IH (dictSet i t ta) (Refs.newArray [] s0).2 Hap') as (Hsim & ? & Hgrown).
    split_and!; [|done|].
    - rewrite Hsim. f_equal.
      rewrite viewTables_dictSet, viewTables_newArray by done. f_equal.
      unfold Refs.viewTable, knightTable. simpl. f_equal.
      apply (deref_newArray_new [] s0).
    - eapply grown_trans; [|exact Hgrown].
      split_and!; [done|rewrite length_newArray; lia| |].
      + intros a Ha. apply Hin in Ha as [->|Ha]; [|by left].
        right. unfold allocated. lia.
      + intros a Ha _ _. apply arrayAt_newArray. by apply allocated_fresh. }
  apply (Hgen (seq 0 count) [] s).
  split; [apply NoDup_nil_2|apply Forall_nil_2].
Qed.

Lemma sim_selectKnightCandidates s (groups : list Refs.Group.t) :
  selectKnightCandidates (Refs.viewGroup s <$> groups)
  = (Refs.viewGroup s <$> (Refs.selectKnightCandidates groups).1,
     Refs.viewGroup s <$> (Refs.selectKnightCandidates groups).2).
Proof.
  unfold selectKnightCandidates, Refs.selectKnightCandidates.
  rewrite (filter_fmap_iff (Refs.viewGroup s) _
             (λ g, Refs.Group.isRequestedForKnight g = true)) by done.
  rewrite length_fmap. case_decide; simpl.
  - by rewrite (filter_fmap_iff (Refs.viewGroup s) _
                  (λ g, Refs.Group.dominantCategory g = friend)),
               (filter_fmap_iff (Refs.viewGroup s) _
                  (λ g, Refs.Group.dominantCategory g ≠ friend)).
  - by rewrite (filter_fmap_iff (Refs.viewGroup s) _
                  (λ g, Refs.Group.isRequestedForKnight g ≠ true)).
Qed.

Lemma selectKnightCandidates_elem_of (groups : list Refs.Group.t) x :
  x ∈ (Refs.selectKnightCandidates groups).1 ++ (Refs.selectKnightCandidates groups).2 →
  x ∈ groups.
Proof.
  unfold Refs.selectKnightCandidates. case_decide; simpl;
    rewrite elem_of_app, !list_elem_of_filter; tauto.
Qed.

Lemma sim_bySizeDesc s (groups : list Refs.Group.t) :
  jsSort bySizeDesc (Refs.viewGroup s <$> groups)
  = Refs.viewGroup s <$> jsSort Refs.bySizeDesc groups.
Proof. exact (jsSort_fmap (Refs.viewGroup s) bySizeDesc groups). Qed.

Lemma sameHead_view s g : sameHead (Refs.viewGroup s g) g.
Proof. done. Qed.

Lemma sim_knightGroups count (candidates : list Refs.Group.t) :
  ∀ ta pool s,
  tablesApart s ta → groupsApart s ta (pool ++ candidates) →
  let r := foldl (Refs.knightGroup count) (ta, pool, s) candidates in
  foldl (knightGroup count) (Refs.viewTables s ta, Refs.viewGroup s <$> pool)
        (Refs.viewGroup s <$> candidates)
  = (Refs.viewTables r.2 r.1.1, Refs.viewGroup r.2 <$> r.1.2)
  ∧ tablesApart r.2 r.1.1 ∧ groupsApart r.2 r.1.1 r.1.2
  ∧ Refs.objects r.2 = Refs.objects s.
Proof.
  induction candidates as [|c cs IH]; intros ta pool s Hap Hgr.
  { simpl. rewrite app_nil_r in Hgr. by split_and!. }
  unfold groupsApart in Hgr. rewrite Forall_app, Forall_cons in Hgr.
  destruct Hgr as (Hpool & [Hc1 Hc2] & Hcs).
  rewrite fmap_cons. cbn [foldl].
  set (gts := length (Refs.arrays s)).
  set (s1 := (Refs.newArray (Refs.arrayAt s (Refs.Group.guests c)) s).2).
  change (Refs.knightGroup count (ta, pool, s) c)
    with (Refs.knightSeat (length (Refs.arrayAt s1 gts)) count c ta pool gts s1).
  assert (Refs.arrayAt s1 gts = Refs.arrayAt s (Refs.Group.guests c)) as Hgts
    by apply arrayAt_newArray_new.
  pose proof (fresh_not_table _ _ Hap) as Hfresh.
  destruct (sim_knightSeat (length (Refs.arrayAt s1 gts)) count
              (Refs.viewGroup s c) c (sameHead_view s c) ta pool gts s1)
    as (Hsim & Hlocs & Hobj & Hlen & Hframe & Hpool').
  { by apply tablesApart_newArray. }
  { unfold allocated, s1, gts. rewrite length_newArray. lia. }
  { done. }
  { eapply Forall_impl; [exact Hpool|]. intros x [Hx1 Hx2].
    split; [|done]. by apply allocated_fresh. }
  set (r1 := Refs.knightSeat (length (Refs.arrayAt s1 gts)) count c ta pool gts s1) in *.
  assert (length (Refs.arrays s) < length (Refs.arrays r1.2))%nat as Hgrow.
  { rewrite Hlen. unfold s1. rewrite length_newArray. lia. }
  assert (∀ a, allocated s a → a ∉ tableLocs ta →
               Refs.arrayAt r1.2 a = Refs.arrayAt s a) as Hold.
  { intros a Ha1 Ha2. rewrite Hframe; [|by apply allocated_fresh|done].
    apply arrayAt_newArray. by apply allocated_fresh. }
  destruct (IH r1.1.1 r1.1.2 r1.2) as (Hsim' & Hap' & Hgr' & Hobj').
  { destruct Hap as [Hnd Hal]. split; rewrite Hlocs; [done|].
    eapply Forall_impl; [exact Hal|]. intros a Ha. unfold allocated in *. lia. }
  { unfold groupsApart. rewrite Hlocs. apply Forall_app. split.
    - apply Forall_forall. intros x Hx.
      rewrite Forall_forall in Hpool'. destruct (Hpool' x Hx) as [Hin| ->].
      + rewrite Forall_forall in Hpool. destruct (Hpool x Hin) as [Hx1 Hx2].
        split; [|done]. unfold allocated in *. lia.
      + split; [|done]. unfold allocated. fold gts. lia.
    - eapply Forall_impl; [exact Hcs|]. intros x [Hx1 Hx2].
      split; [|done]. unfold allocated in *. lia. }
  destruct r1 as [[ta1 pool1] s2] eqn:Hr1. cbn [fst snd] in *.
  split_and!; [|done|done|by rewrite Hobj'].
  rewrite <-Hsim'. f_equal.
  - unfold knightGroup. cbn [fst snd Refs.viewGroup GuestGroup.guests].
    rewrite <-Hsim. f_equal.
    + unfold Refs.deref. by rewrite length_fmap, Hgts.
    + symmetry. unfold s1. by apply viewTables_newArray.
    + apply viewGroups_same; [done|].
      eapply Forall_impl; [exact Hpool|]. intros x [Hx1 Hx2].
      symmetry. apply arrayAt_newArray. by apply allocated_fresh.
    + unfold Refs.deref. by rewrite Hgts.
  - symmetry. apply viewGroups_same; [by rewrite Hobj|].
    eapply Forall_impl; [exact Hcs|]. intros x [Hx1 Hx2]. by apply Hold.
Qed.
Lemma sim_knightPhase knightConfig (groups : list Refs.Group.t) s :
  Forall (λ x, allocated s (Refs.Group.guests x)) groups →
  let r := Refs.knightPhase knightConfig groups s in
  knightPhase knightConfig (Refs.viewGroup s <$> groups)
  = (Refs.viewTables r.2 r.1.1.1, r.1.1.2, Refs.viewGroup r.2 <$> r.1.2)
  ∧ tablesApart r.2 r.1.1.1 ∧ groupsApart r.2 r.1.1.1 r.1.2
  ∧ Refs.objects r.2 = Refs.objects s.
Proof.
  intros Hal. unfold knightPhase, Refs.knightPhase.
  destruct (KnightConfig.enabled knightConfig && (0 <? KnightConfig.count knightConfig)).
  2:{ simpl. split_and!; [done| |
        |done].
      - split; [apply NoDup_nil_2|apply Forall_nil_2].
      - eapply Forall_impl; [exact Hal|]. intros x Hx. split; [done|]. apply not_elem_of_nil. }
  set (count := Z.to_nat (KnightConfig.count knightConfig)).
  destruct (sim_initKnightTables count (KnightConfig.capacity knightConfig) s)
    as (Hinit & Hap & Hobj & Hlen & Hfresh & Harr).
  destruct (Refs.initKnightTables count (KnightConfig.capacity knightConfig) s)
    as [ta s0]. cbn [fst snd] in *.
  rewrite sim_selectKnightCandidates.
  pose proof (selectKnightCandidates_elem_of groups) as Hsel.
  destruct (Refs.selectKnightCandidates groups) as [candidates pool].
  cbn [fst snd] in *.
  assert (Forall (λ x, allocated s (Refs.Group.guests x)) (pool ++ jsSort Refs.bySizeDesc candidates))
    as Hal'.
  { apply Forall_forall. intros x Hx. rewrite Forall_forall in Hal. apply Hal, Hsel.
    rewrite (jsSort_perm Refs.bySizeDesc candidates) in Hx.
    apply elem_of_app in Hx. apply elem_of_app. tauto. }
  assert (∀ l : list Refs.Group.t,
            Forall (λ x, allocated s (Refs.Group.guests x)) l →
            Refs.viewGroup s <$> l = Refs.viewGroup s0 <$> l) as Hview.
  { intros l Hl. symmetry. apply viewGroups_same; [done|].
    eapply Forall_impl; [exact Hl|]. intros x Hx.
    apply Harr; [done|apply not_elem_of_nil|apply not_elem_of_nil]. }
  apply Forall_app in Hal' as Hal''. destruct Hal'' as [Hpool Hcands].
  destruct (sim_knightGroups count (jsSort Refs.bySizeDesc candidates) ta pool s0 Hap)
    as (Hsim & Hap' & Hgr' & Hobj').
  { eapply Forall_impl; [exact Hal'|]. intros x Hx. split.
    - unfold allocated in *. lia.
    - intros Hin. apply Hfresh in Hin as [Hin|Hin]; [|done].
      by apply elem_of_nil in Hin. }
  rewrite sim_bySizeDesc, (Hview pool Hpool), (Hview _ Hcands), <-Hinit, Hsim.
  destruct (foldl (Refs.knightGroup count) (ta, pool, s0) (jsSort Refs.bySizeDesc candidates))
    as [[ta' pool'] s']. cbn [fst snd] in *.
  split_and!; [done|done|done|congruence].
Qed.
End KnightAgreement.

(** ** Phase B *)

Section StandardAgreement.
Implicit Types (s : Refs.Store) (ta : Refs.Tables).

Lemma isSideMatch_head g1 g2 :
  GuestGroup.dominantSide g1 = GuestGroup.dominantSide g2 → isSideMatch g1 = isSideMatch g2.
Proof. intros H. unfold isSideMatch. by rewrite H. Qed.

Lemma bestFit_head g1 g2 groupSize tables :
  GuestGroup.dominantSide g1 = GuestGroup.dominantSide g2 →
  bestFit g1 groupSize tables = bestFit g2 groupSize tables.
Proof. intros H. unfold bestFit. by rewrite (isSideMatch_head _ _ H). Qed.

Lemma bestPartial_head g1 g2 tables :
  GuestGroup.dominantSide g1 = GuestGroup.dominantSide g2 →
  bestPartial g1 tables = bestPartial g2 tables.
Proof. intros H. unfold bestPartial. by rewrite (isSideMatch_head _ _ H). Qed.

Lemma sim_partialTarget g hg ta guestsToSeat s :
  sameHead g hg →
  partialTarget g (Refs.viewTables s ta) (Refs.deref s guestsToSeat)
  = (λ e : nat * list nat, (e.1, Refs.objectAt s <$> e.2))
      <$> Refs.partialTarget hg ta guestsToSeat s.
Proof.
  intros (_ & Hs & _). unfold partialTarget, Refs.partialTarget.
  rewrite (bestPartial_head (Refs.viewGroup s hg) g) by done.
  destruct (bestPartial g (Refs.viewTables s ta)) as [[k m]|]; [|done].
  rewrite deref_fitChunk.
  by destruct (fitChunkBy (Refs.sizeAt s) m (Refs.arrayAt s guestsToSeat)).
Qed.

Lemma viewTable_newStandardTable s g hg tableCapacity a :
  sameHead g hg →
  Refs.viewTable s (Refs.newStandardTable hg tableCapacity a)
  = seat (Refs.deref s a) (newStandardTable g tableCapacity).
Proof.
  intros (_ & Hs & Hc & _). unfold Refs.viewTable, seat, newStandardTable. simpl.
  by rewrite Hs, Hc.
Qed.

(** A chunk moved from [guestsToSeat] to an existing table. *)
Lemma grown_move except s k chunk ta ta' guestsToSeat :
  tableLocs ta' = tableLocs ta → guestsToSeat ∈ except →
  grown except s ta (Refs.seatAt k chunk ta (Refs.removeFrom guestsToSeat chunk s)) ta'.
Proof.
  intros Hlocs Hin. split_and!.
  - by rewrite objects_seatAt.
  - by rewrite length_seatAt, length_removeFrom.
  - intros a Ha. left. by rewrite <-Hlocs.
  - intros a _ Ha1 Ha2. apply arrayAt_move; [|done]. by intros ->.
Qed.

Lemma sim_splitIntoNewTable tableCapacity g hg st guestsToSeat s :
  sameHead g hg →
  tablesApart s (Refs.Seating.tableAssignments st) →
  allocated s guestsToSeat → guestsToSeat ∉ tableLocs (Refs.Seating.tableAssignments st) →
  let r := Refs.splitIntoNewTable tableCapacity hg st guestsToSeat s in
  splitIntoNewTable tableCapacity g (viewSeating s st) (Refs.deref s guestsToSeat)
  = (viewSeating r.2 r.1.1, if r.1.2 then Some (Refs.deref r.2 guestsToSeat) else None)
  ∧ tablesApart r.2 (Refs.Seating.tableAssignments r.1.1)
  ∧ grown [guestsToSeat] s (Refs.Seating.tableAssignments st)
          r.2 (Refs.Seating.tableAssignments r.1.1).
Proof.
  intros Hhead Hap Hal Hgts. destruct st as [ta n]. cbn [Refs.Seating.tableAssignments] in *.
  unfold splitIntoNewTable, Refs.splitIntoNewTable.
  cbn [viewSeating Seating.tableCounter Seating.tableAssignments
       Refs.Seating.tableCounter Refs.Seating.tableAssignments].
  set (a := length (Refs.arrays s)).
  set (s1 := (Refs.newArray [] s).2).
  change (Refs.newArray [] s) with (a, s1). cbv beta iota zeta.
  assert (Refs.deref s guestsToSeat = Refs.deref s1 guestsToSeat) as Hd.
  { symmetry. apply deref_same; [done|]. apply arrayAt_newArray. by apply allocated_fresh. }
  rewrite Hd at 1. rewrite deref_newTableChunk.
  change (Refs.sizeAt s) with (Refs.sizeAt s1).
  destruct (newTableChunkBy (Refs.sizeAt s1) tableCapacity (Refs.arrayAt s1 guestsToSeat))
    as [chunk capacity]. unfold prod_map. cbn [fst snd id].
  set (t := Refs.newStandardTable hg tableCapacity a).
  destruct (tablesApart_open n t ta s [] Hap eq_refl) as [Hap1 Hin1]. fold s1 a in Hap1, Hin1.
  rewrite !dictAlter_dictSet.
  assert (tableLocs (dictSet n (Refs.setCapacity capacity t) ta) = tableLocs (dictSet n t ta))
    as Hlocs.
  { rewrite <-(dictAlter_dictSet (Refs.setCapacity capacity)).
    by apply tableLocs_dictAlter. }
  assert (a ≠ guestsToSeat) as Hne by (symmetry; by apply allocated_fresh).
  assert (allocated s1 a) as Hala.
  { unfold allocated, s1, a. rewrite length_newArray. lia. }
  assert (∀ s', Refs.objects s' = Refs.objects s →
            (∀ x, allocated s x → x ≠ guestsToSeat → Refs.arrayAt s' x = Refs.arrayAt s x) →
            Refs.viewTables s' ta = Refs.viewTables s ta) as Hview.
  { intros s' Ho Hx. apply viewTables_same; [done|]. intros x Hin.
    destruct Hap as [_ Hall]. rewrite Forall_forall in Hall.
    apply Hx; [by apply Hall|]. by intros ->. }
  assert (∀ x, allocated s x → Refs.arrayAt s1 x = Refs.arrayAt s x) as Hs1.
  { intros x Hx. apply arrayAt_newArray. by apply allocated_fresh. }
  destruct chunk as [|c cs];
    cbn [fst snd viewSeating Refs.Seating.tableAssignments Refs.Seating.tableCounter].
  - split_and!.
    + f_equal. unfold viewSeating. cbn [Refs.Seating.tableAssignments Refs.Seating.tableCounter].
      f_equal. rewrite viewTables_dictSet. f_equal.
      * unfold Refs.viewTable, setCapacity, newStandardTable, t. simpl.
        destruct Hhead as (_ & -> & -> & _). f_equal.
        symmetry. apply (deref_newArray_new [] s).
      * symmetry. apply Hview; [done|]. intros x Hx _. by apply Hs1.
    + eapply tablesApart_same; [exact Hlocs|done|exact Hap1].
    + split_and!; [done|unfold s1; rewrite length_newArray; lia| |].
      * intros x Hx. rewrite Hlocs in Hx. apply Hin1 in Hx as [->|Hx]; [|by left].
        right. unfold allocated, a. lia.
      * intros x Hx _ _. by apply Hs1.
  - set (chunk := c :: cs).
    set (s3 := Refs.pushAll a chunk (Refs.removeFrom guestsToSeat chunk s1)).
    assert (length (Refs.arrays s3) = length (Refs.arrays s1)) as Hlen3.
    { unfold s3. by rewrite length_pushAll, length_removeFrom. }
    assert (∀ x, allocated s x → x ≠ guestsToSeat → Refs.arrayAt s3 x = Refs.arrayAt s x)
      as Hs3.
    { intros x Hx Hxg. unfold s3.
      rewrite arrayAt_pushAll_ne by by apply allocated_fresh.
      rewrite arrayAt_removeFrom_ne by done. by apply Hs1. }
    split_and!.
    + f_equal.
      * unfold viewSeating.
        cbn [Refs.Seating.tableAssignments Refs.Seating.tableCounter].
        f_equal. rewrite viewTables_dictSet. f_equal; [|symmetry; by apply Hview].
        unfold Refs.viewTable, seat, setCapacity, newStandardTable, t. simpl.
        destruct Hhead as (_ & -> & -> & _). f_equal.
        unfold s3. rewrite deref_pushAll.
        -- f_equal. unfold Refs.deref.
           rewrite arrayAt_removeFrom_ne by done. unfold s1, a.
           by rewrite (arrayAt_newArray_new [] s).
        -- unfold allocated. by rewrite length_removeFrom.
      * f_equal. rewrite Hd. unfold s3. rewrite <-deref_removeFrom.
        -- symmetry. apply deref_same; [done|]. apply arrayAt_pushAll_ne. by intros ->.
        -- unfold allocated, s1 in *. rewrite length_newArray. lia.
    + eapply tablesApart_same; [exact Hlocs| |exact Hap1]. lia.
    + split_and!; [done|rewrite Hlen3; unfold s1; rewrite length_newArray; lia| |].
      * intros x Hx. rewrite Hlocs in Hx. apply Hin1 in Hx as [->|Hx]; [|by left].
        right. unfold allocated, a. lia.
      * intros x Hx Hxg _. apply Hs3; [done|]. intros ->. apply Hxg. by left.
Qed.
Lemma sim_standardSeat fuel tableCapacity g hg :
  sameHead g hg →
  ∀ st guestsToSeat groupSize s,
  tablesApart s (Refs.Seating.tableAssignments st) →
  allocated s guestsToSeat → guestsToSeat ∉ tableLocs (Refs.Seating.tableAssignments st) →
  let r := Refs.standardSeat fuel tableCapacity hg st guestsToSeat groupSize s in
  standardSeat fuel tableCapacity g (viewSeating s st) (Refs.deref s guestsToSeat) groupSize
  = viewSeating r.2 r.1
  ∧ tablesApart r.2 (Refs.Seating.tableAssignments r.1)
  ∧ grown [guestsToSeat] s (Refs.Seating.tableAssignments st)
          r.2 (Refs.Seating.tableAssignments r.1).
Proof.
  intros Hhead.
  induction fuel as [|fuel IH]; intros st gts groupSize s Hap Hal Hgts.
  { rewrite refs_standardSeat_done by by left. simpl.
    split_and!; [done|done|apply grown_refl]. }
  destruct (Refs.arrayAt s gts) as [|r0 rest] eqn:Harr.
  { rewrite refs_standardSeat_done by by right.
    unfold Refs.deref. rewrite Harr. simpl. split_and!; [done|done|apply grown_refl]. }
  rewrite (refs_standardSeat_unfold _ _ _ _ _ _ _ _ _ Harr).
  assert (Refs.deref s gts = Refs.objectAt s r0 :: (Refs.objectAt s <$> rest)) as Hd.
  { unfold Refs.deref. by rewrite Harr. }
  rewrite Hd, standardSeat_unfold, <-Hd. cbv zeta.
  destruct st as [ta n].
  cbn [viewSeating Seating.tableAssignments Seating.tableCounter
       Refs.Seating.tableAssignments Refs.Seating.tableCounter] in *.
  rewrite (bestFit_head (Refs.viewGroup s hg) g) by (symmetry; apply Hhead).
  destruct (bestFit g groupSize (Refs.viewTables s ta)) as [k|].
  { (* the whole group at an existing table *)
    cbn [fst snd Refs.Seating.tableAssignments Refs.Seating.tableCounter].
    set (s' := Refs.seatAt k (Refs.arrayAt s gts) ta s).
    assert (tableLocs (dictAlter (Refs.markFirst s' hg (Refs.arrayAt s gts)) k ta)
            = tableLocs ta) as Hlocs.
    { apply tableLocs_dictAlter. intros t. apply guests_markFirst_ref. }
    split_and!.
    - unfold viewSeating.
      cbn [fst snd Refs.Seating.tableAssignments Refs.Seating.tableCounter]. f_equal.
      rewrite (viewTables_dictAlter s' _ (markFirst g (Refs.deref s gts))).
      + unfold s'. rewrite viewTables_seatAt by done. by rewrite dictAlter_compose.
      + intros t _. apply viewTable_markFirst; [done|]. apply length_fmap.
    - eapply tablesApart_same; [exact Hlocs| |exact Hap].
      unfold s'. by rewrite length_seatAt.
    - split_and!.
      + apply objects_seatAt.
      + unfold s'. by rewrite length_seatAt.
      + intros a Ha. left. by rewrite <-Hlocs.
      + intros a _ _ Ha. by apply arrayAt_seatAt_ne. }
  destruct (groupSize <=? tableCapacity).
  { (* the whole group at a new table *)
    set (a := length (Refs.arrays s)).
    set (s1 := (Refs.newArray [] s).2).
    change (Refs.newArray [] s) with (a, s1). cbv beta iota zeta.
    cbn [fst snd Refs.Seating.tableAssignments Refs.Seating.tableCounter].
    set (t := Refs.newStandardTable hg tableCapacity a).
    set (s2 := Refs.pushAll a (Refs.arrayAt s1 gts) s1).
    destruct (tablesApart_open n t ta s [] Hap eq_refl) as [Hap1 Hin1].
    fold s1 a in Hap1, Hin1.
    assert (∀ x, allocated s x → Refs.arrayAt s2 x = Refs.arrayAt s x) as Hs2.
    { intros x Hx. unfold s2. rewrite arrayAt_pushAll_ne by by apply allocated_fresh.
      apply arrayAt_newArray. by apply allocated_fresh. }
    assert (length (Refs.arrays s2) = S (length (Refs.arrays s))) as Hlen.
    { unfold s2, s1. by rewrite length_pushAll, length_newArray. }
    split_and!.
    - unfold viewSeating.
      cbn [fst snd Refs.Seating.tableAssignments Refs.Seating.tableCounter]. f_equal.
      rewrite dictAlter_dictSet, viewTables_dictSet. f_equal.
      + unfold t. rewrite (viewTable_newStandardTable _ g) by done. f_equal.
        unfold s2. rewrite deref_pushAll.
        * unfold Refs.deref, s1, a. rewrite (arrayAt_newArray_new [] s).
          rewrite arrayAt_newArray by by apply allocated_fresh. done.
        * unfold allocated, s1, a. rewrite length_newArray. lia.
      + symmetry. apply viewTables_same; [done|]. intros x Hx. apply Hs2.
        destruct Hap as [_ Hall]. rewrite Forall_forall in Hall. by apply Hall.
    - eapply tablesApart_same; [done| |exact Hap1].
      unfold s2. by rewrite length_pushAll.
    - split_and!; [done|lia| |].
      + intros x Hx. apply Hin1 in Hx as [->|Hx]; [|by left].
        right. unfold allocated, a. lia.
      + intros x Hx _ _. by apply Hs2. }
  rewrite (sim_partialTarget g hg) by done.
  destruct (Refs.partialTarget hg ta gts s) as [[k chunk]|]; cbn [fmap option_fmap option_map fst snd].
  { (* a chunk at an existing table *)
    set (s' := Refs.seatAt k chunk ta (Refs.removeFrom gts chunk s)).
    assert (length (Refs.arrays s') = length (Refs.arrays s)) as Hlen.
    { unfold s'. by rewrite length_seatAt, length_removeFrom. }
    destruct (IH (Refs.Seating.mk ta n) gts (getGuestsSize (Refs.deref s' gts)) s')
      as (Hsim & Hap' & Hgrown); cbn [Refs.Seating.tableAssignments]; try done.
    { eapply tablesApart_same; [done| |exact Hap]. lia. }
    { unfold allocated in *. lia. }
    split_and!; [|done|].
    - rewrite <-Hsim. unfold viewSeating at 1.
      cbn [Refs.Seating.tableAssignments Refs.Seating.tableCounter].
      unfold s' at 1 2 3. rewrite viewTables_move, deref_move by done. done.
    - eapply grown_trans; [|exact Hgrown]. apply grown_move; [done|by left]. }
  (* a chunk at a new table *)
  destruct (sim_splitIntoNewTable tableCapacity g hg (Refs.Seating.mk ta n) gts s Hhead)
    as (Hsplit & Hap1 & Hgrown1); try done.
  rewrite Hsplit.
  destruct (Refs.splitIntoNewTable tableCapacity hg (Refs.Seating.mk ta n) gts s)
    as [[st' [|]] s']; cbn [fst snd] in *; [|by split_and!].
  destruct (IH st' gts (getGuestsSize (Refs.deref s' gts)) s') as (Hsim & Hap' & Hgrown);
    [done| | |].
  { destruct Hgrown1 as (_ & Hlen & _). unfold allocated in *. lia. }
  { intros Hin. destruct Hgrown1 as (_ & _ & Hin1 & _).
    by apply Hin1 in Hin as [Hin|Hin]. }
  split_and!; [done|done|].
  by eapply grown_trans.
Qed.

Lemma sim_standardGroups tableCapacity (groups : list Refs.Group.t) :
  ∀ st s,
  tablesApart s (Refs.Seating.tableAssignments st) →
  groupsApart s (Refs.Seating.tableAssignments st) groups →
  let r := foldl (Refs.standardGroup tableCapacity) (st, s) groups in
  foldl (standardGroup tableCapacity) (viewSeating s st) (Refs.viewGroup s <$> groups)
  = viewSeating r.2 r.1
  ∧ tablesApart r.2 (Refs.Seating.tableAssignments r.1)
  ∧ Refs.objects r.2 = Refs.objects s.
Proof.
  induction groups as [|c cs IH]; intros st s Hap Hgr; [done|].
  unfold groupsApart in Hgr. rewrite Forall_cons in Hgr. destruct Hgr as ([Hc1 Hc2] & Hcs).
  rewrite fmap_cons. cbn [foldl].
  set (gts := length (Refs.arrays s)).
  set (s1 := (Refs.newArray (Refs.arrayAt s (Refs.Group.guests c)) s).2).
  change (Refs.standardGroup tableCapacity (st, s) c)
    with (Refs.standardSeat (length (Refs.arrayAt s1 gts)) tableCapacity c st gts
            (getGuestsSize (Refs.deref s1 gts)) s1).
  assert (Refs.arrayAt s1 gts = Refs.arrayAt s (Refs.Group.guests c)) as Hgts
    by apply arrayAt_newArray_new.
  assert (Refs.deref s1 gts = Refs.deref s (Refs.Group.guests c)) as Hd.
  { unfold Refs.deref. by rewrite Hgts. }
  pose proof (fresh_not_table _ _ Hap) as Hfresh.
  destruct (sim_standardSeat (length (Refs.arrayAt s1 gts)) tableCapacity
              (Refs.viewGroup s c) c (sameHead_view s c) st gts
              (getGuestsSize (Refs.deref s1 gts)) s1)
    as (Hsim & Hap' & Hobj & Hlen & Hlocs & Hframe).
  { by apply tablesApart_newArray. }
  { unfold allocated, s1, gts. rewrite length_newArray. lia. }
  { done. }
  set (r1 := Refs.standardSeat (length (Refs.arrayAt s1 gts)) tableCapacity c st gts
               (getGuestsSize (Refs.deref s1 gts)) s1) in *.
  assert (length (Refs.arrays s) < length (Refs.arrays r1.2))%nat as Hgrow.
  { unfold s1 in Hlen. rewrite length_newArray in Hlen. lia. }
  destruct (IH r1.1 r1.2) as (Hsim' & Hap'' & Hobj'); [done| |].
  { eapply Forall_impl; [exact Hcs|]. intros x [Hx1 Hx2]. split.
    - unfold allocated in *. lia.
    - intros Hin. apply Hlocs in Hin as [Hin|Hin]; [done|]. apply Hin.
      unfold allocated, s1 in *. rewrite length_newArray. lia. }
  destruct r1 as [st1 s2] eqn:Hr1. cbn [fst snd] in *.
  split_and!; [|done|by rewrite Hobj'].
  rewrite <-Hsim'. f_equal.
  - unfold standardGroup. cbn [Refs.viewGroup GuestGroup.guests].
    rewrite <-Hsim, Hd. f_equal.
    + unfold Refs.deref. by rewrite length_fmap, Hgts.
    + unfold viewSeating. f_equal. symmetry. unfold s1. by apply viewTables_newArray.
  - symmetry. apply viewGroups_same; [by rewrite Hobj|].
    eapply Forall_impl; [exact Hcs|]. intros x [Hx1 Hx2].
    rewrite Hframe.
    + apply arrayAt_newArray. by apply allocated_fresh.
    + unfold allocated, s1 in *. rewrite length_newArray. lia.
    + apply not_elem_of_cons. split; [by apply allocated_fresh|apply not_elem_of_nil].
    + done.
Qed.

Lemma sim_standardPhase tableCapacity st (groups : list Refs.Group.t) s :
  tablesApart s (Refs.Seating.tableAssignments st) →
  groupsApart s (Refs.Seating.tableAssignments st) groups →
  let r := Refs.standardPhase tableCapacity st groups s in
  standardPhase tableCapacity (viewSeating s st) (Refs.viewGroup s <$> groups)
  = viewSeating r.2 r.1
  ∧ tablesApart r.2 (Refs.Seating.tableAssignments r.1)
  ∧ Refs.objects r.2 = Refs.objects s.
Proof.
  intros Hap Hgr. unfold standardPhase, Refs.standardPhase.
  rewrite sim_bySizeDesc. apply sim_standardGroups; [done|].
  unfold groupsApart. by rewrite (jsSort_perm Refs.bySizeDesc groups).
Qed.
End StandardAgreement.

(** ** Phase C and the result *)

Section MergeAgreement.
Implicit Types (s : Refs.Store) (ta : Refs.Tables).

Lemma tableLocs_dictDelete k ta : tableLocs (dictDelete k ta) `sublist_of` tableLocs ta.
Proof. unfold tableLocs. apply fmap_sublist, dictDelete_sublist. Qed.

Lemma tableLocs_replace f k ta a :
  NoDup (tableLocs ta) → a ∉ tableLocs ta → (∀ t, Refs.Table.guests (f t) = a) →
  NoDup (tableLocs (dictAlter f k ta)) ∧
  ∀ x, x ∈ tableLocs (dictAlter f k ta) → x = a ∨ x ∈ tableLocs ta.
Proof.
  intros Hnd Ha Hf. induction ta as [|[k' t'] ta IH].
  { split; [apply NoDup_nil_2|]. intros x Hx. by apply elem_of_nil in Hx. }
  revert Hnd Ha. unfold tableLocs. cbn [dictAlter]. rewrite fmap_cons. cbn [fst snd].
  fold (tableLocs ta). rewrite NoDup_cons, not_elem_of_cons.
  intros [Hnotin Hnd] [Hne Hfresh].
  case_decide; rewrite fmap_cons; cbn [fst snd]; fold (tableLocs ta).
  - rewrite Hf. split; [by apply NoDup_cons|].
    intros x Hx. apply elem_of_cons in Hx as [->|Hx]; [by left|right; by right].
  - destruct (IH Hnd Hfresh) as [IH1 IH2]. fold (tableLocs (dictAlter f k ta)). split.
    + apply NoDup_cons. split; [|done]. intros Hin.
      apply IH2 in Hin as [Hin|Hin]; [by apply Hne|done].
    + intros x Hx. apply elem_of_cons in Hx as [->|Hx]; [right; by left|].
      apply IH2 in Hx as [Hx|Hx]; [by left|right; by right].
Qed.

Lemma sim_mergeSparse ids :
  ∀ ta mergedTableIds s,
  tablesApart s ta →
  let r := Refs.mergeSparse ids ta mergedTableIds s in
  mergeSparse ids (Refs.viewTables s ta) mergedTableIds = Refs.viewTables r.2 r.1
  ∧ tablesApart r.2 r.1 ∧ Refs.objects r.2 = Refs.objects s.
Proof.
  induction ids as [|idA later IH]; intros ta merged s Hap; [done|].
  cbn [mergeSparse Refs.mergeSparse].
  case_decide; [by apply IH|].
  rewrite dictGet_viewTables.
  destruct (dictGet idA ta) as [tableA|] eqn:HgetA; cbn [fmap option_fmap option_map];
    [|by apply IH].
  change (WorkingTable.capacity (Refs.viewTable s tableA)) with (Refs.Table.capacity tableA).
  destruct (Refs.Table.capacity tableA <=? occupancy (Refs.viewTable s tableA));
    [by apply IH|].
  destruct (findPartner (occupancy (Refs.viewTable s tableA)) (Refs.Table.capacity tableA)
              (Refs.viewTables s ta) merged later) as [[idB tableBv]|] eqn:Hfind;
    [|by apply IH].
  apply findPartner_spec in Hfind as (HgetB & _).
  rewrite dictGet_viewTables in HgetB.
  destruct (dictGet idB ta) as [tableB|] eqn:HgetB'; [|done].
  cbn [fmap option_fmap option_map] in HgetB. injection HgetB as <-.
  set (a := length (Refs.arrays s)).
  set (elements := Refs.arrayAt s (Refs.Table.guests tableA)
                   ++ Refs.arrayAt s (Refs.Table.guests tableB)).
  set (s' := (Refs.newArray elements s).2).
  change (Refs.newArray elements s) with (a, s'). cbv beta iota zeta.
  pose proof (fresh_not_table _ _ Hap) as Hfresh. fold a in Hfresh.
  destruct (tableLocs_replace (Refs.absorb a) idA ta a) as [Hnd' Hin'];
    [apply Hap|done|done|].
  destruct (IH (dictDelete idB (dictAlter (Refs.absorb a) idA ta)) ({[idB]} ∪ merged) s')
    as (Hsim & Hap' & Hobj).
  { split.
    - eapply sublist_NoDup; [exact Hnd'|apply tableLocs_dictDelete].
    - apply Forall_forall. intros x Hx.
      pose proof (elem_of_sublist _ _ _ Hx (tableLocs_dictDelete _ _)) as Hx2.
      apply Hin' in Hx2.
      unfold allocated, s'. rewrite length_newArray.
      destruct Hx2 as [->|Hx']; [unfold a; lia|].
      destruct Hap as [_ Hall]. rewrite Forall_forall in Hall.
      apply Hall in Hx'. unfold allocated in Hx'. lia. }
  split_and!; [|done|done].
  rewrite <-Hsim. f_equal.
  rewrite viewTables_dictDelete. f_equal.
  rewrite (viewTables_dictAlter s' _ (absorb (Refs.viewTable s tableB))).
  - f_equal. symmetry. unfold s'. by apply viewTables_newArray.
  - intros t Ht. rewrite HgetA in Ht. injection Ht as <-.
    unfold Refs.viewTable, absorb, Refs.absorb. simpl. f_equal.
    unfold a, s'. rewrite (deref_newArray_new elements s).
    unfold elements. rewrite fmap_app. f_equal.
    symmetry. apply deref_same; [done|]. apply arrayAt_newArray. apply allocated_fresh.
    destruct Hap as [_ Hall]. rewrite Forall_forall in Hall. apply Hall.
    apply dictGet_elem_of in HgetA. unfold tableLocs. apply list_elem_of_fmap.
    by exists (idA, tableA).
Qed.

Lemma sim_consolidate ta s :
  tablesApart s ta →
  let r := Refs.consolidate ta s in
  consolidate (Refs.viewTables s ta) = Refs.viewTables r.2 r.1
  ∧ Refs.objects r.2 = Refs.objects s.
Proof.
  intros Hap. unfold consolidate, Refs.consolidate.
  destruct (sim_mergeSparse (standardTableIds (Refs.viewTables s ta)) ta ∅ s Hap)
    as (? & _ & ?). by split.
Qed.

Lemma sim_resultTable s (ta : Refs.Tables) :
  resultTable <$> Refs.viewTables s ta
  = Refs.viewResultTable s <$> (Refs.resultTable <$> ta).
Proof.
  unfold Refs.viewTables. rewrite <-!list_fmap_compose. by apply list_fmap_ext.
Qed.

Lemma sim_finalAssignment s (tables : list Refs.ResultTable.t) :
  finalAssignment (Refs.viewResultTable s <$> tables) = Refs.finalAssignment s tables.
Proof.
  unfold finalAssignment, Refs.finalAssignment.
  generalize (∅ : gmap string string).
  induction tables as [|t tables IH]; intros m; [done|].
  rewrite fmap_cons. cbn [foldl]. rewrite IH. f_equal.
  cbn [Refs.viewResultTable OptimizedTable.guests OptimizedTable.id].
  unfold Refs.deref. by rewrite foldl_fmap.
Qed.
End MergeAgreement.

(** ** Grouping *)

Section GroupingAgreement.
Implicit Types (s : Refs.Store) (groups : list (string * nat)).

Lemma groupLocs_dictSet (k : string) a groups :
  NoDup groups.*2 → a ∉ groups.*2 →
  NoDup (dictSet k a groups).*2 ∧
  ∀ x, x ∈ (dictSet k a groups).*2 → x = a ∨ x ∈ groups.*2.
Proof. exact (locs_dictSet id k a groups). Qed.

Lemma viewDict_same s s' groups :
  Refs.objects s' = Refs.objects s →
  (∀ a, a ∈ groups.*2 → Refs.arrayAt s' a = Refs.arrayAt s a) →
  viewDict s' groups = viewDict s groups.
Proof.
  intros Ho Ha. unfold viewDict. apply list_fmap_ext.
  intros i e He. f_equal. apply deref_same; [done|].
  apply Ha. apply list_elem_of_fmap. exists e. split; [done|].
  by eapply list_elem_of_lookup_2.
Qed.

Lemma dictGet_viewDict s key groups :
  dictGet key (viewDict s groups) = Refs.deref s <$> dictGet key groups.
Proof. exact (dictGet_fmap (Refs.deref s) key groups). Qed.

Lemma viewDict_dictSet s key a groups :
  viewDict s (dictSet key a groups) = dictSet key (Refs.deref s a) (viewDict s groups).
Proof. exact (dictSet_fmap (Refs.deref s) key a groups). Qed.

(** Pushing to the array stored under [key]. *)
Lemma viewDict_push s key a elements groups :
  dictApart s groups → dictGet key groups = Some a →
  viewDict (Refs.pushAll a elements s) groups
  = dictSet key (Refs.deref s a ++ (Refs.objectAt s <$> elements)) (viewDict s groups).
Proof.
  intros [Hnd Hal]. revert Hnd Hal.
  induction groups as [|[k' a'] groups IH]; [done|].
  cbn [dictGet]. rewrite fmap_cons, NoDup_cons, Forall_cons. cbn [snd fst].
  intros [Hnotin Hnd] [Hal1 Hal] Hget.
  unfold viewDict. rewrite !fmap_cons. cbn [dictSet fst snd].
  fold (viewDict (Refs.pushAll a elements s) groups). fold (viewDict s groups).
  destruct (decide (key = k')) as [Hk|Hk].
  - simplify_eq. f_equal.
    + f_equal. by apply deref_pushAll.
    + apply viewDict_same; [done|]. intros x Hx.
      apply arrayAt_pushAll_ne. by intros ->.
  - f_equal; [|by apply IH].
    f_equal. apply deref_same; [done|].
    apply arrayAt_pushAll_ne. intros Heq. apply Hnotin.
    rewrite Heq. apply dictGet_elem_of in Hget.
    apply list_elem_of_fmap. by exists (key, a).
Qed.

Lemma sim_pushed key guest groups s :
  dictApart s groups →
  let r := Refs.pushed key guest groups s in
  pushed key (Refs.objectAt s guest) (viewDict s groups) = viewDict r.2 r.1
  ∧ dictApart r.2 r.1
  ∧ Refs.objects r.2 = Refs.objects s
  ∧ (length (Refs.arrays s) ≤ length (Refs.arrays r.2))%nat
  ∧ (∀ a, a ∈ r.1.*2 → a ∈ groups.*2 ∨ ¬ allocated s a)
  ∧ (∀ a, allocated s a → a ∉ groups.*2 → Refs.arrayAt r.2 a = Refs.arrayAt s a).
Proof.
  intros Hap. unfold pushed, Refs.pushed. rewrite dictGet_viewDict.
  destruct (dictGet key groups) as [a|] eqn:Hget; cbn [fmap option_fmap option_map fst snd].
  - split_and!.
    + by rewrite (viewDict_push _ key).
    + destruct Hap as [Hnd Hal]. split; [done|].
      eapply Forall_impl; [exact Hal|]. intros x Hx.
      unfold allocated. by rewrite length_pushAll.
    + done.
    + by rewrite length_pushAll.
    + intros x Hx. by left.
    + intros x _ Hx. apply arrayAt_pushAll_ne. intros ->. apply Hx.
      apply dictGet_elem_of in Hget. apply list_elem_of_fmap. by exists (key, a).
  - set (a := length (Refs.arrays s)).
    set (s1 := (Refs.newArray [] s).2).
    change (Refs.newArray [] s) with (a, s1). cbv beta iota zeta. cbn [fst snd].
    destruct Hap as [Hnd Hal].
    assert (a ∉ groups.*2) as Hfresh.
    { intros Hin. rewrite Forall_forall in Hal. apply Hal in Hin.
      unfold allocated, a in Hin. lia. }
    destruct (groupLocs_dictSet key a groups Hnd Hfresh) as [Hnd' Hin'].
    assert (∀ x, allocated s x → Refs.arrayAt (Refs.pushAll a [guest] s1) x = Refs.arrayAt s x)
      as Hold.
    { intros x Hx. rewrite arrayAt_pushAll_ne by by apply allocated_fresh.
      apply arrayAt_newArray. by apply allocated_fresh. }
    split_and!.
    + rewrite viewDict_dictSet. f_equal.
      * rewrite deref_pushAll.
        -- unfold s1, a. by rewrite (deref_newArray_new [] s).
        -- unfold allocated, s1, a. rewrite length_newArray. lia.
      * symmetry. apply viewDict_same; [done|]. intros x Hx. apply Hold.
        rewrite Forall_forall in Hal. by apply Hal.
    + split; [done|]. apply Forall_forall. intros x Hx.
      unfold allocated. rewrite length_pushAll. unfold s1. rewrite length_newArray.
      apply Hin' in Hx as [->|Hx]; [unfold a; lia|].
      rewrite Forall_forall in Hal. apply Hal in Hx. unfold allocated in Hx. lia.
    + done.
    + rewrite length_pushAll. unfold s1. rewrite length_newArray. lia.
    + intros x Hx. apply Hin' in Hx as [->|Hx]; [|by left].
      right. unfold allocated, a. lia.
    + intros x Hx _. by apply Hold.
Qed.
Lemma sim_collected_step s0 guests ungrouped l acc i guest :
  collecting s0 guests ungrouped l acc → l !! i = Some guest →
  let r := match Refs.arrayAt acc.2 guests !! i with
           | Some guest =>
               match groupKey (Refs.objectAt acc.2 guest) with
               | Some key => Refs.pushed key guest acc.1 acc.2
               | None => (acc.1, Refs.pushAll ungrouped [guest] acc.2)
               end
           | None => acc
           end in
  match groupKey (Refs.objectAt s0 guest) with
  | Some key => (pushed key (Refs.objectAt s0 guest) (viewDict acc.2 acc.1),
                 Refs.deref acc.2 ungrouped)
  | None => (viewDict acc.2 acc.1, Refs.deref acc.2 ungrouped ++ [Refs.objectAt s0 guest])
  end = (viewDict r.2 r.1, Refs.deref r.2 ungrouped)
  ∧ collecting s0 guests ungrouped l r.
Proof.
  intros (Hobj & Hinp & Hlt & Hal & Hap & Hlocs) Hi. destruct acc as [groups s].
  cbn [fst snd] in *. rewrite Hinp, Hi, (objectAt_objects _ _ Hobj).
  assert (ungrouped ∉ groups.*2) as Hu.
  { intros Hin. rewrite Forall_forall in Hlocs. apply Hlocs in Hin. lia. }
  assert (guests ∉ groups.*2) as Hg.
  { intros Hin. rewrite Forall_forall in Hlocs. apply Hlocs in Hin. lia. }
  assert (allocated s guests) as Hal' by (unfold allocated in *; lia).
  destruct (groupKey (Refs.objectAt s0 guest)) as [key|].
  - destruct (sim_pushed key guest groups s Hap)
      as (Hsim & Hap' & Hobj' & Hlen & Hnew & Hframe).
    rewrite (objectAt_objects _ _ Hobj) in Hsim.
    destruct (Refs.pushed key guest groups s) as [groups' s']. cbn [fst snd] in *.
    split.
    + rewrite Hsim. f_equal. symmetry. apply deref_same; [done|]. by apply Hframe.
    + unfold collecting. cbn [fst snd].
      split_and!; [by rewrite Hobj'|by rewrite Hframe|done|unfold allocated in *; lia|done|].
      apply Forall_forall. intros a Ha. apply Hnew in Ha as [Ha|Ha].
      * rewrite Forall_forall in Hlocs. by apply Hlocs.
      * unfold allocated in *. lia.
  - cbn [fst snd]. split.
    + f_equal.
      * symmetry. apply viewDict_same; [done|]. intros a Ha.
        apply arrayAt_pushAll_ne. by intros ->.
      * rewrite deref_pushAll by done. by rewrite (objectAt_objects _ _ Hobj).
    + unfold collecting. cbn [fst snd]. split_and!; [done| |done| | |done].
      * rewrite arrayAt_pushAll_ne by lia. done.
      * unfold allocated. by rewrite length_pushAll.
      * destruct Hap as [Hnd Hall]. split; [done|].
        eapply Forall_impl; [exact Hall|]. intros a Ha.
        unfold allocated. by rewrite length_pushAll.
Qed.

Lemma sim_collected guests s :
  allocated s guests →
  let r := Refs.collected guests s in
  collected (Refs.deref s guests) = (viewDict r.2 r.1.1, Refs.deref r.2 r.1.2)
  ∧ dictApart r.2 r.1.1 ∧ allocated r.2 r.1.2
  ∧ Refs.objects r.2 = Refs.objects s.
Proof.
  intros Hal. unfold collected, Refs.collected.
  set (ungrouped := length (Refs.arrays s)).
  set (s0 := (Refs.newArray [] s).2).
  change (Refs.newArray [] s) with (ungrouped, s0). cbv beta iota zeta.
  set (l := Refs.arrayAt s guests).
  assert (Refs.arrayAt s0 guests = l) as Hl.
  { apply arrayAt_newArray. by apply allocated_fresh. }
  rewrite Hl.
  set (step := λ (acc : list (string * nat) * Refs.Store) i,
                 match Refs.arrayAt acc.2 guests !! i with
                 | Some guest =>
                     match groupKey (Refs.objectAt acc.2 guest) with
                     | Some key => Refs.pushed key guest acc.1 acc.2
                     | None => (acc.1, Refs.pushAll ungrouped [guest] acc.2)
                     end
                 | None => acc
                 end).
  set (pureStep := λ (acc : list (string * list Guest.t) * list Guest.t) guest,
                     match groupKey guest with
                     | Some key => (pushed key guest acc.1, acc.2)
                     | None => (acc.1, acc.2 ++ [guest])
                     end).
  assert (∀ n j acc,
            (j + n = length l)%nat → collecting s guests ungrouped l acc →
            let r := foldl step acc (seq j n) in
            foldl pureStep (viewDict acc.2 acc.1, Refs.deref acc.2 ungrouped)
                  (Refs.objectAt s <$> drop j l)
            = (viewDict r.2 r.1, Refs.deref r.2 ungrouped)
            ∧ collecting s guests ungrouped l r) as Hloop.
  { induction n as [|n IH]; intros j acc Hj Hacc.
    - rewrite drop_ge by lia. done.
    - destruct (lookup_lt_is_Some_2 l j) as [guest Hguest]; [lia|].
      rewrite (drop_S _ _ _ Hguest), fmap_cons. cbn [seq foldl].
      destruct (sim_collected_step s guests ungrouped l acc j guest Hacc Hguest)
        as [Hstep Hacc'].
      fold (step acc j) in Hstep, Hacc'.
      destruct (IH (S j) (step acc j)) as [Hsim Hinv]; [lia|done|].
      split; [|done]. rewrite <-Hsim. f_equal.
      unfold pureStep at 1. cbn [fst snd]. rewrite <-Hstep.
      by destruct (groupKey (Refs.objectAt s guest)). }
  destruct (Hloop (length l) 0%nat ([], s0)) as [Hsim Hinv]; [done| |].
  { unfold collecting. cbn [fst snd]. split_and!.
    - done.
    - exact Hl.
    - exact Hal.
    - unfold allocated, s0, ungrouped. rewrite length_newArray. lia.
    - split; [apply NoDup_nil_2|apply Forall_nil_2].
    - apply Forall_nil_2. }
  rewrite drop_0 in Hsim. cbn [fst snd viewDict fmap list_fmap] in Hsim.
  assert (Refs.deref s0 ungrouped = []) as Hnil by apply (deref_newArray_new [] s).
  rewrite Hnil in Hsim. fold (Refs.deref s guests) in Hsim.
  destruct (foldl step ([], s0) (seq 0 (length l))) as [groups s1]. cbn [fst snd] in *.
  destruct Hinv as (Hobj & _ & _ & Hal1 & Hap & _).
  by split_and!.
Qed.

Lemma sim_addIndividuals ungrouped groups s :
  dictApart s groups →
  let r := Refs.addIndividuals ungrouped groups s in
  addIndividuals (Refs.deref s ungrouped) (viewDict s groups) = viewDict r.2 r.1
  ∧ dictApart r.2 r.1 ∧ Refs.objects r.2 = Refs.objects s.
Proof.
  unfold addIndividuals, Refs.addIndividuals, Refs.deref.
  generalize (Refs.arrayAt s ungrouped). intros refs. 
  assert (∀ s', Refs.objects s' = Refs.objects s → dictApart s' groups →
    let r := foldl (λ (acc : list (string * nat) * Refs.Store) guest,
                      let '(a, s') := Refs.newArray [guest] acc.2 in
                      (dictSet (individualKey (Refs.objectAt s' guest)) a acc.1, s'))
                   (groups, s') refs in
    foldl (λ acc guest, dictSet (individualKey guest) [guest] acc)
          (viewDict s' groups) (Refs.objectAt s <$> refs)
    = viewDict r.2 r.1
    ∧ dictApart r.2 r.1 ∧ Refs.objects r.2 = Refs.objects s) as Hgen.
  2:{ intros Hap. by apply Hgen. }
  revert groups. induction refs as [|guest refs IH]; intros groups s' Hobj Hap; [done|].
  set (a := length (Refs.arrays s')).
  set (s1 := (Refs.newArray [guest] s').2).
  match goal with
  | |- context [foldl ?f (groups, s') (guest :: refs)] =>
      change (foldl f (groups, s') (guest :: refs))
        with (foldl f (dictSet (individualKey (Refs.objectAt s' guest)) a groups, s1) refs)
  end.
  rewrite fmap_cons. cbn [foldl]. cbv zeta.
  destruct Hap as [Hnd Hal].
  assert (a ∉ groups.*2) as Hfresh.
  { intros Hin. rewrite Forall_forall in Hal. apply Hal in Hin.
    unfold allocated, a in Hin. lia. }
  destruct (groupLocs_dictSet (individualKey (Refs.objectAt s' guest)) a groups Hnd Hfresh)
    as [Hnd' Hin'].
  destruct (IH (dictSet (individualKey (Refs.objectAt s' guest)) a groups) s1)
    as (Hsim & Hap' & Hobj'); [done| |].
  { split; [done|]. apply Forall_forall. intros x Hx.
    unfold allocated, s1. rewrite length_newArray.
    apply Hin' in Hx as [->|Hx]; [unfold a; lia|].
    rewrite Forall_forall in Hal. apply Hal in Hx. unfold allocated in Hx. lia. }
  split_and!; [|done|done].
  rewrite <-Hsim. f_equal.
  rewrite viewDict_dictSet, (objectAt_objects _ _ Hobj). f_equal.
  - unfold s1, a. rewrite (deref_newArray_new [guest] s'). simpl.
    by rewrite (objectAt_objects _ _ Hobj).
  - symmetry. apply viewDict_same; [done|]. intros x Hx.
    apply arrayAt_newArray. apply allocated_fresh.
    rewrite Forall_forall in Hal. by apply Hal.
Qed.

Lemma objectEntries_fmap {V W} (view : V → W) (d : list (string * V)) :
  objectEntries ((λ e, (e.1, view e.2)) <$> d)
  = (λ e, (e.1, view e.2)) <$> objectEntries d.
Proof.
  unfold objectEntries. rewrite fmap_app. f_equal.
  - rewrite (filter_fmap_iff _ _ (λ e : string * V, is_Some (arrayIndex e.1))) by done.
    exact (jsSort_fmap (λ e : string * V, (e.1, view e.2))
             (λ a b, indexKey a - indexKey b) _).
  - by rewrite (filter_fmap_iff _ _ (λ e : string * V, ¬ is_Some (arrayIndex e.1))).
Qed.

Lemma sim_grouped guests s :
  allocated s guests →
  let r := Refs.grouped guests s in
  grouped (Refs.deref s guests) = Refs.viewGroup r.2 <$> r.1
  ∧ Forall (λ x, allocated r.2 (Refs.Group.guests x)) r.1
  ∧ Refs.objects r.2 = Refs.objects s.
Proof.
  intros Hal. unfold grouped, groupsOf, Refs.grouped.
  destruct (sim_collected guests s Hal) as (Hcollect & Hap & Hal' & Hobj).
  rewrite Hcollect.
  destruct (Refs.collected guests s) as [[groups ungrouped] s1]. cbn [fst snd] in *.
  destruct (sim_addIndividuals ungrouped groups s1 Hap) as (Hadd & Hap' & Hobj').
  rewrite Hadd.
  destruct (Refs.addIndividuals ungrouped groups s1) as [groups' s2]. cbn [fst snd] in *.
  split_and!; [| |by rewrite Hobj'].
  - unfold viewDict. rewrite objectEntries_fmap, <-!list_fmap_compose.
    apply list_fmap_ext. intros i e _. simpl.
    unfold Refs.viewGroup. simpl. f_equal. unfold Refs.deref. by rewrite length_fmap.
  - apply Forall_fmap. destruct Hap' as [_ Hall].
    apply Forall_forall. intros e He. simpl.
    rewrite Forall_forall in Hall. apply Hall.
    apply list_elem_of_fmap. exists e. split; [done|].
    by rewrite <-(objectEntries_perm groups').
Qed.
(** The loop that can throw goes the way of the one that cannot as
    long as no key is inherited, and throws at the first that is. *)
Lemma collectStep_thrown guests ungrouped error s l :
  foldl (Refs.collectStep guests ungrouped) (inl error, s) l = (inl error, s).
Proof. induction l as [|i l IH]; [done|exact IH]. Qed.

Lemma collectStep_own s guests ungrouped l acc i guest :
  collecting s guests ungrouped l acc → l !! i = Some guest →
  Refs.collectStep guests ungrouped (inr acc.1, acc.2) i
  = if decide (ownGroupKey (Refs.objectAt s guest))
    then let r := match groupKey (Refs.objectAt s guest) with
                  | Some key => Refs.pushed key guest acc.1 acc.2
                  | None => (acc.1, Refs.pushAll ungrouped [guest] acc.2)
                  end in (inr r.1, r.2)
    else (inl TypeError, acc.2).
Proof.
  intros (Hobj & Hinp & _) Hi. destruct acc as [groups s'].
  unfold Refs.collectStep. cbn [fst snd] in *.
  rewrite Hinp, Hi, (objectAt_objects _ _ Hobj).
  destruct (decide (ownGroupKey (Refs.objectAt s guest))) as [Hown|Hthrows];
    unfold ownGroupKey in *;
    destruct (groupKey (Refs.objectAt s guest)) as [key|]; try done;
    unfold Refs.groupsPush.
  - by rewrite decide_False.
  - rewrite decide_True; [done|]. by apply dec_stable.
Qed.

Lemma collectGroups_collected guests s :
  allocated s guests →
  let r := Refs.collectGroups guests s in
  let p := Refs.collected guests s in
  if decide (ownGroupKeys (Refs.deref s guests))
  then r = (inr p.1.1, p.1.2, p.2)
  else r.1.1 = inl TypeError.
Proof.
  intros Hal. unfold Refs.collectGroups, Refs.collected.
  set (ungrouped := length (Refs.arrays s)).
  set (s0 := (Refs.newArray [] s).2).
  change (Refs.newArray [] s) with (ungrouped, s0). cbv beta iota zeta.
  set (l := Refs.arrayAt s guests).
  assert (Refs.arrayAt s0 guests = l) as Hl.
  { apply arrayAt_newArray. by apply allocated_fresh. }
  rewrite Hl.
  set (step := λ (acc : list (string * nat) * Refs.Store) i,
                 match Refs.arrayAt acc.2 guests !! i with
                 | Some guest =>
                     match groupKey (Refs.objectAt acc.2 guest) with
                     | Some key => Refs.pushed key guest acc.1 acc.2
                     | None => (acc.1, Refs.pushAll ungrouped [guest] acc.2)
                     end
                 | None => acc
                 end).
  assert (∀ n j acc,
            (j + n = length l)%nat → collecting s guests ungrouped l acc →
            let rp := foldl step acc (seq j n) in
            let rf := foldl (Refs.collectStep guests ungrouped) (inr acc.1, acc.2)
                            (seq j n) in
            if decide (ownGroupKeys (Refs.objectAt s <$> drop j l))
            then rf = (inr rp.1, rp.2) else rf.1 = inl TypeError) as Hloop.
  { induction n as [|n IH]; intros j acc Hj Hacc.
    - rewrite drop_ge by lia. rewrite decide_True; [done|constructor].
    - destruct (lookup_lt_is_Some_2 l j) as [guest Hguest]; [lia|].
      rewrite (drop_S _ _ _ Hguest), fmap_cons. cbn [seq foldl].
      destruct (sim_collected_step s guests ungrouped l acc j guest Hacc Hguest)
        as [_ Hacc'].
      fold (step acc j) in Hacc'.
      specialize (IH (S j) (step acc j) ltac:(lia) Hacc'). cbv zeta in IH.
      rewrite (collectStep_own s guests ungrouped l acc j guest Hacc Hguest).
      assert (step acc j
              = match groupKey (Refs.objectAt s guest) with
                | Some key => Refs.pushed key guest acc.1 acc.2
                | None => (acc.1, Refs.pushAll ungrouped [guest] acc.2)
                end) as <-.
      { destruct Hacc as (Hobj & Hinp & _). unfold step.
        by rewrite Hinp, Hguest, (objectAt_objects _ _ Hobj). }
      cbv zeta.
      destruct (decide (ownGroupKey (Refs.objectAt s guest))) as [Hown|Hthrows].
      + destruct (decide (ownGroupKeys (Refs.objectAt s <$> drop (S j) l)))
          as [Hrest|Hrest].
        * rewrite decide_True by (by constructor). exact IH.
        * rewrite decide_False by (by intros [_ ?]%Forall_cons). exact IH.
      + rewrite collectStep_thrown.
        rewrite decide_False by (by intros [? _]%Forall_cons). done. }
  assert (collecting s guests ungrouped l ([], s0)) as Hstart.
  { unfold collecting. cbn [fst snd]. split_and!.
    - done.
    - exact Hl.
    - exact Hal.
    - unfold allocated, s0, ungrouped. rewrite length_newArray. lia.
    - split; [apply NoDup_nil_2|apply Forall_nil_2].
    - apply Forall_nil_2. }
  specialize (Hloop (length l) 0%nat ([], s0) eq_refl Hstart). cbv zeta in Hloop.
  rewrite drop_0 in Hloop. cbn [fst snd] in Hloop.
  destruct (foldl (Refs.collectStep guests ungrouped) (inr [], s0) (seq 0 (length l)))
    as [rf sf].
  destruct (foldl step ([], s0) (seq 0 (length l))) as [rp sp]. cbn [fst snd] in *.
  change (Refs.objectAt s <$> l) with (Refs.deref s guests) in Hloop.
  case_decide; [by injection Hloop as -> ->|done].
Qed.

(** The grouping over the store throws when the grouping of the first
    embedding does, and returns its groups when it returns. *)
Lemma sim_groupGuestsByRelationship guests s :
  allocated s guests →
  let r := Refs.groupGuestsByRelationship guests s in
  match r.1 with
  | inl error => groupGuestsByRelationship (Refs.deref s guests) = inl error
  | inr groups =>
      groupGuestsByRelationship (Refs.deref s guests) = inr (Refs.viewGroup r.2 <$> groups)
      ∧ Forall (λ x, allocated r.2 (Refs.Group.guests x)) groups
  end.
Proof.
  intros Hal. cbv zeta. rewrite groupGuestsByRelationship_spec.
  pose proof (collectGroups_collected guests s Hal) as Hcollect. cbv zeta in Hcollect.
  destruct (sim_grouped guests s Hal) as (Hgroup & Hal1 & _). revert Hgroup Hal1.
  unfold Refs.groupGuestsByRelationship, Refs.grouped.
  destruct (decide (ownGroupKeys (Refs.deref s guests))).
  - rewrite Hcollect.
    destruct (Refs.collected guests s) as [[groups ungrouped] s1]. cbn [fst snd].
    destruct (Refs.addIndividuals ungrouped groups s1) as [groups' s2]. cbn [fst snd].
    intros -> ?. done.
  - intros _ _.
    destruct (Refs.collectGroups guests s) as [[[error|groups] ungrouped] s1];
      cbn [fst snd] in *; [by destruct error|done].
Qed.
End GroupingAgreement.

(** ** The whole run *)

Lemma sim_classify names s (groups : list Refs.Group.t) :
  classify names <$> (Refs.viewGroup s <$> groups)
  = Refs.viewGroup s <$> (Refs.classify names s <$> groups).
Proof. rewrite <-!list_fmap_compose. by apply list_fmap_ext. Qed.

(** The run over the store computes the result of the first embedding on
    the guests the input array holds. *)
Lemma sim_seating originalGroups config s1 :
  Forall (λ x, allocated s1 (Refs.Group.guests x)) originalGroups →
  Refs.resultValue (Refs.seating originalGroups config s1)
  = seating (Refs.viewGroup s1 <$> originalGroups) config.
Proof.
  intros Hal1. unfold seating, Refs.seating.
  rewrite sim_classify.
  set (processedGroups := Refs.classify (knightTargetGroups config) s1 <$> originalGroups).
  destruct (sim_knightPhase (knightConfigOf config) processedGroups s1)
    as (Hknight & Hap2 & Hgr2 & Hobj2).
  { unfold processedGroups. apply Forall_fmap.
    eapply Forall_impl; [exact Hal1|]. by intros x Hx. }
  rewrite Hknight.
  destruct (Refs.knightPhase (knightConfigOf config) processedGroups s1)
    as [[[ta tableCounter] pool] s2]. cbn [fst snd] in *.
  destruct (sim_standardPhase (tableCapacityOf config) (Refs.Seating.mk ta tableCounter)
              pool s2 Hap2 Hgr2) as (Hstandard & Hap3 & Hobj3).
  unfold viewSeating at 1 in Hstandard.
  cbn [Refs.Seating.tableAssignments Refs.Seating.tableCounter] in Hstandard.
  rewrite Hstandard.
  destruct (Refs.standardPhase (tableCapacityOf config) (Refs.Seating.mk ta tableCounter)
              pool s2) as [st s3]. cbn [fst snd viewSeating Seating.tableAssignments] in *.
  destruct (sim_consolidate (Refs.Seating.tableAssignments st) s3 Hap3) as (Hmerge & Hobj4).
  rewrite Hmerge.
  destruct (Refs.consolidate (Refs.Seating.tableAssignments st) s3) as [ta' s4].
  cbn [fst snd] in *.
  unfold Refs.resultValue. cbn [fst snd].
  by rewrite sim_resultTable, sim_finalAssignment.
Qed.

Lemma sim_optimizeSeating guests config s :
  allocated s guests →
  Refs.viewResult (Refs.optimizeSeating guests config s)
  = optimizeSeating (Refs.deref s guests) config.
Proof.
  intros Hal. unfold optimizeSeating, Refs.optimizeSeating, Refs.viewResult.
  pose proof (sim_groupGuestsByRelationship guests s Hal) as Hgroup. cbv zeta in Hgroup.
  destruct (Refs.groupGuestsByRelationship guests s) as [[error|originalGroups] s1];
    cbn [fst snd] in *.
  - by rewrite Hgroup.
  - destruct Hgroup as [-> Hal1]. f_equal.
    rewrite <- (sim_seating originalGroups config s1 Hal1).
    by destruct (Refs.seating originalGroups config s1) as [[assignments tables] s4].
Qed.

(** C9. A call never writes its inputs.  Whatever the store holds when
    [optimizeSeating] is called, every Guest object is the same afterwards,
    with all its fields, the current table assignment among them, and so is
    every array that existed, the input array among them: the run pushes to
    and splices only arrays it made itself.  The input therefore reads the
    same before and after the call, and a second call on the same input
    array, made in the store the first one left, returns the same
    assignments and the same tables with the same guests. *)
Theorem inputs_are_not_mutated (s : Refs.Store) (guests : nat) (config : OptimizationConfig.t) :
  let s' := (Refs.optimizeSeating guests config s).2 in
  Refs.objects s' = Refs.objects s
  ∧ (∀ a, (a < length (Refs.arrays s))%nat → Refs.arrays s' !! a = Refs.arrays s !! a)
  ∧ ((guests < length (Refs.arrays s))%nat → Refs.deref s' guests = Refs.deref s guests)
  ∧ ((guests < length (Refs.arrays s))%nat →
     Refs.viewResult (Refs.optimizeSeating guests config s')
     = Refs.viewResult (Refs.optimizeSeating guests config s)).
Proof.
  intros s'.
  destruct (preserved_optimizeSeating (length (Refs.arrays s)) guests config s
              ltac:(done)) as (Hobjects & Hlen & Harrays).
  assert ((guests < length (Refs.arrays s))%nat →
          Refs.deref s' guests = Refs.deref s guests) as Hinput.
  { intros Hguests. unfold Refs.deref, Refs.arrayAt, Refs.objectAt.
    subst s'. rewrite (Harrays _ Hguests).
    apply list_fmap_ext. intros i r _. by rewrite Hobjects. }
  split_and!; [done..|].
  intros Hguests.
  rewrite !sim_optimizeSeating; [by rewrite Hinput|done|].
  unfold allocated. fold s' in Hlen. lia.
Qed.

(** X2. The run over the store is the function of the first embedding: for
    every store and every input array in it, the promise is settled as
    that of the first embedding is on the guests the array holds: rejected
    with the same error, or resolved with the same assignments and the
    same tables, read as values; when no push throws these are the ones
    [seatingResult] computes. *)
Theorem store_run_is_seatingResult (s : Refs.Store) (guests : nat)
    (config : OptimizationConfig.t) :
  allocated s guests →
  Refs.viewResult (Refs.optimizeSeating guests config s)
  = optimizeSeating (Refs.deref s guests) config
  ∧ (ownGroupKeys (Refs.deref s guests) →
     Refs.viewResult (Refs.optimizeSeating guests config s)
     = Resolved (seatingResult (Refs.deref s guests) config)).
Proof.
  intros Hinput. rewrite sim_optimizeSeating by done.
  split; [done|]. intros Hown. by rewrite optimizeSeating_spec, decide_True.
Qed.

Lemma store_run_is_seatingResult_witness :
  allocated sixFriendsStore 0
  ∧ ownGroupKeys (Refs.deref sixFriendsStore 0)
  ∧ Refs.viewResult (Refs.optimizeSeating 0 oneKnightTableOfFour sixFriendsStore)
    = optimizeSeating (Refs.deref sixFriendsStore 0) oneKnightTableOfFour
  ∧ Refs.viewResult (Refs.optimizeSeating 0 oneKnightTableOfFour sixFriendsStore)
    = Resolved (seatingResult (Refs.deref sixFriendsStore 0) oneKnightTableOfFour).
Proof.
  assert (allocated sixFriendsStore 0) as Hinput by (unfold allocated; simpl; lia).
  assert (ownGroupKeys (Refs.deref sixFriendsStore 0)) as Hown
    by (apply (bool_decide_unpack _); by vm_compute).
  destruct (store_run_is_seatingResult sixFriendsStore 0 oneKnightTableOfFour Hinput)
    as [Hsame Hresolved].
  split_and!; [exact Hinput|exact Hown|exact Hsame|exact (Hresolved Hown)].
Defined.

(** * Conservation, where it holds *)

Lemma dictSet_keys {V} (k k' : string) (v : V) d :
  k' ∈ (dictSet k v d).*1 → k' = k ∨ k' ∈ d.*1.
Proof.
  induction d as [|[k0 v0] d IH]; csimpl.
  - intros ->%list_elem_of_singleton. by left.
  - case_decide; csimpl; intros [->|Hin]%elem_of_cons.
    + by left.
    + right. by right.
    + right. left.
    + destruct (IH Hin) as [?|?]; [by left|right; by right].
Qed.

Lemma collected_origin guests :
  (∀ k, k ∈ (collected guests).1.*1 → ∃ g, g ∈ guests ∧ groupKey g = Some k)
  ∧ (∀ g, g ∈ (collected guests).2 → g ∈ guests ∧ groupKey g = None).
Proof.
  unfold collected.
  apply (foldl_invariant
    (λ acc : list (string * list Guest.t) * list Guest.t,
       (∀ k, k ∈ acc.1.*1 → ∃ g, g ∈ guests ∧ groupKey g = Some k)
       ∧ (∀ g, g ∈ acc.2 → g ∈ guests ∧ groupKey g = None))).
  - split; [by intros k ?%elem_of_nil|by intros g ?%elem_of_nil].
  - intros [groups ungrouped] guest Hguest [Hkeys Hothers]. simpl in *.
    destruct (groupKey guest) as [key|] eqn:Hkey; simpl; split; try done.
    + intros k Hk. unfold pushed in Hk.
      destruct (dictGet key groups); apply dictSet_keys in Hk as [->|?]; eauto.
    + intros g [?| ->%list_elem_of_singleton]%elem_of_app; auto.
Qed.

Lemma individualKey_NoDup l : distinctIds l → NoDup (individualKey <$> l).
Proof.
  unfold distinctIds. intros Hids.
  assert (individualKey <$> l = String.app "individual-" <$> (Guest.id <$> l)) as ->
    by (by rewrite <- list_fmap_compose).
  by apply (NoDup_fmap_2 _).
Qed.

Lemma addIndividuals_exact ungrouped groups :
  NoDup (individualKey <$> ungrouped) →
  (∀ g, g ∈ ungrouped → individualKey g ∉ groups.*1) →
  dictGuests (addIndividuals ungrouped groups) ≡ₚ dictGuests groups ++ ungrouped.
Proof.
  unfold addIndividuals. revert groups.
  induction ungrouped as [|g ungrouped IH]; intros groups Hnd Hfresh; csimpl in *.
  - by rewrite app_nil_r.
  - apply NoDup_cons in Hnd as [Hg Hnd].
    rewrite IH; [|done|].
    + rewrite dictSet_guests_fresh by (apply Hfresh; left).
      by rewrite <- (assoc (++)).
    + intros g' Hg' [Heq|Hin]%dictSet_keys.
      * apply Hg. rewrite <- Heq. by apply list_elem_of_fmap_2.
      * revert Hin. apply Hfresh. by right.
Qed.

Lemma grouped_exact guests :
  distinctIds guests → noKeyCollision guests →
  poolGuests (grouped guests) ≡ₚ guests.
Proof.
  intros Hids Hfree. unfold grouped, groupsOf, poolGuests.
  pose proof (collected_guests guests) as Hcollect.
  pose proof (collected_origin guests) as [Hkeys Hothers].
  destruct (collected guests) as [groups ungrouped]. simpl in *.
  assert (dictGuests (addIndividuals ungrouped groups) ≡ₚ guests) as Hadd.
  { rewrite addIndividuals_exact; [done| |].
    - apply individualKey_NoDup. eapply distinctIds_sub; [|exact Hids].
      rewrite <- Hcollect. by apply submseteq_inserts_l.
    - intros g' Hg' Hin. destruct (Hothers _ Hg') as [Hin' Hnone].
      destruct (Hkeys _ Hin) as (g & Hg & Hkey).
      by apply (Hfree g g' _ Hg Hin' Hkey Hnone). }
  rewrite <- Hadd. unfold dictGuests.
  rewrite <- (objectEntries_perm (addIndividuals _ _)) at 2.
  generalize (objectEntries (addIndividuals ungrouped groups)).
  induction l as [|e l IH]; csimpl; [done|]. by rewrite IH.
Qed.

Lemma knightPhase_off knightConfig processedGroups :
  ¬ (KnightConfig.enabled knightConfig = true ∧ 0 < KnightConfig.count knightConfig) →
  knightPhase knightConfig processedGroups = ([], 0%nat, processedGroups).
Proof.
  intros Hoff. unfold knightPhase.
  destruct (KnightConfig.enabled knightConfig && (0 <? KnightConfig.count knightConfig))
    eqn:Hon; [|done].
  apply andb_true_iff in Hon as [? ?%Z.ltb_lt]. by destruct Hoff.
Qed.

(** X1. Conservation holds on every run that leaves the knight phase out.
    For guests with distinct ids whose group ids are ASCII text and whose
    group keys are no property that objects inherit and do not collide with
    the keys made up for ungrouped guests, the promise resolves, the
    members of the output tables are the input guests, each exactly once,
    and the seated sizes add up to the input's. *)
Theorem conservation_without_knights guests config :
  distinctIds guests → asciiGroupIds guests → ownGroupKeys guests →
  noKeyCollision guests → ¬ knightPhaseOn config →
  optimizeSeating guests config = Resolved (seatingResult guests config)
  ∧ seated (afterMerge guests config) ≡ₚ guests
  ∧ distinctIds (seated (afterMerge guests config))
  ∧ getGuestsSize (seated (afterMerge guests config)) = getGuestsSize guests.
Proof.
  intros Hids _ Hown Hfree Hoff.
  assert (seated (afterMerge guests config) ≡ₚ guests) as Hperm.
  { unfold afterMerge.
    destruct (seated_afterStandard guests config Hids) as [Hwf _].
    rewrite (consolidate_seated _ _ Hwf).
    unfold afterStandard, afterKnights.
    rewrite (knightPhase_off _ _ Hoff).
    destruct (standardPhase_seated (tableCapacityOf config) (Seating.mk [] 0)
                (classifiedGroups guests config)) as [_ Hseated].
    - split; [apply NoDup_nil_2|by intros k ?%elem_of_nil].
    - by apply (classifiedGroups_Q distinctIds distinctIds_sub).
    - rewrite Hseated. simpl. unfold classifiedGroups.
      rewrite poolGuests_classify. by apply grouped_exact. }
  split_and!; [|done| |by apply getGuestsSize_perm].
  - by rewrite optimizeSeating_spec, decide_True.
  - eapply distinctIds_sub; [|exact Hids]. by rewrite Hperm.
Qed.

Lemma conservation_without_knights_witness :
  distinctIds threeSingles ∧ asciiGroupIds threeSingles ∧ ownGroupKeys threeSingles
  ∧ noKeyCollision threeSingles ∧ ¬ knightPhaseOn (configOf 2 None None)
  ∧ optimizeSeating threeSingles (configOf 2 None None)
    = Resolved (seatingResult threeSingles (configOf 2 None None))
  ∧ seated (afterMerge threeSingles (configOf 2 None None)) ≡ₚ threeSingles
  ∧ distinctIds (seated (afterMerge threeSingles (configOf 2 None None)))
  ∧ getGuestsSize (seated (afterMerge threeSingles (configOf 2 None None)))
    = getGuestsSize threeSingles.
Proof.
  assert (distinctIds threeSingles) as Hids
    by (unfold distinctIds; apply (bool_decide_unpack _); by vm_compute).
  assert (asciiGroupIds threeSingles) as Hascii by (by repeat constructor).
  assert (ownGroupKeys threeSingles) as Hown by (by repeat constructor).
  assert (noKeyCollision threeSingles) as Hfree.
  { intros g g' key Hg _ Hkey. exfalso.
    repeat (apply elem_of_cons in Hg as [->|Hg]; [discriminate Hkey|]).
    by apply elem_of_nil in Hg. }
  assert (¬ knightPhaseOn (configOf 2 None None)) as Hoff
    by (intros [Hen _]; discriminate Hen).
  split_and!; [exact Hids|exact Hascii|exact Hown|exact Hfree|exact Hoff|..];
    apply (conservation_without_knights threeSingles (configOf 2 None None)
             Hids Hascii Hown Hfree Hoff).
Defined.

(** The members of the returned tables are the guests seated after the
    merge pass. *)
Lemma resultTables_guests ta :
  (resultTable <$> ta) ≫= OptimizedTable.guests = seated ta.
Proof.
  unfold seated. induction ta as [|[i t] ta IH]; [done|].
  rewrite fmap_cons, !bind_cons, IH. done.
Qed.

(** X5. The half of conservation that holds on every run: for guests with
    distinct ids and any configuration, the members of the returned tables
    are input guests and no guest is seated twice, neither at two tables
    nor twice at one. *)
Theorem nobody_is_seated_twice guests config :
  distinctIds guests →
  let members :=
    OptimizationResult.tables (seatingResult guests config) ≫= OptimizedTable.guests in
  members ⊆+ guests ∧ distinctIds members.
Proof.
  intros Hids members. subst members.
  cbn [seatingResult OptimizationResult.tables]. rewrite resultTables_guests.
  pose proof (seated_afterMerge guests config Hids) as Hsub.
  split; [done|]. by eapply distinctIds_sub.
Qed.

Lemma nobody_is_seated_twice_witness :
  distinctIds sixFriends
  ∧ OptimizationResult.tables (seatingResult sixFriends oneKnightTableOfFour)
      ≫= OptimizedTable.guests ⊆+ sixFriends
  ∧ distinctIds (OptimizationResult.tables (seatingResult sixFriends oneKnightTableOfFour)
                   ≫= OptimizedTable.guests).
Proof.
  assert (distinctIds sixFriends) as Hids
    by (unfold distinctIds; apply (bool_decide_unpack _); by vm_compute).
  split; [exact Hids|].
  apply (nobody_is_seated_twice sixFriends oneKnightTableOfFour Hids).
Defined.

(** * The loops end by themselves

    Every turn of a [while (guestsToSeat.length > 0)] loop that does not
    leave the loop takes at least one member out, so the number of members
    bounds the number of turns: any larger fuel gives the same result. *)

Lemma knightSeat_fuel fuel fuel' count group ta processedGroups guestsToSeat :
  (length guestsToSeat ≤ fuel)%nat → (length guestsToSeat ≤ fuel')%nat →
  knightSeat fuel count group ta processedGroups guestsToSeat
  = knightSeat fuel' count group ta processedGroups guestsToSeat.
Proof.
  revert fuel' ta guestsToSeat.
  induction fuel as [|fuel IH]; intros fuel' ta gts Hlen Hlen'.
  { destruct gts; [|simpl in Hlen; lia]. by destruct fuel'. }
  destruct gts as [|g0 rest]; [by destruct fuel'|].
  destruct fuel' as [|fuel']; [simpl in Hlen'; lia|].
  rewrite !knightSeat_unfold. cbv zeta.
  destruct (knightBest count ta) as [[k|] m]; [|done].
  destruct (0 <? m); [|done].
  destruct (fitChunk m (g0 :: rest)) as [|g1 chunk] eqn:Hchunk; [done|].
  pose proof (removeChunk_shorter (g1 :: chunk) (g0 :: rest) ltac:(done)) as Hshort.
  rewrite <- Hchunk in Hshort. specialize (Hshort (fitChunk_sublist _ _)).
  rewrite Hchunk in Hshort.
  apply IH; lia.
Qed.

Lemma standardSeat_fuel fuel fuel' tableCapacity group st guestsToSeat groupSize :
  (length guestsToSeat ≤ fuel)%nat → (length guestsToSeat ≤ fuel')%nat →
  standardSeat fuel tableCapacity group st guestsToSeat groupSize
  = standardSeat fuel' tableCapacity group st guestsToSeat groupSize.
Proof.
  revert fuel' st guestsToSeat groupSize.
  induction fuel as [|fuel IH]; intros fuel' st gts groupSize Hlen Hlen'.
  { destruct gts; [|simpl in Hlen; lia]. by destruct fuel'. }
  destruct gts as [|g0 rest]; [by destruct fuel'|].
  destruct fuel' as [|fuel']; [simpl in Hlen'; lia|].
  rewrite !standardSeat_unfold. cbv zeta.
  destruct (bestFit group groupSize _) as [k|]; [done|].
  destruct (groupSize <=? tableCapacity); [done|].
  destruct (partialTarget group _ (g0 :: rest)) as [[k chunk]|] eqn:Hpart.
  { apply partialTarget_spec in Hpart as (t & _ & _ & _ & _ & -> & Hne).
    pose proof (removeChunk_shorter _ (g0 :: rest) Hne (fitChunk_sublist _ _)).
    apply IH; lia. }
  unfold splitIntoNewTable. rewrite newTableChunk_cons.
  pose proof (removeChunk_shorter (g0 :: firstFit tableCapacity (gSize g0) rest)
                (g0 :: rest) ltac:(done)
                ltac:(apply sublist_skip, firstFit_sublist)).
  apply IH; lia.
Qed.

(** ** The loops turn by turn *)

Lemma knightSeat_turn fuel count group ta processedGroups g guestsToSeat :
  knightSeat (S fuel) count group ta processedGroups (g :: guestsToSeat)
  = match knightTurn count group ta processedGroups (g :: guestsToSeat) with
    | Break state => state
    | Continue (ta', processedGroups') rest =>
        knightSeat fuel count group ta' processedGroups' rest
    end.
Proof.
  unfold knightTurn. cbn [knightSeat].
  destruct (knightBest count ta) as [[bestTableId|] maxSpace]; [|done].
  destruct (0 <? maxSpace); [|done].
  by destruct (fitChunk maxSpace (g :: guestsToSeat)).
Qed.

Lemma knightTurn_shorter count group ta processedGroups guestsToSeat ta' processedGroups' rest :
  knightTurn count group ta processedGroups guestsToSeat
  = Continue (ta', processedGroups') rest →
  (length rest < length guestsToSeat)%nat ∧ processedGroups' = processedGroups.
Proof.
  unfold knightTurn.
  destruct (knightBest count ta) as [[bestTableId|] maxSpace]; [|done].
  destruct (0 <? maxSpace); [|done].
  destruct (fitChunk maxSpace guestsToSeat) as [|c chunk] eqn:Hchunk; [done|].
  intros [= _ <- <-]. split; [|done].
  apply (removeChunk_shorter (c :: chunk) guestsToSeat); [done|].
  rewrite <- Hchunk. apply fitChunk_sublist.
Qed.

Lemma knightSeat_loop fuel count group ta processedGroups guestsToSeat :
  (length guestsToSeat ≤ fuel)%nat →
  knightLoop count group ta processedGroups guestsToSeat
    (knightSeat fuel count group ta processedGroups guestsToSeat).
Proof.
  revert ta processedGroups guestsToSeat.
  induction fuel as [|fuel IH]; intros ta processedGroups [|g guestsToSeat] Hfuel;
    [constructor|simpl in Hfuel; lia|constructor|].
  rewrite knightSeat_turn.
  destruct (knightTurn count group ta processedGroups (g :: guestsToSeat))
    as [state|[ta' processedGroups'] rest] eqn:Hturn.
  - by apply knightLoop_break.
  - eapply knightLoop_continue; [exact Hturn|].
    apply knightTurn_shorter in Hturn as [Hshorter _].
    apply IH. simpl in *. lia.
Qed.

Lemma standardSeat_end fuel tableCapacity group st groupSize :
  standardSeat fuel tableCapacity group st [] groupSize = st.
Proof. by destruct fuel. Qed.

Lemma standardSeat_turn fuel tableCapacity group st g guestsToSeat groupSize :
  standardSeat (S fuel) tableCapacity group st (g :: guestsToSeat) groupSize
  = match standardTurn tableCapacity group st (g :: guestsToSeat) groupSize with
    | Break st' => st'
    | Continue st' rest =>
        standardSeat fuel tableCapacity group st' rest (getGuestsSize rest)
    end.
Proof.
  unfold standardTurn. cbn [standardSeat]. cbv zeta.
  destruct (bestFit group groupSize _); [by rewrite standardSeat_end|].
  destruct (groupSize <=? tableCapacity); [by rewrite standardSeat_end|].
  destruct (partialTarget group _ (g :: guestsToSeat)) as [[k chunk]|]; [done|].
  by destruct (splitIntoNewTable tableCapacity group st (g :: guestsToSeat)) as [st' [rest|]].
Qed.

Lemma standardTurn_shorter tableCapacity group st g guestsToSeat groupSize st' rest :
  standardTurn tableCapacity group st (g :: guestsToSeat) groupSize = Continue st' rest →
  (length rest < length (g :: guestsToSeat))%nat.
Proof.
  unfold standardTurn. cbv zeta.
  destruct (bestFit group groupSize _); [intros [= <- <-]; simpl; lia|].
  destruct (groupSize <=? tableCapacity); [intros [= <- <-]; simpl; lia|].
  destruct (partialTarget group _ (g :: guestsToSeat)) as [[k chunk]|] eqn:Hpart.
  { apply partialTarget_spec in Hpart as (t & _ & _ & _ & _ & -> & Hne).
    intros [= <- <-].
    apply (removeChunk_shorter _ (g :: guestsToSeat)); [done|apply fitChunk_sublist]. }
  unfold splitIntoNewTable. rewrite newTableChunk_cons.
  intros [= <- <-].
  apply (removeChunk_shorter (g :: firstFit tableCapacity (gSize g) guestsToSeat)
           (g :: guestsToSeat)); [done|].
  apply sublist_skip, firstFit_sublist.
Qed.

Lemma standardTurn_no_break tableCapacity group st g guestsToSeat groupSize st' :
  standardTurn tableCapacity group st (g :: guestsToSeat) groupSize ≠ Break st'.
Proof.
  unfold standardTurn. cbv zeta.
  destruct (bestFit group groupSize _); [done|].
  destruct (groupSize <=? tableCapacity); [done|].
  destruct (partialTarget group _ (g :: guestsToSeat)) as [[k chunk]|]; [done|].
  unfold splitIntoNewTable. by rewrite newTableChunk_cons.
Qed.

Lemma standardSeat_loop fuel tableCapacity group st guestsToSeat groupSize :
  (length guestsToSeat ≤ fuel)%nat →
  standardLoop tableCapacity group st guestsToSeat groupSize
    (standardSeat fuel tableCapacity group st guestsToSeat groupSize).
Proof.
  revert st guestsToSeat groupSize.
  induction fuel as [|fuel IH]; intros st [|g guestsToSeat] groupSize Hfuel;
    [constructor|simpl in Hfuel; lia|constructor|].
  rewrite standardSeat_turn.
  destruct (standardTurn tableCapacity group st (g :: guestsToSeat) groupSize)
    as [st'|st' rest] eqn:Hturn.
  - by apply standardLoop_break.
  - eapply standardLoop_continue; [exact Hturn|].
    apply standardTurn_shorter in Hturn.
    apply IH. simpl in *. lia.
Qed.

(** The loops are deterministic. *)
Lemma knightLoop_det count group ta processedGroups guestsToSeat state state' :
  knightLoop count group ta processedGroups guestsToSeat state →
  knightLoop count group ta processedGroups guestsToSeat state' →
  state = state'.
Proof.
  intros Hloop. revert state'.
  induction Hloop as [| |???????? Hturn _ IH]; intros state' Hloop'; inversion Hloop';
    subst; try congruence.
  apply IH. congruence.
Qed.

Lemma standardLoop_det tableCapacity group st guestsToSeat groupSize st1 st2 :
  standardLoop tableCapacity group st guestsToSeat groupSize st1 →
  standardLoop tableCapacity group st guestsToSeat groupSize st2 →
  st1 = st2.
Proof.
  intros Hloop. revert st2.
  induction Hloop as [| |??????? Hturn _ IH]; intros st2 Hloop'; inversion Hloop';
    subst; try congruence.
  apply IH. congruence.
Qed.

(** X3. Both seating loops end by themselves.  A turn of the knight loop or
    of the standard loop that does not leave by [break] hands the loop
    condition a [guestsToSeat] strictly shorter than the one it started
    with, and the standard loop never takes its [break].  So the loop,
    taken turn by turn without any bound, ends, and with at least as much
    fuel as [guestsToSeat] has members its one and only result is what
    [knightSeat] and [standardSeat] compute: the fuel the embedding gives
    them, the number of members of the group, never cuts a loop short. *)
Theorem loops_end_within_the_members (guestsToSeat : list Guest.t) :
  (∀ count group ta processedGroups,
     (∀ ta' processedGroups' rest,
        guestsToSeat ≠ [] →
        knightTurn count group ta processedGroups guestsToSeat
        = Continue (ta', processedGroups') rest →
        (length rest < length guestsToSeat)%nat)
     ∧ ∀ fuel state,
         (length guestsToSeat ≤ fuel)%nat →
         knightLoop count group ta processedGroups guestsToSeat state
         ↔ state = knightSeat fuel count group ta processedGroups guestsToSeat)
  ∧ (∀ tableCapacity group st groupSize,
       (∀ st' rest,
          guestsToSeat ≠ [] →
          standardTurn tableCapacity group st guestsToSeat groupSize = Continue st' rest →
          (length rest < length guestsToSeat)%nat)
       ∧ (∀ st',
            guestsToSeat ≠ [] →
            standardTurn tableCapacity group st guestsToSeat groupSize ≠ Break st')
       ∧ ∀ fuel st',
           (length guestsToSeat ≤ fuel)%nat →
           standardLoop tableCapacity group st guestsToSeat groupSize st'
           ↔ st' = standardSeat fuel tableCapacity group st guestsToSeat groupSize).
Proof.
  split.
  - intros count group ta processedGroups. split.
    + intros ta' processedGroups' rest _ Hturn.
      by apply knightTurn_shorter in Hturn as [? _].
    + intros fuel state Hfuel.
      pose proof (knightSeat_loop fuel count group ta processedGroups guestsToSeat Hfuel)
        as Hloop.
      split; [|by intros ->]. intros Hloop'. by eapply knightLoop_det.
  - intros tableCapacity group st groupSize. split_and!.
    + intros st' rest Hne Hturn. destruct guestsToSeat as [|g guestsToSeat]; [done|].
      by apply standardTurn_shorter in Hturn.
    + intros st' Hne. destruct guestsToSeat as [|g guestsToSeat]; [done|].
      apply standardTurn_no_break.
    + intros fuel st' Hfuel.
      pose proof (standardSeat_loop fuel tableCapacity group st guestsToSeat groupSize Hfuel)
        as Hloop.
      split; [|by intros ->]. intros Hloop'. by eapply standardLoop_det.
Qed.

Lemma loops_end_within_the_members_witness :
  let group := GuestGroup.mk "fam" threeTwoOne 6 groom family false in
  let st := Seating.mk [] 0 in
  threeTwoOne ≠ [] ∧ (length threeTwoOne ≤ 3)%nat
  ∧ ∃ st' rest,
      standardTurn 4 group st threeTwoOne 6 = Continue st' rest
      ∧ Guest.id <$> rest = ["c"]
      ∧ (length rest < length threeTwoOne)%nat
      ∧ standardLoop 4 group st threeTwoOne 6 (standardSeat 3 4 group st threeTwoOne 6).
Proof.
  intros group st.
  assert (threeTwoOne ≠ []) as Hne by done.
  assert (length threeTwoOne ≤ 3)%nat as Hfuel by (simpl; lia).
  destruct (loops_end_within_the_members threeTwoOne) as [_ Hstandard].
  destruct (Hstandard 4 group st 6) as (Hshorter & _ & Hloop).
  split_and!; [exact Hne|exact Hfuel|].
  eexists _, _. split; [by vm_compute|].
  split; [by vm_compute|].
  split; [eapply Hshorter; [exact Hne|by vm_compute]|].
  by apply (Hloop 3%nat _ Hfuel).
Defined.

(** * The seating store *)

(** ** Lookups, and maps that keep ids *)

Section StoreFacts.
Implicit Types (st : SeatingStore.State) (g : SeatingStore.StoredGuest.t) (t :
    SeatingStore.Table.t).

Lemma NoDup_fmap_inj {A B} (f : A → B) (l : list A) x y :
  NoDup (f <$> l) → x ∈ l → y ∈ l → f x = f y → x = y.
Proof.
  intros Hnd [i Hi]%list_elem_of_lookup [j Hj]%list_elem_of_lookup Hxy.
  assert (i = j) as ->.
  { eapply NoDup_lookup; [exact Hnd| |].
    - by rewrite list_lookup_fmap, Hi.
    - rewrite list_lookup_fmap, Hj. simpl. by rewrite Hxy. }
  congruence.
Qed.

Lemma findGuest_Some guestId st g :
  SeatingStore.findGuest guestId st = Some g → g ∈ SeatingStore.guests st ∧ SeatingStore.idOf g
      = guestId.
Proof.
  unfold SeatingStore.findGuest. intros Hhead.
  apply head_Some_elem_of, list_elem_of_filter in Hhead. tauto.
Qed.

Lemma findGuest_None guestId st g :
  SeatingStore.findGuest guestId st = None → g ∈ SeatingStore.guests st → SeatingStore.idOf g ≠
      guestId.
Proof.
  unfold SeatingStore.findGuest. intros Hhead%head_None Hg Hid.
  assert (g ∈ filter (λ g, SeatingStore.idOf g = guestId) (SeatingStore.guests st)) as Hin
    by by apply list_elem_of_filter.
  rewrite Hhead in Hin. by apply elem_of_nil in Hin.
Qed.

Lemma findTable_Some tableId st t :
  SeatingStore.findTable tableId st = Some t → t ∈ SeatingStore.tables st ∧
      SeatingStore.Table.id t = tableId.
Proof.
  unfold SeatingStore.findTable. intros Hhead.
  apply head_Some_elem_of, list_elem_of_filter in Hhead. tauto.
Qed.

Lemma findTable_None tableId st t :
  SeatingStore.findTable tableId st = None → t ∈ SeatingStore.tables st → SeatingStore.Table.id
      t ≠ tableId.
Proof.
  unfold SeatingStore.findTable. intros Hhead%head_None Ht Hid.
  assert (t ∈ filter (λ t, SeatingStore.Table.id t = tableId) (SeatingStore.tables st)) as Hin
    by by apply list_elem_of_filter.
  rewrite Hhead in Hin. by apply elem_of_nil in Hin.
Qed.

Lemma idOf_setTableId x g : SeatingStore.idOf (SeatingStore.setTableId x g) = SeatingStore.idOf g.
Proof. done. Qed.

Lemma tableIdOf_setTableId x g : SeatingStore.tableIdOf (SeatingStore.setTableId x g) = x.
Proof. done. Qed.

Lemma setTableId_same g : SeatingStore.setTableId (SeatingStore.tableIdOf g) g = g.
Proof. by destruct g as [[]]. Qed.

(** Maps that keep ids. *)
Lemma ids_fmap {A B} (key : A → B) (f : A → A) (l : list A) :
  (∀ x, key (f x) = key x) → key <$> (f <$> l) = key <$> l.
Proof. intros Hf. rewrite <-list_fmap_compose. apply list_fmap_ext. intros ???. apply Hf. Qed.

Lemma NoDup_ids_filter {A B} (key : A → B) (P : A → Prop) `{!∀ x, Decision (P x)} (l : list A) :
  NoDup (key <$> l) → NoDup (key <$> filter P l).
Proof.
  intros Hnd. eapply sublist_NoDup; [exact Hnd|].
  apply fmap_sublist, sublist_filter.
Qed.

(** A guest whose [tableId] is set has a truthy one. *)
Lemma consistent_truthy st g :
  consistent st → g ∈ SeatingStore.guests st →
  truthy (SeatingStore.tableIdOf g) = false → SeatingStore.tableIdOf g = None.
Proof.
  intros (_ & _ & Hne & Hgt & _) Hg Hfalsy.
  destruct (SeatingStore.tableIdOf g) as [tableId|] eqn:Htid; [|done].
  destruct (Hgt g tableId Hg Htid) as (t & Ht & Hid & _).
  rewrite Forall_forall in Hne. specialize (Hne t Ht).
  simpl in Hfalsy. apply bool_decide_eq_false in Hfalsy.
  exfalso. apply Hfalsy. by rewrite <-Hid.
Qed.

Lemma consistent_unassignGuest guestId st :
  consistent st → consistent (SeatingStore.unassignGuest guestId st).
Proof.
  intros Hst. unfold SeatingStore.unassignGuest.
  destruct (SeatingStore.findGuest guestId st) as [guest|] eqn:Hfind; [|done].
  destruct (truthy (SeatingStore.tableIdOf guest)) eqn:Htruthy; [|done].
  apply findGuest_Some in Hfind as [Hguest Hid].
  destruct Hst as (Hg & Ht & Hne & Hgt & Htg & Hnd).
  split_and!; cbn [SeatingStore.guests SeatingStore.tables].
  - rewrite ids_fmap; [done|]. intros g. by case_decide.
  - rewrite ids_fmap; [done|]. intros t. by case_decide.
  - apply Forall_fmap. eapply Forall_impl; [exact Hne|]. intros t Hid'. simpl.
    by case_decide.
  - intros g' tableId [g [-> Hing]]%list_elem_of_fmap Htid.
    case_decide as Hgid; [done|].
    destruct (Hgt g tableId Hing Htid) as (t & Hint & Htid' & Hin).
    eexists. split; [apply list_elem_of_fmap; exists t; split; [done|exact Hint]|].
    case_decide; simpl; [|done]. split; [done|].
    apply list_elem_of_filter. done.
  - intros t' guestId' [t [-> Hint]]%list_elem_of_fmap Hin.
    assert (guestId' ∈ SeatingStore.Table.assignedGuests t ∧
            (Some (SeatingStore.Table.id t) = SeatingStore.tableIdOf guest → guestId' ≠ guestId))
      as [Hin' Hne'].
    { case_decide; simpl in Hin.
      - apply list_elem_of_filter in Hin as [? ?]. done.
      - done. }
    destruct (Htg t guestId' Hint Hin') as (g & Hing & Hgid & Htid).
    assert (SeatingStore.Table.id (if decide (Some (SeatingStore.Table.id t) =
        SeatingStore.tableIdOf guest)
                            then SeatingStore.setAssignedGuests
                                   (filter (λ id, id ≠ guestId)
                                       (SeatingStore.Table.assignedGuests t)) t
                            else t) = SeatingStore.Table.id t) as -> by by case_decide.
    exists g. split; [|done].
    apply list_elem_of_fmap. exists g. split; [|done].
    rewrite decide_False; [done|]. intros Hgid'.
    assert (g = guest) as ->.
    { apply (NoDup_fmap_inj SeatingStore.idOf (SeatingStore.guests st)); [done..|congruence]. }
    apply Hne'; [done|congruence].
  - apply Forall_fmap. eapply Forall_impl; [exact Hnd|]. intros t Hnd'. simpl.
    case_decide; [|done]. simpl. by apply NoDup_filter.
Qed.

(** After [unassignGuest] the guest has no table. *)
Lemma unassignGuest_unseated guestId st g :
  consistent st → g ∈ SeatingStore.guests (SeatingStore.unassignGuest guestId st) →
  SeatingStore.idOf g = guestId → SeatingStore.tableIdOf g = None.
Proof.
  intros Hst. unfold SeatingStore.unassignGuest.
  destruct (SeatingStore.findGuest guestId st) as [guest|] eqn:Hfind.
  - destruct (truthy (SeatingStore.tableIdOf guest)) eqn:Htruthy.
    + cbn [SeatingStore.guests]. intros [g0 [-> Hg0]]%list_elem_of_fmap Hid.
      case_decide; [done|]. done.
    + intros Hg Hid. apply findGuest_Some in Hfind as [Hguest Hid'].
      assert (g = guest) as ->.
      { destruct Hst as (Hnd & _).
        apply (NoDup_fmap_inj SeatingStore.idOf (SeatingStore.guests st)); [done..|congruence]. }
      by apply (consistent_truthy st).
  - intros Hg Hid. by apply (findGuest_None _ _ _ Hfind) in Hg.
Qed.

Lemma unassignGuest_ids guestId st :
  SeatingStore.idOf <$> SeatingStore.guests (SeatingStore.unassignGuest guestId st) =
      SeatingStore.idOf <$> SeatingStore.guests st
  ∧ SeatingStore.Table.id <$> SeatingStore.tables (SeatingStore.unassignGuest guestId st)
    = SeatingStore.Table.id <$> SeatingStore.tables st.
Proof.
  unfold SeatingStore.unassignGuest.
  destruct (SeatingStore.findGuest guestId st) as [guest|]; [|done].
  destruct (truthy (SeatingStore.tableIdOf guest)); [|done].
  cbn [SeatingStore.guests SeatingStore.tables]. split.
  - apply ids_fmap. intros g. by case_decide.
  - apply ids_fmap. intros t. by case_decide.
Qed.

Lemma guests_with_id guestId st st' g :
  SeatingStore.idOf <$> SeatingStore.guests st' = SeatingStore.idOf <$> SeatingStore.guests st →
  g ∈ SeatingStore.guests st → SeatingStore.idOf g = guestId →
  ∃ g', g' ∈ SeatingStore.guests st' ∧ SeatingStore.idOf g' = guestId.
Proof.
  intros Hids Hg Hid.
  assert (guestId ∈ SeatingStore.idOf <$> SeatingStore.guests st') as Hin.
  { rewrite Hids. apply list_elem_of_fmap. by exists g. }
  apply list_elem_of_fmap in Hin as (g' & ? & ?). by exists g'.
Qed.

Lemma tables_with_id tableId st st' t :
  SeatingStore.Table.id <$> SeatingStore.tables st' = SeatingStore.Table.id <$>
      SeatingStore.tables st →
  t ∈ SeatingStore.tables st → SeatingStore.Table.id t = tableId →
  ∃ t', t' ∈ SeatingStore.tables st' ∧ SeatingStore.Table.id t' = tableId.
Proof.
  intros Hids Ht Hid.
  assert (tableId ∈ SeatingStore.Table.id <$> SeatingStore.tables st') as Hin.
  { rewrite Hids. apply list_elem_of_fmap. by exists t. }
  apply list_elem_of_fmap in Hin as (t' & ? & ?). by exists t'.
Qed.

(** The last step of [assignGuestToTable], on a state where the guest
    has no table. *)
Lemma consistent_seat guestId tableId st :
  consistent st →
  (∀ g, g ∈ SeatingStore.guests st → SeatingStore.idOf g = guestId → SeatingStore.tableIdOf g =
      None) →
  (∃ g, g ∈ SeatingStore.guests st ∧ SeatingStore.idOf g = guestId) →
  (∃ t, t ∈ SeatingStore.tables st ∧ SeatingStore.Table.id t = tableId) →
  consistent
    (SeatingStore.mkState
       ((λ g, if decide (SeatingStore.idOf g = guestId)
              then SeatingStore.setTableId (Some tableId) g else g) <$> SeatingStore.guests st)
       ((λ t, if decide (SeatingStore.Table.id t = tableId)
              then SeatingStore.setAssignedGuests (SeatingStore.Table.assignedGuests t ++
                  [guestId]) t
              else t) <$> SeatingStore.tables st)
       (SeatingStore.conflicts st) (SeatingStore.groups st)).
Proof.
  intros (Hg & Ht & Hne & Hgt & Htg & Hnd) Hfree (guest & Hguest & Hgid) (table & Htable & Htid).
  split_and!; cbn [SeatingStore.guests SeatingStore.tables].
  - rewrite ids_fmap; [done|]. intros g. by case_decide.
  - rewrite ids_fmap; [done|]. intros t. by case_decide.
  - apply Forall_fmap. eapply Forall_impl; [exact Hne|]. intros t Hid'. simpl.
    by case_decide.
  - intros g' tableId' [g [-> Hing]]%list_elem_of_fmap Htid'.
    case_decide as Hgid'.
    + rewrite tableIdOf_setTableId in Htid'. simplify_eq.
      eexists. split; [apply list_elem_of_fmap; exists table; split; [done|exact Htable]|].
      rewrite decide_True by done. simpl. split; [done|].
      rewrite idOf_setTableId. apply elem_of_app. right. by apply list_elem_of_singleton.
    + destruct (Hgt g tableId' Hing Htid') as (t & Hint & Htid'' & Hin).
      eexists. split; [apply list_elem_of_fmap; exists t; split; [done|exact Hint]|].
      case_decide; simpl; [|done]. split; [done|].
      apply elem_of_app. by left.
  - intros t' guestId' [t [-> Hint]]%list_elem_of_fmap Hin.
    assert (SeatingStore.Table.id (if decide (SeatingStore.Table.id t = tableId)
                            then SeatingStore.setAssignedGuests
                                   (SeatingStore.Table.assignedGuests t ++ [guestId]) t
                            else t) = SeatingStore.Table.id t) as -> by by case_decide.
    assert (guestId' ∈ SeatingStore.Table.assignedGuests t ∨
            (guestId' = guestId ∧ SeatingStore.Table.id t = tableId)) as [Hin'|[-> Htid']].
    { case_decide; simpl in Hin; [|by left].
      apply elem_of_app in Hin as [?|?%list_elem_of_singleton]; [by left|by right]. }
    + destruct (Htg t guestId' Hint Hin') as (g & Hing & Hgid' & Htid').
      exists g. split; [|done].
      apply list_elem_of_fmap. exists g. split; [|done].
      rewrite decide_False; [done|]. intros Heq.
      rewrite (Hfree g Hing Heq) in Htid'. done.
    + exists (SeatingStore.setTableId (Some tableId) guest). split; [|by rewrite Htid'].
      apply list_elem_of_fmap. exists guest. split; [|done].
      by rewrite decide_True.
  - apply Forall_fmap. rewrite Forall_forall in Hnd. apply Forall_forall.
    intros t Hint. specialize (Hnd t Hint). simpl.
    case_decide; [|done]. simpl. apply NoDup_app. split_and!; [done| |apply NoDup_singleton].
    intros x Hx ->%list_elem_of_singleton.
    destruct (Htg t guestId Hint Hx) as (g & Hing & Hgid' & Htid').
    by rewrite (Hfree g Hing Hgid') in Htid'.
Qed.

Lemma consistent_assignGuestToTable guestId tableId st :
  consistent st → consistent (SeatingStore.assignGuestToTable guestId tableId st).
Proof.
  intros Hst. unfold SeatingStore.assignGuestToTable.
  destruct (SeatingStore.findTable tableId st) as [table|] eqn:Htable; [|done].
  destruct (SeatingStore.findGuest guestId st) as [guest|] eqn:Hguest; [|done].
  case_match; [done|].
  apply findTable_Some in Htable as [Htable Htid].
  apply findGuest_Some in Hguest as [Hguest Hgid].
  destruct (truthy (SeatingStore.tableIdOf guest)) eqn:Htruthy.
  - destruct (unassignGuest_ids guestId st) as [Hgids Htids].
    apply consistent_seat.
    + by apply consistent_unassignGuest.
    + intros g. by apply unassignGuest_unseated.
    + by apply (guests_with_id guestId st _ guest).
    + by apply (tables_with_id tableId st _ table).
  - apply consistent_seat; [done| |by exists guest|by exists table].
    intros g Hg Hid.
    assert (g = guest) as ->.
    { destruct Hst as (Hnd & _).
      apply (NoDup_fmap_inj SeatingStore.idOf (SeatingStore.guests st)); [done..|congruence]. }
    by apply (consistent_truthy st).
Qed.


Lemma renumber_elem_of (l : list SeatingStore.Table.t) t' :
  t' ∈ imap (λ index t, SeatingStore.setNumber (Z.of_nat index + 1) t) l →
  ∃ index t, t' = SeatingStore.setNumber (Z.of_nat index + 1) t ∧ l !! index = Some t.
Proof.
  intros [i Hi]%list_elem_of_lookup. rewrite list_lookup_imap in Hi.
  destruct (l !! i) as [t|] eqn:Hl; simplify_eq/=. by exists i, t.
Qed.

Lemma renumber_ids (l : list SeatingStore.Table.t) :
  SeatingStore.Table.id <$> imap (λ index t, SeatingStore.setNumber (Z.of_nat index + 1) t) l
  = SeatingStore.Table.id <$> l.
Proof. rewrite fmap_imap. by rewrite <-(imap_const SeatingStore.Table.id). Qed.

Lemma renumber_elem_of_2 (l : list SeatingStore.Table.t) t :
  t ∈ l → ∃ index, SeatingStore.setNumber (Z.of_nat index + 1) t
                   ∈ imap (λ index t, SeatingStore.setNumber (Z.of_nat index + 1) t) l.
Proof.
  intros [i Hi]%list_elem_of_lookup. exists i.
  apply list_elem_of_lookup. exists i. by rewrite list_lookup_imap, Hi.
Qed.

Lemma consistent_removeTable id st :
  consistent st → consistent (SeatingStore.removeTable id st).
Proof.
  intros Hst. unfold SeatingStore.removeTable.
  destruct (SeatingStore.findTable id st) as [table|]; [|done].
  destruct Hst as (Hg & Ht & Hne & Hgt & Htg & Hnd).
  split_and!; cbn [SeatingStore.guests SeatingStore.tables].
  - rewrite ids_fmap; [done|]. intros g. by case_decide.
  - rewrite renumber_ids. by apply NoDup_ids_filter.
  - apply Forall_forall. intros t' (i & t & -> & Hl)%renumber_elem_of.
    apply list_elem_of_lookup_2, list_elem_of_filter in Hl as [_ Hint].
    rewrite Forall_forall in Hne. by apply (Hne t).
  - intros g' tableId [g [-> Hing]]%list_elem_of_fmap Htid.
    case_decide as Hgid; [done|].
    destruct (Hgt g tableId Hing Htid) as (t & Hint & Htid' & Hin).
    assert (t ∈ filter (λ t, SeatingStore.Table.id t ≠ id) (SeatingStore.tables st)) as Hin'.
    { apply list_elem_of_filter. split; [congruence|done]. }
    apply renumber_elem_of_2 in Hin' as [i Hi].
    eexists. split; [exact Hi|]. done.
  - intros t' guestId (i & t & -> & Hl)%renumber_elem_of Hin.
    apply list_elem_of_lookup_2, list_elem_of_filter in Hl as [Hid Hint].
    destruct (Htg t guestId Hint Hin) as (g & Hing & Hgid & Htid).
    exists g. split; [|done].
    apply list_elem_of_fmap. exists g. split; [|done].
    rewrite decide_False; [done|]. congruence.
  - apply Forall_forall. intros t' (i & t & -> & Hl)%renumber_elem_of.
    apply list_elem_of_lookup_2, list_elem_of_filter in Hl as [_ Hint].
    rewrite Forall_forall in Hnd. by apply (Hnd t).
Qed.

Lemma consistent_addTable newId capacity st :
  newId ≠ ""%string → newId ∉ SeatingStore.Table.id <$> SeatingStore.tables st →
  consistent st → consistent (SeatingStore.addTable newId capacity st).
Proof.
  intros Hnonempty Hfresh (Hg & Ht & Hne & Hgt & Htg & Hnd).
  unfold SeatingStore.addTable. split_and!; cbn [SeatingStore.guests SeatingStore.tables].
  - done.
  - rewrite fmap_app. apply NoDup_app. split_and!; [done| |apply NoDup_singleton].
    intros x Hx ->%list_elem_of_singleton. done.
  - apply Forall_app. split; [done|]. by apply Forall_singleton.
  - intros g tableId Hing Htid.
    destruct (Hgt g tableId Hing Htid) as (t & Hint & Htid' & Hin).
    exists t. split; [|done]. apply elem_of_app. by left.
  - intros t guestId [Hint| ->%list_elem_of_singleton]%elem_of_app Hin.
    + by apply Htg.
    + by apply elem_of_nil in Hin.
  - apply Forall_app. split; [done|]. apply Forall_singleton. apply NoDup_nil_2.
Qed.

Lemma consistent_importGuests guestsData st :
  NoDup ((SeatingStore.idOf <$> SeatingStore.guests st) ++ guestsData.*1) →
  Forall (λ e, Guest.tableId e.2 = None) guestsData →
  consistent st → consistent (SeatingStore.importGuests guestsData st).
Proof.
  intros Hfresh Hfree (Hg & Ht & Hne & Hgt & Htg & Hnd).
  unfold SeatingStore.importGuests. split_and!; cbn [SeatingStore.guests SeatingStore.tables];
      try done.
  - rewrite fmap_app, <-list_fmap_compose.
    assert ((SeatingStore.idOf ∘ (λ e, SeatingStore.StoredGuest.mk (SeatingStore.setId e.1 e.2)
        [])) <$> guestsData
            = guestsData.*1) as -> by by apply list_fmap_ext.
    done.
  - intros g tableId [Hing|Hnew]%elem_of_app Htid.
    + by apply Hgt.
    + apply list_elem_of_fmap in Hnew as (e & -> & He).
      rewrite Forall_forall in Hfree. specialize (Hfree e He).
      unfold SeatingStore.tableIdOf in Htid. simpl in Htid. congruence.
  - intros t guestId Hint Hin.
    destruct (Htg t guestId Hint Hin) as (g & Hing & Hgid & Htid).
    exists g. split; [|done]. apply elem_of_app. by left.
Qed.


End StoreFacts.

Section ApplyFacts.
Implicit Types (st : SeatingStore.State) (assignments : list (string * string)).

Lemma dictGet_dictSet {K V} `{EqDecision K} (k k' : K) (v : V) d :
  dictGet k' (dictSet k v d) = if decide (k' = k) then Some v else dictGet k' d.
Proof.
  induction d as [|[k0 v0] d IH]; simpl.
  - by case_decide.
  - destruct (decide (k = k0)) as [->|Hk]; simpl.
    + by destruct (decide (k' = k0)).
    + rewrite IH. by repeat case_decide; simplify_eq.
Qed.

Lemma emptyLists_get tableId (tables : list SeatingStore.Table.t) (d : list (string * list
    string)) :
  dictGet tableId (foldl (λ d table, dictSet (SeatingStore.Table.id table) [] d) d tables)
  = if decide (tableId ∈ SeatingStore.Table.id <$> tables) then Some [] else dictGet tableId d.
Proof.
  revert d. induction tables as [|t tables IH]; intros d.
  - simpl. destruct (decide (tableId ∈ [])) as [Hin|Hin]; [by apply elem_of_nil in Hin|done].
  - rewrite fmap_cons. cbn [foldl]. rewrite IH, dictGet_dictSet.
    destruct (decide (tableId ∈ SeatingStore.Table.id <$> tables)) as [Hin|Hin].
    + rewrite decide_True; [done|]. by right.
    + destruct (decide (tableId = SeatingStore.Table.id t)) as [->|Hne].
      * rewrite decide_True; [done|]. left.
      * rewrite decide_False; [done|]. by intros [?|?]%elem_of_cons.
Qed.

Lemma fill_get tableId (entries : list (string * string)) (d : list (string * list string)) :
  dictGet tableId
    (foldl (λ d e, match dictGet e.2 d with
                   | Some ids => dictSet e.2 (ids ++ [e.1]) d
                   | None => d
                   end) d entries)
  = (λ ids, ids ++ (filter (λ e, e.2 = tableId) entries).*1) <$> dictGet tableId d.
Proof.
  revert d. induction entries as [|[guestId tableId'] entries IH]; intros d; csimpl.
  - destruct (dictGet tableId d); csimpl; [|done]. by rewrite app_nil_r.
  - rewrite IH. rewrite filter_cons. simpl.
    destruct (dictGet tableId' d) as [ids|] eqn:Hget.
    + rewrite dictGet_dictSet.
      destruct (decide (tableId = tableId')) as [->|Hne].
      * rewrite decide_True by done. rewrite Hget. csimpl. by rewrite <-app_assoc.
      * rewrite decide_False by done. done.
    + destruct (decide (tableId' = tableId)) as [->|Hne]; [|done].
      by rewrite Hget.
Qed.

(** What [applyOptimizedSeating] collects for a table of the store: the
    keys of [assignments] whose value is the table's id, in the order
    [Object.entries] lists them. *)
Lemma newTableAssignments_get assignments st tableId :
  dictGet tableId (SeatingStore.newTableAssignments assignments st)
  = if decide (tableId ∈ SeatingStore.Table.id <$> SeatingStore.tables st)
    then Some (filter (λ e, e.2 = tableId) (objectEntries assignments)).*1
    else None.
Proof.
  unfold SeatingStore.newTableAssignments. rewrite fill_get, emptyLists_get.
  by case_decide.
Qed.

Lemma assignedTable_Some assignments guestId tableId :
  SeatingStore.assignedTable assignments guestId = Some tableId ↔
  dictGet guestId assignments = Some tableId ∧ tableId ≠ ""%string.
Proof.
  unfold SeatingStore.assignedTable. destruct (dictGet guestId assignments) as [tid|].
  - case_decide; split; [done|intros [? ?]; congruence|intros; by simplify_eq|].
    intros [? ?]. by simplify_eq.
  - split; [done|]. by intros [? _].
Qed.

Lemma consistent_applyOptimizedSeating assignments st :
  NoDup assignments.*1 →
  Forall (λ e, e.1 ∈ SeatingStore.idOf <$> SeatingStore.guests st ∧
               e.2 ∈ SeatingStore.Table.id <$> SeatingStore.tables st) assignments →
  consistent st → consistent (SeatingStore.applyOptimizedSeating assignments st).
Proof.
  intros Hkeys Hknown (Hg & Ht & Hne & _ & _ & _).
  rewrite Forall_forall in Hknown.
  unfold SeatingStore.applyOptimizedSeating. split_and!; cbn [SeatingStore.guests
      SeatingStore.tables].
  - by rewrite ids_fmap.
  - by rewrite ids_fmap.
  - apply Forall_fmap. eapply Forall_impl; [exact Hne|]. done.
  - intros g' tableId [g [-> Hing]]%list_elem_of_fmap Htid.
    rewrite tableIdOf_setTableId in Htid. rewrite idOf_setTableId.
    apply assignedTable_Some in Htid as [Hget _].
    apply dictGet_elem_of in Hget as Hentry.
    destruct (Hknown _ Hentry) as [_ Htable]. simpl in Htable.
    apply list_elem_of_fmap in Htable as (t & -> & Hint).
    eexists. split; [apply list_elem_of_fmap; exists t; split; [done|exact Hint]|].
    simpl. split; [done|].
    rewrite newTableAssignments_get, decide_True; [|apply list_elem_of_fmap; by exists t].
    simpl. apply list_elem_of_fmap. exists (SeatingStore.idOf g, SeatingStore.Table.id t).
        split; [done|].
    apply list_elem_of_filter. split; [done|]. by rewrite objectEntries_perm.
  - intros t' guestId [t [-> Hint]]%list_elem_of_fmap Hin. simpl in *.
    rewrite newTableAssignments_get, decide_True in Hin;
      [|apply list_elem_of_fmap; by exists t].
    simpl in Hin. apply list_elem_of_fmap in Hin as ([guestId' tableId] & -> & Hin).
    apply list_elem_of_filter in Hin as [Htid Hentry]. simpl in Htid. subst tableId.
    rewrite objectEntries_perm in Hentry.
    destruct (Hknown _ Hentry) as [Hguest _]. simpl in Hguest.
    apply list_elem_of_fmap in Hguest as (g & Hgid & Hing).
    eexists. split; [apply list_elem_of_fmap; exists g; split; [done|exact Hing]|].
    rewrite idOf_setTableId, tableIdOf_setTableId. split; [done|].
    apply assignedTable_Some. split.
    + rewrite <-Hgid. by apply dictGet_NoDup.
    + rewrite Forall_forall in Hne. by apply Hne.
  - apply Forall_fmap, Forall_forall. intros t Hint. simpl.
    rewrite newTableAssignments_get, decide_True; [|apply list_elem_of_fmap; by exists t].
    simpl. eapply sublist_NoDup; [|apply fmap_sublist, sublist_filter].
    by rewrite objectEntries_perm.
Qed.
End ApplyFacts.

Lemma consistent_initialState : consistent SeatingStore.initialState.
Proof.
  split_and!; simpl; try apply NoDup_nil_2; try apply Forall_nil_2.
  - by intros ?? ?%elem_of_nil.
  - by intros ?? ?%elem_of_nil.
Qed.


Section StoreProperties.
Implicit Types (st : SeatingStore.State) (g : SeatingStore.StoredGuest.t) (t :
    SeatingStore.Table.t).


(** [unassignGuest] shortens the lists and changes nothing else of a table. *)
Lemma unassignGuest_tables guestId st t' :
  t' ∈ SeatingStore.tables (SeatingStore.unassignGuest guestId st) →
  ∃ t, t ∈ SeatingStore.tables st ∧ SeatingStore.Table.id t' = SeatingStore.Table.id t ∧
       SeatingStore.Table.capacity t' = SeatingStore.Table.capacity t ∧
       (length (SeatingStore.Table.assignedGuests t') ≤ length
           (SeatingStore.Table.assignedGuests t))%nat.
Proof.
  unfold SeatingStore.unassignGuest.
  destruct (SeatingStore.findGuest guestId st) as [guest|]; [|by exists t'].
  destruct (truthy (SeatingStore.tableIdOf guest)); [|by exists t'].
  cbn [SeatingStore.tables]. intros [t [-> Hint]]%list_elem_of_fmap.
  exists t. split; [done|]. case_decide; simpl; [|done].
  split_and!; [done..|]. apply length_filter.
Qed.

Lemma fmap_id_on {A} (f : A → A) (l : list A) : (∀ x, x ∈ l → f x = x) → f <$> l = l.
Proof.
  intros Hf. rewrite <-(list_fmap_id l) at 2. apply list_fmap_ext.
  intros i x Hx. apply Hf. by apply list_elem_of_lookup_2 in Hx.
Qed.

Lemma filter_all {A} (P : A → Prop) `{!∀ x, Decision (P x)} (l : list A) :
  (∀ x, x ∈ l → P x) → filter P l = l.
Proof.
  induction l as [|x l IH]; intros HP; [done|].
  rewrite filter_cons, decide_True by (apply HP; left).
  rewrite IH; [done|]. intros y Hy. apply HP. by right.
Qed.

(** ** Table numbers *)

Lemma numbered_fmap (f : SeatingStore.Table.t → SeatingStore.Table.t) st gs c gr :
  (∀ t, SeatingStore.Table.number (f t) = SeatingStore.Table.number t) →
  numbered st → numbered (SeatingStore.mkState gs (f <$> SeatingStore.tables st) c gr).
Proof.
  intros Hf Hst index t'. cbn [SeatingStore.tables]. rewrite list_lookup_fmap.
  destruct (SeatingStore.tables st !! index) as [t|] eqn:Ht; [|done].
  intros [= <-]. rewrite Hf. by apply Hst.
Qed.

Lemma numbered_same st gs c gr :
  numbered st → numbered (SeatingStore.mkState gs (SeatingStore.tables st) c gr).
Proof. done. Qed.

Lemma numbered_removeTable id st :
  is_Some (SeatingStore.findTable id st) → numbered (SeatingStore.removeTable id st).
Proof.
  unfold SeatingStore.removeTable. intros [table ->] index t'. cbn [SeatingStore.tables].
  rewrite list_lookup_imap.
  destruct (filter _ _ !! index) as [t|]; [|done]. by intros [= <-].
Qed.

Lemma numbered_unassignGuest guestId st :
  numbered st → numbered (SeatingStore.unassignGuest guestId st).
Proof.
  intros Hst. unfold SeatingStore.unassignGuest. repeat case_match; try done.
  apply numbered_fmap; [intros ?; by case_decide|done].
Qed.

(** ** Conflicts *)

Lemma samePair_true x y c :
  SeatingStore.samePair x y c = true ↔ c = (x, y) ∨ c = (y, x).
Proof.
  unfold SeatingStore.samePair. destruct c as [a b]. simpl.
  rewrite orb_true_iff, !bool_decide_eq_true. split.
  - intros [[-> ->]|[-> ->]]; [by left|by right].
  - intros [[= -> ->]|[= -> ->]]; [by left|by right].
Qed.

Lemma conflictsAgree_addConflict x y st :
  conflictsAgree st → conflictsAgree (SeatingStore.addConflict x y st).
Proof.
  intros Hst. unfold SeatingStore.addConflict.
  destruct (decide (x = y)) as [|Hxy]; [done|].
  destruct (existsb _ _); [done|].
  intros g' z [g [-> Hing]]%list_elem_of_fmap.
  specialize (Hst g z Hing). unfold inConflict in *. cbn [SeatingStore.conflicts].
  rewrite !elem_of_app, !list_elem_of_singleton.
  destruct (decide (SeatingStore.idOf g = x)) as [Hid|Hid];
    [|destruct (decide (SeatingStore.idOf g = y)) as [Hid'|Hid']]; simpl.
  - rewrite elem_of_app, list_elem_of_singleton, Hst.
    unfold SeatingStore.idOf in *. simpl. intuition (simplify_eq; eauto).
  - rewrite elem_of_app, list_elem_of_singleton, Hst.
    unfold SeatingStore.idOf in *. simpl. intuition (simplify_eq; eauto).
  - rewrite Hst. intuition (simplify_eq; eauto).
Qed.

Lemma conflictsAgree_removeConflict x y st :
  conflictsAgree st → conflictsAgree (SeatingStore.removeConflict x y st).
Proof.
  intros Hst. unfold SeatingStore.removeConflict.
  intros g' z [g [-> Hing]]%list_elem_of_fmap.
  specialize (Hst g z Hing). unfold inConflict in *. cbn [SeatingStore.conflicts].
  rewrite !list_elem_of_filter.
  assert (∀ c, SeatingStore.samePair x y c = false ↔ ¬ (c = (x, y) ∨ c = (y, x))) as Hpair.
  { intros c. rewrite <-samePair_true. by destruct (SeatingStore.samePair x y c). }
  rewrite !Hpair.
  destruct (decide (SeatingStore.idOf g = x)) as [Hid|Hid];
    [|destruct (decide (SeatingStore.idOf g = y)) as [Hid'|Hid']]; simpl.
  - rewrite list_elem_of_filter, Hst. unfold SeatingStore.idOf in *. simpl.
    destruct (decide (z = y)); intuition (simplify_eq; eauto).
  - rewrite list_elem_of_filter, Hst. unfold SeatingStore.idOf in *. simpl.
    destruct (decide (z = x)); intuition (simplify_eq; eauto).
  - rewrite Hst. intuition (simplify_eq; eauto).
Qed.
End StoreProperties.

(** ** The examples *)

Lemma drawn_nonempty index : drawn index ≠ ""%string.
Proof. done. Qed.

Lemma drawn_new i j : drawn i = drawn j → i = j.
Proof. unfold drawn. intros Heq. by apply (inj _), (inj pretty) in Heq. Qed.

Lemma consistent_threeSinglesStore : consistent threeSinglesStore.
Proof.
  apply consistent_importGuests; [| |apply consistent_initialState].
  - apply (bool_decide_unpack _). by vm_compute.
  - repeat constructor.
Qed.

Lemma consistent_oneSeatedStore : consistent oneSeatedStore.
Proof.
  unfold oneSeatedStore. apply consistent_assignGuestToTable, consistent_addTable.
  - done.
  - apply not_elem_of_nil.
  - apply consistent_threeSinglesStore.
Qed.

Lemma answered_tablesOfTwo :
  answered tablesOfTwo threeSinglesStore 2 (KnightConfig.mk false 0 0) [].
Proof. split_and!; [done|by vm_compute|by vm_compute]. Qed.

(** ** The records stay in step *)



(** X7. [assignGuestToTable] never lets a table list more guests than its
    capacity: from a state whose records are in step and in which no table
    lists more guests than its capacity, it leads to such a state, whether
    it seats the guest or returns early.  The count is of guests, one per
    entry of [assignedGuests], whatever their [amount]. *)
Theorem assignGuestToTable_never_overfills (guestId tableId : string)
    (st : SeatingStore.State) :
  consistent st → notOverfull st →
  notOverfull (SeatingStore.assignGuestToTable guestId tableId st).
Proof.
  intros Hst Hfull. unfold SeatingStore.assignGuestToTable.
  destruct (SeatingStore.findTable tableId st) as [table|] eqn:Htable; [|done].
  destruct (SeatingStore.findGuest guestId st) as [guest|] eqn:Hguest; [|done].
  destruct (Z.leb_spec (SeatingStore.Table.capacity table)
              (Z.of_nat (length (SeatingStore.Table.assignedGuests table)))) as [|Hroom]; [done|].
  apply findTable_Some in Htable as [Htable Htid].
  unfold notOverfull in *. rewrite Forall_forall in Hfull.
  cbn [SeatingStore.tables]. apply Forall_fmap, Forall_forall. intros t' Hint'.
  assert (∃ t, t ∈ SeatingStore.tables st ∧ SeatingStore.Table.id t' = SeatingStore.Table.id t ∧
               SeatingStore.Table.capacity t' = SeatingStore.Table.capacity t ∧
               (length (SeatingStore.Table.assignedGuests t')
                ≤ length (SeatingStore.Table.assignedGuests t))%nat)
    as (t & Hint & Hid & Hcap & Hlen).
  { destruct (truthy (SeatingStore.tableIdOf guest)).
    - by apply (unassignGuest_tables guestId).
    - by exists t'. }
  specialize (Hfull t Hint). simpl in *. case_decide as Hid'; simpl.
  - assert (t = table) as ->.
    { destruct Hst as (_ & Hnd & _).
      apply (NoDup_fmap_inj SeatingStore.Table.id (SeatingStore.tables st)); [done..|congruence]. }
    rewrite length_app. simpl. lia.
  - lia.
Qed.

Lemma notOverfull_oneSeatedStore : notOverfull oneSeatedStore.
Proof. repeat constructor. by vm_compute. Qed.

Lemma assignGuestToTable_never_overfills_witness :
  consistent oneSeatedStore ∧ notOverfull oneSeatedStore
  ∧ notOverfull (SeatingStore.assignGuestToTable "b" "t0" oneSeatedStore).
Proof.
  split_and!; [exact consistent_oneSeatedStore|exact notOverfull_oneSeatedStore|].
  apply (assignGuestToTable_never_overfills "b" "t0" oneSeatedStore
           consistent_oneSeatedStore notOverfull_oneSeatedStore).
Defined.

(** X8. Round trip: in a state whose records are in step, seating an
    unseated guest with [assignGuestToTable] and then calling
    [unassignGuest] gives back the state as it was, whether the guest was
    seated or the call returned early (no such guest, no such table, table
    full). *)
Theorem unassign_undoes_assign (guestId tableId : string) (st : SeatingStore.State) :
  consistent st →
  (∀ g, g ∈ SeatingStore.guests st → SeatingStore.idOf g = guestId →
        SeatingStore.tableIdOf g = None) →
  SeatingStore.unassignGuest guestId (SeatingStore.assignGuestToTable guestId tableId st)
  = st.
Proof.
  intros Hst Hfree.
  assert (SeatingStore.unassignGuest guestId st = st) as Hsame.
  { unfold SeatingStore.unassignGuest.
    destruct (SeatingStore.findGuest guestId st) as [guest|] eqn:Hguest; [|done].
    apply findGuest_Some in Hguest as [Hguest Hgid].
    by rewrite (Hfree guest Hguest Hgid). }
  unfold SeatingStore.assignGuestToTable.
  destruct (SeatingStore.findTable tableId st) as [table|] eqn:Htable; [|done].
  destruct (SeatingStore.findGuest guestId st) as [guest|] eqn:Hguest; [|done].
  case_match; [done|].
  apply findTable_Some in Htable as [Htable Htid].
  apply findGuest_Some in Hguest as [Hguest Hgid].
  rewrite (Hfree guest Hguest Hgid). simpl.
  destruct Hst as (Hg & Ht & Hne & Hgt & Htg & Hnd).
  assert (tableId ≠ ""%string) as Hnonempty.
  { rewrite Forall_forall in Hne. rewrite <-Htid. by apply Hne. }
  unfold SeatingStore.unassignGuest, SeatingStore.findGuest. cbn [SeatingStore.guests
      SeatingStore.tables].
  assert (head (filter (λ g, SeatingStore.idOf g = guestId)
            ((λ g, if decide (SeatingStore.idOf g = guestId)
                   then SeatingStore.setTableId (Some tableId) g else g) <$> SeatingStore.guests
                       st))
          = Some (SeatingStore.setTableId (Some tableId) guest)) as ->.
  { clear Hgt Htg Hfree Hsame. revert Hguest Hg.
    induction (SeatingStore.guests st) as [|g gs IH]; [by intros ?%elem_of_nil|].
    rewrite !fmap_cons. intros Hin [Hfresh Hnd']%NoDup_cons.
    destruct (decide (SeatingStore.idOf g = guestId)) as [Hid|Hid].
    - rewrite filter_cons, decide_True by done. simpl. do 2 f_equal.
      apply elem_of_cons in Hin as [?|Hin]; [done|].
      exfalso. apply Hfresh. apply list_elem_of_fmap. exists guest. split; [congruence|done].
    - rewrite filter_cons, decide_False by done.
      apply elem_of_cons in Hin as [->|Hin]; [done|]. by apply IH. }
  rewrite tableIdOf_setTableId. simpl. rewrite bool_decide_true by done.
  destruct st as [gs ts cs grs]. simpl in *. f_equal.
  - rewrite <-list_fmap_compose. apply fmap_id_on. intros g Hing. simpl.
    destruct (decide (SeatingStore.idOf g = guestId)) as [Hid|Hid].
    + rewrite idOf_setTableId, decide_True by done.
      rewrite <-(Hfree g Hing Hid). by destruct g as [[]].
    + by rewrite decide_False.
  - rewrite <-list_fmap_compose. apply fmap_id_on. intros t Hint. simpl.
    destruct (decide (SeatingStore.Table.id t = tableId)) as [Hid|Hid].
    + simpl. rewrite decide_True by congruence. simpl.
      rewrite filter_app, filter_cons, decide_False by (by intros ?). simpl.
      rewrite filter_nil, app_nil_r. rewrite filter_all; [by destruct t|].
      intros x Hx ->. destruct (Htg t guestId Hint Hx) as (g & Hing & Hgid' & Htid').
      by rewrite (Hfree g Hing Hgid') in Htid'.
    + rewrite decide_False; [done|]. congruence.
Qed.

Lemma unassign_undoes_assign_witness :
  consistent oneSeatedStore
  ∧ (∀ g, g ∈ SeatingStore.guests oneSeatedStore → SeatingStore.idOf g = "b"%string →
          SeatingStore.tableIdOf g = None)
  ∧ SeatingStore.unassignGuest "b" (SeatingStore.assignGuestToTable "b" "t0" oneSeatedStore)
    = oneSeatedStore.
Proof.
  assert (∀ g, g ∈ SeatingStore.guests oneSeatedStore → SeatingStore.idOf g = "b"%string →
               SeatingStore.tableIdOf g = None) as Hfree.
  { intros g Hg Hid. vm_compute in Hg.
    repeat (apply elem_of_cons in Hg as [->|Hg]; [by vm_compute in Hid|| by vm_compute|]).
    by apply elem_of_nil in Hg. }
  split_and!; [exact consistent_oneSeatedStore|exact Hfree|].
  apply (unassign_undoes_assign "b" "t0" oneSeatedStore consistent_oneSeatedStore Hfree).
Defined.


(** X10. The tables stay numbered 1, 2, ... in the order of the list:
    every action of the store keeps that, [addTable] by numbering the new
    table with the length of the list plus one and [removeTable] by
    renumbering what is left. *)
Theorem tables_stay_numbered (a : Action) (st : SeatingStore.State) :
  numbered st → numbered (run a st).
Proof.
  intros Hst.
  destruct a as [newId guestData|id|guestsData|newId capacity|id|guestId tableId|guestId
                |x y|x y|newId guestIds|groupId guestIds|groupId|assignments|]; simpl.
  - done.
  - unfold SeatingStore.removeGuest. by apply numbered_fmap.
  - done.
  - unfold SeatingStore.addTable. intros index t. cbn [SeatingStore.tables].
    intros [Hold|[Hlen Hnew]]%lookup_app_Some.
    + by apply Hst.
    + apply list_lookup_singleton_Some in Hnew as [Hindex <-]. simpl. lia.
  - destruct (SeatingStore.findTable id st) eqn:Hfind.
    + apply numbered_removeTable. by rewrite Hfind.
    + unfold SeatingStore.removeTable. by rewrite Hfind.
  - unfold SeatingStore.assignGuestToTable. repeat case_match; try done.
    + apply numbered_fmap; [intros ?; by case_decide|].
      by apply numbered_unassignGuest.
    + apply numbered_fmap; [intros ?; by case_decide|done].
  - by apply numbered_unassignGuest.
  - unfold SeatingStore.addConflict. by repeat case_match.
  - done.
  - done.
  - done.
  - done.
  - unfold SeatingStore.applyOptimizedSeating. by apply numbered_fmap.
  - by intros index t ?.
Qed.

Lemma numbered_oneSeatedStore : numbered oneSeatedStore.
Proof. intros [|[|]] t; by intros [= <-]. Qed.

Lemma tables_stay_numbered_witness :
  numbered oneSeatedStore ∧ numbered (run (AddTable "t1" 4) oneSeatedStore).
Proof.
  split; [exact numbered_oneSeatedStore|].
  apply (tables_stay_numbered (AddTable "t1" 4) oneSeatedStore numbered_oneSeatedStore).
Defined.

(** X11. [addConflict] and [removeConflict] keep the [conflictsWith] lists
    of the guests in step with the list of conflict pairs: if every guest
    lists exactly the ids it is paired with, in either order, then so it is
    after either action, for any two ids. *)
Theorem conflict_lists_follow_the_pairs x y st :
  conflictsAgree st →
  conflictsAgree (SeatingStore.addConflict x y st) ∧ conflictsAgree (SeatingStore.removeConflict
      x y st).
Proof.
  intros Hst. split; [by apply conflictsAgree_addConflict|by apply conflictsAgree_removeConflict].
Qed.

Lemma conflictsAgree_threeSinglesStore : conflictsAgree threeSinglesStore.
Proof.
  intros g x Hg. vm_compute in Hg. unfold inConflict. simpl.
  repeat (apply elem_of_cons in Hg as [->|Hg];
          [simpl; split; [by intros ?%elem_of_nil|by intros [?%elem_of_nil|?%elem_of_nil]]|]).
  by apply elem_of_nil in Hg.
Qed.

Lemma conflict_lists_follow_the_pairs_witness :
  conflictsAgree threeSinglesStore
  ∧ conflictsAgree (SeatingStore.addConflict "a" "b" threeSinglesStore).
Proof.
  split; [exact conflictsAgree_threeSinglesStore|].
  apply (conflict_lists_follow_the_pairs "a" "b" threeSinglesStore
           conflictsAgree_threeSinglesStore).
Defined.

(** X12. [removeGuest] does not clean the [conflictsWith] lists: a guest
    that listed the removed id still lists it afterwards, although no guest
    has that id and no conflict pair mentions it, so the lists and the
    pairs are out of step. *)
Theorem removeGuest_leaves_stale_conflicts id g st :
  g ∈ SeatingStore.guests st → SeatingStore.idOf g ≠ id → id ∈
      SeatingStore.StoredGuest.conflictsWith g →
  let st' := SeatingStore.removeGuest id st in
  g ∈ SeatingStore.guests st'
  ∧ (id ∉ SeatingStore.idOf <$> SeatingStore.guests st')
  ∧ (∀ c, c ∈ SeatingStore.conflicts st' → c.1 ≠ id ∧ c.2 ≠ id)
  ∧ ¬ conflictsAgree st'.
Proof.
  intros Hg Hid Hin st'.
  assert (g ∈ SeatingStore.guests st') as Hg' by by apply list_elem_of_filter.
  assert (∀ c, c ∈ SeatingStore.conflicts st' → c.1 ≠ id ∧ c.2 ≠ id) as Hpairs.
  { intros c [? _]%list_elem_of_filter. done. }
  split_and!; [done| |done|].
  - intros (g' & Hid' & [? _]%list_elem_of_filter)%list_elem_of_fmap. done.
  - intros Hagree. destruct (proj1 (Hagree g id Hg') Hin) as [Hc|Hc].
    + by destruct (Hpairs _ Hc).
    + by destruct (Hpairs _ Hc).
Qed.

Lemma removeGuest_leaves_stale_conflicts_witness :
  guestInConflict ∈ SeatingStore.guests conflictStore
  ∧ SeatingStore.idOf guestInConflict ≠ "b"%string
  ∧ "b"%string ∈ SeatingStore.StoredGuest.conflictsWith guestInConflict
  ∧ ¬ conflictsAgree (SeatingStore.removeGuest "b" conflictStore).
Proof.
  assert (guestInConflict ∈ SeatingStore.guests conflictStore) as Hg
    by (vm_compute; left).
  assert (SeatingStore.idOf guestInConflict ≠ "b"%string) as Hid by done.
  assert ("b"%string ∈ SeatingStore.StoredGuest.conflictsWith guestInConflict) as Hin
    by (simpl; left).
  split_and!; [exact Hg|exact Hid|exact Hin|].
  apply (removeGuest_leaves_stale_conflicts "b" guestInConflict conflictStore Hg Hid Hin).
Defined.

(** * The optimise button *)

(** ** Objects built entry by entry *)

Section FromEntries.
Context {V : Type}.
Implicit Types (d entries : list (string * V)).

Lemma fromEntries_distinct entries : NoDup entries.*1 → fromEntries entries = entries.
Proof.
  unfold fromEntries.
  assert (∀ d, NoDup (d ++ entries).*1 →
               foldl (λ d e, dictSet e.1 e.2 d) d entries = d ++ entries) as Hgen.
  { induction entries as [|[k v] entries IH]; intros d Hnd; simpl.
    - by rewrite app_nil_r.
    - rewrite dictSet_fresh.
      + rewrite IH; [by rewrite <-app_assoc|]. by rewrite <-app_assoc.
      + rewrite fmap_app in Hnd. apply NoDup_app in Hnd as (_ & Hdisj & _).
        intros Hk. apply (Hdisj k Hk). left. }
  intros Hnd. by apply (Hgen []).
Qed.

Lemma filter_none {A} (P : A → Prop) `{!∀ x, Decision (P x)} (l : list A) :
  (∀ x, x ∈ l → ¬ P x) → filter P l = [].
Proof.
  induction l as [|x l IH]; intros HP; [done|].
  rewrite filter_cons, decide_False by (apply HP; left).
  apply IH. intros y Hy. apply HP. by right.
Qed.

Lemma foldl_skip {A B} (step : B → A → B) (keep : A → bool) (l : list A) (b : B) :
  foldl (λ acc x, if keep x then step acc x else acc) b l
  = foldl step b (filter (λ x, keep x = true) l).
Proof.
  revert b. induction l as [|x l IH]; intros b; [done|].
  rewrite filter_cons. simpl. destruct (keep x) eqn:Hkeep.
  - rewrite decide_True by done. simpl. apply IH.
  - rewrite decide_False by done. apply IH.
Qed.
End FromEntries.

(** ** The assignment as an object *)

Lemma tableEntries_keys t : (tableEntries t).*1 = tableIds t.
Proof.
  unfold tableEntries, tableIds. rewrite <-list_fmap_compose. done.
Qed.

Lemma bind_keys (tables : list OptimizedTable.t) :
  (tables ≫= tableEntries).*1 = tables ≫= tableIds.
Proof.
  induction tables as [|t tables IH]; [done|].
  rewrite !bind_cons, fmap_app, IH, tableEntries_keys. done.
Qed.

Lemma finalAssignmentDict_distinct tables :
  NoDup (tables ≫= tableIds) → finalAssignmentDict tables = tables ≫= tableEntries.
Proof.
  intros Hnd. rewrite <-bind_keys in Hnd.
  rewrite <-(fromEntries_distinct (tables ≫= tableEntries)) by done.
  unfold finalAssignmentDict, fromEntries. clear Hnd.
  generalize (@nil (string * string)) as d.
  induction tables as [|t tables IH]; intros d; [done|].
  rewrite bind_cons, foldl_app. cbn [foldl]. rewrite IH. f_equal.
  unfold tableEntries. by rewrite foldl_fmap.
Qed.

Lemma finalAssignmentDict_elem_of tables guestId tableId :
  NoDup (tables ≫= tableIds) →
  (guestId, tableId) ∈ finalAssignmentDict tables
  ↔ ∃ t, t ∈ tables ∧ OptimizedTable.id t = tableId ∧ guestId ∈ tableIds t.
Proof.
  intros Hnd. rewrite finalAssignmentDict_distinct by done.
  rewrite list_elem_of_bind. apply exist_proper. intros t.
  unfold tableEntries, tableIds. rewrite !list_elem_of_fmap. split.
  - intros [(g & [= -> ->] & Hg) Ht]. split_and!; [done..|]. by exists g.
  - intros (Ht & <- & g & -> & Hg). split; [|done]. by exists g.
Qed.

(** The object holds what the assignment map holds. *)
Lemma finalAssignmentDict_lookup tables guestId :
  dictGet guestId (finalAssignmentDict tables) = finalAssignment tables !! guestId.
Proof.
  unfold finalAssignmentDict, finalAssignment.
  assert (∀ d (m : gmap string string),
            (∀ k, dictGet k d = m !! k) →
            ∀ k, dictGet k
                   (foldl (λ d table,
                             foldl (λ d' g, dictSet (Guest.id g) (OptimizedTable.id table) d')
                                   d (OptimizedTable.guests table)) d tables)
                 = foldl (λ m table,
                            foldl (λ m' g, <[Guest.id g := OptimizedTable.id table]> m')
                                  m (OptimizedTable.guests table)) m tables !! k) as Hgen.
  { induction tables as [|t tables IH]; intros d m Hdm; [done|].
    cbn [foldl]. apply IH.
    generalize (OptimizedTable.guests t) as gs. clear IH.
    intros gs. revert d m Hdm. induction gs as [|g gs IHg]; intros d m Hdm; [done|].
    cbn [foldl]. apply IHg. intros k. rewrite dictGet_dictSet.
    destruct (decide (k = Guest.id g)) as [->|Hne].
    - by rewrite lookup_insert_eq.
    - by rewrite lookup_insert_ne. }
  apply Hgen. intros k. by rewrite lookup_empty.
Qed.

(** ** Clearing and creating tables *)

Section Rebuild.
Implicit Types (st : SeatingStore.State).

Lemma removeTable_ids id st :
  SeatingStore.Table.id <$> SeatingStore.tables (SeatingStore.removeTable id st)
  = filter (λ x, x ≠ id) (SeatingStore.Table.id <$> SeatingStore.tables st).
Proof.
  unfold SeatingStore.removeTable. destruct (SeatingStore.findTable id st) as [table|] eqn:Hfind.
  - cbn [SeatingStore.tables]. rewrite renumber_ids. symmetry.
    by apply (filter_fmap_iff SeatingStore.Table.id).
  - rewrite filter_all; [done|].
    intros x (t & -> & Ht)%list_elem_of_fmap. by apply (findTable_None id st).
Qed.

Lemma removeTable_guest_ids id st :
  SeatingStore.idOf <$> SeatingStore.guests (SeatingStore.removeTable id st) = SeatingStore.idOf
      <$> SeatingStore.guests st.
Proof.
  unfold SeatingStore.removeTable. destruct (SeatingStore.findTable id st); [|done].
  cbn [SeatingStore.guests]. apply ids_fmap. intros g. by case_decide.
Qed.

Lemma clear_from (l : list SeatingStore.Table.t) st :
  consistent st →
  let st' := foldl (λ s table, SeatingStore.removeTable (SeatingStore.Table.id table) s) st l in
  consistent st'
  ∧ SeatingStore.idOf <$> SeatingStore.guests st' = SeatingStore.idOf <$> SeatingStore.guests st
  ∧ SeatingStore.Table.id <$> SeatingStore.tables st'
    = filter (λ x, x ∉ SeatingStore.Table.id <$> l) (SeatingStore.Table.id <$>
        SeatingStore.tables st).
Proof.
  revert st. induction l as [|t l IH]; intros st Hst; cbn [foldl].
  - split_and!; [done..|]. rewrite filter_all; [done|]. intros x _. apply not_elem_of_nil.
  - destruct (IH (SeatingStore.removeTable (SeatingStore.Table.id t) st)) as (Hc & Hg & Ht).
    { by apply consistent_removeTable. }
    split_and!; [done|by rewrite Hg, removeTable_guest_ids|].
    rewrite Ht, removeTable_ids, list_filter_filter. apply list_filter_iff.
    intros x. rewrite fmap_cons, not_elem_of_cons. tauto.
Qed.

Lemma clearTables_spec st :
  consistent st →
  consistent (clearTables st)
  ∧ SeatingStore.idOf <$> SeatingStore.guests (clearTables st) = SeatingStore.idOf <$>
      SeatingStore.guests st
  ∧ SeatingStore.tables (clearTables st) = [].
Proof.
  intros Hst. destruct (clear_from (SeatingStore.tables st) st Hst) as (Hc & Hg & Ht).
  split_and!; [done..|].
  apply fmap_nil_inv with (f := SeatingStore.Table.id). unfold clearTables. rewrite Ht.
  apply filter_none. intros x Hx Hn. by apply Hn.
Qed.

Lemma createTables_spec draw maxAllowed (sorted : list OptimizedTable.t) st :
  createTables draw maxAllowed sorted st
  = SeatingStore.mkState (SeatingStore.guests st)
      (SeatingStore.tables st
       ++ imap (createdTable draw maxAllowed (length (SeatingStore.tables st))) sorted)
      (SeatingStore.conflicts st) (SeatingStore.groups st).
Proof.
  unfold createTables. induction sorted as [|t sorted IH] using rev_ind.
  - simpl. rewrite app_nil_r. by destruct st.
  - rewrite !imap_app, foldl_app, IH. cbn [foldl imap].
    unfold SeatingStore.addTable. cbn [SeatingStore.guests SeatingStore.tables
        SeatingStore.conflicts SeatingStore.groups fst snd].
    f_equal. rewrite <-app_assoc. f_equal. f_equal. unfold createdTable. f_equal.
    rewrite length_app, length_imap. by rewrite Nat.add_0_r.
Qed.
End Rebuild.

(** ** The store after [applyResult] *)

Lemma zip_imap {A B} (f : nat → A → B) (l : list A) :
  zip l (imap f l) = imap (λ i x, (x, f i x)) l.
Proof.
  revert f. induction l as [|x l IH]; intros f; [done|].
  cbn [imap zip zip_with]. f_equal. apply IH.
Qed.

Lemma NoDup_bind_elem {A B} (f : A → list B) (l : list A) x :
  x ∈ l → NoDup (l ≫= f) → NoDup (f x).
Proof.
  intros [l1 [l2 ->]]%list_elem_of_split. rewrite bind_app, bind_cons.
  intros (_ & _ & (? & _ & _)%NoDup_app)%NoDup_app. done.
Qed.

Lemma NoDup_bind_unique {A B} (f : A → list B) (l : list A) i j x y b :
  NoDup (l ≫= f) → l !! i = Some x → l !! j = Some y → b ∈ f x → b ∈ f y → i = j.
Proof.
  revert i j. induction l as [|a l IH]; intros i j Hnd Hi Hj Hx Hy; [done|].
  rewrite bind_cons in Hnd. apply NoDup_app in Hnd as (_ & Hdisj & Hnd).
  destruct i as [|i], j as [|j]; simplify_eq/=; [done| | |f_equal; by eapply IH].
  - destruct (Hdisj b Hx). apply list_elem_of_bind. exists y.
    split; [done|by eapply list_elem_of_lookup_2].
  - destruct (Hdisj b Hy). apply list_elem_of_bind. exists x.
    split; [done|by eapply list_elem_of_lookup_2].
Qed.

Lemma imap_seq_fmap {A B} (f : nat → B) (l : list A) first :
  imap (λ i _, f (first + i)%nat) l = f <$> seq first (length l).
Proof.
  revert first. induction l as [|x l IH]; intros first; [done|].
  cbn [imap length seq]. rewrite fmap_cons, Nat.add_0_r. f_equal.
  rewrite <-(IH (S first)). apply imap_ext. intros i y _. simpl. f_equal. lia.
Qed.

Lemma sliceLast_all {A} (l : list A) n : length l = n → sliceLast n l = l.
Proof.
  intros <-. unfold sliceLast. destruct (length l) eqn:Hlen; [done|].
  by rewrite Nat.sub_diag.
Qed.

Section FinalStore.
Context (draw : nat → string).
Context (draw_nonempty : ∀ index, draw index ≠ ""%string).
Context (draw_new : ∀ i j, draw i = draw j → i = j).
Context (standardCapacity : Z) (knightConfig : KnightConfig.t).
Context (resultTables : list OptimizedTable.t) (st : SeatingStore.State).
Context (Hst : consistent st).
Context (Hmembers : NoDup (resultTables ≫= tableIds)).
Context (Hnames : NoDup (OptimizedTable.id <$> resultTables)).
Context (Hknown : ∀ guestId, guestId ∈ resultTables ≫= tableIds →
                   guestId ∈ SeatingStore.idOf <$> SeatingStore.guests st).

Local Abbreviation sorted := (jsSort byTableNumber resultTables).
Local Abbreviation maxAllowed := (maxAllowedCapacity standardCapacity knightConfig).
Local Abbreviation st2 :=
  (rebuiltStore draw standardCapacity knightConfig resultTables st).
Local Abbreviation idMapping :=
  (handlerIdMapping draw standardCapacity knightConfig resultTables st).
Local Abbreviation real :=
  (handlerAssignments draw standardCapacity knightConfig resultTables st).

Lemma sorted_perm : sorted ≡ₚ resultTables.
Proof. apply jsSort_perm. Qed.

Lemma sorted_members : NoDup (sorted ≫= tableIds).
Proof. by rewrite sorted_perm. Qed.

Lemma sorted_names : NoDup (OptimizedTable.id <$> sorted).
Proof. by rewrite sorted_perm. Qed.

Lemma st2_tables : SeatingStore.tables st2 = imap (createdTable draw maxAllowed 0) sorted.
Proof.
  unfold rebuiltStore. rewrite createTables_spec. cbn [SeatingStore.tables].
  destruct (clearTables_spec st Hst) as (_ & _ & ->). done.
Qed.

Lemma st2_guest_ids : SeatingStore.idOf <$> SeatingStore.guests st2 = SeatingStore.idOf <$>
    SeatingStore.guests st.
Proof.
  unfold rebuiltStore. rewrite createTables_spec. cbn [SeatingStore.guests].
  by destruct (clearTables_spec st Hst) as (_ & -> & _).
Qed.

Lemma st2_table_ids : SeatingStore.Table.id <$> SeatingStore.tables st2 = draw <$> seq 0 (length
    sorted).
Proof.
  rewrite st2_tables, fmap_imap.
  rewrite (imap_ext _ (λ i _, draw (0 + i)%nat)) by done.
  apply imap_seq_fmap.
Qed.

Lemma consistent_st2 : consistent st2.
Proof.
  destruct (clearTables_spec st Hst) as ((Hg & _ & _ & Hgt & _ & _) & Hids & Hnone).
  split_and!.
  - by rewrite st2_guest_ids, <-Hids.
  - rewrite st2_table_ids. apply NoDup_fmap_2_strong; [|apply NoDup_seq].
    intros i j _ _. apply draw_new.
  - apply Forall_forall. intros t Ht.
    assert (SeatingStore.Table.id t ∈ SeatingStore.Table.id <$> SeatingStore.tables st2) as Hin
      by (apply list_elem_of_fmap; by exists t).
    rewrite st2_table_ids in Hin. apply list_elem_of_fmap in Hin as (i & -> & _).
    apply draw_nonempty.
  - intros g tableId Hg' Htid. exfalso.
    unfold rebuiltStore in Hg'. rewrite createTables_spec in Hg'. cbn [SeatingStore.guests] in Hg'.
    destruct (Hgt g tableId Hg' Htid) as (t & Ht & _). rewrite Hnone in Ht.
    by apply elem_of_nil in Ht.
  - intros t guestId Ht Hin. exfalso. rewrite st2_tables in Ht.
    apply list_elem_of_lookup in Ht as [i Hi]. rewrite list_lookup_imap in Hi.
    destruct (sorted !! i); simplify_eq/=. by apply elem_of_nil in Hin.
  - apply Forall_forall. intros t Ht. rewrite st2_tables in Ht.
    apply list_elem_of_lookup in Ht as [i Hi]. rewrite list_lookup_imap in Hi.
    destruct (sorted !! i); simplify_eq/=. apply NoDup_nil_2.
Qed.

Lemma idMapping_keys (l : list OptimizedTable.t) :
  (imap (λ i t, (OptimizedTable.id t, draw i)) l).*1 = OptimizedTable.id <$> l.
Proof. rewrite fmap_imap. by rewrite <-(imap_const OptimizedTable.id). Qed.

Lemma idMapping_spec :
  idMapping = imap (λ i t, (OptimizedTable.id t, draw i)) sorted.
Proof.
  assert (idMapping
          = fromEntries ((λ e : OptimizedTable.t * SeatingStore.Table.t,
                            (OptimizedTable.id e.1, SeatingStore.Table.id e.2))
                           <$> zip sorted (SeatingStore.tables st2))) as ->.
  { unfold handlerIdMapping, idMappingOf, fromEntries. by rewrite foldl_fmap. }
  rewrite st2_tables, zip_imap, fmap_imap.
  rewrite fromEntries_distinct; [done|].
  rewrite idMapping_keys. apply sorted_names.
Qed.

Lemma idMapping_get i t :
  sorted !! i = Some t → dictGet (OptimizedTable.id t) idMapping = Some (draw i).
Proof.
  intros Hi. apply dictGet_NoDup.
  - rewrite idMapping_spec, idMapping_keys. apply sorted_names.
  - rewrite idMapping_spec. apply list_elem_of_lookup. exists i.
    by rewrite list_lookup_imap, Hi.
Qed.

Lemma real_spec :
  real = (λ e, (e.1, default ""%string (dictGet e.2 idMapping)))
           <$> filter (λ e, truthy (dictGet e.2 idMapping) = true)
                      (objectEntries (finalAssignmentDict resultTables))
  ∧ NoDup real.*1.
Proof.
  assert (NoDup ((λ e : string * string, (e.1, default ""%string (dictGet e.2 idMapping)))
                   <$> filter (λ e, truthy (dictGet e.2 idMapping) = true)
                         (objectEntries (finalAssignmentDict resultTables))).*1) as Hnd.
  { rewrite <-list_fmap_compose.
    eapply sublist_NoDup; [|apply fmap_sublist, sublist_filter].
    rewrite objectEntries_perm, finalAssignmentDict_distinct, bind_keys; done. }
  assert (real = (λ e, (e.1, default ""%string (dictGet e.2 idMapping)))
           <$> filter (λ e, truthy (dictGet e.2 idMapping) = true)
                      (objectEntries (finalAssignmentDict resultTables))) as Heq.
  { unfold handlerAssignments, realAssignmentsOf.
    rewrite (foldl_skip (λ d e, dictSet e.1 (default ""%string (dictGet e.2 idMapping)) d)
               (λ e : string * string, truthy (dictGet e.2 idMapping))).
    rewrite <-(fromEntries_distinct _ Hnd). unfold fromEntries.
    by rewrite foldl_fmap. }
  split; [done|]. by rewrite Heq.
Qed.

Lemma real_elem_of guestId tableId :
  (guestId, tableId) ∈ real
  ↔ ∃ i t, sorted !! i = Some t ∧ tableId = draw i ∧ guestId ∈ tableIds t.
Proof.
  destruct real_spec as [-> _]. rewrite list_elem_of_fmap. split.
  - intros ([gid temp] & [= -> ->] & [_ Hin]%list_elem_of_filter). simpl in *.
    rewrite objectEntries_perm in Hin.
    apply finalAssignmentDict_elem_of in Hin as (t & Ht & <- & Hgid); [|done].
    rewrite <-sorted_perm in Ht. apply list_elem_of_lookup in Ht as [i Hi].
    exists i, t. by rewrite (idMapping_get i t Hi).
  - intros (i & t & Hi & -> & Hgid). exists (guestId, OptimizedTable.id t).
    simpl. rewrite (idMapping_get i t Hi). split; [done|].
    apply list_elem_of_filter. simpl. rewrite (idMapping_get i t Hi). split.
    + simpl. apply bool_decide_eq_true. apply draw_nonempty.
    + rewrite objectEntries_perm. apply finalAssignmentDict_elem_of; [done|].
      exists t. split_and!; [|done..]. rewrite <-sorted_perm.
      by eapply list_elem_of_lookup_2.
Qed.

Lemma real_get guestId tableId :
  dictGet guestId real = Some tableId ↔ (guestId, tableId) ∈ real.
Proof.
  split; [apply dictGet_elem_of|]. apply dictGet_NoDup. apply real_spec.
Qed.

Lemma admissible_real : admissible (ApplyOptimizedSeating real) st2.
Proof.
  split; [apply real_spec|]. apply Forall_forall. intros [guestId tableId] Hin.
  apply real_elem_of in Hin as (i & t & Hi & -> & Hgid). simpl. split.
  - rewrite st2_guest_ids. apply Hknown. apply list_elem_of_bind. exists t.
    split; [done|]. rewrite <-sorted_perm. by eapply list_elem_of_lookup_2.
  - rewrite st2_table_ids. apply list_elem_of_fmap. exists i. split; [done|].
    apply elem_of_seq. apply lookup_lt_Some in Hi. lia.
Qed.

Lemma applyResult_runs :
  applyResult draw standardCapacity knightConfig resultTables st
  = Some (SeatingStore.applyOptimizedSeating real st2).
Proof.
  assert (length (SeatingStore.tables st2) = length sorted) as Hlen
    by by rewrite st2_tables, length_imap.
  unfold applyResult. cbv zeta.
  fold (rebuiltStore draw standardCapacity knightConfig resultTables st).
  rewrite (sliceLast_all _ _ Hlen). rewrite decide_True by done. done.
Qed.

Lemma final_table i t :
  sorted !! i = Some t →
  ∃ t', SeatingStore.tables (SeatingStore.applyOptimizedSeating real st2) !! i = Some t'
        ∧ SeatingStore.Table.id t' = draw i
        ∧ SeatingStore.Table.number t' = Z.of_nat i + 1
        ∧ SeatingStore.Table.capacity t' = capacityToCreate maxAllowed t
        ∧ SeatingStore.Table.assignedGuests t' ≡ₚ tableIds t.
Proof.
  intros Hi. unfold SeatingStore.applyOptimizedSeating. cbn [SeatingStore.tables].
  rewrite list_lookup_fmap, st2_tables, list_lookup_imap, Hi. simpl.
  eexists. split; [done|]. simpl. split_and!; [done..|].
  rewrite newTableAssignments_get, decide_True.
  2:{ rewrite st2_table_ids. apply list_elem_of_fmap. exists i.
      split; [done|]. apply elem_of_seq. apply lookup_lt_Some in Hi. lia. }
  simpl. apply NoDup_Permutation.
  - eapply sublist_NoDup; [|apply fmap_sublist, sublist_filter].
    rewrite objectEntries_perm. apply real_spec.
  - apply (NoDup_bind_elem tableIds sorted); [by eapply list_elem_of_lookup_2|].
    apply sorted_members.
  - intros guestId. rewrite list_elem_of_fmap. split.
    + intros ([gid tid] & -> & [Htid Hin]%list_elem_of_filter). simpl in *. subst tid.
      rewrite objectEntries_perm in Hin.
      apply real_elem_of in Hin as (j & t' & Hj & Hdraw & Hgid).
      apply draw_new in Hdraw. subst j. by simplify_eq.
    + intros Hgid. exists (guestId, draw i). split; [done|].
      apply list_elem_of_filter. split; [done|]. rewrite objectEntries_perm.
      apply real_elem_of. by exists i, t.
Qed.

Lemma final_guest g tableId :
  g ∈ SeatingStore.guests (SeatingStore.applyOptimizedSeating real st2) →
  SeatingStore.tableIdOf g = Some tableId
  ↔ ∃ i t, sorted !! i = Some t ∧ tableId = draw i ∧ SeatingStore.idOf g ∈ tableIds t.
Proof.
  unfold SeatingStore.applyOptimizedSeating. cbn [SeatingStore.guests].
  intros (g0 & -> & _)%list_elem_of_fmap.
  rewrite tableIdOf_setTableId, idOf_setTableId, assignedTable_Some, real_get.
  rewrite real_elem_of. split; [by intros [? _]|].
  intros (i & t & Hi & -> & Hgid). split; [by exists i, t|]. apply draw_nonempty.
Qed.

Lemma removeTable_guests id s :
  SeatingStore.setTableId None <$> SeatingStore.guests (SeatingStore.removeTable id s)
  = SeatingStore.setTableId None <$> SeatingStore.guests s.
Proof.
  unfold SeatingStore.removeTable. destruct (SeatingStore.findTable id s); [|done].
  cbn [SeatingStore.guests]. rewrite <-list_fmap_compose. apply list_fmap_ext.
  intros i g _. simpl. by case_decide.
Qed.

Lemma clear_guests (l : list SeatingStore.Table.t) s :
  SeatingStore.setTableId None
    <$> SeatingStore.guests (foldl (λ s table, SeatingStore.removeTable (SeatingStore.Table.id
        table) s) s l)
  = SeatingStore.setTableId None <$> SeatingStore.guests s.
Proof.
  revert s. induction l as [|t l IH]; intros s; [done|].
  cbn [foldl]. by rewrite IH, removeTable_guests.
Qed.

Lemma final_guests :
  SeatingStore.setTableId None <$> SeatingStore.guests (SeatingStore.applyOptimizedSeating real st2)
  = SeatingStore.setTableId None <$> SeatingStore.guests st.
Proof.
  unfold SeatingStore.applyOptimizedSeating. cbn [SeatingStore.guests].
  rewrite <-list_fmap_compose.
  assert (SeatingStore.setTableId None
            ∘ (λ g, SeatingStore.setTableId (SeatingStore.assignedTable real (SeatingStore.idOf
                g)) g)
          = SeatingStore.setTableId None) as -> by done.
  unfold rebuiltStore. rewrite createTables_spec. cbn [SeatingStore.guests].
  apply clear_guests.
Qed.
Lemma applyResult_spec :
  ∃ st', applyResult draw standardCapacity knightConfig resultTables st = Some st'
    ∧ consistent st' ∧ numbered st'
    ∧ SeatingStore.setTableId None <$> SeatingStore.guests st' = SeatingStore.setTableId None
        <$> SeatingStore.guests st
    ∧ length (SeatingStore.tables st') = length sorted
    ∧ (∀ i t, sorted !! i = Some t →
         ∃ t', SeatingStore.tables st' !! i = Some t'
               ∧ SeatingStore.Table.id t' = draw i
               ∧ SeatingStore.Table.capacity t' = capacityToCreate maxAllowed t
               ∧ SeatingStore.Table.assignedGuests t' ≡ₚ tableIds t)
    ∧ (∀ g tableId, g ∈ SeatingStore.guests st' →
         SeatingStore.tableIdOf g = Some tableId
         ↔ ∃ i t, sorted !! i = Some t ∧ tableId = draw i ∧ SeatingStore.idOf g ∈ tableIds t).
Proof.
  exists (SeatingStore.applyOptimizedSeating real st2).
  assert (length (SeatingStore.tables (SeatingStore.applyOptimizedSeating real st2)) = length
      sorted)
    as Hlen.
  { unfold SeatingStore.applyOptimizedSeating. cbn [SeatingStore.tables].
    by rewrite length_fmap, st2_tables, length_imap. }
  split_and!.
  - apply applyResult_runs.
  - destruct admissible_real. apply consistent_applyOptimizedSeating; [done..|].
    apply consistent_st2.
  - intros i t' Hi.
    destruct (sorted !! i) as [t|] eqn:Hsorted.
    + destruct (final_table i t Hsorted) as (t'' & Hi' & _ & Hnumber & _). congruence.
    + apply lookup_lt_Some in Hi. apply lookup_ge_None in Hsorted. lia.
  - apply final_guests.
  - done.
  - intros i t Hi. destruct (final_table i t Hi) as (t' & ? & ? & ? & ? & ?).
    by exists t'.
  - intros g tableId. apply final_guest.
Qed.
End FinalStore.

Lemma askCapacity_range d standardCapacity :
  askCapacity d = inr standardCapacity → 1 ≤ standardCapacity ≤ 50.
Proof.
  unfold askCapacity. destruct (truthy _); [|done].
  destruct (answer _) as [n|]; [|done].
  destruct (Z.ltb_spec n 1), (Z.ltb_spec 50 n); simpl; try done.
  intros [= <-]. lia.
Qed.

Lemma askKnights_valid d guests knightConfig knightGroupNames :
  askKnights d guests = (knightConfig, knightGroupNames) →
  (KnightConfig.enabled knightConfig = true ∧
   0 < KnightConfig.count knightConfig ∧ 0 < KnightConfig.capacity knightConfig)
  ∨ (knightConfig = KnightConfig.mk false 0 0 ∧ knightGroupNames = []).
Proof.
  unfold askKnights. intros Hask.
  destruct (Dialog.hasKnightTables d); [|right; by simplify_eq].
  destruct (truthy (Dialog.countInput d)); [|right; by simplify_eq].
  destruct (answer (Dialog.countInput d)) as [count|]; [|right; by simplify_eq].
  destruct (if truthy (Dialog.capInput d) then answer (Dialog.capInput d) else Some 0)
    as [cap|]; [|right; by simplify_eq].
  destruct (Z.ltb_spec 0 count), (Z.ltb_spec 0 cap); simpl in Hask;
    try (right; by simplify_eq).
  left. by simplify_eq.
Qed.

Lemma knightCapacity_ok standardCapacity knightConfig knightGroupNames :
  (KnightConfig.enabled knightConfig = true ∧
   0 < KnightConfig.count knightConfig ∧ 0 < KnightConfig.capacity knightConfig)
  ∨ (knightConfig = KnightConfig.mk false 0 0 ∧ knightGroupNames = []) →
  let config := optimizationConfig standardCapacity knightConfig knightGroupNames in
  (knightPhaseOn config → 0 ≤ KnightConfig.capacity (knightConfigOf config))
  ∧ KnightConfig.capacity (knightConfigOf config)
    ≤ maxAllowedCapacity standardCapacity knightConfig.
Proof.
  unfold optimizationConfig, knightConfigOf, maxAllowedCapacity.
  intros [(Hen & Hcount & Hcap)|[-> ->]]; simpl.
  - rewrite Hen. simpl. lia.
  - lia.
Qed.

Lemma result_names guests config :
  distinctIds guests →
  NoDup (OptimizedTable.id <$> OptimizationResult.tables (seatingResult guests config)).
Proof.
  intros Hids.
  destruct (afterMerge_ok (tableCapacityOf config) (λ _, True) distinctIds
              distinctIds_sub ltac:(done) ltac:(done) ltac:(done) ltac:(done)
              ltac:(done) guests config eq_refl ltac:(done) Hids) as [[Hnd _] _].
  simpl. rewrite resultTables_names. by apply (NoDup_fmap_2 _).
Qed.

Lemma guestsOf_ids st : Guest.id <$> guestsOf st = SeatingStore.idOf <$> SeatingStore.guests st.
Proof. unfold guestsOf. by rewrite <-list_fmap_compose. Qed.

Lemma result_members st config :
  consistent st →
  let resultTables := OptimizationResult.tables (seatingResult (guestsOf st) config) in
  NoDup (resultTables ≫= tableIds)
  ∧ ∀ guestId, guestId ∈ resultTables ≫= tableIds →
               guestId ∈ SeatingStore.idOf <$> SeatingStore.guests st.
Proof.
  intros (Hg & _). simpl.
  assert (distinctIds (guestsOf st)) as Hids by (unfold distinctIds; by rewrite guestsOf_ids).
  pose proof (seated_afterMerge (guestsOf st) config Hids) as Hsub.
  rewrite resultTables_ids. split.
  - by apply (distinctIds_sub (guestsOf st)).
  - intros guestId Hin. rewrite <-guestsOf_ids.
    eapply elem_of_submseteq; [exact Hin|]. by apply fmap_submseteq.
Qed.

Lemma handleOptimize_runs draw d st standardCapacity knightConfig knightGroupNames :
  answered d st standardCapacity knightConfig knightGroupNames →
  handleOptimize draw d st
  = if decide (ownGroupKeys (guestsOf st)) then
      match applyResult draw standardCapacity knightConfig
              (OptimizationResult.tables
                 (seatingResult (guestsOf st)
                    (optimizationConfig standardCapacity knightConfig knightGroupNames)))
              st with
      | Some st' => Optimized st'
      | None => OptimizationError
      end
    else OptimizationError.
Proof.
  intros (Hguests & Hcap & Hknights). unfold handleOptimize, guestsOf.
  rewrite Hcap, Hknights, optimizeSeating_spec.
  destruct (SeatingStore.guests st) eqn:Hgs; [done|]. by case_decide.
Qed.

(** ** [parseInt] reads back what [pretty] prints *)

Lemma digitValue_char (d : N) :
  (d < 10)%N → digitValue (pretty_N_char d) = Some (Z.of_N d).
Proof.
  intros Hd.
  assert (d ∈ [0; 1; 2; 3; 4; 5; 6; 7; 8; 9]%N) as Hin.
  { assert (∃ n : nat, d = N.of_nat n ∧ (n < 10)%nat) as (n & -> & Hn)
      by (exists (N.to_nat d); lia).
    do 10 (destruct n as [|n]; [set_solver|]). lia. }
  set_unfold. destruct_or!; by subst.
Qed.

Lemma digits_go (x : N) (s : string) :
  ∃ ds, leadingDigits 10 (pretty_N_go x s) = ds ++ leadingDigits 10 s
        ∧ (∀ acc, foldl (λ acc d, 10 * acc + d) acc ds
                  = acc * 10 ^ Z.of_nat (length ds) + Z.of_N x)
        ∧ ((0 < x)%N → ds ≠ []).
Proof.
  revert s. induction (N.lt_wf_0 x) as [x _ IH]; intros s.
  destruct (decide (x = 0%N)) as [->|Hx].
  - exists []. rewrite pretty_N_go_0. split_and!; [done| |lia].
    intros acc. simpl. lia.
  - rewrite pretty_N_go_step by lia.
    destruct (IH (N.div x 10)) with (s := String (pretty_N_char (N.modulo x 10)) s)
      as (ds & Hds & Hval & _).
    { apply N.div_lt; lia. }
    exists (ds ++ [Z.of_N (N.modulo x 10)]). split_and!.
    + rewrite Hds. cbn [leadingDigits]. rewrite digitValue_char by (apply N.mod_lt; lia).
      assert ((Z.of_N (N.modulo x 10) <? 10) = true) as ->.
      { apply Z.ltb_lt. pose proof (N.mod_lt x 10). lia. }
      by rewrite <-app_assoc.
    + intros acc. rewrite foldl_app, Hval. cbn [foldl].
      rewrite length_app. cbn [length]. rewrite Nat2Z.inj_add, Z.pow_add_r by lia.
      rewrite N2Z.inj_div, N2Z.inj_mod. change (Z.of_N 10) with 10.
      pose proof (Z.div_mod (Z.of_N x) 10). change (10 ^ Z.of_nat 1) with 10. lia.
    + intros _. by destruct ds.
Qed.

Lemma digit_is_no_sign c d :
  digitValue c = Some d →
  Ascii.is_space c = false ∧ c ≠ "-"%char ∧ c ≠ "+"%char.
Proof. destruct c as [[] [] [] [] [] [] [] []]; by vm_compute. Qed.

Lemma parseInt_pretty (n : nat) : parseInt (pretty n) = Some (Z.of_nat n).
Proof.
  unfold pretty, pretty_nat, pretty, pretty_N.
  destruct (decide (N.of_nat n = 0%N)) as [Hn|Hn].
  { assert (n = 0%nat) as -> by lia. by vm_compute. }
  destruct (digits_go (N.of_nat n) "") as (ds & Hds & Hval & Hne).
  specialize (Hne ltac:(lia)). specialize (Hval 0).
  rewrite nat_N_Z in Hval. cbn [leadingDigits] in Hds. rewrite app_nil_r in Hds.
  destruct (pretty_N_go (N.of_nat n) "") as [|c s] eqn:Hs.
  { simpl in Hds. by subst ds. }
  cbn [leadingDigits] in Hds.
  destruct (digitValue c) as [d|] eqn:Hc; [|by subst ds].
  destruct (digit_is_no_sign c d Hc) as (Hspace & Hminus & Hplus).
  unfold parseInt. cbn [trimStart]. rewrite Hspace. unfold signOf.
  rewrite !bool_decide_false by done.
  assert (radixOf (String c s) = (10, String c s)) as ->.
  { unfold radixOf. destruct s as [|c' s]; [done|].
    destruct (decide (c = "0"%char)) as [->|]; [|by rewrite bool_decide_false].
    destruct (decide (c' = "x"%char)) as [->|];
      [|destruct (decide (c' = "X"%char)) as [->|];
        [|by rewrite (bool_decide_false (c' = _)), (bool_decide_false (c' = _))]].
    - exfalso. assert (d = 0) as -> by (vm_compute in Hc; congruence).
      vm_compute in Hds. subst ds. simpl in Hval. lia.
    - exfalso. assert (d = 0) as -> by (vm_compute in Hc; congruence).
      vm_compute in Hds. subst ds. simpl in Hval. lia. }
  cbn [leadingDigits]. rewrite Hc. rewrite Hds. unfold digitsValue.
  destruct ds as [|d0 ds]; [done|]. simpl. f_equal. simpl in Hval. lia.
Qed.

Lemma stripPrefix_app p s : stripPrefix p (p +:+ s) = Some s.
Proof. induction p as [|c p IH]; simpl; [done|]. by rewrite decide_True. Qed.

Lemma removeFirst_prefix p s : removeFirst p (p +:+ s) = s.
Proof.
  destruct (p +:+ s) eqn:Heq; simpl.
  - pose proof (stripPrefix_app p s) as Hstrip. rewrite Heq in Hstrip.
    destruct p; simpl in *; by simplify_eq.
  - pose proof (stripPrefix_app p s) as Hstrip. rewrite Heq in Hstrip.
    by rewrite Hstrip.
Qed.

Lemma tableNumber_resultTable (e : nat * WorkingTable.t) :
  tableNumber (resultTable e) = Some (Z.of_nat e.1).
Proof.
  unfold tableNumber, resultTable, tableName. cbn [OptimizedTable.id].
  by rewrite removeFirst_prefix, parseInt_pretty.
Qed.

(** ** [sort] with a comparator that subtracts keys *)

Section SortedByKey.
Context {A : Type} (key : A → Z) (cmp : A → A → Z).

Lemma sortInsert_sorted x l :
  (∀ y, y ∈ l → cmp x y = key x - key y) →
  StronglySorted (λ a b, key a ≤ key b) l →
  StronglySorted (λ a b, key a ≤ key b) (sortInsert cmp x l).
Proof.
  intros Hcmp Hl. induction Hl as [|y l Hl IH Hy]; simpl.
  - repeat constructor.
  - destruct (Z.ltb_spec 0 (cmp x y)) as [Hlt|Hge].
    + rewrite Hcmp in Hlt by left. constructor.
      * apply IH. intros z Hz. apply Hcmp. by right.
      * apply Forall_forall. intros z Hz.
        assert (z ∈ x :: l) as [->|Hz']%elem_of_cons.
        { by rewrite <-(Permutation_middle [] l x), <-sortInsert_perm. }
        -- lia.
        -- rewrite Forall_forall in Hy. by apply Hy.
    + rewrite Hcmp in Hge by left. constructor; [by constructor|].
      constructor; [lia|]. eapply Forall_impl; [exact Hy|]. simpl. intros; lia.
Qed.

Lemma jsSort_sorted l :
  (∀ x y, x ∈ l → y ∈ l → cmp x y = key x - key y) →
  StronglySorted (λ a b, key a ≤ key b) (jsSort cmp l).
Proof.
  induction l as [|x l IH]; intros Hcmp; simpl; [constructor|].
  apply sortInsert_sorted.
  - intros y Hy. rewrite jsSort_perm in Hy. apply Hcmp; [left|by right].
  - apply IH. intros y z Hy Hz. apply Hcmp; by right.
Qed.
End SortedByKey.

(** ** Seats taken at a table *)

Lemma totalOccupied_guests (l : list SeatingStore.StoredGuest.t) :
  totalOccupied l = getGuestsSize (SeatingStore.StoredGuest.guest <$> l).
Proof. unfold totalOccupied, getGuestsSize. by rewrite foldl_fmap. Qed.

Lemma filter_ext_in {A} (P Q : A → Prop) `{!∀ x, Decision (P x)} `{!∀ x, Decision (Q x)}
    (l : list A) :
  (∀ x, x ∈ l → P x ↔ Q x) → filter P l = filter Q l.
Proof.
  induction l as [|x l IH]; intros HPQ; [done|].
  rewrite !filter_cons, IH by (intros y Hy; apply HPQ; by right).
  destruct (decide (P x)) as [HP|HP], (decide (Q x)) as [HQ|HQ]; try done.
  - destruct HQ. by apply (HPQ x); [left|].
  - destruct HP. by apply (HPQ x); [left|].
Qed.

Lemma filter_keys_perm {A B} `{EqDecision B} (key : A → B) (l l' : list A) :
  NoDup (key <$> l) → l' ⊆+ l → filter (λ x, key x ∈ key <$> l') l ≡ₚ l'.
Proof.
  intros Hnd Hsub. apply NoDup_Permutation.
  - apply NoDup_filter. by apply (NoDup_fmap_1 key).
  - eapply submseteq_NoDup; [exact Hsub|]. by apply (NoDup_fmap_1 key).
  - intros x. rewrite list_elem_of_filter, list_elem_of_fmap. split.
    + intros [(y & Hkey & Hy) Hx].
      assert (x = y) as -> by (eapply (NoDup_fmap_inj key l); eauto using elem_of_submseteq).
      done.
    + intros Hx. split; [by exists x|by eapply elem_of_submseteq].
Qed.

Lemma bind_elem_submseteq {A B} (f : A → list B) (l : list A) x :
  x ∈ l → f x ⊆+ l ≫= f.
Proof.
  intros [l1 [l2 ->]]%list_elem_of_split. rewrite bind_app, bind_cons.
  apply submseteq_inserts_l, submseteq_inserts_r. done.
Qed.

Lemma gSize_guests_unseated (l l' : list SeatingStore.StoredGuest.t) (ids : list string) :
  SeatingStore.setTableId None <$> l' = SeatingStore.setTableId None <$> l →
  getGuestsSize (SeatingStore.StoredGuest.guest <$> filter (λ g, SeatingStore.idOf g ∈ ids) l')
  = getGuestsSize (SeatingStore.StoredGuest.guest <$> filter (λ g, SeatingStore.idOf g ∈ ids) l).
Proof.
  revert l'. induction l as [|g l IH]; intros [|g' l'] Heq; simplify_eq/=; [done|].
  rewrite !filter_cons. assert (SeatingStore.idOf g' = SeatingStore.idOf g) as Hid.
  { unfold SeatingStore.idOf. destruct g as [[]], g' as [[]]. by simplify_eq/=. }
  assert (gSize (SeatingStore.StoredGuest.guest g') = gSize (SeatingStore.StoredGuest.guest g))
      as Hsize.
  { unfold gSize. destruct g as [[]], g' as [[]]. by simplify_eq/=. }
  rewrite Hid. case_decide; rewrite ?fmap_cons, ?getGuestsSize_cons, ?Hsize; by rewrite IH.
Qed.

(** ** What the handler does *)

Lemma answered_valid d st standardCapacity knightConfig knightGroupNames :
  answered d st standardCapacity knightConfig knightGroupNames →
  let config := optimizationConfig standardCapacity knightConfig knightGroupNames in
  1 ≤ standardCapacity ≤ 50
  ∧ (knightPhaseOn config → 0 ≤ KnightConfig.capacity (knightConfigOf config))
  ∧ KnightConfig.capacity (knightConfigOf config)
    ≤ maxAllowedCapacity standardCapacity knightConfig.
Proof.
  intros (_ & Hcap & Hknights). split; [by apply (askCapacity_range d)|].
  apply knightCapacity_ok. by apply (askKnights_valid d (SeatingStore.guests st)).
Qed.

(** X13. Whatever is answered to the dialogs of [handleOptimize], the
    optimiser is only run with a standard capacity from 1 to 50 and with
    knight tables that are either left out (then no group names are passed)
    or enabled with a positive count and a positive capacity; and on such a
    run every table of the result holds no more seats than its capacity. *)
Theorem optimiser_runs_on_valid_sizes_only d st standardCapacity knightConfig
    knightGroupNames :
  answered d st standardCapacity knightConfig knightGroupNames →
  1 ≤ standardCapacity ≤ 50
  ∧ ((KnightConfig.enabled knightConfig = true ∧
      0 < KnightConfig.count knightConfig ∧ 0 < KnightConfig.capacity knightConfig)
     ∨ (knightConfig = KnightConfig.mk false 0 0 ∧ knightGroupNames = []))
  ∧ Forall fits
      (OptimizationResult.tables
         (seatingResult (guestsOf st)
            (optimizationConfig standardCapacity knightConfig knightGroupNames))).
Proof.
  intros Hanswered. destruct (answered_valid _ _ _ _ _ Hanswered) as (Hrange & Hknight & _).
  destruct Hanswered as (_ & Hcap & Hknights).
  split; [done|]. split; [by apply (askKnights_valid d (SeatingStore.guests st))|].
  destruct (withinCapacity_phases (guestsOf st) _ Hknight) as (_ & _ & Hm).
  simpl. apply Forall_fmap. eapply Forall_impl; [exact Hm|]. by intros [i t].
Qed.

Lemma optimiser_runs_on_valid_sizes_only_witness :
  answered tablesOfTwo threeSinglesStore 2 (KnightConfig.mk false 0 0) []
  ∧ Forall fits
      (OptimizationResult.tables
         (seatingResult (guestsOf threeSinglesStore)
            (optimizationConfig 2 (KnightConfig.mk false 0 0) []))).
Proof.
  split; [exact answered_tablesOfTwo|].
  apply (optimiser_runs_on_valid_sizes_only tablesOfTwo threeSinglesStore 2
           (KnightConfig.mk false 0 0) [] answered_tablesOfTwo).
Defined.



(** X15. After the optimise button no table is overfull by seats: if every
    guest of the store counts for 1 to 50 seats, then in the store that
    [handleOptimize] leaves the guests whose [tableId] is a table's id take
    no more seats, summing [amount || 1], than the table's capacity. *)
Theorem optimised_tables_have_room draw d st standardCapacity knightConfig
    knightGroupNames st' :
  consistent st →
  (∀ index, draw index ≠ ""%string) → (∀ i j, draw i = draw j → i = j) →
  answered d st standardCapacity knightConfig knightGroupNames →
  Forall (λ g, 1 ≤ gSize g ≤ 50) (guestsOf st) →
  handleOptimize draw d st = Optimized st' →
  Forall (λ table, totalOccupied (tableGuests st' table) ≤ SeatingStore.Table.capacity table)
         (SeatingStore.tables st').
Proof.
  intros Hst Hnonempty Hnew Hanswered Hsizes Hrun.
  set (config := optimizationConfig standardCapacity knightConfig knightGroupNames).
  destruct (answered_valid _ _ _ _ _ Hanswered) as (Hrange & Hknight & Hknightmax).
  fold config in Hknight, Hknightmax.
  rewrite (handleOptimize_runs draw d st _ _ _ Hanswered) in Hrun. fold config in Hrun.
  destruct (decide (ownGroupKeys (guestsOf st))); [|done].
  destruct (result_members st config Hst) as [Hmembers Hknown].
  assert (distinctIds (guestsOf st)) as Hids.
  { unfold distinctIds. rewrite guestsOf_ids. by destruct Hst. }
  destruct (applyResult_spec draw Hnonempty Hnew standardCapacity knightConfig
              (OptimizationResult.tables (seatingResult (guestsOf st) config)) st Hst
              Hmembers (result_names _ config Hids) Hknown)
    as (st'' & Happly & _ & _ & Hguests & Hlen & Htables & Hseated).
  rewrite Happly in Hrun. simplify_eq.
  set (resultTables := OptimizationResult.tables (seatingResult (guestsOf st) config)) in *.
  set (sorted := jsSort byTableNumber resultTables) in *.
  assert (positiveSizes (guestsOf st)) as Hpos.
  { eapply Forall_impl; [exact Hsizes|]. simpl. intros; lia. }
  apply Forall_forall. intros table [i Hi]%list_elem_of_lookup.
  destruct (sorted !! i) as [t|] eqn:Hsorted.
  2:{ apply lookup_lt_Some in Hi. apply lookup_ge_None in Hsorted. lia. }
  destruct (Htables i t Hsorted) as (t' & Hi' & Hid & Hcap & _).
  assert (t' = table) as -> by congruence.
  assert (t ∈ resultTables) as Ht.
  { unfold sorted in Hsorted. rewrite <-(jsSort_perm byTableNumber).
    by eapply list_elem_of_lookup_2. }
  (* the guests shown at the table are the members of the optimiser's table *)
  assert (totalOccupied (tableGuests st' table) = getGuestsSize (OptimizedTable.guests t))
    as ->.
  { rewrite totalOccupied_guests. unfold tableGuests.
    rewrite (filter_ext_in _ (λ g, SeatingStore.idOf g ∈ tableIds t)).
    2:{ intros g Hg. rewrite (Hseated g (SeatingStore.Table.id table) Hg). rewrite Hid. split.
        - intros (j & t2 & Hj & Hdraw & Hin). apply Hnew in Hdraw. subst j.
          by simplify_eq.
        - intros Hin. by exists i, t. }
    rewrite (gSize_guests_unseated (SeatingStore.guests st) _ _ Hguests).
    rewrite <-(filter_fmap_iff SeatingStore.StoredGuest.guest (λ g, Guest.id g ∈ tableIds t)
                 (λ g, SeatingStore.idOf g ∈ tableIds t)) by done.
    apply getGuestsSize_perm. fold (guestsOf st). apply filter_keys_perm; [done|].
    etrans; [|apply (seated_afterMerge (guestsOf st) config Hids)].
    rewrite <-resultTables_guests. by apply bind_elem_submseteq. }
  (* the optimiser's table fits, and the cap does not bite *)
  destruct (withinCapacity_phases (guestsOf st) config Hknight) as (_ & _ & Hfit).
  pose proof (capacityOk_result (guestsOf st) config Hpos) as Hok.
  unfold resultTables in Ht. cbn [seatingResult OptimizationResult.tables] in Ht.
  apply list_elem_of_fmap in Ht as ([n wt] & -> & Hwt).
  rewrite Forall_forall in Hfit, Hok. specialize (Hfit _ Hwt). specialize (Hok _ Hwt).
  unfold withinCapacity, occupancy in Hfit. simpl in Hfit, Hok.
  rewrite Hcap. unfold capacityToCreate, resultTable. simpl.
  assert (WorkingTable.capacity wt ≤ maxAllowedCapacity standardCapacity knightConfig)
    as Hmax.
  { unfold capacityOk in Hok. destruct (WorkingTable.isKnight wt).
    - by rewrite Hok.
    - destruct Hok as [->|(g & Hg & -> & _)].
      + unfold maxAllowedCapacity, config, tableCapacityOf. simpl. lia.
      + assert (g ∈ guestsOf st) as Hin.
        { eapply elem_of_submseteq; [|apply (seated_afterMerge (guestsOf st) config Hids)].
          apply list_elem_of_bind. exists (n, wt). split; [|done]. simpl. rewrite Hg. left. }
        rewrite Forall_forall in Hsizes. specialize (Hsizes g Hin).
        unfold maxAllowedCapacity. lia. }
  destruct (Z.ltb_spec (maxAllowedCapacity standardCapacity knightConfig)
              (WorkingTable.capacity wt)); lia.
Qed.

Lemma optimised_tables_have_room_witness :
  consistent threeSinglesStore
  ∧ (∀ index, drawn index ≠ ""%string) ∧ (∀ i j, drawn i = drawn j → i = j)
  ∧ answered tablesOfTwo threeSinglesStore 2 (KnightConfig.mk false 0 0) []
  ∧ Forall (λ g, 1 ≤ gSize g ≤ 50) (guestsOf threeSinglesStore)
  ∧ ∃ st', handleOptimize drawn tablesOfTwo threeSinglesStore = Optimized st'
      ∧ Forall (λ table, totalOccupied (tableGuests st' table) ≤ SeatingStore.Table.capacity table)
               (SeatingStore.tables st').
Proof.
  assert (Forall (λ g, 1 ≤ gSize g ≤ 50) (guestsOf threeSinglesStore)) as Hsizes
    by (repeat constructor; by vm_compute).
  split_and!; [exact consistent_threeSinglesStore|exact drawn_nonempty|exact drawn_new
              |exact answered_tablesOfTwo|exact Hsizes|].
  eexists. split; [by vm_compute|].
  apply (optimised_tables_have_room drawn tablesOfTwo threeSinglesStore 2
           (KnightConfig.mk false 0 0) [] _ consistent_threeSinglesStore
           drawn_nonempty drawn_new answered_tablesOfTwo Hsizes).
  by vm_compute.
Defined.

(** X16. The handler reads back the numbers the optimiser writes: for every
    table of a result, [parseInt(id.replace('table-', ''))] is the number
    [n] of its id [table-<n>], so the sorted tables, which the handler
    creates in that order, are in ascending order of their numbers. *)
Theorem tables_are_created_in_number_order guests config :
  let sorted :=
    jsSort byTableNumber (OptimizationResult.tables (seatingResult guests config)) in
  ∃ numbers : list nat,
    OptimizedTable.id <$> sorted = tableName <$> numbers
    ∧ tableNumber <$> sorted = (λ n, Some (Z.of_nat n)) <$> numbers
    ∧ StronglySorted le numbers.
Proof.
  cbn [seatingResult OptimizationResult.tables].
  rewrite (jsSort_fmap resultTable byTableNumber).
  set (entries := jsSort _ (afterMerge guests config)).
  exists entries.*1. split_and!.
  - rewrite <-!list_fmap_compose. by apply list_fmap_ext.
  - rewrite <-!list_fmap_compose. apply list_fmap_ext. intros i e _. simpl.
    apply tableNumber_resultTable.
  - assert (StronglySorted (λ a b : nat * WorkingTable.t, Z.of_nat a.1 ≤ Z.of_nat b.1) entries)
      as Hsorted.
    { apply jsSort_sorted. intros x y _ _. unfold byTableNumber.
      by rewrite !tableNumber_resultTable. }
    induction Hsorted as [|e l _ IH Hle]; csimpl; constructor; [done|].
    apply Forall_fmap. eapply Forall_impl; [exact Hle|]. simpl. intros; lia.
Qed.

(** * Reading the sheet *)

Lemma floor_range (n : Z) (d : positive) (hi : Z) :
  0 ≤ hi → (n <? 0) || (hi * Z.pos d <? n) = false → 0 ≤ n / Z.pos d ≤ hi.
Proof.
  intros Hhi [Hlo%Z.ltb_ge Hup%Z.ltb_ge]%orb_false_iff. split.
  - apply Z.div_pos; lia.
  - apply Z.div_le_upper_bound; lia.
Qed.

Lemma amountFromText_range numberToString value :
  1 ≤ amountFromText numberToString value ≤ 3.
Proof. unfold amountFromText. repeat case_match; lia. Qed.

(** X17. Whatever the cell holds and whatever [Number] and [String] make of
    it, [parseAmount] returns a whole number from 1 to 20, and [parseAge]
    returns a whole number from 0 to 120 when it returns one. *)
Theorem amounts_and_ages_are_in_range toNumber numberToString value :
  1 ≤ parseAmount toNumber numberToString value ≤ 20
  ∧ from_option (λ age, 0 ≤ age ≤ 120) True (parseAge toNumber value).
Proof.
  unfold parseAmount, parseAge. destruct (falsy value); [simpl; lia|].
  pose proof (amountFromText_range numberToString value).
  destruct (asNumber toNumber value) as [|n d| |]; simpl; try lia.
  split.
  - destruct ((n <? 0) || (20 * Z.pos d <? n)) eqn:Hrange; [lia|].
    pose proof (floor_range n d 20 ltac:(lia) Hrange). lia.
  - destruct ((n <? 0) || (120 * Z.pos d <? n)) eqn:Hrange; [done|].
    simpl. by apply floor_range.
Qed.

(** * Chair ids *)

Lemma includes_unfold needle s :
  includes needle s
  = bool_decide (is_Some (stripPrefix needle s))
    || match s with
       | String _ s' => includes needle s'
       | EmptyString => false
       end.
Proof. by destruct s. Qed.

Lemma firstPiece_unfold separator s :
  firstPiece separator s
  = match stripPrefix separator s with
    | Some _ => EmptyString
    | None =>
        match s with
        | String c s' => String c (firstPiece separator s')
        | EmptyString => EmptyString
        end
    end.
Proof. by destruct s. Qed.

Lemma includes_hyphen_cons c s :
  includes "-" (String c s) = false → c ≠ "-"%char ∧ includes "-" s = false.
Proof.
  rewrite includes_unfold. cbn [stripPrefix]. intros [Hc Hs]%orb_false_iff. split; [|done].
  intros ->. by rewrite decide_True in Hc.
Qed.

Lemma chair_marker_found guestId rest :
  includes "-chair-" (guestId +:+ "-chair-" +:+ rest) = true.
Proof.
  induction guestId as [|c guestId IH].
  - change (("" +:+ "-chair-" +:+ rest)%string) with ("-chair-" +:+ rest)%string.
    rewrite includes_unfold, (stripPrefix_app "-chair-" rest). done.
  - change ((String c guestId +:+ "-chair-" +:+ rest)%string)
      with (String c (guestId +:+ "-chair-" +:+ rest)).
    rewrite includes_unfold, IH. apply orb_true_r.
Qed.

Lemma firstPiece_chair guestId rest :
  includes "-" guestId = false →
  firstPiece "-chair-" (guestId +:+ "-chair-" +:+ rest) = guestId.
Proof.
  induction guestId as [|c guestId IH]; intros Hfree.
  - change (("" +:+ "-chair-" +:+ rest)%string) with ("-chair-" +:+ rest)%string.
    by rewrite firstPiece_unfold, (stripPrefix_app "-chair-" rest).
  - apply includes_hyphen_cons in Hfree as [Hc Hfree].
    change ((String c guestId +:+ "-chair-" +:+ rest)%string)
      with (String c (guestId +:+ "-chair-" +:+ rest)).
    rewrite firstPiece_unfold. cbn [stripPrefix].
    rewrite decide_False by done. by rewrite IH.
Qed.

Lemma no_hyphen_no_marker s : includes "-" s = false → includes "-chair-" s = false.
Proof.
  induction s as [|c s IH]; intros Hfree; [done|].
  apply includes_hyphen_cons in Hfree as [Hc Hfree].
  rewrite includes_unfold. cbn [stripPrefix]. rewrite decide_False by done.
  simpl. by apply IH.
Qed.

(** X18. Round trip of the chair ids: for a guest id without a hyphen, the
    drag handler recovers the guest id from the id of any of the guest's
    chairs, and leaves the guest id itself as it is. *)
Theorem chair_ids_lead_back_to_the_guest guestId chairIndex :
  includes "-" guestId = false →
  draggedGuestId (chairId guestId chairIndex) = guestId
  ∧ draggedGuestId guestId = guestId.
Proof.
  intros Hfree. unfold draggedGuestId, chairId. split.
  - rewrite chair_marker_found. by apply firstPiece_chair.
  - by rewrite no_hyphen_no_marker.
Qed.

Lemma chair_ids_lead_back_to_the_guest_witness :
  includes "-" "k3j9x" = false
  ∧ draggedGuestId (chairId "k3j9x" 2) = "k3j9x"%string.
Proof.
  assert (includes "-" "k3j9x" = false) as Hfree by by vm_compute.
  split; [exact Hfree|].
  apply (chair_ids_lead_back_to_the_guest "k3j9x" 2 Hfree).
Defined.

(** * Tables on screen *)

Lemma omap_lookups {A} (l : list A) (first n : nat) :
  omap (λ i, l !! i) (seq first n) = take n (drop first l).
Proof.
  revert first. induction n as [|n IH]; intros first; [done|].
  csimpl. destruct (l !! first) as [x|] eqn:Hx.
  - rewrite IH. rewrite (drop_S l x first Hx). reflexivity.
  - rewrite IH. apply lookup_ge_None in Hx.
    rewrite !drop_ge by lia. by rewrite !take_nil.
Qed.

Lemma omap_fmap_list {A B C} (f : A → B) (g : B → option C) (l : list A) :
  omap g (f <$> l) = omap (g ∘ f) l.
Proof. induction l as [|x l IH]; csimpl; [done|]. by rewrite IH. Qed.

Lemma shown_guests capacity guests :
  omap Seat.guest (seats capacity guests)
  = take (Z.to_nat capacity) (assignedQueue guests).*1.
Proof.
  unfold seats. cbv zeta. rewrite omap_fmap_list.
  trans (take (Z.to_nat capacity) (drop 0 (assignedQueue guests).*1)); [|done].
  rewrite <-(omap_lookups (assignedQueue guests).*1 0 (Z.to_nat capacity)).
  generalize (seq 0 (Z.to_nat capacity)) as l.
  induction l as [|i l IH]; [done|]. csimpl. rewrite list_lookup_fmap, IH. done.
Qed.

Lemma length_assignedQueue guests :
  Forall (λ g, 0 ≤ gSize (SeatingStore.StoredGuest.guest g)) guests →
  Z.of_nat (length (assignedQueue guests)) = totalOccupied guests.
Proof.
  rewrite totalOccupied_guests. unfold assignedQueue.
  induction 1 as [|g guests Hg _ IH]; [done|].
  rewrite bind_cons, length_app, length_fmap, length_seq, fmap_cons, getGuestsSize_cons.
  lia.
Qed.

(** X19. A table is drawn with one chair per unit of capacity, and the
    chairs show the first guests of the queue, each guest as often as its
    [amount || 1]: every guest of the table is shown on all of its seats
    exactly when the seats taken do not exceed the capacity, and otherwise
    the queue is cut at the capacity. *)
Theorem chairs_show_everyone_iff_there_is_room capacity guests :
  Forall (λ g, 0 ≤ gSize (SeatingStore.StoredGuest.guest g)) guests → 0 ≤ capacity →
  length (seats capacity guests) = Z.to_nat capacity
  ∧ omap Seat.guest (seats capacity guests)
    = take (Z.to_nat capacity) (assignedQueue guests).*1
  ∧ (omap Seat.guest (seats capacity guests) = (assignedQueue guests).*1
     ↔ totalOccupied guests ≤ capacity).
Proof.
  intros Hsizes Hcap. split_and!.
  - unfold seats. by rewrite length_fmap, length_seq.
  - apply shown_guests.
  - rewrite shown_guests, <-(length_assignedQueue guests Hsizes). split.
    + intros Heq. apply (f_equal length) in Heq.
      rewrite length_take, length_fmap in Heq. lia.
    + intros Hle. apply take_ge. rewrite length_fmap. lia.
Qed.

Lemma chairs_show_everyone_iff_there_is_room_witness :
  Forall (λ g, 0 ≤ gSize (SeatingStore.StoredGuest.guest g))
         (SeatingStore.guests threeSinglesStore)
  ∧ 0 ≤ 4
  ∧ omap Seat.guest (seats 4 (SeatingStore.guests threeSinglesStore))
    = (assignedQueue (SeatingStore.guests threeSinglesStore)).*1.
Proof.
  assert (Forall (λ g, 0 ≤ gSize (SeatingStore.StoredGuest.guest g))
                 (SeatingStore.guests threeSinglesStore)) as Hsizes
    by (repeat constructor; by vm_compute).
  assert (0 ≤ 4) as Hcap by lia.
  split_and!; [exact Hsizes|exact Hcap|].
  apply (chairs_show_everyone_iff_there_is_room 4 (SeatingStore.guests threeSinglesStore)
           Hsizes Hcap).
  by vm_compute.
Defined.

(** * The previous revision

    The loops of the previous revision keep three things in step: the
    tables, the pool of guests still to seat and the assignment.  One
    lemma for each loop carries the three through it: the tables stay
    within their head count, the guests seated and the guests left are
    the guests that came in, and the assignment follows the tables as
    long as no id comes twice. *)

(** ** Writing the assignment *)

Section LegacyFacts.
Implicit Types (st : Legacy.Seating.t) (ta : TableAssignments)
  (chunk guestsToSeat : list Guest.t) (assignment : list (string * string)).

Lemma legacy_assign_lookup tableId chunk assignment guestId :
  dictGet guestId (Legacy.assign tableId chunk assignment)
  = if decide (guestId ∈ Guest.id <$> chunk) then Some (tableName tableId)
    else dictGet guestId assignment.
Proof.
  unfold Legacy.assign. revert assignment.
  induction chunk as [|g chunk IH]; intros assignment.
  - rewrite fmap_nil. cbn [foldl].
    rewrite decide_False; [done|apply not_elem_of_nil].
  - cbn [foldl]. rewrite IH, fmap_cons, dictGet_dictSet.
    destruct (decide (guestId ∈ Guest.id <$> chunk)) as [Hin|Hnin].
    + rewrite decide_True; [done|by right].
    + destruct (decide (guestId = Guest.id g)) as [->|Hne].
      * rewrite decide_True; [done|left].
      * rewrite decide_False; [done|].
        by intros [?|?]%elem_of_cons.
Qed.

Lemma legacy_assign_keys tableId chunk assignment :
  NoDup (assignment.*1 ++ (Guest.id <$> chunk)) →
  (Legacy.assign tableId chunk assignment).*1 = assignment.*1 ++ (Guest.id <$> chunk).
Proof.
  unfold Legacy.assign. revert assignment.
  induction chunk as [|g chunk IH]; intros assignment Hnd.
  - by rewrite fmap_nil, app_nil_r.
  - cbn [foldl]. rewrite fmap_cons in *.
    assert (Guest.id g ∉ assignment.*1) as Hfresh.
    { apply NoDup_app in Hnd as (_ & Hdisj & _). intros Hin.
      apply (Hdisj _ Hin). left. }
    rewrite dictSet_fresh by done.
    rewrite IH; rewrite fmap_app; csimpl.
    + by rewrite <- (assoc (++)).
    + by rewrite <- (assoc (++)).
Qed.

Lemma seated_elem g ta :
  g ∈ seated ta ↔ ∃ k t, (k, t) ∈ ta ∧ g ∈ WorkingTable.guests t.
Proof.
  unfold seated. rewrite list_elem_of_bind. split.
  - intros ([k t] & ? & ?). by exists k, t.
  - intros (k & t & ? & ?). by exists (k, t).
Qed.

(** ** One turn of a loop *)

(** Seating a chunk at a table that has room for it. *)
Lemma legacy_seatAt_ok mark k t chunk st :
  legacyOk st →
  dictGet k (Legacy.Seating.tableAssignments st) = Some t →
  Z.of_nat (length chunk) ≤ Legacy.spaceOf t →
  (∀ t', WorkingTable.guests (mark t') = WorkingTable.guests t') →
  (∀ t', WorkingTable.capacity (mark t') = WorkingTable.capacity t') →
  let st' := Legacy.seatAt mark k chunk st in
  legacyOk st'
  ∧ seated (Legacy.Seating.tableAssignments st')
      ≡ₚ seated (Legacy.Seating.tableAssignments st) ++ chunk
  ∧ (distinctIds (seated (Legacy.Seating.tableAssignments st) ++ chunk) →
     assignmentAgrees st → assignmentAgrees st').
Proof.
  destruct st as [ta c assignment]. unfold legacyOk. simpl.
  intros Hok Hget Hroom Hguests Hcapacity.
  assert (seated (dictAlter (λ t0, mark (seat chunk t0)) k ta) ≡ₚ seated ta ++ chunk)
    as Hseated.
  { apply (seated_alter _ k t); [done|]. by rewrite Hguests. }
  split_and!.
  - apply (tablesOk_alter _ _ _ t); [done|by apply dictGet_elem_of|].
    unfold headcountOk, Legacy.spaceOf in *.
    rewrite Hguests, Hcapacity. simpl. rewrite length_app. lia.
  - done.
  - intros Hids [Hkeys Hagree].
    assert (NoDup (assignment.*1 ++ (Guest.id <$> chunk))) as Hnd.
    { rewrite Hkeys, <- fmap_app. exact Hids. }
    split; simpl.
    + rewrite legacy_assign_keys by done. by rewrite Hseated, fmap_app, Hkeys.
    + intros k' t' g Hin Hg. rewrite legacy_assign_lookup.
      destruct Hok as [[Hndk _] _].
      destruct (decide (k' = k)) as [->|Hne].
      * case_decide; [done|].
        assert (dictGet k (dictAlter (λ t0, mark (seat chunk t0)) k ta) = Some t') as Hget'.
        { apply dictGet_NoDup; [by rewrite dictAlter_keys|done]. }
        rewrite dictGet_alter_eq, Hget in Hget'. simpl in Hget'.
        injection Hget' as <-. rewrite Hguests in Hg. simpl in Hg.
        apply elem_of_app in Hg as [Hg|Hg].
        -- apply (Hagree k t); [by apply dictGet_elem_of|done].
        -- exfalso. apply H. apply list_elem_of_fmap. by exists g.
      * assert (dictGet k' ta = Some t') as Hget'.
        { rewrite <- (dictGet_alter_ne (λ t0, mark (seat chunk t0)) k k') by done.
          apply dictGet_NoDup; [by rewrite dictAlter_keys|done]. }
        apply dictGet_elem_of in Hget'.
        rewrite decide_False; [by apply (Hagree k' t')|].
        intros Hin'. unfold distinctIds in Hids. rewrite fmap_app in Hids.
        apply NoDup_app in Hids as (_ & Hdisj & _).
        apply (Hdisj (Guest.id g)); [|done].
        apply list_elem_of_fmap. exists g. split; [done|].
        apply seated_elem. by exists k', t'.
Qed.

(** Opening a table. *)
Lemma legacy_openTable_ok table st :
  legacyOk st → WorkingTable.guests table = [] →
  let st' := Legacy.openTable table st in
  legacyOk st'
  ∧ dictGet (Legacy.Seating.tableCounter st) (Legacy.Seating.tableAssignments st')
      = Some table
  ∧ seated (Legacy.Seating.tableAssignments st')
      = seated (Legacy.Seating.tableAssignments st)
  ∧ (assignmentAgrees st → assignmentAgrees st').
Proof.
  destruct st as [ta c assignment]. unfold legacyOk. simpl.
  intros [Hwf Hall] Hempty.
  pose proof (wfTables_fresh _ _ Hwf) as Hfresh.
  rewrite dictSet_fresh by done.
  assert (seated (ta ++ [(c, table)]) = seated ta) as Hseated.
  { unfold seated. rewrite bind_app. csimpl. by rewrite Hempty, !app_nil_r. }
  split_and!.
  - split.
    + destruct Hwf as [Hnd Hlt]. unfold wfTables. rewrite fmap_app. csimpl. split.
      * apply NoDup_app. split_and!; [done| |apply NoDup_singleton].
        intros k Hk ->%list_elem_of_singleton. done.
      * intros k [Hk| ->%list_elem_of_singleton]%elem_of_app; [apply Hlt in Hk|]; lia.
    + apply Forall_app. split; [done|]. repeat constructor.
      unfold headcountOk. simpl. rewrite Hempty. simpl. lia.
  - rewrite <- (dictSet_fresh c table ta) by done.
    rewrite dictGet_dictSet. by rewrite decide_True.
  - done.
  - intros [Hkeys Hagree]. unfold assignmentAgrees, Legacy.openTable.
    cbn [Legacy.Seating.assignment Legacy.Seating.tableAssignments
         Legacy.Seating.tableCounter] in *.
    rewrite ?dictSet_fresh by done. split.
    + by rewrite Hseated.
    + intros k t g [Hin|Heq%list_elem_of_singleton]%elem_of_app Hg.
      * by apply (Hagree k t).
      * simplify_eq. rewrite Hempty in Hg. by apply elem_of_nil in Hg.
Qed.

(** ** The scans *)

Lemma legacy_knightBest_spec count ta k m :
  Legacy.knightBest count ta = (Some k, m) →
  ∃ t, dictGet k ta = Some t ∧ Legacy.spaceOf t = m ∧ 0 < m.
Proof.
  unfold Legacy.knightBest.
  apply (foldl_invariant
    (λ acc : option nat * Z, acc = (Some k, m) →
       ∃ t, dictGet k ta = Some t ∧ Legacy.spaceOf t = m ∧ 0 < m)); [done|].
  intros acc i _ Hacc.
  destruct (dictGet i ta) as [table|] eqn:Hget; [|done]. simpl.
  destruct ((0 <? Legacy.spaceOf table) && (acc.2 <? Legacy.spaceOf table)) eqn:Hc; [|done].
  intros [= <- <-]. exists table.
  apply andb_true_iff in Hc as [?%Z.ltb_lt _]. done.
Qed.

Lemma legacy_bestFit_spec group needed ta k :
  Legacy.bestFit group needed ta = Some k →
  ∃ t, (k, t) ∈ ta ∧ WorkingTable.isKnight t = false ∧ needed ≤ Legacy.spaceOf t.
Proof.
  unfold Legacy.bestFit.
  apply (foldl_invariant
    (λ acc : option nat * option Z, acc.1 = Some k →
       ∃ t, (k, t) ∈ ta ∧ WorkingTable.isKnight t = false
            ∧ needed ≤ Legacy.spaceOf t)); [done|].
  intros acc [i t] Hin Hacc. simpl.
  destruct ((needed <=? Legacy.spaceOf t) && isSideMatch group t) eqn:Hc; [|done].
  apply andb_true_iff in Hc as [Hfit%Z.leb_le _].
  apply list_elem_of_filter in Hin as [Hstd Hin]. simpl in Hstd.
  assert (i = k → ∃ t0, (k, t0) ∈ ta ∧ WorkingTable.isKnight t0 = false
                        ∧ needed ≤ Legacy.spaceOf t0) as Hnew.
  { intros <-. by exists t. }
  destruct (acc.2); [case_match|]; simpl; [|done|]; intros [= ?]; auto.
Qed.

Lemma legacy_bestPartial_spec group ta k m :
  Legacy.bestPartial group ta = (Some k, m) →
  ∃ t, (k, t) ∈ ta ∧ WorkingTable.isKnight t = false ∧ Legacy.spaceOf t = m ∧ 0 < m.
Proof.
  unfold Legacy.bestPartial.
  apply (foldl_invariant
    (λ acc : option nat * Z, acc = (Some k, m) →
       ∃ t, (k, t) ∈ ta ∧ WorkingTable.isKnight t = false
            ∧ Legacy.spaceOf t = m ∧ 0 < m)); [done|].
  intros acc [i t] Hin Hacc. simpl.
  destruct ((0 <? Legacy.spaceOf t) && isSideMatch group t && (acc.2 <? Legacy.spaceOf t))
    eqn:Hc; [|done].
  intros [= <- <-]. exists t.
  apply list_elem_of_filter in Hin as [Hstd Hin]. simpl in Hstd.
  apply andb_true_iff in Hc as [[?%Z.ltb_lt _]%andb_true_iff _]. done.
Qed.

Lemma legacy_take_room (m : Z) guestsToSeat :
  0 < m → Z.of_nat (length (take (Z.to_nat m) guestsToSeat)) ≤ m.
Proof. intros Hm. rewrite length_take. lia. Qed.

Lemma legacy_drop_fuel (m : Z) guestsToSeat fuel :
  0 < m → guestsToSeat ≠ [] → (length guestsToSeat ≤ S fuel)%nat →
  (length (drop (Z.to_nat m) guestsToSeat) ≤ fuel)%nat.
Proof.
  intros Hm Hne Hlen. rewrite length_drop.
  destruct guestsToSeat; [done|]. simpl in *. lia.
Qed.

(** ** The loops *)

(** The loop of one group over the standard tables. *)
Lemma legacy_standardSeat_ok fuel tableCapacity group st guestsToSeat :
  1 ≤ tableCapacity → legacyOk st → (length guestsToSeat ≤ fuel)%nat →
  let st' := Legacy.standardSeat fuel tableCapacity group st guestsToSeat in
  legacyOk st'
  ∧ seated (Legacy.Seating.tableAssignments st')
      ≡ₚ seated (Legacy.Seating.tableAssignments st) ++ guestsToSeat
  ∧ (distinctIds (seated (Legacy.Seating.tableAssignments st) ++ guestsToSeat) →
     assignmentAgrees st → assignmentAgrees st').
Proof.
  intros Hcap. revert st guestsToSeat.
  induction fuel as [|fuel IH]; intros st gts Hok Hlen.
  { destruct gts; [|simpl in Hlen; lia]. simpl. by rewrite app_nil_r. }
  destruct gts as [|g0 rest]; [simpl; by rewrite app_nil_r|].
  set (gts := g0 :: rest) in *.
  assert (gts ≠ []) as Hne by done.
  assert (Legacy.standardSeat (S fuel) tableCapacity group st gts =
    let needed := Z.of_nat (length gts) in
    match Legacy.bestFit group needed (Legacy.Seating.tableAssignments st) with
    | Some bestFitTableId =>
        Legacy.seatAt (markFirst group gts) bestFitTableId gts st
    | None =>
        if needed <=? tableCapacity then
          Legacy.seatAt id (Legacy.Seating.tableCounter st) gts
                 (Legacy.openTable (newStandardTable group tableCapacity) st)
        else
          match Legacy.bestPartial group (Legacy.Seating.tableAssignments st) with
          | (Some bestPartialTableId, maxPartialSpace) =>
              let '(chunk, rest) := Legacy.spliceFront maxPartialSpace gts in
              Legacy.standardSeat fuel tableCapacity group
                (Legacy.seatAt (markFirst group chunk) bestPartialTableId chunk st) rest
          | (None, _) =>
              let '(chunk, rest) := Legacy.spliceFront tableCapacity gts in
              Legacy.standardSeat fuel tableCapacity group
                (Legacy.seatAt id (Legacy.Seating.tableCounter st) chunk
                        (Legacy.openTable (newStandardTable group tableCapacity) st))
                rest
          end
    end) as -> by reflexivity.
  cbv zeta.
  pose proof Hok as [[Hnd _] _].
  pose proof (legacy_openTable_ok (newStandardTable group tableCapacity) st Hok eq_refl)
    as (Hok1 & Hget1 & Hseated1 & Hagree1). cbv zeta in *.
  destruct (Legacy.bestFit _ _ _) as [k|] eqn:Hfit.
  { apply legacy_bestFit_spec in Hfit as (t & Hin & _ & Hroom).
    apply (legacy_seatAt_ok _ k t); [done|by apply dictGet_NoDup|done| |].
    - intros. apply guests_markFirst.
    - intros. apply capacity_markFirst. }
  destruct (Z.of_nat (length gts) <=? tableCapacity) eqn:Hwhole.
  { apply Z.leb_le in Hwhole.
    destruct (legacy_seatAt_ok id (Legacy.Seating.tableCounter st)
                (newStandardTable group tableCapacity) gts _ Hok1 Hget1)
      as (Hok2 & Hseated2 & Hagree2); [|done|done|].
    { unfold Legacy.spaceOf, newStandardTable.
      cbn [WorkingTable.capacity WorkingTable.guests].
      change (Z.of_nat (length (@nil Guest.t))) with 0. lia. }
    rewrite Hseated1 in *. split_and!; [done|done|]. auto. }
  apply Z.leb_gt in Hwhole.
  destruct (Legacy.bestPartial _ _) as [[k|] m] eqn:Hpartial.
  - apply legacy_bestPartial_spec in Hpartial as (t & Hin & _ & Hspace & Hm).
    unfold Legacy.spliceFront.
    set (chunk := take (Z.to_nat m) gts). set (left := drop (Z.to_nat m) gts).
    destruct (legacy_seatAt_ok (markFirst group chunk) k t chunk st Hok)
      as (Hok2 & Hseated2 & Hagree2).
    { by apply dictGet_NoDup. }
    { rewrite Hspace. by apply legacy_take_room. }
    { intros. apply guests_markFirst. }
    { intros. apply capacity_markFirst. }
    destruct (IH _ left Hok2) as (Hok3 & Hseated3 & Hagree3).
    { by apply legacy_drop_fuel. }
    assert (gts = chunk ++ left) as Hsplit by (symmetry; apply take_drop).
    split_and!; [done| |].
    + by rewrite Hseated3, Hseated2, <- (assoc (++)), <- Hsplit.
    + intros Hids Hagree. apply Hagree3.
      * eapply distinctIds_sub; [|exact Hids].
        by rewrite Hseated2, <- (assoc (++)), <- Hsplit.
      * apply Hagree2; [|done].
        eapply distinctIds_sub; [|exact Hids]. rewrite Hsplit, (assoc (++)).
        by apply submseteq_inserts_r.
  - clear Hpartial. unfold Legacy.spliceFront.
    set (chunk := take (Z.to_nat tableCapacity) gts).
    set (left := drop (Z.to_nat tableCapacity) gts).
    destruct (legacy_seatAt_ok id (Legacy.Seating.tableCounter st)
                (newStandardTable group tableCapacity) chunk _ Hok1 Hget1)
      as (Hok2 & Hseated2 & Hagree2); [|done|done|].
    { unfold Legacy.spaceOf, newStandardTable.
      cbn [WorkingTable.capacity WorkingTable.guests].
      change (Z.of_nat (length (@nil Guest.t))) with 0.
      rewrite Z.sub_0_r. apply legacy_take_room. lia. }
    rewrite Hseated1 in *.
    destruct (IH _ left Hok2) as (Hok3 & Hseated3 & Hagree3).
    { apply legacy_drop_fuel; [lia|done|done]. }
    assert (gts = chunk ++ left) as Hsplit by (symmetry; apply take_drop).
    split_and!; [done| |].
    + by rewrite Hseated3, Hseated2, <- (assoc (++)), <- Hsplit.
    + intros Hids Hagree. apply Hagree3.
      * eapply distinctIds_sub; [|exact Hids].
        by rewrite Hseated2, <- (assoc (++)), <- Hsplit.
      * apply Hagree2; [|auto].
        eapply distinctIds_sub; [|exact Hids]. rewrite Hsplit, (assoc (++)).
        by apply submseteq_inserts_r.
Qed.


(** The loop of one candidate group over the knight tables: what does
    not fit goes back to [processedGroups]. *)
Lemma legacy_knightSeat_ok fuel count group st processedGroups guestsToSeat :
  legacyOk st → (length guestsToSeat ≤ fuel)%nat →
  let r := Legacy.knightSeat fuel count group st processedGroups guestsToSeat in
  legacyOk r.1
  ∧ seated (Legacy.Seating.tableAssignments r.1) ++ poolGuests r.2
      ≡ₚ seated (Legacy.Seating.tableAssignments st)
           ++ poolGuests processedGroups ++ guestsToSeat
  ∧ (distinctIds (seated (Legacy.Seating.tableAssignments st) ++ guestsToSeat) →
     assignmentAgrees st → assignmentAgrees r.1).
Proof.
  revert st guestsToSeat.
  assert (∀ st gts,
    seated (Legacy.Seating.tableAssignments st)
      ++ poolGuests (processedGroups ++ [Legacy.leftoverGroup group gts])
    ≡ₚ seated (Legacy.Seating.tableAssignments st) ++ poolGuests processedGroups ++ gts)
    as Hpush.
  { intros. rewrite poolGuests_app. unfold poolGuests at 2. csimpl.
    by rewrite app_nil_r. }
  induction fuel as [|fuel IH]; intros st gts Hok Hlen.
  { destruct gts; [|simpl in Hlen; lia]. simpl. by rewrite !app_nil_r. }
  destruct gts as [|g0 rest]; [simpl; by rewrite !app_nil_r|].
  set (gts := g0 :: rest) in *.
  assert (gts ≠ []) as Hne by done.
  assert (Legacy.knightSeat (S fuel) count group st processedGroups gts =
    match Legacy.knightBest count (Legacy.Seating.tableAssignments st) with
    | (Some bestTableId, maxSpace) =>
        if 0 <? maxSpace then
          let '(chunk, rest) := Legacy.spliceFront maxSpace gts in
          Legacy.knightSeat fuel count group
            (Legacy.seatAt (markFirst group chunk) bestTableId chunk st)
            processedGroups rest
        else (st, processedGroups ++ [Legacy.leftoverGroup group gts])
    | (None, _) => (st, processedGroups ++ [Legacy.leftoverGroup group gts])
    end) as -> by reflexivity.
  destruct (Legacy.knightBest _ _) as [[k|] m] eqn:Hbest;
    [|cbn [fst snd]; split_and!; [done|apply Hpush|by intros]].
  destruct (0 <? m) eqn:Hm;
    [|cbn [fst snd]; split_and!; [done|apply Hpush|by intros]].
  apply Z.ltb_lt in Hm.
  apply legacy_knightBest_spec in Hbest as (t & Hget & Hspace & _).
  unfold Legacy.spliceFront.
  set (chunk := take (Z.to_nat m) gts). set (left := drop (Z.to_nat m) gts).
  destruct (legacy_seatAt_ok (markFirst group chunk) k t chunk st Hok Hget)
    as (Hok2 & Hseated2 & Hagree2).
  { rewrite Hspace. by apply legacy_take_room. }
  { intros. apply guests_markFirst. }
  { intros. apply capacity_markFirst. }
  destruct (IH _ left Hok2) as (Hok3 & Hseated3 & Hagree3).
  { by apply legacy_drop_fuel. }
  assert (gts = chunk ++ left) as Hsplit by (symmetry; apply take_drop).
  split_and!; [done| |].
  - rewrite Hseated3, Hseated2, Hsplit, <- !(assoc (++)).
    apply Permutation_app_head. rewrite !(assoc (++)).
    apply Permutation_app_tail, (comm (++)).
  - intros Hids Hagree. apply Hagree3.
    + eapply distinctIds_sub; [|exact Hids].
      by rewrite Hseated2, <- (assoc (++)), <- Hsplit.
    + apply Hagree2; [|done].
      eapply distinctIds_sub; [|exact Hids]. rewrite Hsplit, (assoc (++)).
      by apply submseteq_inserts_r.
Qed.

(** ** The phases *)

Lemma legacy_knightGroups_ok count everyone candidates acc :
  legacyOk acc.1 →
  seated (Legacy.Seating.tableAssignments acc.1) ++ poolGuests acc.2
    ++ poolGuests candidates ≡ₚ everyone →
  (distinctIds everyone → assignmentAgrees acc.1) →
  let r := foldl (Legacy.knightGroup count) acc candidates in
  legacyOk r.1
  ∧ seated (Legacy.Seating.tableAssignments r.1) ++ poolGuests r.2 ≡ₚ everyone
  ∧ (distinctIds everyone → assignmentAgrees r.1).
Proof.
  revert acc. induction candidates as [|group groups IH]; intros acc Hok Hall Hagree.
  { simpl. unfold poolGuests at 2 in Hall. csimpl in Hall.
    by rewrite app_nil_r in Hall. }
  cbn [foldl]. rewrite poolGuests_cons in Hall.
  destruct (legacy_knightSeat_ok (length (GuestGroup.guests group)) count group
              acc.1 acc.2 (GuestGroup.guests group) Hok ltac:(done))
    as (Hok' & Hseated' & Hagree').
  apply IH; [done| |].
  - unfold Legacy.knightGroup. rewrite (assoc (++)), Hseated', <- Hall.
    rewrite <- !(assoc (++)). by do 2 apply Permutation_app_head.
  - intros Hids. apply Hagree'; [|auto].
    eapply distinctIds_sub; [|exact Hids]. rewrite <- Hall.
    rewrite !(assoc (++)). apply submseteq_inserts_r.
    rewrite <- (assoc (++)). apply submseteq_app; [done|].
    by apply submseteq_inserts_l.
Qed.

Lemma legacy_knightPhase_ok knightConfig processedGroups :
  let r := Legacy.knightPhase knightConfig processedGroups in
  legacyOk r.1
  ∧ seated (Legacy.Seating.tableAssignments r.1) ++ poolGuests r.2
      ≡ₚ poolGuests processedGroups
  ∧ (distinctIds (poolGuests processedGroups) → assignmentAgrees r.1).
Proof.
  unfold Legacy.knightPhase.
  destruct (KnightConfig.enabled knightConfig && (0 <? KnightConfig.count knightConfig)).
  2:{ split_and!; [|done|].
      - split; [split; [constructor|by intros ? ?%elem_of_nil]|constructor].
      - intros _. split; [done|]. by intros ? ? ? ?%elem_of_nil. }
  pose proof (selectKnightCandidates_guests processedGroups) as Hsel.
  destruct (selectKnightCandidates processedGroups) as [cands pool]. simpl in Hsel.
  set (count := Z.to_nat (KnightConfig.count knightConfig)).
  set (capacity := KnightConfig.capacity knightConfig).
  apply legacy_knightGroups_ok.
  - apply initKnightTables_ok. unfold headcountOk. simpl. lia.
  - cbn [fst snd Legacy.Seating.tableAssignments].
    rewrite seated_initKnightTables. simpl.
    assert (poolGuests (jsSort bySizeDesc cands) ≡ₚ poolGuests cands) as ->.
    { unfold poolGuests. by rewrite jsSort_perm. }
    by rewrite (comm (++)).
  - intros _. split; cbn [fst Legacy.Seating.tableAssignments Legacy.Seating.assignment].
    + by rewrite seated_initKnightTables.
    + intros k t g Hin Hg. rewrite initKnightTables_eq in Hin.
      apply list_elem_of_fmap in Hin as (i & [= -> ->] & _).
      by apply elem_of_nil in Hg.
Qed.

Lemma legacy_standardPhase_ok tableCapacity everyone st processedGroups :
  1 ≤ tableCapacity → legacyOk st →
  seated (Legacy.Seating.tableAssignments st) ++ poolGuests processedGroups ≡ₚ everyone →
  (distinctIds everyone → assignmentAgrees st) →
  let st' := Legacy.standardPhase tableCapacity st processedGroups in
  legacyOk st'
  ∧ seated (Legacy.Seating.tableAssignments st') ≡ₚ everyone
  ∧ (distinctIds everyone → assignmentAgrees st').
Proof.
  intros Hcap Hok Hall Hagree. unfold Legacy.standardPhase.
  assert (poolGuests processedGroups ≡ₚ poolGuests (jsSort bySizeDesc processedGroups))
    as Hsort.
  { unfold poolGuests. by rewrite jsSort_perm. }
  rewrite Hsort in Hall. clear Hsort.
  revert st Hok Hall Hagree.
  induction (jsSort bySizeDesc processedGroups) as [|group groups IH];
    intros st Hok Hall Hagree.
  { simpl. unfold poolGuests in Hall. csimpl in Hall.
    by rewrite app_nil_r in Hall. }
  cbn [foldl]. rewrite poolGuests_cons in Hall.
  destruct (legacy_standardSeat_ok (length (GuestGroup.guests group)) tableCapacity group
              st (GuestGroup.guests group) Hcap Hok ltac:(done))
    as (Hok' & Hseated' & Hagree').
  apply IH; [done| |].
  - unfold Legacy.standardGroup. by rewrite Hseated', <- (assoc (++)).
  - intros Hids. apply Hagree'; [|auto].
    eapply distinctIds_sub; [|exact Hids]. rewrite <- Hall, (assoc (++)).
    by apply submseteq_inserts_r.
Qed.

Lemma legacy_classify_guests names groups :
  poolGuests (Legacy.classify names <$> groups) = poolGuests groups.
Proof.
  unfold poolGuests. induction groups as [|g groups IH]; csimpl; [done|].
  by rewrite IH.
Qed.

Lemma legacy_optimizeSeating_spec guests config :
  Legacy.optimizeSeating guests config
  = if decide (ownGroupKeys guests) then Resolved (Legacy.seatingResult guests config)
    else Rejected TypeError.
Proof.
  unfold Legacy.optimizeSeating. rewrite groupGuestsByRelationship_spec.
  case_decide; [|done]. f_equal.
  unfold Legacy.seating, Legacy.seatingResult, Legacy.afterStandard, Legacy.afterKnights,
         Legacy.classifiedGroups.
  by destruct (Legacy.knightPhase _ _) as [st pool].
Qed.

Lemma legacy_afterStandard_ok guests config :
  1 ≤ tableCapacityOf config →
  let st := Legacy.afterStandard guests config in
  legacyOk st
  ∧ seated (Legacy.Seating.tableAssignments st)
      ≡ₚ poolGuests (grouped guests)
  ∧ (distinctIds guests → assignmentAgrees st).
Proof.
  intros Hcap. unfold Legacy.afterStandard, Legacy.afterKnights.
  pose proof (legacy_knightPhase_ok (knightConfigOf config)
                (Legacy.classifiedGroups guests config)) as (Hok & Hall & Hagree).
  destruct (Legacy.knightPhase _ _) as [st pool]. simpl in Hok, Hall, Hagree.
  unfold Legacy.classifiedGroups in Hall, Hagree.
  rewrite legacy_classify_guests in Hall, Hagree.
  destruct (legacy_standardPhase_ok (tableCapacityOf config)
              (poolGuests (grouped guests)) st pool Hcap Hok Hall Hagree)
    as (Hok' & Hall' & Hagree').
  split_and!; [done|done|].
  intros Hids. apply Hagree'.
  eapply distinctIds_sub; [|exact Hids]. apply grouped_guests.
Qed.

End LegacyFacts.

(** ** What the previous revision returns *)

(** X20. The previous revision seats every guest exactly once.  For guests
    with distinct ids whose group ids are ASCII text, whose group keys are
    no property that objects inherit and do not collide with the keys made
    up for ungrouped guests, and a table capacity of 1 or more, the promise
    resolves and the members of the returned tables are the input guests,
    each once.  The knight phase is included: what the knight tables cannot
    take goes back to the pool and is seated at standard tables.  The
    turns given to each loop are therefore enough: a loop cut short would
    leave its guests out. *)
Theorem previous_revision_seats_every_guest guests config :
  distinctIds guests → asciiGroupIds guests → ownGroupKeys guests →
  noKeyCollision guests → 1 ≤ tableCapacityOf config →
  ∃ result, Legacy.optimizeSeating guests config = Resolved result
    ∧ Legacy.Result.tables result ≫= OptimizedTable.guests ≡ₚ guests.
Proof.
  intros Hids _ Hown Hfree Hcap.
  exists (Legacy.seatingResult guests config). split.
  { by rewrite legacy_optimizeSeating_spec, decide_True. }
  destruct (legacy_afterStandard_ok guests config Hcap) as (_ & Hseated & _).
  unfold Legacy.seatingResult. cbn [Legacy.Result.tables].
  rewrite resultTables_guests, Hseated.
  by apply grouped_exact.
Qed.

Lemma previous_revision_seats_every_guest_witness :
  distinctIds sixFriends ∧ asciiGroupIds sixFriends ∧ ownGroupKeys sixFriends
  ∧ noKeyCollision sixFriends ∧ 1 ≤ tableCapacityOf oneKnightTableOfFour
  ∧ ∃ result, Legacy.optimizeSeating sixFriends oneKnightTableOfFour = Resolved result
      ∧ Legacy.Result.tables result ≫= OptimizedTable.guests ≡ₚ sixFriends.
Proof.
  assert (distinctIds sixFriends) as Hids
    by (unfold distinctIds; apply (bool_decide_unpack _); by vm_compute).
  assert (asciiGroupIds sixFriends) as Hascii by (by repeat constructor).
  assert (ownGroupKeys sixFriends) as Hown
    by (apply (bool_decide_unpack _); by vm_compute).
  assert (noKeyCollision sixFriends) as Hfree.
  { intros g g' key _ Hg' _ Hnone. exfalso. unfold sixFriends in Hg'.
    apply list_elem_of_fmap in Hg' as (id & -> & _). discriminate Hnone. }
  assert (1 ≤ tableCapacityOf oneKnightTableOfFour) as Hcap by (vm_compute; discriminate).
  split_and!; [exact Hids|exact Hascii|exact Hown|exact Hfree|exact Hcap|].
  apply (previous_revision_seats_every_guest sixFriends oneKnightTableOfFour
           Hids Hascii Hown Hfree Hcap).
Defined.

(** X21. The previous revision counts heads: with a table capacity of 1
    or more, no returned table lists more guests than its capacity (none
    at all where the capacity is negative), whatever the guests'
    [amount], and no two returned tables share an id. *)
Theorem previous_revision_counts_heads guests config :
  1 ≤ tableCapacityOf config →
  Forall (λ table, Z.of_nat (length (OptimizedTable.guests table))
                     ≤ Z.max 0 (OptimizedTable.capacity table))
         (Legacy.Result.tables (Legacy.seatingResult guests config))
  ∧ NoDup (OptimizedTable.id <$> Legacy.Result.tables (Legacy.seatingResult guests config)).
Proof.
  intros Hcap.
  destruct (legacy_afterStandard_ok guests config Hcap) as ([[Hnd _] Hall] & _ & _).
  unfold Legacy.seatingResult. cbn [Legacy.Result.tables]. split.
  - apply Forall_fmap. eapply Forall_impl; [exact Hall|]. by intros [k t].
  - rewrite <- list_fmap_compose.
    assert (OptimizedTable.id ∘ resultTable
            = tableName ∘ (fst : nat * WorkingTable.t → nat)) as -> by done.
    rewrite list_fmap_compose. by apply (NoDup_fmap_2 _).
Qed.

Lemma previous_revision_counts_heads_witness :
  1 ≤ tableCapacityOf oneKnightTableOfFour
  ∧ Forall (λ table, Z.of_nat (length (OptimizedTable.guests table))
                       ≤ Z.max 0 (OptimizedTable.capacity table))
           (Legacy.Result.tables (Legacy.seatingResult sixFriends oneKnightTableOfFour))
  ∧ NoDup (OptimizedTable.id
             <$> Legacy.Result.tables (Legacy.seatingResult sixFriends oneKnightTableOfFour)).
Proof.
  assert (1 ≤ tableCapacityOf oneKnightTableOfFour) as Hcap by (vm_compute; discriminate).
  split; [exact Hcap|].
  apply (previous_revision_counts_heads sixFriends oneKnightTableOfFour Hcap).
Defined.



(** X23. The previous revision needs a table capacity of 1 or more.  With
    a capacity of 0 or less, and no standard table with room left, a turn
    of the standard loop opens an empty table and takes nobody out of
    [guestsToSeat]: after any number of turns the state is the one the
    loop started from plus one empty table for each turn, so the loop of
    the source never ends. *)
Theorem previous_revision_needs_a_table_capacity fuel tableCapacity group st guestsToSeat :
  tableCapacity ≤ 0 → guestsToSeat ≠ [] →
  wfTables (Legacy.Seating.tableAssignments st) (Legacy.Seating.tableCounter st) →
  Forall (λ e, WorkingTable.isKnight e.2 = false → Legacy.spaceOf e.2 ≤ 0)
         (Legacy.Seating.tableAssignments st) →
  Legacy.standardSeat fuel tableCapacity group st guestsToSeat
  = Legacy.Seating.mk
      (Legacy.Seating.tableAssignments st
         ++ ((λ n, (n, newStandardTable group tableCapacity))
               <$> seq (Legacy.Seating.tableCounter st) fuel))
      (Legacy.Seating.tableCounter st + fuel)
      (Legacy.Seating.assignment st).
Proof.
  intros Hcap Hne. revert st.
  induction fuel as [|fuel IH]; intros [ta c assignment] Hwf Hfull; simpl in Hwf, Hfull.
  { destruct guestsToSeat; simpl; by rewrite app_nil_r, Nat.add_0_r. }
  destruct guestsToSeat as [|g0 rest]; [done|].
  set (gts := g0 :: rest) in *.
  assert (1 ≤ Z.of_nat (length gts)) as Hneeded by (simpl; lia).
  cbn [Legacy.standardSeat]. fold gts. cbv zeta.
  cbn [Legacy.Seating.tableAssignments Legacy.Seating.tableCounter
       Legacy.Seating.assignment].
  destruct (Legacy.bestFit _ _ _) as [k|] eqn:Hfit.
  { apply legacy_bestFit_spec in Hfit as (t & Hin & Hstd & Hroom).
    rewrite Forall_forall in Hfull. specialize (Hfull _ Hin Hstd).
    cbn [snd] in Hfull. lia. }
  destruct (Z.of_nat (length gts) <=? tableCapacity) eqn:Hwhole;
    [apply Z.leb_le in Hwhole; lia|].
  destruct (Legacy.bestPartial _ _) as [[k|] m] eqn:Hpartial.
  { apply legacy_bestPartial_spec in Hpartial as (t & Hin & Hstd & Hspace & Hm).
    rewrite Forall_forall in Hfull. specialize (Hfull _ Hin Hstd).
    cbn [snd] in Hfull. lia. }
  unfold Legacy.spliceFront.
  assert (Z.to_nat tableCapacity = 0%nat) as -> by lia.
  rewrite take_0, drop_0.
  pose proof (wfTables_fresh _ _ Hwf) as Hfresh.
  unfold Legacy.seatAt, Legacy.openTable.
  cbn [Legacy.Seating.tableAssignments Legacy.Seating.tableCounter
       Legacy.Seating.assignment Legacy.assign foldl].
  rewrite dictAlter_dictSet_fresh by done.
  rewrite IH; cbn [Legacy.Seating.tableAssignments Legacy.Seating.tableCounter
                   Legacy.Seating.assignment].
  - subst gts. cbv iota. by rewrite <- (assoc (++)), Nat.add_succ_r.
  - destruct Hwf as [Hnd Hlt]. unfold wfTables. rewrite fmap_app. csimpl. split.
    + apply NoDup_app. split_and!; [done| |apply NoDup_singleton].
      intros k Hk ->%list_elem_of_singleton. done.
    + intros k [Hk| ->%list_elem_of_singleton]%elem_of_app; [apply Hlt in Hk|]; lia.
  - apply Forall_app. split; [done|]. repeat constructor.
    intros _. unfold Legacy.spaceOf. simpl. lia.
Qed.

Lemma previous_revision_needs_a_table_capacity_witness :
  0 ≤ 0 ∧ sixFriends ≠ []
  ∧ wfTables (Legacy.Seating.tableAssignments noTables)
             (Legacy.Seating.tableCounter noTables)
  ∧ Forall (λ e, WorkingTable.isKnight e.2 = false → Legacy.spaceOf e.2 ≤ 0)
           (Legacy.Seating.tableAssignments noTables)
  ∧ Legacy.standardSeat 3 0 pals noTables sixFriends
    = Legacy.Seating.mk
        ((λ n, (n, newStandardTable pals 0)) <$> [0; 1; 2]%nat) 3 [].
Proof.
  assert (0 ≤ 0) as Hcap by lia.
  assert (sixFriends ≠ []) as Hne by done.
  assert (wfTables (Legacy.Seating.tableAssignments noTables)
                   (Legacy.Seating.tableCounter noTables)) as Hwf
    by (split; [apply NoDup_nil_2|by intros k ?%elem_of_nil]).
  assert (Forall (λ e, WorkingTable.isKnight e.2 = false → Legacy.spaceOf e.2 ≤ 0)
                 (Legacy.Seating.tableAssignments noTables)) as Hfull
    by apply Forall_nil_2.
  split_and!; [exact Hcap|exact Hne|exact Hwf|exact Hfull|].
  apply (previous_revision_needs_a_table_capacity 3 0 pals noTables sixFriends
           Hcap Hne Hwf Hfull).
Defined.

(** * A group named after an inherited property *)

(** X24. A group named after a property that objects inherit stops the
    run.  When the first guest's [groupId] is [constructor] (here with
    spaces around it, which [trim] removes), [groups[key]] is the inherited
    function and the call of [push] throws: the grouping returns no group,
    whatever guests follow, and both revisions of [optimizeSeating] reject
    their promise with the [TypeError], whatever the configuration. *)
Theorem inherited_group_key_rejects_the_run (guests : list Guest.t)
    (config : OptimizationConfig.t) :
  let guest := guestOf "a" family groom (Some " constructor ") None in
  groupGuestsByRelationship (guest :: guests) = inl TypeError
  ∧ optimizeSeating (guest :: guests) config = Rejected TypeError
  ∧ Legacy.optimizeSeating (guest :: guests) config = Rejected TypeError.
Proof.
  intros guest.
  assert (¬ ownGroupKeys (guest :: guests)) as Hthrows.
  { intros [Hown _]%Forall_cons. by apply Hown; vm_compute; left. }
  rewrite groupGuestsByRelationship_spec, optimizeSeating_spec,
    legacy_optimizeSeating_spec.
  by rewrite !decide_False by done.
Qed.
